(** * Number_smash: the grid engines of three tile games

    A shallow embedding of the grid logic of
    - [cute_number_crush.py] (module [Crush]): run matching, swap trial,
      cascade resolution;
    - [number_smash.py] (module [Smash]): connectivity matching with refill;
    - [number_stack.py] (module [Stack]): connectivity matching on a stack
      of fallen numbers.

    Python integers are [Z]; sizes and [range] counters are [nat]; a Python
    list is a [list], indexed the way Python indexes (negative indices wrap,
    anything else out of range raises [IndexError]); [None] is [None].  The
    [random] module is an explicit source of draws that the code consumes
    one at a time.  Rendering, fonts and message strings are left out; the
    clock and the mouse enter as the readings and positions that pygame
    hands to the code. *)

From stdpp Require Import base decidable option numbers list gmap sets.

Set Default Proof Using "Type".
Local Open Scope Z_scope.

(** ** Outcomes of running Python code *)

Inductive exn : Set := IndexError | AttributeError | ValueError.

(** [OutOfFuel] is the outcome of a loop that was still running when the
    step budget given to the model ran out. *)
Inductive result (A : Type) : Type :=
| Ok (a : A)
| Raise (e : exn)
| OutOfFuel.
Arguments Ok {A} a.
Arguments Raise {A} e.
Arguments OutOfFuel {A}.

#[global] Instance result_ret : MRet result := fun _ a => Ok a.
#[global] Instance result_bind : MBind result := fun _ _ f m =>
  match m with
  | Ok a => f a
  | Raise e => Raise e
  | OutOfFuel => OutOfFuel
  end.

(** [for x in xs: s = body x s] *)
Fixpoint for_each {A S : Type} (xs : list A) (body : A → S → result S) (s : S)
  : result S :=
  match xs with
  | [] => Ok s
  | x :: xs' => s' ← body x s; for_each xs' body s'
  end.

(** [range(n)] and [range(n - 1, -1, -1)] *)
Definition range (n : nat) : list nat := seq 0 n.
Definition range_down (n : nat) : list nat := reverse (seq 0 n).

(** ** Python list indexing *)

Definition py_index (len : nat) (i : Z) : option nat :=
  if decide (0 ≤ i < Z.of_nat len) then Some (Z.to_nat i)
  else if decide (- Z.of_nat len ≤ i < 0) then Some (Z.to_nat (Z.of_nat len + i))
  else None.

(** [l[i]] *)
Definition getitem {A : Type} (l : list A) (i : Z) : result A :=
  match py_index (length l) i with
  | Some n => match l !! n with Some x => Ok x | None => Raise IndexError end
  | None => Raise IndexError
  end.

(** [l[i] = x] *)
Definition setitem {A : Type} (l : list A) (i : Z) (x : A) : result (list A) :=
  match py_index (length l) i with
  | Some n => Ok (<[n:=x]> l)
  | None => Raise IndexError
  end.

(** [g[r][c]] and [g[r][c] = x] on a list of rows *)
Definition getitem2 {A : Type} (g : list (list A)) (r c : Z) : result A :=
  row ← getitem g r; getitem row c.

Definition setitem2 {A : Type} (g : list (list A)) (r c : Z) (x : A)
  : result (list (list A)) :=
  row ← getitem g r; row' ← setitem row c x; setitem g r row'.

(** ** The random module

    A source is the infinite sequence of raw draws still to come;
    [random.choice] and [random.randint] each consume the first one and
    reduce it to the range asked for. *)

Definition RandomSource : Type := nat → nat.

Definition next (g : RandomSource) : RandomSource := fun i => g (S i).

Definition random_choice {A : Type} (l : list A) (g : RandomSource)
  : result (A * RandomSource) :=
  match l !! (g 0%nat mod length l)%nat with
  | Some x => Ok (x, next g)
  | None => Raise IndexError
  end.

Definition random_randint (a b : Z) (g : RandomSource)
  : result (Z * RandomSource) :=
  if decide (a ≤ b) then Ok (a + Z.of_nat (g 0%nat) mod (b - a + 1), next g)
  else Raise ValueError.

(** ** pygame rectangles

    [pygame.Rect(x, y, w, h).collidepoint(px, py)], for a rectangle whose
    width and height are not negative: a point on the right or on the
    bottom edge of the rectangle is outside it. *)

Definition collidepoint (x y w h px py : Z) : bool :=
  bool_decide (x ≤ px < x + w ∧ y ≤ py < y + h).

(** ** Integer division

    [a // b] and [a % b] on Python integers are [Z.div] and [Z.modulo],
    which round the same way, except that Python raises
    [ZeroDivisionError] on a zero divisor.  Only the code that turns a
    pixel into a cell divides; [arith] is the outcome of such code. *)

Inductive arith (A : Type) : Type :=
| Num (a : A)
| ZeroDivisionError.
Arguments Num {A} a.
Arguments ZeroDivisionError {A}.

(** ** The breadth-first loop of [flood_group] and [find_group]

    Both games run the same loop; [nrows], [ncols] are the bounds that
    [in_bounds] checks and [value_at r c] reads the value of [grid[r][c]]
    ([None] for an empty cell). *)

Section Bfs.
Context (nrows ncols : nat) (value_at : Z → Z → result (option Z)).

Definition in_bounds (r c : Z) : Prop :=
  0 ≤ r < Z.of_nat nrows ∧ 0 ≤ c < Z.of_nat ncols.

Definition DIRS : list (Z * Z) := [(1, 0); (-1, 0); (0, 1); (0, -1)].

(** [[[False]*cols for _ in range(rows)]] *)
Definition new_visited : list (list bool) := replicate nrows (replicate ncols false).

(** Body of [for dr, dc in ...] for the cell [(r, c)] taken from the queue. *)
Definition visit (target : Z) (r c : Z) (d : Z * Z)
    (st : list (Z * Z) * list (list bool) * list (Z * Z))
  : result (list (Z * Z) * list (list bool) * list (Z * Z)) :=
  let '(q, visited, group) := st in
  let '(dr, dc) := d in
  let nr := r + dr in
  let nc := c + dc in
  if decide (in_bounds nr nc) then
    seen ← getitem2 visited nr nc;
    if negb seen then
      v ← value_at nr nc;
      if decide (v = Some target) then
        visited' ← setitem2 visited nr nc true;
        Ok (q ++ [(nr, nc)], visited', group ++ [(nr, nc)])
      else Ok st
    else Ok st
  else Ok st.

(** [while q: r, c = q.popleft(); ...] *)
Fixpoint bfs_loop (fuel : nat) (target : Z)
    (st : list (Z * Z) * list (list bool) * list (Z * Z))
  : result (list (Z * Z)) :=
  let '(q, visited, group) := st in
  match q with
  | [] => Ok group
  | (r, c) :: q' =>
      match fuel with
      | O => OutOfFuel
      | S fuel' =>
          st' ← for_each DIRS (visit target r c) (q', visited, group);
          bfs_loop fuel' target st'
      end
  end.

(** From [visited = ...] to [return group].  Every cell enters the queue
    at most once, so [nrows * ncols] turns of the loop are enough. *)
Definition bfs (target : Z) (start_r start_c : Z) : result (list (Z * Z)) :=
  let visited := new_visited in
  let q := [(start_r, start_c)] in
  visited ← setitem2 visited start_r start_c true;
  let group := [(start_r, start_c)] in
  bfs_loop (nrows * ncols) target (q, visited, group).
End Bfs.

(** * cute_number_crush.py *)

Module Crush.

Definition TILE_TYPES : list Z := [0; 1; 2; 3; 4; 5].
Definition SWAP_ANIM_FRAMES : Z := 12.
Definition BASE_SCORE_PER_TILE : Z := 10.

Record Tile : Set := mkTile { type : Z; pop_timer : Z; falling : bool }.

(** [Tile(type_id)] *)
Definition new_Tile (type_id : Z) : Tile := mkTile type_id 0 false.

Record Board : Type := mkBoard {
  rows : nat;
  cols : nat;
  grid : list (list (option Tile))
}.

Definition set_grid (b : Board) (g : list (list (option Tile))) : Board :=
  mkBoard (rows b) (cols b) g.

(** [x.type] for a grid entry [x], which may be [None] *)
Definition attr_type (x : option Tile) : result Z :=
  match x with
  | Some t => Ok (type t)
  | None => Raise AttributeError
  end.

(** [self.grid[r][c].type] *)
Definition type_at (b : Board) (r c : Z) : result Z :=
  x ← getitem2 (grid b) r c; attr_type x.

(** [Board.get] *)
Definition get (b : Board) (r c : Z) : result (option Tile) :=
  if decide (0 ≤ r < Z.of_nat (rows b) ∧ 0 ≤ c < Z.of_nat (cols b))
  then getitem2 (grid b) r c
  else Ok None.

(** [Board.swap]: both sides of the tuple assignment are read before either
    target is written. *)
Definition swap (b : Board) (r1 c1 r2 c2 : Z) : result Board :=
  x2 ← getitem2 (grid b) r2 c2;
  x1 ← getitem2 (grid b) r1 c1;
  g1 ← setitem2 (grid b) r1 c1 x2;
  g2 ← setitem2 g1 r2 c2 x1;
  Ok (set_grid b g2).

(** *** [Board.find_matches]

    The row scan and the column scan are the same two nested [while] loops
    run along a line of the grid: [ty i] reads the type of the [i]-th cell
    of the line, [coord i] is its coordinate and [bound] the length of the
    line. *)

(** [while c < bound and ty(c) == t: c += 1], with [k = bound - c]. *)
Fixpoint run_end (ty : nat → result Z) (t : Z) (c k : nat) : result nat :=
  match k with
  | O => Ok c
  | S k' =>
      t' ← ty c;
      if decide (t' = t) then run_end ty t (S c) k' else Ok c
  end.

(** [for cc in range(start, c): to_remove.add(coord cc)] *)
Definition add_range (coord : nat → Z * Z) (start c : nat)
    (to_remove : gset (Z * Z)) : gset (Z * Z) :=
  foldl (fun s cc => s ∪ {[coord cc]}) to_remove (seq start (c - start)).

(** The outer [while c < bound] loop. *)
Fixpoint scan_line (ty : nat → result Z) (coord : nat → Z * Z) (bound : nat)
    (fuel c : nat) (to_remove : gset (Z * Z)) : result (gset (Z * Z)) :=
  if decide (c < bound)%nat then
    match fuel with
    | O => OutOfFuel
    | S fuel' =>
        let start := c in
        t ← ty c;
        c ← run_end ty t (S c) (bound - S c);
        let length := (c - start)%nat in
        let to_remove :=
          if decide (3 ≤ length)%nat then add_range coord start c to_remove
          else to_remove in
        scan_line ty coord bound fuel' c to_remove
    end
  else Ok to_remove.

Definition find_matches (b : Board) : result (gset (Z * Z)) :=
  (* horizontal *)
  to_remove ← for_each (range (rows b)) (fun r to_remove =>
    scan_line (fun c => type_at b (Z.of_nat r) (Z.of_nat c))
              (fun c => (Z.of_nat r, Z.of_nat c))
              (cols b) (cols b) 0%nat to_remove) ∅;
  (* vertical *)
  for_each (range (cols b)) (fun c to_remove =>
    scan_line (fun r => type_at b (Z.of_nat r) (Z.of_nat c))
              (fun r => (Z.of_nat r, Z.of_nat c))
              (rows b) (rows b) 0%nat to_remove) to_remove.

(** *** [Board._is_match_at]

    The two counting loops, again along a line of the grid. *)

(** [while cc >= 0 and ty(cc) == t: count += 1; cc -= 1], with [k = cc + 1]. *)
Fixpoint count_back (ty : nat → result Z) (t : Z) (k count : nat) : result nat :=
  match k with
  | O => Ok count
  | S cc =>
      t' ← ty cc;
      if decide (t' = t) then count_back ty t cc (S count) else Ok count
  end.

(** [while cc < bound and ty(cc) == t: count += 1; cc += 1], with
    [k = bound - cc]. *)
Fixpoint count_forth (ty : nat → result Z) (t : Z) (cc k count : nat)
  : result nat :=
  match k with
  | O => Ok count
  | S k' =>
      t' ← ty cc;
      if decide (t' = t) then count_forth ty t (S cc) k' (S count) else Ok count
  end.

Definition line_count (ty : nat → result Z) (t : Z) (c bound : nat) : result nat :=
  count ← count_back ty t c 1%nat;
  count_forth ty t (S c) (bound - S c) count.

Definition _is_match_at (b : Board) (r c : nat) : result bool :=
  t ← type_at b (Z.of_nat r) (Z.of_nat c);
  (* horizontal *)
  count ← line_count (fun cc => type_at b (Z.of_nat r) (Z.of_nat cc)) t c (cols b);
  if decide (3 ≤ count)%nat then Ok true
  else
    (* vertical *)
    count ← line_count (fun rr => type_at b (Z.of_nat rr) (Z.of_nat c)) t r (rows b);
    Ok (bool_decide (3 ≤ count)%nat).

(** *** [Board._remove_initial_matches] and [Board.__init__] *)

(** The [while True] loop at one cell. *)
Fixpoint reroll (fuel : nat) (b : Board) (r c : nat) (rnd : RandomSource)
  : result (Board * RandomSource) :=
  match fuel with
  | O => OutOfFuel
  | S fuel' =>
      m ← _is_match_at b r c;
      if (m : bool) then
        '(t, rnd') ← random_choice TILE_TYPES rnd;
        g ← setitem2 (grid b) (Z.of_nat r) (Z.of_nat c) (Some (new_Tile t));
        reroll fuel' (set_grid b g) r c rnd'
      else Ok (b, rnd)
  end.

Definition _remove_initial_matches (fuel : nat) (b : Board) (rnd : RandomSource)
  : result (Board * RandomSource) :=
  for_each (range (rows b)) (fun r st =>
    for_each (range (cols b)) (fun c '(b, rnd) => reroll fuel b r c rnd) st)
    (b, rnd).

(** [[gen() for _ in range(n)]] *)
Fixpoint list_comp {A : Type} (n : nat)
    (gen : RandomSource → result (A * RandomSource)) (rnd : RandomSource)
  : result (list A * RandomSource) :=
  match n with
  | O => Ok ([], rnd)
  | S n' =>
      '(x, rnd1) ← gen rnd;
      '(xs, rnd2) ← list_comp n' gen rnd1;
      Ok (x :: xs, rnd2)
  end.

(** [Tile(random.choice(TILE_TYPES))] *)
Definition random_tile (rnd : RandomSource) : result (option Tile * RandomSource) :=
  '(t, rnd') ← random_choice TILE_TYPES rnd; Ok (Some (new_Tile t), rnd').

(** [Board(rows, cols)] *)
Definition Board_init (fuel rows cols : nat) (rnd : RandomSource)
  : result (Board * RandomSource) :=
  '(g, rnd1) ← list_comp rows (list_comp cols random_tile) rnd;
  _remove_initial_matches fuel (mkBoard rows cols g) rnd1.

(** *** [Board.remove_and_collapse] *)

(** First loop: mark the removed positions with [None].  A Python set is
    iterated in an order of its own; the marking does not depend on it. *)
Definition mark_removed (g : list (list (option Tile))) (remove_coords : gset (Z * Z))
  : result (list (list (option Tile)) * Z) :=
  for_each (elements remove_coords) (fun '(r, c) '(g, removed) =>
    x ← getitem2 g r c;
    match x with
    | Some _ => g' ← setitem2 g r c None; Ok (g', removed + 1)
    | None => Ok (g, removed)
    end) (g, 0).

(** Body of the second loop, for one column [c]. *)
Definition collapse_column (nrows : nat) (c : nat)
    (st : list (list (option Tile)) * RandomSource)
  : result (list (list (option Tile)) * RandomSource) :=
  let '(g, rnd) := st in
  stack ← for_each (range_down nrows) (fun r stack =>
    x ← getitem2 g (Z.of_nat r) (Z.of_nat c);
    match x with
    | Some t => Ok (stack ++ [t])
    | None => Ok stack
    end) [];
  (* fill from bottom *)
  '(g, _, rnd) ← for_each (range_down nrows) (fun r '(g, stack, rnd) =>
    match stack with
    | t :: stack' =>
        g' ← setitem2 g (Z.of_nat r) (Z.of_nat c) (Some t);
        Ok (g', stack', rnd)
    | [] =>
        '(x, rnd') ← random_tile rnd;
        g' ← setitem2 g (Z.of_nat r) (Z.of_nat c) x;
        Ok (g', [], rnd')
    end) (g, stack, rnd);
  Ok (g, rnd).

(** Second loop: collapse each column. *)
Definition collapse (b : Board) (rnd : RandomSource)
  : result (Board * RandomSource) :=
  '(g, rnd') ← for_each (range (cols b)) (collapse_column (rows b)) (grid b, rnd);
  Ok (set_grid b g, rnd').

Definition remove_and_collapse (b : Board) (remove_coords : gset (Z * Z))
    (rnd : RandomSource) : result (Board * Z * RandomSource) :=
  '(g, removed) ← mark_removed (grid b) remove_coords;
  '(b', rnd') ← collapse (set_grid b g) rnd;
  Ok (b', removed, rnd').

(** *** [CandyLikeGame] *)

Record SwapAnimation : Type := mkSwapAnimation {
  sa_a : Z * Z;
  sa_b : Z * Z;
  sa_tile_a : Tile;
  sa_tile_b : Tile;
  sa_frames : Z;
  sa_frame : Z;
  sa_reverting : bool;
  sa_keep : bool
}.

Record Game : Type := mkGame {
  board : Board;
  selected : option (Z * Z);
  animating : bool;
  swap_animation : option SwapAnimation;
  score : Z;
  combo : Z
}.

(** [resolve_all_matches_initial] *)
Fixpoint resolve_all_matches_initial (fuel : nat) (b : Board) (rnd : RandomSource)
  : result (Board * RandomSource) :=
  match fuel with
  | O => OutOfFuel
  | S fuel' =>
      matches ← find_matches b;
      if decide (matches = ∅) then Ok (b, rnd)
      else
        '(b', _, rnd') ← remove_and_collapse b matches rnd;
        resolve_all_matches_initial fuel' b' rnd'
  end.

(** The [while True] loop of [find_and_resolve_matches]; the result is
    [(total_removed, board, score, random source)]. *)
Fixpoint resolve_loop (fuel : nat) (b : Board) (score total_removed chain : Z)
    (rnd : RandomSource) : result (Z * Board * Z * RandomSource) :=
  match fuel with
  | O => OutOfFuel
  | S fuel' =>
      matches ← find_matches b;
      if decide (matches = ∅) then Ok (total_removed, b, score, rnd)
      else
        let chain := chain + 1 in
        '(b', removed, rnd') ← remove_and_collapse b matches rnd;
        let total_removed := total_removed + removed in
        (* increase score with chain multiplier *)
        let score := score + removed * BASE_SCORE_PER_TILE * chain in
        resolve_loop fuel' b' score total_removed chain rnd'
  end.

Definition find_and_resolve_matches (fuel : nat) (gm : Game) (rnd : RandomSource)
  : result (Z * Game * RandomSource) :=
  '(total_removed, b, sc, rnd') ← resolve_loop fuel (board gm) (score gm) 0 0 rnd;
  Ok (total_removed,
      mkGame b (selected gm) (animating gm) (swap_animation gm) sc (combo gm),
      rnd').

(** [CandyLikeGame.__init__], the engine part. *)
Definition Game_init (fuel : nat) (rnd : RandomSource) (nrows ncols : nat)
  : result (Game * RandomSource) :=
  '(b, rnd1) ← Board_init fuel nrows ncols rnd;
  '(b', rnd2) ← resolve_all_matches_initial fuel b rnd1;
  Ok (mkGame b' None false None 0 0, rnd2).

(** [try_swap]; it returns nothing, the outcome is the new game state. *)
Definition try_swap (gm : Game) (a b : Z * Z) : result Game :=
  if animating gm then Ok gm
  else
    let '(r1, c1) := a in
    let '(r2, c2) := b in
    (* must be adjacent *)
    if decide (Z.abs (r1 - r2) + Z.abs (c1 - c2) ≠ 1) then Ok gm
    else
      tile_a ← get (board gm) r1 c1;
      tile_b ← get (board gm) r2 c2;
      match tile_a, tile_b with
      | Some ta, Some tb =>
          Ok (mkGame (board gm) (selected gm) true
                (Some (mkSwapAnimation (r1, c1) (r2, c2) ta tb
                         SWAP_ANIM_FRAMES 0 false false))
                (score gm) (combo gm))
      | _, _ => Ok gm
      end.

(** [update_swap_anim], one frame. *)
Definition update_swap_anim (fuel : nat) (gm : Game) (rnd : RandomSource)
  : result (Game * RandomSource) :=
  match swap_animation gm with
  | None => Ok (gm, rnd)
  | Some sa =>
      let frame := sa_frame sa + 1 in
      let sa := mkSwapAnimation (sa_a sa) (sa_b sa) (sa_tile_a sa) (sa_tile_b sa)
                  (sa_frames sa) frame (sa_reverting sa) (sa_keep sa) in
      if decide (sa_frames sa ≤ frame) then
        (* complete swap in model *)
        let '(r1, c1) := sa_a sa in
        let '(r2, c2) := sa_b sa in
        b1 ← swap (board gm) r1 c1 r2 c2;
        (* check for matches *)
        matches ← find_matches b1;
        if decide (matches ≠ ∅) then
          (* keep swap; resolve matches *)
          let gm1 := mkGame b1 (selected gm) false None (score gm) (combo gm) in
          '(removed, gm2, rnd') ← find_and_resolve_matches fuel gm1 rnd;
          let combo' := if decide (removed ≠ 0) then combo gm2 + 1 else 0 in
          Ok (mkGame (board gm2) (selected gm2) (animating gm2)
                (swap_animation gm2) (score gm2) combo', rnd')
        else if negb (sa_reverting sa) then
          (* revert swap with animation reversed *)
          let sa := mkSwapAnimation (sa_a sa) (sa_b sa) (sa_tile_a sa)
                      (sa_tile_b sa) (sa_frames sa) 0 true (sa_keep sa) in
          Ok (mkGame b1 (selected gm) (animating gm) (Some sa) (score gm)
                (combo gm), rnd)
        else
          (* second time means revert completed: perform revert in model *)
          b2 ← swap b1 r1 c1 r2 c2;
          Ok (mkGame b2 (selected gm) false None (score gm) (combo gm), rnd)
      else
        Ok (mkGame (board gm) (selected gm) (animating gm) (Some sa) (score gm)
              (combo gm), rnd)
  end.

(** [n] frames of the main loop's [update_swap_anim] call. *)
Fixpoint run_frames (n fuel : nat) (gm : Game) (rnd : RandomSource)
  : result (Game * RandomSource) :=
  match n with
  | O => Ok (gm, rnd)
  | S n' =>
      '(gm', rnd') ← update_swap_anim fuel gm rnd;
      run_frames n' fuel gm' rnd'
  end.

(** A board from rows of type numbers, for examples. *)
Definition board_of (g : list (list Z)) : Board :=
  mkBoard (length g) (length (default [] (head g)))
          (map (map (fun t => Some (new_Tile t))) g).

(** *** Clicks and the frame update *)

Definition ROWS : nat := 8.
Definition COLS : nat := 8.

(** [clamp] *)
Definition clamp (x a b : Z) : Z := Z.max a (Z.min b x).

(** The object [CandyLikeGame]: the fields of [Game] (in [engine]) and the
    ones that the click handler and the main loop read beside them.  The
    sizes are those that [apply_scale] and [__init__] have set. *)
Record CandyLikeGame : Type := mkCandyLikeGame {
  engine : Game;
  paused : bool;
  show_instructions : bool;
  tile_size : Z;
  padding : Z;
  board_x : Z;
  board_y : Z
}.

Definition set_engine (g : CandyLikeGame) (gm : Game) : CandyLikeGame :=
  mkCandyLikeGame gm (paused g) (show_instructions g) (tile_size g) (padding g)
    (board_x g) (board_y g).

Definition set_selected (gm : Game) (sel : option (Z * Z)) : Game :=
  mkGame (board gm) sel (animating gm) (swap_animation gm) (score gm) (combo gm).

Definition tile_to_pixel (g : CandyLikeGame) (r c : Z) : Z * Z :=
  let x := board_x g + padding g + c * (tile_size g + padding g) in
  let y := board_y g + padding g + r * (tile_size g + padding g) in
  (x, y).

Definition pixel_to_tile (g : CandyLikeGame) (mx my : Z) : arith (option (Z * Z)) :=
  let mx := mx - (board_x g + padding g) in
  let my := my - (board_y g + padding g) in
  if decide (mx < 0 ∨ my < 0) then Num None
  else
    let cell_w := tile_size g + padding g in
    if decide (cell_w = 0) then ZeroDivisionError
    else
      let c := mx / cell_w in
      let r := my / cell_w in
      if decide ((0 ≤ r < Z.of_nat ROWS) ∧ (0 ≤ c < Z.of_nat COLS)) then
        (* ensure inside tile area (not padding) *)
        let rx := mx mod cell_w in
        let ry := my mod cell_w in
        if decide (rx ≤ tile_size g ∧ ry ≤ tile_size g) then Num (Some (r, c))
        else Num None
      else Num None.

(** [handle_click]; the outcome of the division in [pixel_to_tile] is the
    outer one, that of [try_swap] the inner one. *)
Definition handle_click (g : CandyLikeGame) (pos : Z * Z)
  : arith (result CandyLikeGame) :=
  if show_instructions g then
    Num (Ok (mkCandyLikeGame (engine g) (paused g) false (tile_size g) (padding g)
               (board_x g) (board_y g)))
  else if animating (engine g) || paused g then Num (Ok g)
  else
    let '(mx, my) := pos in
    match pixel_to_tile g mx my with
    | ZeroDivisionError => ZeroDivisionError
    | Num None => Num (Ok g)
    | Num (Some clicked) =>
        match selected (engine g) with
        | None => Num (Ok (set_engine g (set_selected (engine g) (Some clicked))))
        | Some sel =>
            if decide (clicked = sel) then
              Num (Ok (set_engine g (set_selected (engine g) None)))
            else
              (* attempt swap *)
              Num (gm ← try_swap (engine g) sel clicked;
                   Ok (set_engine g (set_selected gm None)))
        end
    end.

(** The update of one turn of the main loop in [run]. *)
Definition run_update (fuel : nat) (g : CandyLikeGame) (rnd : RandomSource)
  : result (CandyLikeGame * RandomSource) :=
  if paused g then Ok (g, rnd)
  else
    (* update animations *)
    '(gm, rnd) ←
      (match swap_animation (engine g) with
       | Some _ => update_swap_anim fuel (engine g) rnd
       | None => Ok (engine g, rnd)
       end);
    (* after resolving matches, always check for any leftover matches *)
    if negb (animating gm) && negb (bool_decide (is_Some (swap_animation gm))) then
      matches ← find_matches (board gm);
      if decide (matches ≠ ∅) then
        '(b, removed, rnd) ← remove_and_collapse (board gm) matches rnd;
        if decide (removed ≠ 0) then
          let combo := combo gm + 1 in
          let score := score gm + removed * BASE_SCORE_PER_TILE * Z.max 1 combo in
          Ok (set_engine g (mkGame b (selected gm) (animating gm)
                              (swap_animation gm) score combo), rnd)
        else
          Ok (set_engine g (mkGame b (selected gm) (animating gm)
                              (swap_animation gm) (score gm) 0), rnd)
      else Ok (set_engine g gm, rnd)
    else Ok (set_engine g gm, rnd).

End Crush.


(** * number_smash.py *)

Module Smash.

Definition POP_ANIM_TIME : Z := 200.
Definition SHAKE_ANIM_TIME : Z := 220.

(** The fields of [Cell] that the grid logic reads or writes; [row], [col],
    [size] and the clock-driven [last_change] only serve drawing. *)
Record Cell : Set := mkCell { value : option Z; pop_anim : Z; shake_anim : Z }.

Definition set_value (cell : Cell) (v : option Z) : Cell :=
  mkCell v (pop_anim cell) (shake_anim cell).

(** [Cell.start_pop] and [Cell.start_shake] *)
Definition start_pop (cell : Cell) : Cell :=
  mkCell (value cell) POP_ANIM_TIME (shake_anim cell).
Definition start_shake (cell : Cell) : Cell :=
  mkCell (value cell) (pop_anim cell) SHAKE_ANIM_TIME.

Record Game : Type := mkGame {
  rows : nat;
  cols : nat;
  grid : list (list Cell);
  score : Z
}.

Definition set_grid (gm : Game) (g : list (list Cell)) : Game :=
  mkGame (rows gm) (cols gm) g (score gm).

(** [self.grid[r][c].value] *)
Definition value_at (gm : Game) (r c : Z) : result (option Z) :=
  cell ← getitem2 (grid gm) r c; Ok (value cell).

Definition flood_group (gm : Game) (start_r start_c : Z) : result (list (Z * Z)) :=
  target ← value_at gm start_r start_c;
  match target with
  | None => Ok []
  | Some target => bfs (rows gm) (cols gm) (value_at gm) target start_r start_c
  end.

(** Body of the loop over one column in [apply_gravity]. *)

(** [for val in reversed(stack): grid[rptr][c].value = val; rptr -= 1] *)
Definition drop_stack (c : nat) (stack : list Z) (g : list (list Cell)) (rptr : Z)
  : result (list (list Cell) * Z) :=
  for_each (reverse stack) (fun val '(g, rptr) =>
    cell ← getitem2 g rptr (Z.of_nat c);
    g' ← setitem2 g rptr (Z.of_nat c) (set_value cell (Some val));
    Ok (g', rptr - 1)) (g, rptr).

(** [while rptr >= 0: grid[rptr][c].value = random.randint(0, 9); rptr -= 1],
    with [k = rptr + 1]. *)
Fixpoint fill_top (c : nat) (k : nat) (g : list (list Cell)) (rnd : RandomSource)
  : result (list (list Cell) * RandomSource) :=
  match k with
  | O => Ok (g, rnd)
  | S rptr =>
      '(v, rnd') ← random_randint 0 9 rnd;
      cell ← getitem2 g (Z.of_nat rptr) (Z.of_nat c);
      g' ← setitem2 g (Z.of_nat rptr) (Z.of_nat c) (set_value cell (Some v));
      fill_top c rptr g' rnd'
  end.

Definition gravity_column (nrows : nat) (c : nat)
    (st : list (list Cell) * RandomSource)
  : result (list (list Cell) * RandomSource) :=
  let '(g, rnd) := st in
  stack ← for_each (range nrows) (fun r stack =>
    val ← (cell ← getitem2 g (Z.of_nat r) (Z.of_nat c); Ok (value cell));
    match val with
    | Some v => Ok (stack ++ [v])
    | None => Ok stack
    end) [];
  (* fill bottom up *)
  let rptr := Z.of_nat nrows - 1 in
  '(g, rptr) ← drop_stack c stack g rptr;
  (* fill remaining top cells with new random numbers *)
  fill_top c (Z.to_nat (rptr + 1)) g rnd.

Definition apply_gravity (gm : Game) (rnd : RandomSource)
  : result (Game * RandomSource) :=
  '(g, rnd') ← for_each (range (cols gm)) (gravity_column (rows gm)) (grid gm, rnd);
  Ok (set_grid gm g, rnd').

(** [for (gr, gc) in group: start_pop(); value = None] *)
Definition clear_group (g : list (list Cell)) (group : list (Z * Z))
  : result (list (list Cell)) :=
  for_each group (fun '(gr, gc) g =>
    cell ← getitem2 g gr gc;
    setitem2 g gr gc (set_value (start_pop cell) None)) g.

(** [smash_at]; the result is the returned flag with the new state. *)
Definition smash_at (gm : Game) (r c : Z) (rnd : RandomSource)
  : result (bool * Game * RandomSource) :=
  cell ← getitem2 (grid gm) r c;
  let val := value cell in
  if decide (val ≠ Some 0 ∧ val ≠ Some 1) then
    (* cannot smash distractors *)
    g ← setitem2 (grid gm) r c (start_shake cell);
    Ok (false, set_grid gm g, rnd)
  else
    group ← flood_group gm r c;
    if decide (length group < 2)%nat then
      g ← setitem2 (grid gm) r c (start_shake cell);
      Ok (false, set_grid gm g, rnd)
    else
      (* smash: clear those cells *)
      g ← clear_group (grid gm) group;
      '(gm', rnd') ← apply_gravity (set_grid gm g) rnd;
      (* scoring: reward group_size * (value + 1) *)
      let gain := Z.of_nat (length group) * (default 0 val + 1) in
      Ok (true, mkGame (rows gm') (cols gm') (grid gm') (score gm' + gain), rnd').

(** A game on a grid of plain values, for examples. *)
Definition game_of (g : list (list Z)) (sc : Z) : Game :=
  mkGame (length g) (length (default [] (head g)))
         (map (map (fun v => mkCell (Some v) 0 0)) g) sc.

(** *** Cells in time, clicks *)

Definition GRID_PADDING : Z := 8.
Definition TOP_MARGIN : Z := 120.
Definition NUMBER_CYCLE_INTERVAL : Z := 700.

(** [clamp] *)
Definition clamp (n a b : Z) : Z := Z.max a (Z.min b n).

(** [Cell.tick] *)
Definition tick (cell : Cell) (dt : Z) : Cell :=
  let pop := if decide (0 < pop_anim cell) then Z.max 0 (pop_anim cell - dt)
             else pop_anim cell in
  let shake := if decide (0 < shake_anim cell) then Z.max 0 (shake_anim cell - dt)
               else shake_anim cell in
  mkCell (value cell) pop shake.

(** [Cell.update_cycle]; the field [last_change] of the cell is passed and
    returned beside it. *)
Definition update_cycle (cell : Cell) (last_change : Z) (now : Z)
    (rnd : RandomSource) : result (Cell * Z * RandomSource) :=
  if decide (NUMBER_CYCLE_INTERVAL ≤ now - last_change) then
    '(v, rnd) ← random_randint 0 9 rnd;
    Ok (set_value cell (Some v), now, rnd)
  else Ok (cell, last_change, rnd).

(** [Cell(row, col, size)]: the value is drawn, then the offset of
    [last_change], which takes a draw of its own. *)
Definition new_Cell (rnd : RandomSource) : result (Cell * RandomSource) :=
  '(v, rnd) ← random_randint 0 9 rnd;
  '(_, rnd) ← random_randint 0 NUMBER_CYCLE_INTERVAL rnd;
  Ok (mkCell (Some v) 0 0, rnd).

(** The object [NumberSmashGame]: the grid and the score (in [game]) and
    the fields that the click handler reads beside them.  [grid_x] and
    [grid_y] are set once, in [__init__]. *)
Record NumberSmashGame : Type := mkNumberSmashGame {
  game : Game;
  cell_size : Z;
  paused : bool;
  show_instructions : bool
}.

Definition grid_x : Z := GRID_PADDING.
Definition grid_y : Z := TOP_MARGIN.

(** [reset]; it leaves [rows], [cols], [cell_size] and [paused] as they
    are. *)
Definition reset (st : NumberSmashGame) (rnd : RandomSource)
  : result (NumberSmashGame * RandomSource) :=
  '(g, rnd) ← Crush.list_comp (rows (game st))
                (Crush.list_comp (cols (game st)) new_Cell) rnd;
  Ok (mkNumberSmashGame (mkGame (rows (game st)) (cols (game st)) g 0)
        (cell_size st) (paused st) true, rnd).

Definition grid_to_screen (st : NumberSmashGame) (r c : Z) : Z * Z :=
  let x := grid_x + c * (cell_size st + GRID_PADDING) in
  let y := grid_y + r * (cell_size st + GRID_PADDING) in
  (x, y).

Definition screen_to_grid (st : NumberSmashGame) (mx my : Z)
  : arith (option (Z * Z)) :=
  let mx := mx - grid_x in
  let my := my - grid_y in
  if decide (mx < 0 ∨ my < 0) then Num None
  else
    let cell_w := cell_size st + GRID_PADDING in
    if decide (cell_w = 0) then ZeroDivisionError
    else
      let c := mx / cell_w in
      let r := my / cell_w in
      if decide ((0 ≤ r < Z.of_nat (rows (game st))) ∧
                 (0 ≤ c < Z.of_nat (cols (game st)))) then
        (* ensure inside actual square area (not in padding) *)
        let rx := mx mod cell_w in
        let ry := my mod cell_w in
        if decide (rx ≤ cell_size st ∧ ry ≤ cell_size st) then Num (Some (r, c))
        else Num None
      else Num None.

(** The size of the window, as [__init__] asks for it. *)
Definition screen_width (st : NumberSmashGame) : Z :=
  Z.of_nat (cols (game st)) * (cell_size st + GRID_PADDING) + GRID_PADDING.
Definition screen_height (st : NumberSmashGame) : Z :=
  Z.of_nat (rows (game st)) * (cell_size st + GRID_PADDING) + GRID_PADDING
  + TOP_MARGIN.

(** [handle_click]; the outcome of the division in [screen_to_grid] is the
    outer one, that of [smash_at] the inner one. *)
Definition handle_click (st : NumberSmashGame) (pos : Z * Z) (rnd : RandomSource)
  : arith (result (NumberSmashGame * RandomSource)) :=
  let '(mx, my) := pos in
  if show_instructions st then
    (* any click inside the instruction overlay dismisses *)
    let w := screen_width st in
    let h := screen_height st in
    if collidepoint 40 60 (w - 80) (h - 160) mx my then
      Num (Ok (mkNumberSmashGame (game st) (cell_size st) (paused st) false, rnd))
    else Num (Ok (st, rnd))
  else
    match screen_to_grid st mx my with
    | ZeroDivisionError => ZeroDivisionError
    | Num None => Num (Ok (st, rnd))
    | Num (Some (r, c)) =>
        Num ('(_, gm, rnd) ← smash_at (game st) r c rnd;
             Ok (mkNumberSmashGame gm (cell_size st) (paused st)
                   (show_instructions st), rnd))
    end.

End Smash.

(** * number_stack.py *)

Module Stack.

Definition ROWS : nat := 10.
Definition COLS : nat := 7.

(** The grid holds the numbers themselves, [None] where nothing has landed. *)
Record Game : Type := mkGame {
  grid : list (list (option Z));
  score : Z
}.

Definition find_group (gm : Game) (start_r start_c : Z) : result (list (Z * Z)) :=
  target ← getitem2 (grid gm) start_r start_c;
  match target with
  | Some target =>
      if decide (target ≠ 0 ∧ target ≠ 1) then Ok []
      else bfs ROWS COLS (getitem2 (grid gm)) target start_r start_c
  | None => Ok []
  end.

(** Body of the loop over one column in [apply_gravity]. *)
Definition gravity_column (c : nat) (g : list (list (option Z)))
  : result (list (list (option Z))) :=
  stack ← for_each (range ROWS) (fun r stack =>
    x ← getitem2 g (Z.of_nat r) (Z.of_nat c);
    match x with
    | Some v => Ok (stack ++ [v])
    | None => Ok stack
    end) [];
  '(g, _) ← for_each (range_down ROWS) (fun r '(g, stack) =>
    match reverse stack with
    | v :: rest =>
        (* stack.pop() *)
        g' ← setitem2 g (Z.of_nat r) (Z.of_nat c) (Some v);
        Ok (g', reverse rest)
    | [] =>
        g' ← setitem2 g (Z.of_nat r) (Z.of_nat c) None;
        Ok (g', [])
    end) (g, stack);
  Ok g.

Definition apply_gravity (gm : Game) : result Game :=
  g ← for_each (range COLS) gravity_column (grid gm);
  Ok (mkGame g (score gm)).

(** [for gr, gc in group: self.grid[gr][gc] = None] *)
Definition clear_group (g : list (list (option Z))) (group : list (Z * Z))
  : result (list (list (option Z))) :=
  for_each group (fun '(gr, gc) g => setitem2 g gr gc None) g.

Definition smash (gm : Game) (r c : Z) : result Game :=
  x ← getitem2 (grid gm) r c;
  if decide (x ≠ Some 0 ∧ x ≠ Some 1) then Ok gm
  else
    group ← find_group gm r c;
    if decide (length group < 2)%nat then Ok gm
    else
      (* Smash them (remove) *)
      g ← clear_group (grid gm) group;
      let sc := score gm + Z.of_nat (length group) * 10 in
      apply_gravity (mkGame g sc).

(** A [ROWS] x [COLS] game whose bottom rows are the given ones (each of
    [COLS] entries) and whose other cells are empty, for examples. *)
Definition game_of (bottom : list (list (option Z))) (sc : Z) : Game :=
  mkGame (replicate (ROWS - length bottom) (replicate COLS None) ++ bottom) sc.

(** *** The falling number, clicks and the frame update *)

Definition CELL_SIZE : Z := 60.
Definition GRID_PADDING : Z := 5.
Definition TOP_MARGIN : Z := 120.
Definition FALL_INTERVAL : Z := 800.
Definition FALL_SPEED : Z := 6.

(** The object [NumberStack]: the grid and the score (in [game]) and the
    fields of the falling number.  [falling_number] is [None], [True] or
    [False] in the code, which only tests its truth value.  [grid_x] and
    [grid_y] are set once, in [__init__]. *)
Record NumberStack : Type := mkNumberStack {
  game : Game;
  falling_number : bool;
  fall_y : Z;
  fall_col : Z;
  fall_value : Z;
  last_fall_time : Z;
  paused : bool;
  game_over : bool
}.

Definition grid_x : Z := GRID_PADDING.
Definition grid_y : Z := TOP_MARGIN.

Definition set_game (st : NumberStack) (gm : Game) : NumberStack :=
  mkNumberStack gm (falling_number st) (fall_y st) (fall_col st) (fall_value st)
    (last_fall_time st) (paused st) (game_over st).

(** [reset]; [now] is the reading of [pygame.time.get_ticks()]. *)
Definition reset (now : Z) (rnd : RandomSource)
  : result (NumberStack * RandomSource) :=
  let grid := replicate ROWS (replicate COLS None) in
  '(col, rnd) ← random_randint 0 (Z.of_nat COLS - 1) rnd;
  '(val, rnd) ← random_randint 0 9 rnd;
  Ok (mkNumberStack (mkGame grid 0) false 0 col val now false false, rnd).

Definition grid_to_screen (r c : Z) : Z * Z :=
  let x := grid_x + c * (CELL_SIZE + GRID_PADDING) in
  let y := grid_y + r * (CELL_SIZE + GRID_PADDING) in
  (x, y).

Definition spawn_new_number (st : NumberStack) (rnd : RandomSource)
  : result (NumberStack * RandomSource) :=
  '(col, rnd) ← random_randint 0 (Z.of_nat COLS - 1) rnd;
  '(val, rnd) ← random_randint 0 9 rnd;
  (* If top cell in that column is filled - Game Over *)
  top ← getitem2 (grid (game st)) 0 col;
  match top with
  | Some _ =>
      Ok (mkNumberStack (game st) false 0 col val (last_fall_time st) (paused st)
            true, rnd)
  | None =>
      Ok (mkNumberStack (game st) true 0 col val (last_fall_time st) (paused st)
            (game_over st), rnd)
  end.

(** The [for row in range(ROWS)] loop of [drop_number], which [break]
    leaves when the number lands; the result is the grid and
    [falling_number]. *)
Fixpoint land (rows : list nat) (st : NumberStack) (g : list (list (option Z)))
  : result (list (list (option Z)) * bool) :=
  match rows with
  | [] => Ok (g, falling_number st)
  | row :: rows' =>
      below_filled ←
        (if decide (row = (ROWS - 1)%nat) then Ok true
         else
           x ← getitem2 g (Z.of_nat row + 1) (fall_col st);
           Ok (bool_decide (x ≠ None)));
      if (below_filled : bool) then
        (* If reached the bottom or above a filled cell *)
        if decide (Z.of_nat row * (CELL_SIZE + GRID_PADDING) ≤ fall_y st) then
          (* Land it *)
          g' ← setitem2 g (Z.of_nat row) (fall_col st) (Some (fall_value st));
          Ok (g', false)
        else land rows' st g
      else land rows' st g
  end.

Definition drop_number (st : NumberStack) : result NumberStack :=
  if negb (falling_number st) || game_over st then Ok st
  else
    '(g, falling) ← land (range ROWS) st (grid (game st));
    Ok (mkNumberStack (mkGame g (score (game st))) falling
          (fall_y st + FALL_SPEED) (fall_col st) (fall_value st)
          (last_fall_time st) (paused st) (game_over st)).

(** The two loops of [handle_click] over the cells, in their order, left by
    [return] at the first filled cell under the point. *)
Fixpoint click_cells (cells : list (nat * nat)) (st : NumberStack) (mx my : Z)
  : result NumberStack :=
  match cells with
  | [] => Ok st
  | (r, c) :: cells' =>
      let '(x, y) := grid_to_screen (Z.of_nat r) (Z.of_nat c) in
      if collidepoint x y CELL_SIZE CELL_SIZE mx my then
        v ← getitem2 (grid (game st)) (Z.of_nat r) (Z.of_nat c);
        match v with
        | Some _ =>
            gm ← smash (game st) (Z.of_nat r) (Z.of_nat c);
            Ok (set_game st gm)
        | None => click_cells cells' st mx my
        end
      else click_cells cells' st mx my
  end.

Definition handle_click (st : NumberStack) (pos : Z * Z) : result NumberStack :=
  if game_over st then Ok st
  else
    let '(mx, my) := pos in
    click_cells (r ← range ROWS; c ← range COLS; [(r, c)]) st mx my.

(** The update of one turn of the main loop in [run]; [now] is the reading
    of [pygame.time.get_ticks()]. *)
Definition run_update (now : Z) (st : NumberStack) (rnd : RandomSource)
  : result (NumberStack * RandomSource) :=
  if negb (paused st) && negb (game_over st) then
    '(st, rnd) ←
      (if negb (falling_number st)
          && bool_decide (FALL_INTERVAL < now - last_fall_time st)
       then
         '(st, rnd) ← spawn_new_number st rnd;
         Ok (mkNumberStack (game st) (falling_number st) (fall_y st)
               (fall_col st) (fall_value st) now (paused st) (game_over st), rnd)
       else Ok (st, rnd));
    if falling_number st then
      st ← drop_number st; Ok (st, rnd)
    else Ok (st, rnd)
  else Ok (st, rnd).

(** [n] calls of [drop_number], one per turn of the main loop. *)
Fixpoint drop_frames (n : nat) (st : NumberStack) : result NumberStack :=
  match n with
  | O => Ok st
  | S n' => st' ← drop_number st; drop_frames n' st'
  end.

End Stack.

(** * Specification-side notions *)

(** ** Grids as lists of rows *)

(** [g] has [nr] rows of [nc] entries each. *)
Definition shape {A : Type} (g : list (list A)) (nr nc : nat) : Prop :=
  length g = nr ∧ Forall (fun row => length row = nc) g.

(** The entry at row [r], column [c], if there is one. *)
Definition cell_at {A : Type} (g : list (list A)) (r c : nat) : option A :=
  g !! r ≫= (fun row => row !! c).

(** The grid with the entry at [(r, c)] replaced. *)
Definition grid_set {A : Type} (g : list (list A)) (r c : nat) (x : A)
  : list (list A) :=
  alter (fun row => <[c:=x]> row) r g.

(** ** Runs along a line

    A line is a function from positions [0 .. n-1] to types.  [s, e) is a
    run when it is a maximal stretch of equal types. *)

Definition run (f : nat → Z) (n s e : nat) : Prop :=
  (s < e ≤ n)%nat ∧
  (∀ i, (s ≤ i < e)%nat → f i = f s) ∧
  (s = 0%nat ∨ f (s - 1)%nat ≠ f s) ∧
  (e = n ∨ f e ≠ f s).

(** Position [i] lies inside a run of length at least 3. *)
Definition in_long_run (f : nat → Z) (n i : nat) : Prop :=
  ∃ s e, run f n s e ∧ (s ≤ i < e)%nat ∧ (3 ≤ e - s)%nat.

(** Position [i] lies inside a stretch of at least 3 equal types. *)
Definition in_long_stretch (f : nat → Z) (n i : nat) : Prop :=
  ∃ s e, (s ≤ i < e)%nat ∧ (e ≤ n)%nat ∧ (3 ≤ e - s)%nat ∧
    ∀ j, (s ≤ j < e)%nat → f j = f i.

(** ** Columns under gravity *)

(** The column read by [rd], rows [0 .. n-1] from the top; [None] is an
    empty cell. *)
Definition column {V : Type} (rd : nat → option V) (n : nat) : list (option V) :=
  rd <$> seq 0 n.

(** The non-empty cells of a column, in order. *)
Definition survivors {V : Type} (col : list (option V)) : list V := omap id col.

(** How many cells of a column are empty. *)
Definition vacated {V : Type} (col : list (option V)) : nat :=
  (length col - length (survivors col))%nat.

(** [new] is [old] after gravity: the survivors of [old] sit at the bottom
    in their order, and each of the cells vacated above them satisfies
    [filler]. *)
Definition compacted {V : Type} (filler : option V → Prop)
    (old new : list (option V)) : Prop :=
  length new = length old ∧
  drop (vacated old) new = Some <$> survivors old ∧
  Forall filler (take (vacated old) new).

(** What gravity does to a column, spelled out: [new] is [old] compacted;
    a column without empty cells is left as it is; the bottom-most
    survivor ends on the bottom row. *)
Definition settled {V : Type} (filler : option V → Prop)
    (old new : list (option V)) : Prop :=
  compacted filler old new ∧
  (Forall is_Some old → new = old) ∧
  (∀ t, last (survivors old) = Some t → last new = Some (Some t)).

(** The random source once [n] draws were taken from it. *)
Definition after (n : nat) (rnd : RandomSource) : RandomSource :=
  Nat.iter n next rnd.

(** The entry at [(r, c)] of a grid of optional values, empty outside the
    grid. *)
Definition entry {V : Type} (g : list (list (option V))) (r c : nat) : option V :=
  cell_at g r c ≫= id.

(** A coordinate of the grid, as the games pass it around. *)
Definition coord_of (r c : nat) : Z * Z := (Z.of_nat r, Z.of_nat c).

(** All the coordinates of a set lie on an [nr] by [nc] grid. *)
Definition on_grid (nr nc : nat) (x : Z * Z) : Prop :=
  0 ≤ x.1 < Z.of_nat nr ∧ 0 ≤ x.2 < Z.of_nat nc.

(** ** Connected regions

    [val r c] is the value of the cell at [(r, c)], [None] for an empty
    cell, on a grid of [nr] by [nc] cells. *)

(** Up, down, left or right neighbours. *)
Definition adjacent (x y : Z * Z) : Prop :=
  Z.abs (x.1 - y.1) + Z.abs (x.2 - y.2) = 1.

Section Region.
Context (nr nc : nat) (val : nat → nat → option Z).

(** [x] is a cell of the grid and holds the value [t]. *)
Definition has_value (x : Z * Z) (t : Z) : Prop :=
  on_grid nr nc x ∧ val (Z.to_nat x.1) (Z.to_nat x.2) = Some t.

(** The cells that a path of neighbours, all of value [t], links to
    [seed]. *)
Inductive region (t : Z) (seed : Z * Z) : Z * Z → Prop :=
| region_seed : has_value seed t → region t seed seed
| region_step x y :
    region t seed x → adjacent x y → has_value y t → region t seed y.

(** The state of the breadth-first loop when the cells [done] have left
    the queue. *)
Definition bfs_inv (t : Z) (seed : Z * Z) (done : list (Z * Z))
    (st : list (Z * Z) * list (list bool) * list (Z * Z)) : Prop :=
  let '(q, visited, group) := st in
  shape visited nr nc ∧
  (∀ r c, (r < nr)%nat → (c < nc)%nat →
     cell_at visited r c = Some (bool_decide (coord_of r c ∈ group))) ∧
  NoDup group ∧
  (∀ x, x ∈ group → region t seed x) ∧
  group = done ++ q ∧
  (∀ x y, x ∈ done → adjacent x y → has_value y t → y ∈ group) ∧
  head group = Some seed.
End Region.

Module CrushSpec.
Import Crush.

(** Well-formed boards: the grid has the recorded dimensions. *)
Definition wf (b : Board) : Prop := shape (grid b) (rows b) (cols b).

(** Every entry of the grid is a tile. *)
Definition full (b : Board) : Prop := Forall (Forall is_Some) (grid b).

(** The type number at [(r, c)]. *)
Definition cell_type (b : Board) (r c : nat) : Z :=
  match cell_at (grid b) r c with
  | Some (Some t) => type t
  | _ => 0
  end.

Definition row_types (b : Board) (r : nat) : nat → Z := fun c => cell_type b r c.
Definition col_types (b : Board) (c : nat) : nat → Z := fun r => cell_type b r c.

(** The match predicate: the cell at [(r, c)] lies in a horizontal or in a
    vertical run of length at least 3. *)
Definition matched (b : Board) (r c : nat) : Prop :=
  (r < rows b)%nat ∧ (c < cols b)%nat ∧
  (in_long_run (row_types b r) (cols b) c ∨ in_long_run (col_types b c) (rows b) r).

(** Same dimensions. *)
Definition same_dims (b b' : Board) : Prop := rows b' = rows b ∧ cols b' = cols b.

(** [b'] is [b] with possibly another tile at [(r, c)]. *)
Definition differ_at (b b' : Board) (r c : nat) : Prop :=
  ∀ r' c', ¬ (r' = r ∧ c' = c) →
    cell_at (grid b') r' c' = cell_at (grid b) r' c'.

(** A tile as [Tile(random.choice(TILE_TYPES))] makes it. *)
Definition fresh_tile (x : option Tile) : Prop :=
  ∃ ty, ty ∈ TILE_TYPES ∧ x = Some (new_Tile ty).

(** Column [c] of the board. *)
Definition board_column (b : Board) (c : nat) : list (option Tile) :=
  column (fun r => entry (grid b) r c) (rows b).

(** *** Cascades

    [cascade b rnd ns b' rnd']: from board [b] and random source [rnd], the
    cycle scan, remove, collapse runs [length ns] times, removing [ns]
    tiles step by step, and then the scan finds nothing on [b']. *)
Inductive cascade : Board → RandomSource → list Z → Board → RandomSource → Prop :=
| cascade_stable b rnd :
    find_matches b = Ok ∅ → cascade b rnd [] b rnd
| cascade_step b rnd matches b1 removed rnd1 ns b' rnd' :
    find_matches b = Ok matches → matches ≠ ∅ →
    remove_and_collapse b matches rnd = Ok (b1, removed, rnd1) →
    cascade b1 rnd1 ns b' rnd' →
    cascade b rnd (removed :: ns) b' rnd'.

(** What the step at chain depth [k] adds to the score when it removes [n]
    tiles. *)
Definition step_score (k : Z) (n : Z) : Z := n * BASE_SCORE_PER_TILE * k.

(** The score of the steps [ns] when [chain] steps came before them: step
    number [i] (from 0) has chain depth [chain + i + 1]. *)
Definition chain_score (chain : Z) (ns : list Z) : Z :=
  foldr Z.add 0 (imap (fun i n => step_score (chain + Z.of_nat i + 1) n) ns).

Definition total (ns : list Z) : Z := foldr Z.add 0 ns.

(** The random source that always draws 0. *)
Definition zeros : RandomSource := fun _ => 0%nat.

(** The random source that draws the numbers of [l] and then zeros. *)
Definition draws_of (l : list nat) : RandomSource := fun i => nth i l 0%nat.

(** The game while the trial of swapping [a] and [b] is at frame [frame]. *)
Definition in_trial (gm : Game) (b : Board) (a1 a2 : Z * Z) (ta tb : Tile)
    (frame : Z) (reverting : bool) : Game :=
  mkGame b (selected gm) true
    (Some (mkSwapAnimation a1 a2 ta tb SWAP_ANIM_FRAMES frame reverting false))
    (score gm) (combo gm).

(** The game once the trial is over, on board [b]. *)
Definition after_trial (gm : Game) (b : Board) : Game :=
  mkGame b (selected gm) false None (score gm) (combo gm).

(** The scan finds no match on the board. *)
Definition stable (b : Board) : Prop := find_matches b = Ok ∅.

(** What holds of the game between two calls of its methods: the board has
    its dimensions, every cell holds a tile and there is no match; while a
    swap is animated its two cells are on the board, and once it is being
    reverted, swapping them gives a board without a match. *)
Definition game_inv (gm : Game) : Prop :=
  wf (board gm) ∧ full (board gm) ∧ stable (board gm) ∧
  match swap_animation gm with
  | None => animating gm = false
  | Some sa =>
      animating gm = true ∧
      on_grid (rows (board gm)) (cols (board gm)) (sa_a sa) ∧
      on_grid (rows (board gm)) (cols (board gm)) (sa_b sa) ∧
      (sa_reverting sa = true →
       ∃ b0, swap (board gm) (sa_a sa).1 (sa_a sa).2 (sa_b sa).1 (sa_b sa).2
               = Ok b0 ∧ stable b0)
  end.

(** The pixel [(mx, my)] lies on the tile [(r, c)], its right and bottom
    edge line included. *)
Definition on_tile (g : CandyLikeGame) (r c : Z) (mx my : Z) : Prop :=
  let '(x, y) := tile_to_pixel g r c in
  x ≤ mx ≤ x + tile_size g ∧ y ≤ my ≤ y + tile_size g.

End CrushSpec.

Module SmashSpec.
Import Smash.

Definition wf (gm : Game) : Prop := shape (grid gm) (rows gm) (cols gm).

(** The value at [(r, c)], [None] when the cell is cleared or outside. *)
Definition value_of (g : list (list Cell)) (r c : nat) : option Z :=
  cell_at g r c ≫= value.

(** The values of column [c], top to bottom. *)
Definition game_column (gm : Game) (c : nat) : list (option Z) :=
  column (fun r => value_of (grid gm) r c) (rows gm).

(** A value as [random.randint(0, 9)] makes it. *)
Definition fresh_value (x : option Z) : Prop := ∃ v, 0 ≤ v ≤ 9 ∧ x = Some v.

(** [g'] is [g] with only the values of its cells changed. *)
Definition same_cells (g g' : list (list Cell)) : Prop :=
  ∀ r c cell, cell_at g r c = Some cell →
    ∃ v, cell_at g' r c = Some (set_value cell v).

(** The game after [smash_at] turned down the seed [(r, c)]: the cell shakes
    and nothing else changes. *)
Definition shaken (gm : Game) (r c : nat) (cell : Cell) : Game :=
  set_grid gm (grid_set (grid gm) r c (start_shake cell)).

(** Every cell of the grid holds a number from 0 to 9. *)
Definition numbered (gm : Game) : Prop :=
  ∀ r c, (r < rows gm)%nat → (c < cols gm)%nat →
    fresh_value (value_of (grid gm) r c).

(** The pixel [(mx, my)] lies on the square of the cell [(r, c)], its right
    and bottom edge line included. *)
Definition on_square (st : NumberSmashGame) (r c : Z) (mx my : Z) : Prop :=
  let '(x, y) := grid_to_screen st r c in
  x ≤ mx ≤ x + cell_size st ∧ y ≤ my ≤ y + cell_size st.

End SmashSpec.

Module StackSpec.
Import Stack.

Definition wf (gm : Game) : Prop := shape (grid gm) ROWS COLS.

(** Column [c], top to bottom. *)
Definition game_column (gm : Game) (c : nat) : list (option Z) :=
  column (fun r => entry (grid gm) r c) ROWS.

(** Nothing refills a vacated cell. *)
Definition left_empty (x : option Z) : Prop := x = None.

(** No empty cell lies below a filled one. *)
Definition stacked (g : list (list (option Z))) : Prop :=
  ∀ c r r', (r ≤ r')%nat → (r' < ROWS)%nat →
    is_Some (entry g r c) → is_Some (entry g r' c).

(** The same, as a check of each cell against the one below it. *)
Definition stackedb (g : list (list (option Z))) : bool :=
  forallb (fun c =>
    forallb (fun r =>
      implb (bool_decide (is_Some (entry g r c)))
            (bool_decide (is_Some (entry g (S r) c))))
      (seq 0 (ROWS - 1))) (range COLS).

(** How many cells of column [c] are empty. *)
Definition free (g : list (list (option Z))) (c : nat) : nat :=
  vacated (column (fun r => entry g r c) ROWS).

(** How many cells of the grid are filled. *)
Definition filled (g : list (list (option Z))) : nat :=
  sum_list_with (fun c => length (survivors (column (fun r => entry g r c) ROWS)))
                (range COLS).

(** What holds of the game between two calls of its methods: the grid has
    its dimensions, the numbers are stacked, and a number that is falling
    falls down a column of the grid whose top cell is empty. *)
Definition inv (st : NumberStack) : Prop :=
  wf (game st) ∧ stacked (grid (game st)) ∧
  0 ≤ fall_col st < Z.of_nat COLS ∧ 0 ≤ fall_y st ∧
  (falling_number st = true →
     entry (grid (game st)) 0 (Z.to_nat (fall_col st)) = None).

(** The game once the falling number has landed on row [row]. *)
Definition landed (st : NumberStack) (row : nat) (y : Z) : NumberStack :=
  mkNumberStack
    (mkGame (grid_set (grid (game st)) row (Z.to_nat (fall_col st))
               (Some (fall_value st)))
            (score (game st)))
    false y (fall_col st) (fall_value st) (last_fall_time st) (paused st)
    (game_over st).

(** The point [(mx, my)] lies on the square of the cell [(r, c)]. *)
Definition on_cell (r c : nat) (mx my : Z) : Prop :=
  let x := grid_x + Z.of_nat c * (CELL_SIZE + GRID_PADDING) in
  let y := grid_y + Z.of_nat r * (CELL_SIZE + GRID_PADDING) in
  x ≤ mx < x + CELL_SIZE ∧ y ≤ my < y + CELL_SIZE.

(** The game with the falling number at height [y]. *)
Definition fallen_to (st : NumberStack) (y : Z) : NumberStack :=
  mkNumberStack (game st) (falling_number st) y (fall_col st) (fall_value st)
    (last_fall_time st) (paused st) (game_over st).

End StackSpec.

(** ** Example games *)

Module Examples.

(** A 3 x 4 board with a row run that crosses a column run. *)
Definition crossing : Crush.Board :=
  Crush.board_of [[1; 1; 1; 2]; [3; 1; 4; 2]; [5; 1; 0; 2]].

(** A board on which the bottom row holds a run of three, and the draws
    that refill it so that a run of four forms on the top row and nothing
    after that. *)
Definition two_steps : Crush.Game :=
  Crush.mkGame (Crush.board_of [[0; 2; 0; 3]; [4; 5; 4; 5]; [1; 1; 1; 0]])
    None false None 0 0.
Definition two_steps_draws : RandomSource :=
  CrushSpec.draws_of [3; 3; 3; 1; 4; 1; 4]%nat.
Definition two_steps_end : Crush.Board :=
  Crush.board_of [[1; 4; 1; 4]; [0; 2; 0; 5]; [4; 5; 4; 0]].

(** A board as a swap of the two left tiles of the bottom row leaves it,
    with a run of three in the left column. *)
Definition endless : Crush.Game :=
  Crush.mkGame (Crush.board_of [[5; 1; 2]; [5; 3; 4]; [5; 0; 1]])
    None false None 0 0.

(** The 8 x 8 board that [Board()] builds when the draws count up from 0,
    and the same board with its two top-left tiles exchanged. *)
Definition counting : RandomSource := fun i => i.
Definition fresh_board : Crush.Board :=
  Crush.board_of
    [[0; 1; 2; 3; 4; 5; 0; 1]; [2; 3; 4; 5; 0; 1; 2; 3];
     [4; 5; 0; 1; 2; 3; 4; 5]; [0; 1; 2; 3; 4; 5; 0; 1];
     [2; 3; 4; 5; 0; 1; 2; 3]; [4; 5; 0; 1; 2; 3; 4; 5];
     [0; 1; 2; 3; 4; 5; 0; 1]; [2; 3; 4; 5; 0; 1; 2; 3]].
Definition exchanged_board : Crush.Board :=
  Crush.board_of
    [[1; 0; 2; 3; 4; 5; 0; 1]; [2; 3; 4; 5; 0; 1; 2; 3];
     [4; 5; 0; 1; 2; 3; 4; 5]; [0; 1; 2; 3; 4; 5; 0; 1];
     [2; 3; 4; 5; 0; 1; 2; 3]; [4; 5; 0; 1; 2; 3; 4; 5];
     [0; 1; 2; 3; 4; 5; 0; 1]; [2; 3; 4; 5; 0; 1; 2; 3]].
Definition fresh_game : Crush.Game :=
  Crush.mkGame fresh_board None false None 0 0.

(** The running game on that board, at the sizes of scale 1.0. *)
Definition candy : Crush.CandyLikeGame :=
  Crush.mkCandyLikeGame fresh_game false false 70 8 8 120.

(** A board without a match on which exchanging the tiles at (1, 2) and
    (2, 2) makes a run of four on the bottom row, and the board that the
    cascade ends on when the draws are those of [some_draws]. *)
Definition ready : Crush.Game :=
  Crush.mkGame (Crush.board_of [[0; 1; 2; 3]; [4; 5; 1; 5]; [1; 1; 0; 1]])
    None false None 0 0.
Definition ready_swapped : Crush.Board :=
  Crush.board_of [[0; 1; 2; 3]; [4; 5; 0; 5]; [1; 1; 1; 1]].
Definition ready_end : Crush.Board :=
  Crush.board_of [[2; 3; 4; 5]; [0; 1; 2; 3]; [4; 5; 0; 5]].

(** The draws of a 4 x 4 board that starts all zeros and is re-rolled. *)
Definition zeros_then_counting : RandomSource :=
  fun i => if decide (i < 16)%nat then 0%nat else i.
Definition rerolled_board : Crush.Board :=
  Crush.board_of [[4; 5; 1; 2]; [3; 4; 5; 1]; [2; 3; 0; 0]; [4; 5; 0; 0]].

(** A board after three of its tiles were marked as removed. *)
Definition marked : Crush.Board :=
  Crush.mkBoard 3 2
    [[None; Some (Crush.new_Tile 4)];
     [Some (Crush.new_Tile 2); Some (Crush.new_Tile 5)];
     [None; Some (Crush.new_Tile 3)]].

(** number_smash: five connected ones, a lone one at the bottom right and
    two connected fives on the right. *)
Definition five_ones : Smash.Game :=
  Smash.game_of [[1; 1; 5]; [1; 1; 5]; [1; 0; 1]] 7.
Definition some_draws : RandomSource :=
  CrushSpec.draws_of [2; 3; 4; 5; 6; 7; 8]%nat.

(** number_smash: the running game on that grid, at the default cell size,
    with the instructions dismissed. *)
Definition smash_ui : Smash.NumberSmashGame :=
  Smash.mkNumberSmashGame five_ones 64 false false.

(** number_smash: a game with two cleared cells. *)
Definition cleared : Smash.Game :=
  Smash.mkGame 2 2
    [[Smash.mkCell (Some 3) 0 0; Smash.mkCell None 200 0];
     [Smash.mkCell None 200 0; Smash.mkCell (Some 1) 0 0]] 0.

(** number_stack: five connected ones on the bottom left, a lone one next
    to them. *)
Definition stacked_ones : Stack.Game :=
  Stack.game_of
    [[Some 1; Some 1; None; None; None; None; None];
     [Some 1; Some 1; Some 2; None; None; None; None];
     [Some 1; Some 0; Some 1; None; None; None; None]] 7.

(** number_stack: the game of [stacked_ones] while a 1 falls down column 2,
    whose two bottom cells are filled. *)
Definition falling_one : Stack.NumberStack :=
  Stack.mkNumberStack stacked_ones true 0 2 1 0 false false.

(** number_stack: a column with a gap. *)
Definition gap : Stack.Game :=
  Stack.game_of
    [[Some 3; None; None; None; None; None; None];
     [None; None; None; None; None; None; None];
     [Some 4; None; None; None; None; None; None]] 0.

End Examples.

(** Closed goals about concrete grids. *)
Ltac concrete_shape := split; [reflexivity|repeat constructor].
Ltac concrete_full := repeat (constructor || eexists).

(** * Lemmas *)

(** ** The result monad and loops *)

Lemma bind_Ok {A B : Type} (m : result A) (f : A → result B) (b : B) :
  m ≫= f = Ok b ↔ ∃ a, m = Ok a ∧ f a = Ok b.
Proof.
  destruct m as [a| |]; simpl; split; try (intros [a' [? ?]]); try discriminate.
  - intros H; by exists a.
  - by simplify_eq.
Qed.

(** A loop all of whose turns succeed and keep an invariant that is indexed
    by the elements already visited. *)
Lemma for_each_inv {A S : Type} (P : list A → S → Prop) (xs : list A)
    (body : A → S → result S) (s : S) :
  P [] s →
  (∀ pre x post s, xs = pre ++ x :: post → P pre s →
     ∃ s', body x s = Ok s' ∧ P (pre ++ [x]) s') →
  ∃ s', for_each xs body s = Ok s' ∧ P xs s'.
Proof.
  intros H0 Hstep.
  assert (∀ post pre s, xs = pre ++ post → P pre s →
            ∃ s', for_each post body s = Ok s' ∧ P xs s') as Hgen.
  { induction post as [|x post IH]; intros pre s0 Hxs HP.
    - exists s0. rewrite app_nil_r in Hxs. by subst.
    - destruct (Hstep pre x post s0 Hxs HP) as (s1 & Hb & HP1).
      destruct (IH (pre ++ [x]) s1) as (s2 & Hf & HP2); [|done|].
      { by rewrite <- app_assoc. }
      exists s2. simpl. rewrite Hb. simpl. done. }
  by apply (Hgen xs [] s).
Qed.

(** The same for a loop that is only known to have succeeded. *)
Lemma for_each_Ok_inv {A S : Type} (P : list A → S → Prop) (xs : list A)
    (body : A → S → result S) (s s' : S) :
  for_each xs body s = Ok s' →
  P [] s →
  (∀ pre x post s s', xs = pre ++ x :: post → P pre s →
     body x s = Ok s' → P (pre ++ [x]) s') →
  P xs s'.
Proof.
  intros Hrun H0 Hstep.
  assert (∀ post pre s, xs = pre ++ post → P pre s →
            for_each post body s = Ok s' → P xs s') as Hgen.
  { induction post as [|x post IH]; intros pre s0 Hxs HP Hf.
    - simpl in Hf. rewrite app_nil_r in Hxs. by simplify_eq.
    - simpl in Hf. apply bind_Ok in Hf as (s1 & Hb & Hf).
      apply (IH (pre ++ [x]) s1); [by rewrite <- app_assoc| |done].
      by eapply Hstep. }
  by apply (Hgen xs [] s).
Qed.

(** ** Python indexing at positions inside the list *)

Lemma py_index_nat (len n : nat) :
  (n < len)%nat → py_index len (Z.of_nat n) = Some n.
Proof.
  intros Hn. unfold py_index.
  rewrite decide_True by lia. by rewrite Nat2Z.id.
Qed.

Lemma getitem_nat {A : Type} (l : list A) (n : nat) (x : A) :
  l !! n = Some x → getitem l (Z.of_nat n) = Ok x.
Proof.
  intros Hl. unfold getitem.
  rewrite py_index_nat by (by eapply lookup_lt_Some). by rewrite Hl.
Qed.

Lemma setitem_nat {A : Type} (l : list A) (n : nat) (x : A) :
  (n < length l)%nat → setitem l (Z.of_nat n) x = Ok (<[n:=x]> l).
Proof. intros Hn. unfold setitem. by rewrite py_index_nat. Qed.

Lemma getitem2_nat {A : Type} (g : list (list A)) (r c : nat) (x : A) :
  cell_at g r c = Some x → getitem2 g (Z.of_nat r) (Z.of_nat c) = Ok x.
Proof.
  unfold cell_at, getitem2. intros H.
  destruct (g !! r) as [row|] eqn:Hr; [|done]. simpl in H.
  rewrite (getitem_nat _ _ _ Hr). simpl. by apply getitem_nat.
Qed.

Lemma setitem2_nat {A : Type} (g : list (list A)) (r c : nat) (x : A) :
  is_Some (cell_at g r c) →
  setitem2 g (Z.of_nat r) (Z.of_nat c) x = Ok (grid_set g r c x).
Proof.
  unfold cell_at, setitem2, grid_set. intros [y H].
  destruct (g !! r) as [row|] eqn:Hr; [|done]. simpl in H.
  rewrite (getitem_nat _ _ _ Hr). simpl.
  rewrite setitem_nat by (by eapply lookup_lt_Some). simpl.
  rewrite setitem_nat by (by eapply lookup_lt_Some).
  f_equal. apply list_eq. intros i.
  destruct (decide (i = r)) as [->|Hne].
  - rewrite list_lookup_insert_eq by (by eapply lookup_lt_Some).
    by rewrite list_lookup_alter_eq, Hr.
  - rewrite list_lookup_insert_ne by done. by rewrite list_lookup_alter_ne.
Qed.

(** ** Shapes, cells and updates *)

Lemma shape_cell_at {A : Type} (g : list (list A)) (nr nc r c : nat) :
  shape g nr nc → (r < nr)%nat → (c < nc)%nat → is_Some (cell_at g r c).
Proof.
  intros [Hlen Hrows] Hr Hc. unfold cell_at.
  destruct (lookup_lt_is_Some_2 g r) as [row Hrow]; [lia|].
  rewrite Hrow. simpl. apply lookup_lt_is_Some_2.
  rewrite Forall_lookup in Hrows. rewrite (Hrows _ _ Hrow). done.
Qed.

Lemma cell_at_grid_set {A : Type} (g : list (list A)) (r c r' c' : nat) (x : A) :
  is_Some (cell_at g r c) →
  cell_at (grid_set g r c x) r' c' =
    if decide (r' = r ∧ c' = c) then Some x else cell_at g r' c'.
Proof.
  unfold cell_at, grid_set. intros [y H].
  destruct (g !! r) as [row|] eqn:Hr; [|done]. simpl in H.
  destruct (decide (r' = r)) as [->|Hne].
  - rewrite list_lookup_alter_eq, Hr. simpl.
    destruct (decide (c' = c)) as [->|Hc].
    + rewrite decide_True by done.
      apply list_lookup_insert_eq. by eapply lookup_lt_Some.
    + rewrite decide_False by naive_solver.
      by rewrite list_lookup_insert_ne.
  - rewrite list_lookup_alter_ne by done.
    by rewrite decide_False by naive_solver.
Qed.

Lemma shape_grid_set {A : Type} (g : list (list A)) (nr nc r c : nat) (x : A) :
  shape g nr nc → shape (grid_set g r c x) nr nc.
Proof.
  intros [Hlen Hrows]. split.
  - unfold grid_set. by rewrite length_alter.
  - unfold grid_set. apply Forall_lookup. intros i row Hi.
    rewrite Forall_lookup in Hrows.
    destruct (decide (i = r)) as [->|Hne].
    + rewrite list_lookup_alter_eq in Hi.
      destruct (g !! r) as [row0|] eqn:Hr; [|done]. simpl in Hi. simplify_eq.
      rewrite length_insert. by eapply Hrows.
    + rewrite list_lookup_alter_ne in Hi by done. by eapply Hrows.
Qed.

(** Two grids of one shape with the same entries are equal. *)
Lemma grid_eq {A : Type} (g g' : list (list A)) (nr nc : nat) :
  shape g nr nc → shape g' nr nc →
  (∀ r c, (r < nr)%nat → (c < nc)%nat → cell_at g r c = cell_at g' r c) →
  g = g'.
Proof.
  intros [Hl Hr] [Hl' Hr'] Hcells. apply (list_eq_same_length _ _ nr); [done..|].
  intros r row row' Hlt Hrow Hrow'.
  rewrite Forall_lookup in Hr. rewrite Forall_lookup in Hr'.
  apply (list_eq_same_length _ _ nc); [by eapply Hr'|by eapply Hr|].
  intros c x x' Hc Hx Hx'.
  specialize (Hcells r c Hlt Hc). unfold cell_at in Hcells.
  rewrite Hrow, Hrow' in Hcells. simpl in Hcells. congruence.
Qed.

(** ** Runs *)

Lemma run_unique (f : nat → Z) (n s e s' e' i : nat) :
  run f n s e → run f n s' e' → (s ≤ i < e)%nat → (s' ≤ i < e')%nat →
  s = s' ∧ e = e'.
Proof.
  intros (Hse & Heq & Hs & He) (Hse' & Heq' & Hs' & He') Hi Hi'.
  assert (f s = f s') as Hv.
  { rewrite <- (Heq i Hi). by rewrite <- (Heq' i Hi'). }
  split.
  - destruct (decide (s < s')%nat).
    + destruct Hs' as [->|Hs']; [lia|].
      exfalso. apply Hs'. rewrite <- Hv. apply Heq. lia.
    + destruct (decide (s' < s)%nat); [|lia].
      destruct Hs as [->|Hs]; [lia|].
      exfalso. apply Hs. rewrite Hv. apply Heq'. lia.
  - destruct (decide (e < e')%nat).
    + destruct He as [->|He]; [lia|].
      exfalso. apply He. rewrite Hv. apply Heq'. lia.
    + destruct (decide (e' < e)%nat); [|lia].
      destruct He' as [->|He']; [lia|].
      exfalso. apply He'. rewrite <- Hv. apply Heq. lia.
Qed.

(** Leftmost and rightmost ends of the stretch of equal types around [i]. *)
Lemma run_start_exists (f : nat → Z) (i : nat) :
  ∃ s, (s ≤ i)%nat ∧ (∀ j, (s ≤ j ≤ i)%nat → f j = f i) ∧
       (s = 0%nat ∨ f (s - 1)%nat ≠ f i).
Proof.
  induction i as [|i (s & Hs & Heq & Hb)].
  - exists 0%nat. split; [lia|]. split; [|by left].
    intros j Hj. by replace j with 0%nat by lia.
  - destruct (decide (f i = f (S i))) as [Hfi|Hfi].
    + exists s. split; [lia|]. split.
      * intros j Hj. destruct (decide (j = S i)) as [->|]; [done|].
        rewrite <- Hfi. apply Heq. lia.
      * destruct Hb as [->|Hb]; [by left|right]. by rewrite <- Hfi.
    + exists (S i). split; [lia|]. split.
      * intros j Hj. by replace j with (S i) by lia.
      * right. by replace (S i - 1)%nat with i by lia.
Qed.

Lemma run_stop_exists (f : nat → Z) (n i : nat) :
  (i < n)%nat →
  ∃ e, (i < e ≤ n)%nat ∧ (∀ j, (i ≤ j < e)%nat → f j = f i) ∧
       (e = n ∨ f e ≠ f i).
Proof.
  intros Hi. remember (n - i)%nat as k eqn:Hk.
  revert i Hi Hk. induction k as [|k IH]; intros i Hi Hk; [lia|].
  destruct (decide (S i = n)) as [Hn|Hn].
  - exists n. split; [lia|]. split; [|by left].
    intros j Hj. by replace j with i by lia.
  - destruct (decide (f (S i) = f i)) as [Hfi|Hfi].
    + destruct (IH (S i)) as (e & He & Heq & Hb); [lia..|].
      exists e. split; [lia|]. split.
      * intros j Hj. destruct (decide (j = i)) as [->|]; [done|].
        rewrite <- Hfi. apply Heq. lia.
      * by rewrite <- Hfi.
    + exists (S i). split; [lia|]. split; [|by right].
      intros j Hj. by replace j with i by lia.
Qed.

Lemma run_exists (f : nat → Z) (n i : nat) :
  (i < n)%nat → ∃ s e, run f n s e ∧ (s ≤ i < e)%nat ∧ f s = f i.
Proof.
  intros Hi.
  destruct (run_start_exists f i) as (s & Hs & Heqs & Hbs).
  destruct (run_stop_exists f n i Hi) as (e & He & Heqe & Hbe).
  assert (f s = f i) as Hsi by (apply Heqs; lia).
  exists s, e. split; [|split; [lia|done]].
  split; [lia|]. split; [|split].
  - intros j Hj. rewrite Hsi.
    destruct (decide (j ≤ i)%nat); [apply Heqs|apply Heqe]; lia.
  - by rewrite Hsi.
  - by rewrite Hsi.
Qed.

(** A stretch of equal types lies inside the run around any of its points. *)
Lemma stretch_in_run (f : nat → Z) (n s e s' e' i : nat) :
  run f n s e → (s ≤ i < e)%nat →
  (s' ≤ i < e')%nat → (e' ≤ n)%nat → (∀ j, (s' ≤ j < e')%nat → f j = f i) →
  (s ≤ s')%nat ∧ (e' ≤ e)%nat.
Proof.
  intros (Hse & Heq & Hs & He) Hi Hi' Hn Heq'.
  assert (f s = f i) as Hv by (symmetry; by apply Heq).
  split.
  - destruct (decide (s ≤ s')%nat); [done|].
    destruct Hs as [->|Hs]; [lia|].
    exfalso. apply Hs. rewrite Hv. apply Heq'. lia.
  - destruct (decide (e' ≤ e)%nat); [done|].
    destruct He as [->|He]; [lia|].
    exfalso. apply He. rewrite Hv. apply Heq'. lia.
Qed.

Lemma in_long_run_stretch (f : nat → Z) (n i : nat) :
  in_long_run f n i ↔ in_long_stretch f n i.
Proof.
  split.
  - intros (s & e & Hrun & Hi & Hlen).
    exists s, e. destruct Hrun as (Hse & Heq & _).
    split; [done|]. split; [lia|]. split; [done|].
    intros j Hj. rewrite (Heq j Hj). symmetry. by apply Heq.
  - intros (s' & e' & Hi' & Hn & Hlen & Heq').
    destruct (run_exists f n i) as (s & e & Hrun & Hi & _); [lia|].
    exists s, e. split; [done|]. split; [done|].
    destruct (stretch_in_run f n s e s' e' i Hrun Hi Hi' Hn Heq'). lia.
Qed.

Lemma in_long_run_lt (f : nat → Z) (n i : nat) : in_long_run f n i → (i < n)%nat.
Proof. intros (s & e & (Hse & _) & Hi & _). lia. Qed.

(** Whether [i] lies in a long run only depends on the line up to [n]. *)
Lemma in_long_stretch_ext (f f' : nat → Z) (n i : nat) :
  (∀ j, (j < n)%nat → f j = f' j) → in_long_stretch f n i → in_long_stretch f' n i.
Proof.
  intros Hext (s & e & Hi & Hn & Hlen & Heq).
  exists s, e. split; [done|]. split; [done|]. split; [done|].
  intros j Hj. rewrite <- !Hext by lia. by apply Heq.
Qed.

Lemma in_long_run_ext (f f' : nat → Z) (n i : nat) :
  (∀ j, (j < n)%nat → f j = f' j) → in_long_run f n i → in_long_run f' n i.
Proof.
  rewrite !in_long_run_stretch. apply in_long_stretch_ext.
Qed.

(** ** The scan along one line *)

Section Line.
Import Crush.
Context (ty : nat → result Z) (f : nat → Z) (coord : nat → Z * Z) (bound : nat).
Hypothesis ty_ok : ∀ i, (i < bound)%nat → ty i = Ok (f i).

Lemma run_end_spec (t : Z) (k c : nat) :
  (c + k = bound)%nat →
  ∃ e, run_end ty t c k = Ok e ∧ (c ≤ e ≤ bound)%nat ∧
       (∀ i, (c ≤ i < e)%nat → f i = t) ∧ (e = bound ∨ f e ≠ t).
Proof using ty_ok.
  revert c. induction k as [|k IH]; intros c Hck; simpl.
  - exists c. split; [done|]. split; [lia|]. split; [intros; lia|left; lia].
  - rewrite ty_ok by lia. simpl. case_decide as Ht.
    + destruct (IH (S c)) as (e & Hrun & He & Heq & Hb); [lia|].
      exists e. split; [done|]. split; [lia|]. split; [|done].
      intros i Hi. destruct (decide (i = c)) as [->|]; [done|].
      apply Heq. lia.
    + exists c. split; [done|]. split; [lia|]. split; [intros; lia|by right].
Qed.

Lemma elem_of_add_range (start c : nat) (acc : gset (Z * Z)) (x : Z * Z) :
  x ∈ add_range coord start c acc ↔
  x ∈ acc ∨ ∃ i, (start ≤ i < c)%nat ∧ x = coord i.
Proof.
  unfold add_range.
  assert (∀ l (acc : gset (Z * Z)),
    x ∈ foldl (fun s cc => s ∪ {[coord cc]}) acc l ↔
    x ∈ acc ∨ ∃ i, i ∈ l ∧ x = coord i) as Hfold.
  { induction l as [|a l IH]; intros acc0; simpl.
    - split; [by left|]. intros [?|(i & Hi & _)]; [done|]. by inversion Hi.
    - rewrite IH. rewrite elem_of_union, elem_of_singleton. split.
      + intros [[? | ->] | (i & Hi & ->)].
        * by left.
        * right. exists a. split; [by left|done].
        * right. exists i. split; [by right|done].
      + intros [?|(i & Hi & ->)]; [by left; left|].
        apply elem_of_cons in Hi as [->|Hi].
        * left. by right.
        * right. by exists i. }
  rewrite Hfold. split.
  - intros [?|(i & Hi & ->)]; [by left|right].
    apply elem_of_seq in Hi. exists i. split; [lia|done].
  - intros [?|(i & Hi & ->)]; [by left|right].
    exists i. split; [|done]. apply elem_of_seq. lia.
Qed.

(** From a position [c] where a run starts, the scan adds exactly the
    positions from [c] on that lie in a long run. *)
Lemma scan_line_spec (fuel c : nat) (acc : gset (Z * Z)) :
  (c ≤ bound)%nat → (bound - c ≤ fuel)%nat →
  (c = 0%nat ∨ c = bound ∨ f (c - 1)%nat ≠ f c) →
  ∃ S, scan_line ty coord bound fuel c acc = Ok S ∧
       ∀ x, x ∈ S ↔ x ∈ acc ∨
            ∃ i, (c ≤ i < bound)%nat ∧ x = coord i ∧ in_long_run f bound i.
Proof using ty_ok.
  revert c acc. induction fuel as [|fuel IH]; intros c acc Hc Hfuel Hstart.
  - assert (c = bound) as -> by lia. exists acc. split.
    + unfold scan_line. by rewrite decide_False by lia.
    + intros x. split; [by left|]. intros [?|(i & Hi & _)]; [done|lia].
  - simpl. case_decide as Hlt; cycle 1.
    { exists acc. split; [done|].
      intros x. split; [by left|]. intros [?|(i & Hi & _)]; [done|lia]. }
    rewrite ty_ok by done. simpl.
    destruct (run_end_spec (f c) (bound - S c) (S c)) as (e & Hrun & He & Heq & Hb);
      [lia|].
    rewrite Hrun. simpl.
    assert (run f bound c e) as Hr.
    { split; [lia|]. split; [|split].
      - intros i Hi. destruct (decide (i = c)) as [->|]; [done|]. apply Heq. lia.
      - destruct Hstart as [->|[->|Hs]]; [by left|lia|by right].
      - done. }
    set (acc' := if decide (3 ≤ e - c)%nat then add_range coord c e acc else acc).
    destruct (IH e acc') as (S & HS & Hmem); [lia|lia| |].
    { destruct Hb as [->|Hb]; [by right; left|]. right; right.
      replace (f (e - 1)%nat) with (f c); [done|].
      destruct (decide (e - 1 = c)%nat) as [->|]; [done|].
      symmetry. apply Heq. lia. }
    exists S. split; [done|]. intros x. rewrite Hmem. unfold acc'. split.
    + intros [Hx|(i & Hi & -> & Hlong)].
      * case_decide as Hlen; [|by left].
        apply elem_of_add_range in Hx as [?|(i & Hi & ->)]; [by left|].
        right. exists i. split; [lia|]. split; [done|].
        exists c, e. done.
      * right. exists i. split; [lia|done].
    + intros [Hx|(i & Hi & -> & Hlong)].
      * left. case_decide; [|done]. apply elem_of_add_range. by left.
      * destruct (decide (i < e)%nat) as [Hie|Hie].
        -- left. destruct Hlong as (s' & e' & Hr' & Hi' & Hlen').
           destruct (run_unique f bound c e s' e' i) as [-> ->]; [done..|lia|done|].
           rewrite decide_True by done. apply elem_of_add_range.
           right. exists i. split; [lia|done].
        -- right. exists i. split; [lia|done].
Qed.
Lemma count_back_spec (t : Z) (k count : nat) :
  (k ≤ bound)%nat →
  ∃ s, count_back ty t k count = Ok (count + (k - s))%nat ∧ (s ≤ k)%nat ∧
       (∀ j, (s ≤ j < k)%nat → f j = t) ∧ (s = 0%nat ∨ f (s - 1)%nat ≠ t).
Proof using ty_ok.
  revert count. induction k as [|k IH]; intros count Hk; simpl.
  - exists 0%nat. split; [f_equal; lia|]. split; [lia|].
    split; [intros; lia|by left].
  - rewrite ty_ok by lia. simpl. case_decide as Ht.
    + destruct (IH (S count)) as (s & Hrun & Hs & Heq & Hb); [lia|].
      exists s. split; [rewrite Hrun; f_equal; lia|]. split; [lia|].
      split; [|done].
      intros j Hj. destruct (decide (j = k)) as [->|]; [done|]. apply Heq. lia.
    + exists (S k). split; [f_equal; lia|]. split; [lia|].
      split; [intros; lia|right]. by replace (S k - 1)%nat with k by lia.
Qed.

Lemma count_forth_spec (t : Z) (k cc count : nat) :
  (cc + k = bound)%nat →
  ∃ e, count_forth ty t cc k count = Ok (count + (e - cc))%nat ∧
       (cc ≤ e ≤ bound)%nat ∧
       (∀ j, (cc ≤ j < e)%nat → f j = t) ∧ (e = bound ∨ f e ≠ t).
Proof using ty_ok.
  revert cc count. induction k as [|k IH]; intros cc count Hk; simpl.
  - exists cc. split; [f_equal; lia|]. split; [lia|].
    split; [intros; lia|left; lia].
  - rewrite ty_ok by lia. simpl. case_decide as Ht.
    + destruct (IH (S cc) (S count)) as (e & Hrun & He & Heq & Hb); [lia|].
      exists e. split; [rewrite Hrun; f_equal; lia|]. split; [lia|].
      split; [|done].
      intros j Hj. destruct (decide (j = cc)) as [->|]; [done|]. apply Heq. lia.
    + exists cc. split; [f_equal; lia|]. split; [lia|].
      split; [intros; lia|by right].
Qed.

(** The two counting loops measure the run around [c]. *)
Lemma line_count_spec (c : nat) :
  (c < bound)%nat →
  ∃ n, line_count ty (f c) c bound = Ok n ∧
       ((3 ≤ n)%nat ↔ in_long_run f bound c).
Proof using ty_ok.
  intros Hc. unfold line_count.
  destruct (count_back_spec (f c) c 1) as (s & Hback & Hs & Heqs & Hbs); [lia|].
  rewrite Hback. cbn [mbind result_bind].
  destruct (count_forth_spec (f c) (bound - S c) (S c) (1 + (c - s))%nat)
    as (e & Hforth & He & Heqe & Hbe); [lia|].
  rewrite Hforth. eexists. split; [done|].
  assert (f s = f c) as Hsc.
  { destruct (decide (s = c)) as [->|]; [done|]. apply Heqs. lia. }
  assert (run f bound s e) as Hrun.
  { split; [lia|]. rewrite Hsc. split; [|done].
    intros j Hj. destruct (decide (j < c)%nat); [apply Heqs; lia|].
    destruct (decide (j = c)) as [->|]; [done|]. apply Heqe. lia. }
  split.
  - intros Hn. exists s, e. split; [done|]. split; lia.
  - intros (s' & e' & Hrun' & Hi' & Hlen').
    destruct (run_unique f bound s e s' e' c) as [-> ->]; [done|done|lia|done|].
    lia.
Qed.
End Line.

(** ** [Board.find_matches] on well-formed, full boards *)

Section CrushFacts.
Import Crush CrushSpec.

Lemma full_cell_at (b : Board) (r c : nat) (x : option Tile) :
  full b → cell_at (grid b) r c = Some x → is_Some x.
Proof.
  unfold full, cell_at. intros Hfull Hx.
  destruct (grid b !! r) as [row|] eqn:Hr; [|done]. simpl in Hx.
  rewrite Forall_lookup in Hfull. specialize (Hfull _ _ Hr).
  rewrite Forall_lookup in Hfull. by eapply Hfull.
Qed.

Lemma cell_at_tile (b : Board) (r c : nat) :
  wf b → full b → (r < rows b)%nat → (c < cols b)%nat →
  ∃ t, cell_at (grid b) r c = Some (Some t) ∧ cell_type b r c = type t.
Proof.
  intros Hwf Hfull Hr Hc.
  destruct (shape_cell_at _ _ _ r c Hwf Hr Hc) as [x Hx].
  destruct (full_cell_at b r c x Hfull Hx) as [t ->].
  exists t. split; [done|]. unfold cell_type. by rewrite Hx.
Qed.

Lemma type_at_ok (b : Board) (r c : nat) :
  wf b → full b → (r < rows b)%nat → (c < cols b)%nat →
  type_at b (Z.of_nat r) (Z.of_nat c) = Ok (cell_type b r c).
Proof.
  intros Hwf Hfull Hr Hc.
  destruct (cell_at_tile b r c Hwf Hfull Hr Hc) as (t & Hx & ->).
  unfold type_at. by rewrite (getitem2_nat _ _ _ _ Hx).
Qed.

Lemma elem_of_range (n i : nat) : i ∈ range n ↔ (i < n)%nat.
Proof. unfold range. rewrite elem_of_seq. lia. Qed.

Lemma find_matches_spec (b : Board) :
  wf b → full b →
  ∃ S, find_matches b = Ok S ∧
       ∀ x, x ∈ S ↔ ∃ r c, x = (Z.of_nat r, Z.of_nat c) ∧ matched b r c.
Proof.
  intros Hwf Hfull. unfold find_matches.
  (* horizontal *)
  destruct (for_each_inv
    (fun done (S : gset (Z * Z)) => ∀ x, x ∈ S ↔
       ∃ r c, r ∈ done ∧ x = (Z.of_nat r, Z.of_nat c) ∧ (c < cols b)%nat ∧
              in_long_run (row_types b r) (cols b) c)
    (range (rows b))
    (fun r to_remove =>
       scan_line (fun c => type_at b (Z.of_nat r) (Z.of_nat c))
         (fun c => (Z.of_nat r, Z.of_nat c)) (cols b) (cols b) 0%nat to_remove)
    ∅) as (Sh & Hh & HSh).
  { intros x. split; [set_solver|]. intros (r & c & Hr & _). by inversion Hr. }
  { intros pre r post S Hsplit HS.
    assert (r < rows b)%nat as Hr.
    { apply elem_of_range. rewrite Hsplit. set_solver. }
    destruct (scan_line_spec (fun c => type_at b (Z.of_nat r) (Z.of_nat c))
                (row_types b r) (fun c => (Z.of_nat r, Z.of_nat c)) (cols b))
      with (fuel := cols b) (c := 0%nat) (acc := S) as (S' & HS' & Hmem);
      [intros i Hi; by apply type_at_ok|lia|lia|by left|].
    exists S'. split; [done|]. intros x. rewrite Hmem, HS. split.
    - intros [(r0 & c0 & Hr0 & -> & Hc0 & Hl)|(i & Hi & -> & Hl)].
      + exists r0, c0. split; [|done]. apply elem_of_app. by left.
      + exists r, i. split; [|split; [done|split; [lia|done]]].
        apply elem_of_app. right. by apply list_elem_of_singleton.
    - intros (r0 & c0 & Hr0 & -> & Hc0 & Hl).
      apply elem_of_app in Hr0 as [Hr0|Hr0].
      + left. by exists r0, c0.
      + apply list_elem_of_singleton in Hr0 as ->.
        right. exists c0. split; [lia|done]. }
  rewrite Hh. simpl.
  (* vertical *)
  destruct (for_each_inv
    (fun done (S : gset (Z * Z)) => ∀ x, x ∈ S ↔ x ∈ Sh ∨
       ∃ r c, c ∈ done ∧ x = (Z.of_nat r, Z.of_nat c) ∧ (r < rows b)%nat ∧
              in_long_run (col_types b c) (rows b) r)
    (range (cols b))
    (fun c to_remove =>
       scan_line (fun r => type_at b (Z.of_nat r) (Z.of_nat c))
         (fun r => (Z.of_nat r, Z.of_nat c)) (rows b) (rows b) 0%nat to_remove)
    Sh) as (Sv & Hv & HSv).
  { intros x. split; [by left|]. intros [?|(r & c & Hc & _)]; [done|].
    by inversion Hc. }
  { intros pre c post S Hsplit HS.
    assert (c < cols b)%nat as Hc.
    { apply elem_of_range. rewrite Hsplit. set_solver. }
    destruct (scan_line_spec (fun r => type_at b (Z.of_nat r) (Z.of_nat c))
                (col_types b c) (fun r => (Z.of_nat r, Z.of_nat c)) (rows b))
      with (fuel := rows b) (c := 0%nat) (acc := S) as (S' & HS' & Hmem);
      [intros i Hi; by apply type_at_ok|lia|lia|by left|].
    exists S'. split; [done|]. intros x. rewrite Hmem, HS. split.
    - intros [[?|(r0 & c0 & Hc0 & -> & Hr0 & Hl)]|(i & Hi & -> & Hl)].
      + by left.
      + right. exists r0, c0. split; [|done]. apply elem_of_app. by left.
      + right. exists i, c. split; [|split; [done|split; [lia|done]]].
        apply elem_of_app. right. by apply list_elem_of_singleton.
    - intros [?|(r0 & c0 & Hc0 & -> & Hr0 & Hl)]; [by left; left|].
      apply elem_of_app in Hc0 as [Hc0|Hc0].
      + left. right. by exists r0, c0.
      + apply list_elem_of_singleton in Hc0 as ->.
        right. exists r0. split; [lia|done]. }
  exists Sv. split; [done|]. intros x. rewrite HSv, HSh. unfold matched. split.
  - intros [(r & c & Hr & -> & Hc & Hl)|(r & c & Hc & -> & Hr & Hl)].
    + apply elem_of_range in Hr. exists r, c. split; [done|]. by eauto.
    + apply elem_of_range in Hc. exists r, c. split; [done|]. by eauto.
  - intros (r & c & -> & Hr & Hc & [Hl|Hl]).
    + left. exists r, c. by rewrite elem_of_range.
    + right. exists r, c. by rewrite elem_of_range.
Qed.

(** ** [Board._is_match_at] decides the match predicate *)

Lemma _is_match_at_spec (b : Board) (r c : nat) :
  wf b → full b → (r < rows b)%nat → (c < cols b)%nat →
  ∃ m, _is_match_at b r c = Ok m ∧ (m = true ↔ matched b r c).
Proof.
  intros Hwf Hfull Hr Hc. unfold _is_match_at.
  rewrite type_at_ok by done. simpl.
  destruct (line_count_spec (fun cc => type_at b (Z.of_nat r) (Z.of_nat cc))
              (row_types b r) (cols b)) with (c := c) as (n & Hn & Hrow);
    [intros i Hi; by apply type_at_ok|done|].
  unfold row_types in Hn at 1. rewrite Hn. simpl.
  destruct (line_count_spec (fun rr => type_at b (Z.of_nat rr) (Z.of_nat c))
              (col_types b c) (rows b)) with (c := r) as (n' & Hn' & Hcol);
    [intros i Hi; by apply type_at_ok|done|].
  unfold col_types in Hn' at 1.
  case_decide as H3.
  - exists true. split; [done|]. split; [|done]. intros _.
    split; [done|]. split; [done|]. left. by apply Hrow.
  - rewrite Hn'. simpl. eexists. split; [done|].
    rewrite bool_decide_eq_true. unfold matched. rewrite <- Hrow, <- Hcol.
    split; [by eauto|]. intros (_ & _ & [?|?]); [lia|done].
Qed.

(** ** Re-rolling one cell *)

Lemma differ_at_cell_type (b b' : Board) (r c r' c' : nat) :
  differ_at b b' r c → ¬ (r' = r ∧ c' = c) → cell_type b' r' c' = cell_type b r' c'.
Proof. intros Hd Hne. unfold cell_type. by rewrite Hd. Qed.

(** Re-rolling a cell until it is unmatched cannot make another cell
    matched. *)
Lemma matched_differ_at (b b' : Board) (r c r' c' : nat) :
  same_dims b b' → differ_at b b' r c → ¬ matched b' r c →
  matched b' r' c' → matched b r' c'.
Proof.
  intros [Hrows Hcols] Hd Hnot (Hr' & Hc' & Hrun).
  rewrite Hrows in Hr'. rewrite Hcols in Hc'.
  split; [done|]. split; [done|].
  rewrite !in_long_run_stretch in Hrun. rewrite !in_long_run_stretch.
  rewrite Hrows, Hcols in Hrun.
  destruct Hrun as [(s & e & Hi & He & Hlen & Heq)|(s & e & Hi & He & Hlen & Heq)].
  - left. exists s, e. split; [done|]. split; [done|]. split; [done|].
    assert (¬ (r' = r ∧ (s ≤ c < e)%nat)) as Hout.
    { intros [-> Hc]. apply Hnot. split; [lia|]. split; [lia|]. left.
      rewrite in_long_run_stretch, Hcols.
      exists s, e. split; [done|]. split; [done|]. split; [done|].
      intros j Hj. rewrite (Heq j Hj). symmetry. by apply Heq. }
    intros j Hj. unfold row_types in *.
    rewrite <- !(differ_at_cell_type b b' r c) by (done || intros [-> ->]; lia).
    by apply Heq.
  - right. exists s, e. split; [done|]. split; [done|]. split; [done|].
    assert (¬ (c' = c ∧ (s ≤ r < e)%nat)) as Hout.
    { intros [-> Hr]. apply Hnot. split; [lia|]. split; [lia|]. right.
      rewrite in_long_run_stretch, Hrows.
      exists s, e. split; [done|]. split; [done|]. split; [done|].
      intros j Hj. rewrite (Heq j Hj). symmetry. by apply Heq. }
    intros j Hj. unfold col_types in *.
    rewrite <- !(differ_at_cell_type b b' r c) by (done || intros [-> ->]; lia).
    by apply Heq.
Qed.

Lemma full_grid_set (g : list (list (option Tile))) (r c : nat) (t : Tile) :
  Forall (Forall is_Some) g → Forall (Forall is_Some) (grid_set g r c (Some t)).
Proof.
  intros Hfull. unfold grid_set. apply Forall_lookup. intros i row Hi.
  rewrite Forall_lookup in Hfull.
  destruct (decide (i = r)) as [->|Hne].
  - rewrite list_lookup_alter_eq in Hi.
    destruct (g !! r) as [row0|] eqn:Hr; [|done]. simpl in Hi. simplify_eq.
    apply Forall_insert; [by eapply Hfull|by eexists].
  - rewrite list_lookup_alter_ne in Hi by done. by eapply Hfull.
Qed.

Lemma reroll_spec (fuel : nat) (b b' : Board) (r c : nat) (rnd rnd' : RandomSource) :
  wf b → full b → (r < rows b)%nat → (c < cols b)%nat →
  reroll fuel b r c rnd = Ok (b', rnd') →
  wf b' ∧ full b' ∧ same_dims b b' ∧ differ_at b b' r c ∧ ¬ matched b' r c.
Proof.
  revert b rnd. induction fuel as [|fuel IH]; intros b rnd Hwf Hfull Hr Hc Hrun;
    [done|].
  simpl in Hrun.
  destruct (_is_match_at_spec b r c Hwf Hfull Hr Hc) as (m & Hm & Hmatched).
  rewrite Hm in Hrun. simpl in Hrun. destruct m.
  - apply bind_Ok in Hrun as ([t rnd1] & Hch & Hrun).
    rewrite setitem2_nat in Hrun by (by eapply shape_cell_at). simpl in Hrun.
    apply IH in Hrun as (Hwf' & Hfull' & [Hrows Hcols] & Hd & Hnot);
      [|by apply shape_grid_set|by apply full_grid_set|done|done].
    split; [done|]. split; [done|]. split; [done|]. split; [|done].
    intros r' c' Hne. rewrite (Hd r' c' Hne). simpl.
    rewrite cell_at_grid_set by (by eapply shape_cell_at).
    by rewrite decide_False.
  - simplify_eq. split; [done|]. split; [done|]. split; [done|].
    split; [done|]. intros Hmt. apply Hmatched in Hmt. done.
Qed.

(** ** Construction *)

Lemma list_comp_spec {A : Type} (P : A → Prop) (n : nat)
    (gen : RandomSource → result (A * RandomSource)) (rnd rnd' : RandomSource)
    (l : list A) :
  (∀ g x g', gen g = Ok (x, g') → P x) →
  list_comp n gen rnd = Ok (l, rnd') → length l = n ∧ Forall P l.
Proof.
  intros Hgen. revert rnd l. induction n as [|n IH]; intros rnd l Hrun;
    simpl in Hrun.
  - by simplify_eq.
  - apply bind_Ok in Hrun as ([x rnd1] & Hx & Hrun).
    apply bind_Ok in Hrun as ([xs rnd2] & Hxs & Hrun). simplify_eq.
    apply IH in Hxs as [Hlen Hall]. split; [simpl; lia|].
    constructor; [by eapply Hgen|done].
Qed.

Lemma random_tile_is_Some (g g' : RandomSource) (x : option Tile) :
  random_tile g = Ok (x, g') → is_Some x.
Proof.
  unfold random_tile. intros H. apply bind_Ok in H as ([t g1] & _ & H).
  simplify_eq. by eexists.
Qed.

Lemma _remove_initial_matches_spec (fuel : nat) (b b' : Board)
    (rnd rnd' : RandomSource) :
  wf b → full b →
  _remove_initial_matches fuel b rnd = Ok (b', rnd') →
  wf b' ∧ full b' ∧ same_dims b b' ∧ ∀ r c, ¬ matched b' r c.
Proof.
  intros Hwf Hfull Hrun. unfold _remove_initial_matches in Hrun.
  pose (Inv := fun (rs : list nat) (r : option nat) (cs : list nat)
                   (st : Board * RandomSource) =>
     wf st.1 ∧ full st.1 ∧ same_dims b st.1 ∧
     (∀ r0 c0, r0 ∈ rs → ¬ matched st.1 r0 c0) ∧
     (∀ c0, c0 ∈ cs → match r with Some r => ¬ matched st.1 r c0 | None => True end)).
  assert (Inv (range (rows b)) None [] (b', rnd')) as (? & ? & ? & Hall & _).
  { apply (for_each_Ok_inv (fun rs st => Inv rs None [] st) _ _ _ _ Hrun).
    - split; [done|]. split; [done|]. split; [done|].
      split; [|done]. intros r0 c0 Hr0. by inversion Hr0.
    - intros pre r post st st' Hsplit (Hwf1 & Hfull1 & Hdims1 & Hpre1 & _) Hrow.
      assert (r < rows b)%nat as Hr.
      { apply elem_of_range. rewrite Hsplit. set_solver. }
      assert (Inv pre (Some r) (range (cols b)) st') as
        (Hwf2 & Hfull2 & Hdims2 & Hpre2 & Hrow2).
      { apply (for_each_Ok_inv (fun cs st => Inv pre (Some r) cs st) _ _ _ _ Hrow).
        - split; [done|]. split; [done|]. split; [done|]. split; [done|].
          intros c0 Hc0. by inversion Hc0.
        - intros cpre c cpost [b1 rnd1] [b2 rnd2] Hcsplit
            (Hwf3 & Hfull3 & Hdims3 & Hpre3 & Hrow3) Hcell. simpl in *.
          assert (c < cols b)%nat as Hc.
          { apply elem_of_range. rewrite Hcsplit. set_solver. }
          destruct Hdims3 as [Hrows3 Hcols3].
          apply reroll_spec in Hcell as (Hwf4 & Hfull4 & Hdims4 & Hd & Hnot);
            [|done|done|lia|lia].
          split; [done|]. split; [done|]. split.
          { destruct Hdims4 as [? ?]. split; simpl; congruence. }
          split.
          + intros r0 c0 Hr0 Hm. apply (Hpre3 r0 c0 Hr0).
            by apply (matched_differ_at b1 b2 r c).
          + intros c0 Hc0 Hm. apply elem_of_app in Hc0 as [Hc0|Hc0].
            * apply (Hrow3 c0 Hc0). by apply (matched_differ_at b1 b2 r c).
            * apply list_elem_of_singleton in Hc0 as ->. done. }
      split; [done|]. split; [done|]. split; [done|]. split; [|done].
      intros r0 c0 Hr0 Hm. apply elem_of_app in Hr0 as [Hr0|Hr0].
      + by apply (Hpre2 r0 c0).
      + apply list_elem_of_singleton in Hr0 as ->.
        assert (c0 < cols st'.1)%nat as Hc0 by (by destruct Hm as (_ & ? & _)).
        destruct Hdims2 as [_ Hcols2]. rewrite Hcols2 in Hc0.
        apply (Hrow2 c0); [by apply elem_of_range|done]. }
  simpl in *. split; [done|]. split; [done|]. split; [done|].
  intros r c Hm. apply (Hall r c); [|done].
  destruct Hm as (Hr & _). apply elem_of_range.
  destruct H1 as [Hrows _]. by rewrite <- Hrows.
Qed.

Lemma Board_init_spec (fuel nrows ncols : nat) (rnd rnd' : RandomSource) (b : Board) :
  Board_init fuel nrows ncols rnd = Ok (b, rnd') →
  rows b = nrows ∧ cols b = ncols ∧ wf b ∧ full b ∧ ∀ r c, ¬ matched b r c.
Proof.
  unfold Board_init. intros Hrun.
  apply bind_Ok in Hrun as ([g rnd1] & Hg & Hrun).
  apply (list_comp_spec (fun row => length row = ncols ∧ Forall is_Some row))
    in Hg as [Hlen Hrows].
  2:{ intros g0 row g1 Hrow.
      apply (list_comp_spec is_Some) in Hrow; [done|].
      intros g2 x g3. apply random_tile_is_Some. }
  apply _remove_initial_matches_spec in Hrun as (Hwf & Hfull & [Hr Hc] & Hnone).
  - done.
  - split; [done|]. simpl. eapply Forall_impl; [done|]. by intros row [? _].
  - unfold full. simpl. eapply Forall_impl; [done|]. by intros row [_ ?].
Qed.

(** A board on which no cell is matched has no matches. *)
Lemma find_matches_empty (b : Board) :
  wf b → full b → (∀ r c, ¬ matched b r c) → find_matches b = Ok ∅.
Proof.
  intros Hwf Hfull Hnone.
  destruct (find_matches_spec b Hwf Hfull) as (S & HS & Hmem).
  rewrite HS. f_equal. apply set_eq. intros x. rewrite Hmem.
  split; [|set_solver]. intros (r & c & _ & Hm). by destruct (Hnone r c).
Qed.

End CrushFacts.

(** ** Columns and gravity, for all three games *)

Lemma omap_id_fmap {A V : Type} (rd : A → option V) (l : list A) :
  omap id (rd <$> l) = omap rd l.
Proof.
  induction l as [|x l IH]; [done|]. csimpl. rewrite IH. by destruct (rd x).
Qed.

Lemma omap_reverse {A V : Type} (f : A → option V) (l : list A) :
  omap f (reverse l) = reverse (omap f l).
Proof.
  induction l as [|x l IH]; [done|].
  rewrite reverse_cons, omap_app, IH. csimpl.
  destruct (f x); [by rewrite reverse_cons|by rewrite app_nil_r].
Qed.

Lemma length_omap_le {A V : Type} (f : A → option V) (l : list A) :
  (length (omap f l) ≤ length l)%nat.
Proof. induction l as [|x l IH]; [done|]. csimpl. destruct (f x); simpl; lia. Qed.

Lemma omap_all_Some {V : Type} (col : list (option V)) :
  Forall is_Some col → Some <$> omap id col = col.
Proof.
  induction 1 as [|x col [v ->] _ IH]; [done|]. csimpl. by rewrite IH.
Qed.

Lemma length_column {V : Type} (rd : nat → option V) (n : nat) :
  length (column rd n) = n.
Proof. unfold column. by rewrite length_fmap, length_seq. Qed.

Lemma lookup_column {V : Type} (rd : nat → option V) (n r : nat) :
  (r < n)%nat → column rd n !! r = Some (rd r).
Proof.
  intros Hr. unfold column. by rewrite list_lookup_fmap, lookup_seq_lt.
Qed.

Lemma column_ext {V : Type} (rd rd' : nat → option V) (n : nat) :
  (∀ r, (r < n)%nat → rd r = rd' r) → column rd n = column rd' n.
Proof.
  intros Hext. unfold column. apply list_fmap_ext.
  intros i r Hr. apply lookup_seq in Hr as [-> Hr]. by apply Hext.
Qed.

Lemma survivors_column {V : Type} (rd : nat → option V) (n : nat) :
  survivors (column rd n) = omap rd (seq 0 n).
Proof. unfold survivors, column. apply omap_id_fmap. Qed.

Lemma vacated_le {V : Type} (col : list (option V)) :
  (vacated col ≤ length col)%nat.
Proof. unfold vacated. lia. Qed.

Lemma vacated_plus {V : Type} (col : list (option V)) :
  (vacated col + length (survivors col) = length col)%nat.
Proof. unfold vacated, survivors. pose proof (length_omap_le id col). lia. Qed.

(** Position by position. *)
Lemma compacted_intro {V : Type} (filler : option V → Prop)
    (old new : list (option V)) :
  length new = length old →
  (∀ r, (r < vacated old)%nat → ∃ x, new !! r = Some x ∧ filler x) →
  (∀ j t, survivors old !! j = Some t →
          new !! (vacated old + j)%nat = Some (Some t)) →
  compacted filler old new.
Proof.
  intros Hlen Hfill Hsurv. split; [done|]. split.
  - apply list_eq. intros j. rewrite lookup_drop, list_lookup_fmap.
    destruct (survivors old !! j) as [t|] eqn:Hj.
    + by rewrite (Hsurv j t).
    + simpl. apply lookup_ge_None. apply lookup_ge_None in Hj.
      pose proof (vacated_plus old). lia.
  - apply Forall_lookup. intros r x Hr.
    apply lookup_take_Some in Hr as [Hr Hlt].
    destruct (Hfill r Hlt) as (x' & Hx' & HP). congruence.
Qed.

(** With no empty cell, gravity changes nothing. *)
Lemma compacted_no_empty {V : Type} (filler : option V → Prop)
    (old new : list (option V)) :
  Forall is_Some old → compacted filler old new → new = old.
Proof.
  intros Hall (Hlen & Hdrop & _).
  assert (vacated old = 0%nat) as Hk.
  { unfold vacated, survivors. rewrite <- (omap_all_Some old Hall) at 1.
    rewrite length_fmap. lia. }
  rewrite Hk, drop_0 in Hdrop. rewrite Hdrop.
  by apply omap_all_Some.
Qed.

(** The bottom-most survivor lands on the bottom row. *)
Lemma compacted_last {V : Type} (filler : option V → Prop)
    (old new : list (option V)) (t : V) :
  compacted filler old new → last (survivors old) = Some t →
  last new = Some (Some t).
Proof.
  intros (Hlen & Hdrop & _) Hlast.
  rewrite <- (take_drop (vacated old) new), Hdrop.
  destruct (survivors old) as [|t0 l] using rev_ind; [done|].
  rewrite last_snoc in Hlast. simplify_eq.
  rewrite fmap_app. change (Some <$> [t]) with [Some t].
  by rewrite app_assoc, last_snoc.
Qed.

(** Nothing is left empty when the fillers are not. *)
Lemma compacted_all_Some {V : Type} (filler : option V → Prop)
    (old new : list (option V)) :
  (∀ x, filler x → is_Some x) → compacted filler old new → Forall is_Some new.
Proof.
  intros HP (Hlen & Hdrop & Htake).
  rewrite <- (take_drop (vacated old) new). apply Forall_app. split.
  - eapply Forall_impl; [done|]. done.
  - rewrite Hdrop. apply Forall_fmap. apply Forall_true. intros t. by eexists.
Qed.

(** The loop that collects the non-empty cells of a column. *)
Lemma collect_loop {V : Type} (read : nat → result (option V))
    (rd : nat → option V) (rs : list nat) (acc : list V) :
  (∀ r, r ∈ rs → read r = Ok (rd r)) →
  for_each rs (fun r stack =>
    x ← read r;
    match x with
    | Some t => Ok (stack ++ [t])
    | None => Ok stack
    end) acc = Ok (acc ++ omap rd rs).
Proof.
  revert acc. induction rs as [|r rs IH]; intros acc Hread; simpl.
  - by rewrite app_nil_r.
  - rewrite Hread by (by left). simpl. csimpl.
    destruct (rd r) as [t|]; simpl.
    + rewrite IH by (intros; apply Hread; by right). by rewrite <- app_assoc.
    + apply IH. intros; apply Hread; by right.
Qed.

Lemma lookup_range_down (n i : nat) :
  (i < n)%nat → range_down n !! i = Some (n - S i)%nat.
Proof.
  intros Hi. unfold range_down.
  rewrite reverse_lookup by (by rewrite length_seq).
  rewrite length_seq. by rewrite lookup_seq_lt by lia.
Qed.

Lemma elem_of_range_down (n i : nat) : i ∈ range_down n ↔ (i < n)%nat.
Proof. unfold range_down. rewrite elem_of_reverse, elem_of_seq. lia. Qed.

Lemma NoDup_range_down (n : nat) : NoDup (range_down n).
Proof. unfold range_down. rewrite reverse_Permutation. apply NoDup_seq. Qed.

Lemma entry_Some {V : Type} (g : list (list (option V))) (r c : nat) (x : option V) :
  cell_at g r c = Some x → entry g r c = x.
Proof. unfold entry. by intros ->. Qed.

(** ** [Board.remove_and_collapse] *)

Section CrushCollapse.
Import Crush CrushSpec.

Lemma random_choice_spec {A : Type} (l : list A) (rnd : RandomSource) :
  l ≠ [] → ∃ x, x ∈ l ∧ random_choice l rnd = Ok (x, next rnd).
Proof.
  intros Hl. unfold random_choice.
  destruct (lookup_lt_is_Some_2 l (rnd 0%nat mod length l)%nat) as [x Hx].
  { apply Nat.mod_upper_bound. by destruct l. }
  exists x. rewrite Hx. split; [by eapply list_elem_of_lookup_2|done].
Qed.

Lemma random_tile_spec (rnd : RandomSource) :
  ∃ x, fresh_tile x ∧ random_tile rnd = Ok (x, next rnd).
Proof.
  destruct (random_choice_spec TILE_TYPES rnd) as (ty & Hty & Hch); [done|].
  exists (Some (new_Tile ty)). split; [by exists ty|].
  unfold random_tile. by rewrite Hch.
Qed.

(** The loop that fills a column from the bottom, over any rows [rs]. *)
Lemma fill_loop_spec (nr nc c : nat) (rs : list nat)
    (g : list (list (option Tile))) (stack : list Tile) (rnd : RandomSource) :
  shape g nr nc → (c < nc)%nat → (∀ r, r ∈ rs → (r < nr)%nat) → NoDup rs →
  ∃ g' stack' rnd',
    for_each rs (fun r '(g, stack, rnd) =>
      match stack with
      | t :: stack' =>
          g' ← setitem2 g (Z.of_nat r) (Z.of_nat c) (Some t);
          Ok (g', stack', rnd)
      | [] =>
          '(x, rnd') ← random_tile rnd;
          g' ← setitem2 g (Z.of_nat r) (Z.of_nat c) x;
          Ok (g', [], rnd')
      end) (g, stack, rnd) = Ok (g', stack', rnd') ∧
    shape g' nr nc ∧
    rnd' = after (length rs - length stack) rnd ∧
    (∀ r c', ¬ (r ∈ rs ∧ c' = c) → cell_at g' r c' = cell_at g r c') ∧
    (∀ i r, rs !! i = Some r →
       match stack !! i with
       | Some t => cell_at g' r c = Some (Some t)
       | None => ∃ x, fresh_tile x ∧ cell_at g' r c = Some x
       end).
Proof.
  intros Hshape Hc. revert g stack rnd Hshape.
  induction rs as [|r rs IH]; intros g stack rnd Hshape Hrs Hnd.
  - exists g, stack, rnd. split; [done|]. split; [done|]. split; [done|].
    split; [done|]. intros i r Hi. by rewrite lookup_nil in Hi.
  - apply NoDup_cons in Hnd as [Hr Hnd].
    assert (is_Some (cell_at g r c)) as Hcell.
    { eapply shape_cell_at; [done| |done]. apply Hrs. by left. }
    assert (∀ r0, r0 ∈ rs → (r0 < nr)%nat) as Hrs' by (intros; apply Hrs; by right).
    simpl. destruct stack as [|t stack].
    + destruct (random_tile_spec rnd) as (x & Hfresh & Hx). rewrite Hx. simpl.
      rewrite setitem2_nat by done. simpl.
      destruct (IH (grid_set g r c x) [] (next rnd))
        as (g' & stack' & rnd' & Hrun & Hshape' & Hrnd & Hother & Hcol);
        [by apply shape_grid_set|done|done|].
      exists g', stack', rnd'. split; [done|]. split; [done|]. split.
      { rewrite Hrnd. unfold after.
        replace (length (r :: rs) - length (@nil Tile))%nat with (S (length rs))
          by (simpl; lia).
        replace (length rs - length (@nil Tile))%nat with (length rs)
          by (simpl; lia).
        symmetry. apply (Nat.iter_succ_r (length rs) next rnd). }
      split.
      * intros r0 c0 Hne. rewrite Hother by (intros [? ?]; apply Hne; split;
          [by right|done]).
        rewrite cell_at_grid_set by done. rewrite decide_False; [done|].
        intros [-> ->]. apply Hne. split; [by left|done].
      * intros [|i] r0 Hi; simpl in Hi.
        -- simplify_eq. simpl. exists x. split; [done|].
           rewrite Hother by (intros [? _]; done).
           rewrite cell_at_grid_set by done. by rewrite decide_True.
        -- specialize (Hcol i r0 Hi). by rewrite lookup_nil in Hcol.
    + rewrite setitem2_nat by done. simpl.
      destruct (IH (grid_set g r c (Some t)) stack rnd)
        as (g' & stack' & rnd' & Hrun & Hshape' & Hrnd & Hother & Hcol);
        [by apply shape_grid_set|done|done|].
      exists g', stack', rnd'. split; [done|]. split; [done|]. split; [done|].
      split.
      * intros r0 c0 Hne. rewrite Hother by (intros [? ?]; apply Hne; split;
          [by right|done]).
        rewrite cell_at_grid_set by done. rewrite decide_False; [done|].
        intros [-> ->]. apply Hne. split; [by left|done].
      * intros [|i] r0 Hi; simpl in Hi.
        -- simplify_eq. simpl.
           rewrite Hother by (intros [? _]; done).
           rewrite cell_at_grid_set by done. by rewrite decide_True.
        -- by apply Hcol.
Qed.

Lemma collapse_column_spec (nr nc c : nat) (g : list (list (option Tile)))
    (rnd : RandomSource) :
  shape g nr nc → (c < nc)%nat →
  ∃ g' rnd',
    collapse_column nr c (g, rnd) = Ok (g', rnd') ∧
    shape g' nr nc ∧
    rnd' = after (vacated (column (fun r => entry g r c) nr)) rnd ∧
    (∀ r c', c' ≠ c → cell_at g' r c' = cell_at g r c') ∧
    compacted fresh_tile (column (fun r => entry g r c) nr)
                         (column (fun r => entry g' r c) nr).
Proof.
  intros Hshape Hc. unfold collapse_column.
  rewrite (collect_loop _ (fun r => entry g r c)); cycle 1.
  { intros r Hr. apply elem_of_range_down in Hr.
    destruct (shape_cell_at g nr nc r c Hshape Hr Hc) as [x Hx].
    rewrite (getitem2_nat _ _ _ _ Hx). by rewrite (entry_Some _ _ _ _ Hx). }
  cbn [mbind result_bind app].
  set (old := column (fun r => entry g r c) nr).
  assert (omap (fun r => entry g r c) (range_down nr) = reverse (survivors old))
    as Hstack.
  { unfold range_down, old. by rewrite omap_reverse, survivors_column. }
  rewrite Hstack.
  destruct (fill_loop_spec nr nc c (range_down nr) g (reverse (survivors old)) rnd)
    as (g' & stack' & rnd' & Hrun & Hshape' & Hrnd & Hother & Hcol);
    [done|done|by intros r Hr; apply elem_of_range_down|apply NoDup_range_down|].
  rewrite Hrun. cbn [mbind result_bind].
  pose proof (vacated_plus old) as Hk.
  assert (length old = nr) as Hlen by apply length_column.
  exists g', rnd'. split; [done|]. split; [done|]. split.
  { rewrite Hrnd. f_equal. unfold range_down.
    rewrite !length_reverse, length_seq. unfold vacated. lia. }
  split.
  { intros r c' Hne. apply Hother. by intros [_ ?]. }
  apply compacted_intro.
  - by rewrite !length_column.
  - intros r Hr.
    assert (r < nr)%nat as Hrn by (pose proof (vacated_le old); lia).
    rewrite lookup_column by done.
    specialize (Hcol (nr - S r)%nat r).
    rewrite lookup_range_down in Hcol by lia.
    rewrite lookup_ge_None_2 in Hcol by (rewrite length_reverse; lia).
    destruct Hcol as (x & Hfresh & Hx); [f_equal; lia|].
    exists x. split; [|done]. by rewrite (entry_Some _ _ _ _ Hx).
  - intros j t Hj.
    assert (j < length (survivors old))%nat as Hjlt by (by eapply lookup_lt_Some).
    rewrite lookup_column by lia.
    specialize (Hcol (nr - S (vacated old + j))%nat (vacated old + j)%nat).
    rewrite lookup_range_down in Hcol by lia.
    rewrite reverse_lookup in Hcol by lia.
    replace (length (survivors old) - S (nr - S (vacated old + j)))%nat with j
      in Hcol by lia.
    rewrite Hj in Hcol. rewrite (entry_Some _ _ _ (Some t)); [done|].
    apply Hcol. f_equal. lia.
Qed.

Lemma collapse_spec (b : Board) (rnd : RandomSource) :
  wf b →
  ∃ b' rnd',
    collapse b rnd = Ok (b', rnd') ∧ wf b' ∧ same_dims b b' ∧
    rnd' = after (sum_list_with (fun c => vacated (board_column b c))
                                (range (cols b))) rnd ∧
    ∀ c, (c < cols b)%nat →
      compacted fresh_tile (board_column b c) (board_column b' c).
Proof.
  intros Hwf. unfold collapse.
  destruct (for_each_inv
    (fun done (st : list (list (option Tile)) * RandomSource) =>
       shape st.1 (rows b) (cols b) ∧
       st.2 = after (sum_list_with (fun c => vacated (board_column b c)) done) rnd ∧
       (∀ r c, c ∉ done → cell_at st.1 r c = cell_at (grid b) r c) ∧
       (∀ c, c ∈ done →
          compacted fresh_tile (board_column b c)
            (column (fun r => entry st.1 r c) (rows b))))
    (range (cols b)) (collapse_column (rows b)) (grid b, rnd))
    as ([g' rnd'] & Hrun & Hshape & Hrnd & _ & Hcols).
  { split; [done|]. split; [done|]. split; [done|]. intros c Hc. by inversion Hc. }
  { intros pre c post [g1 rnd1] Hsplit (Hshape1 & Hrnd1 & Hrest1 & Hdone1).
    simpl in *.
    assert (c < cols b)%nat as Hc.
    { apply elem_of_range. rewrite Hsplit. set_solver. }
    assert (c ∉ pre) as Hfresh.
    { pose proof (NoDup_seq 0 (cols b)) as Hnd. fold (range (cols b)) in Hnd.
      rewrite Hsplit in Hnd. apply NoDup_app in Hnd as (_ & Hnd & _).
      intros Hin. apply (Hnd c Hin). by left. }
    destruct (collapse_column_spec (rows b) (cols b) c g1 rnd1 Hshape1 Hc)
      as (g2 & rnd2 & Hrun2 & Hshape2 & Hrnd2 & Hother2 & Hcomp2).
    assert (column (fun r => entry g1 r c) (rows b) = board_column b c) as Hcol1.
    { apply column_ext. intros r _. unfold entry. by rewrite Hrest1. }
    exists (g2, rnd2). split; [done|]. simpl. split; [done|]. split.
    { rewrite Hrnd2, Hrnd1, Hcol1. unfold after. rewrite <- Nat.iter_add.
      f_equal. rewrite sum_list_with_app. simpl. lia. }
    split.
    - intros r c' Hc'. rewrite Hother2.
      + apply Hrest1. intros ?. apply Hc'. apply elem_of_app. by left.
      + intros ->. apply Hc'. apply elem_of_app. right. by left.
    - intros c' Hc'. apply elem_of_app in Hc' as [Hc'|Hc'].
      + replace (column (fun r => entry g2 r c') (rows b))
          with (column (fun r => entry g1 r c') (rows b)); [by apply Hdone1|].
        apply column_ext. intros r _. unfold entry. rewrite Hother2; [done|].
        by intros ->.
      + apply list_elem_of_singleton in Hc' as ->. by rewrite <- Hcol1. }
  rewrite Hrun. cbn [mbind result_bind]. simpl in *.
  exists (set_grid b g'), rnd'. split; [done|]. split; [done|]. split; [done|].
  split; [done|]. intros c Hc. apply Hcols. by apply elem_of_range.
Qed.

End CrushCollapse.

Section CrushRemove.
Import Crush CrushSpec.

Lemma on_grid_coord_of (nr nc : nat) (x : Z * Z) :
  on_grid nr nc x →
  ∃ r c, x = coord_of r c ∧ (r < nr)%nat ∧ (c < nc)%nat.
Proof.
  destruct x as [r c]. intros [Hr Hc]. simpl in *.
  exists (Z.to_nat r), (Z.to_nat c). unfold coord_of.
  rewrite !Z2Nat.id by lia. split; [done|]. lia.
Qed.

Lemma coord_of_inj (r c r' c' : nat) :
  coord_of r c = coord_of r' c' → r = r' ∧ c = c'.
Proof. unfold coord_of. intros H. simplify_eq. lia. Qed.

(** The marking loop over a list of coordinates. *)
Lemma mark_loop_spec (nr nc : nat) (l : list (Z * Z))
    (g : list (list (option Tile))) (removed : Z) :
  shape g nr nc → (∀ x, x ∈ l → on_grid nr nc x) →
  ∃ g' removed',
    for_each l (fun '(r, c) '(g, removed) =>
      x ← getitem2 g r c;
      match x with
      | Some _ => g' ← setitem2 g r c None; Ok (g', removed + 1)
      | None => Ok (g, removed)
      end) (g, removed) = Ok (g', removed') ∧
    shape g' nr nc ∧
    (∀ r c, cell_at g' r c =
       if decide (coord_of r c ∈ l) then Some None else cell_at g r c) ∧
    (NoDup l →
     (∀ r c, coord_of r c ∈ l → ∃ t, cell_at g r c = Some (Some t)) →
     removed' = removed + Z.of_nat (length l)).
Proof.
  unfold coord_of.
  revert g removed. induction l as [|x l IH]; intros g removed Hshape Hl.
  - exists g, removed. split; [done|]. split; [done|]. split.
    + intros r c. rewrite decide_False; [done|]. apply not_elem_of_nil.
    + intros _ _. simpl. lia.
  - destruct (on_grid_coord_of nr nc x) as (r & c & -> & Hr & Hc);
      [apply Hl; by left|].
    unfold coord_of in *.
    destruct (shape_cell_at g nr nc r c Hshape Hr Hc) as [y Hy].
    assert (∀ x, x ∈ l → on_grid nr nc x) as Hl' by (intros; apply Hl; by right).
    cbn [for_each]. rewrite (getitem2_nat _ _ _ _ Hy). cbn [mbind result_bind].
    destruct y as [t|].
    + rewrite setitem2_nat by done. cbn [mbind result_bind].
      destruct (IH (grid_set g r c None) (removed + 1))
        as (g' & removed' & Hrun & Hshape' & Hcells & Hcount);
        [by apply shape_grid_set|done|].
      exists g', removed'. split; [done|]. split; [done|]. split.
      * intros r0 c0. rewrite Hcells. rewrite cell_at_grid_set by done.
        destruct (decide (r0 = r ∧ c0 = c)) as [[-> ->]|Hne].
        -- destruct (decide ((Z.of_nat r, Z.of_nat c) ∈ (Z.of_nat r, Z.of_nat c) :: l))
             as [_|Hn]; [by case_decide|].
           exfalso. apply Hn. by left.
        -- destruct (decide ((Z.of_nat r0, Z.of_nat c0) ∈ l)) as [Hin|Hin].
           ++ rewrite decide_True; [done|by right].
           ++ rewrite decide_False; [done|].
              intros Hin'. apply elem_of_cons in Hin' as [Heq|?]; [|done].
              apply (coord_of_inj r0 c0 r c) in Heq. done.
      * intros Hnd Htiles. apply NoDup_cons in Hnd as [Hx Hnd].
        rewrite Hcount; [simpl length; lia|done|].
        intros r0 c0 Hin. destruct (Htiles r0 c0) as [t0 Ht0]; [by right|].
        exists t0. rewrite cell_at_grid_set by done.
        rewrite decide_False; [done|]. intros [-> ->]. done.
    + destruct (IH g removed)
        as (g' & removed' & Hrun & Hshape' & Hcells & Hcount); [done|done|].
      exists g', removed'. split; [done|]. split; [done|]. split.
      * intros r0 c0. rewrite Hcells.
        destruct (decide ((Z.of_nat r0, Z.of_nat c0) ∈ l)) as [Hin|Hin].
        -- rewrite decide_True; [done|by right].
        -- destruct (decide ((Z.of_nat r0, Z.of_nat c0) ∈ (Z.of_nat r, Z.of_nat c) :: l))
             as [Hin'|]; [|done].
           apply elem_of_cons in Hin' as [Heq|?]; [|done].
           apply (coord_of_inj r0 c0 r c) in Heq as [-> ->]. done.
      * intros Hnd Htiles. destruct (Htiles r c) as [t0 Ht0]; [by left|].
        congruence.
Qed.

Lemma mark_removed_spec (nr nc : nat) (g : list (list (option Tile)))
    (remove_coords : gset (Z * Z)) :
  shape g nr nc → (∀ x, x ∈ remove_coords → on_grid nr nc x) →
  ∃ g' removed,
    mark_removed g remove_coords = Ok (g', removed) ∧
    shape g' nr nc ∧
    (∀ r c, cell_at g' r c =
       if decide (coord_of r c ∈ remove_coords) then Some None else cell_at g r c) ∧
    (Forall (Forall is_Some) g → removed = Z.of_nat (size remove_coords)).
Proof.
  intros Hshape Hon. unfold mark_removed.
  destruct (mark_loop_spec nr nc (elements remove_coords) g 0)
    as (g' & removed & Hrun & Hshape' & Hcells & Hcount);
    [done|by intros x Hx; apply Hon, elem_of_elements|].
  exists g', removed. split; [done|]. split; [done|]. split.
  - intros r c. rewrite Hcells.
    destruct (decide (coord_of r c ∈ remove_coords)) as [Hin|Hin].
    + rewrite decide_True; [done|]. by apply elem_of_elements.
    + rewrite decide_False; [done|]. by rewrite elem_of_elements.
  - intros Hfull. rewrite Hcount; [done|apply NoDup_elements|].
    intros r c Hin. apply elem_of_elements in Hin.
    destruct (on_grid_coord_of nr nc _ (Hon _ Hin)) as (r' & c' & Heq & Hr & Hc).
    apply coord_of_inj in Heq as [-> ->].
    destruct (shape_cell_at g nr nc r' c' Hshape Hr Hc) as [y Hy].
    assert (is_Some y) as [t ->]; [|by exists t].
    unfold cell_at in Hy. destruct (g !! r') as [row|] eqn:Hrow; [|done].
    rewrite Forall_lookup in Hfull. specialize (Hfull _ _ Hrow).
    rewrite Forall_lookup in Hfull. by eapply Hfull.
Qed.

(** A grid whose every column is full is full. *)
Lemma full_of_columns (b : Board) :
  wf b →
  (∀ c, (c < cols b)%nat → Forall is_Some (board_column b c)) → full b.
Proof.
  intros [Hlen Hrows] Hcols. unfold full.
  apply Forall_lookup. intros r row Hrow. apply Forall_lookup. intros c x Hx.
  rewrite Forall_lookup in Hrows.
  assert (c < cols b)%nat as Hc.
  { rewrite <- (Hrows _ _ Hrow). by eapply lookup_lt_Some. }
  assert (r < rows b)%nat as Hr.
  { rewrite <- Hlen. by eapply lookup_lt_Some. }
  specialize (Hcols c Hc). rewrite Forall_lookup in Hcols.
  specialize (Hcols r (entry (grid b) r c)).
  unfold board_column in Hcols. rewrite lookup_column in Hcols by done.
  specialize (Hcols eq_refl).
  unfold entry, cell_at in Hcols. rewrite Hrow in Hcols. simpl in Hcols.
  by rewrite Hx in Hcols.
Qed.

Lemma fresh_tile_is_Some (x : option Tile) : fresh_tile x → is_Some x.
Proof. intros (ty & _ & ->). by eexists. Qed.

Lemma remove_and_collapse_spec (b : Board) (remove_coords : gset (Z * Z))
    (rnd : RandomSource) :
  wf b → (∀ x, x ∈ remove_coords → on_grid (rows b) (cols b) x) →
  ∃ b' removed rnd',
    remove_and_collapse b remove_coords rnd = Ok (b', removed, rnd') ∧
    wf b' ∧ full b' ∧ same_dims b b' ∧
    (full b → removed = Z.of_nat (size remove_coords)).
Proof.
  intros Hwf Hon. unfold remove_and_collapse.
  destruct (mark_removed_spec (rows b) (cols b) (grid b) remove_coords Hwf Hon)
    as (g & removed & Hmark & Hshape & Hcells & Hcount).
  rewrite Hmark. cbn [mbind result_bind].
  destruct (collapse_spec (set_grid b g) rnd Hshape)
    as (b' & rnd' & Hrun & Hwf' & Hdims & _ & Hcols).
  rewrite Hrun. cbn [mbind result_bind].
  exists b', removed, rnd'. split; [done|]. split; [done|]. split; [|done].
  apply full_of_columns; [done|]. intros c Hc.
  destruct Hdims as [_ Hcols']. simpl in Hcols'. rewrite Hcols' in Hc.
  eapply compacted_all_Some; [apply fresh_tile_is_Some|]. by apply Hcols.
Qed.

End CrushRemove.

(** ** The cascade loop *)

Section CrushCascade.
Import Crush CrushSpec.

Lemma find_matches_on_grid (b : Board) (S : gset (Z * Z)) :
  wf b → full b → find_matches b = Ok S →
  ∀ x, x ∈ S → on_grid (rows b) (cols b) x.
Proof.
  intros Hwf Hfull HS x Hx.
  destruct (find_matches_spec b Hwf Hfull) as (S' & HS' & Hmem).
  rewrite HS in HS'. simplify_eq.
  apply Hmem in Hx as (r & c & -> & Hr & Hc & _). split; simpl; lia.
Qed.

Lemma chain_score_cons (chain n : Z) (ns : list Z) :
  chain_score chain (n :: ns) =
  n * BASE_SCORE_PER_TILE * (chain + 1) + chain_score (chain + 1) ns.
Proof.
  unfold chain_score, step_score. rewrite imap_cons. simpl. f_equal.
  - f_equal. lia.
  - f_equal. apply imap_ext. intros i x _. simpl. f_equal. lia.
Qed.

Lemma resolve_loop_cascade (fuel : nat) (b b' : Board) (sc tot chain sc' tot' : Z)
    (rnd rnd' : RandomSource) :
  resolve_loop fuel b sc tot chain rnd = Ok (tot', b', sc', rnd') →
  ∃ ns, (length ns < fuel)%nat ∧ cascade b rnd ns b' rnd' ∧
        tot' = tot + total ns ∧ sc' = sc + chain_score chain ns.
Proof.
  revert b sc tot chain rnd. induction fuel as [|fuel IH];
    intros b sc tot chain rnd Hrun; [done|].
  simpl in Hrun. apply bind_Ok in Hrun as (matches & Hm & Hrun).
  case_decide as Hempty.
  - simplify_eq. exists []. split; [simpl; lia|]. split; [by constructor|].
    unfold total, chain_score. simpl. split; lia.
  - apply bind_Ok in Hrun as ([[b1 removed] rnd1] & Hrc & Hrun).
    apply IH in Hrun as (ns & Hlen & Hcas & -> & ->).
    exists (removed :: ns). split; [simpl; lia|]. split; [by econstructor|].
    rewrite chain_score_cons. unfold total. simpl.
    split; [lia|by rewrite Z.add_assoc].
Qed.

Lemma cascade_resolve_loop (fuel : nat) (b b' : Board) (sc tot chain : Z)
    (rnd rnd' : RandomSource) (ns : list Z) :
  cascade b rnd ns b' rnd' → (length ns < fuel)%nat →
  resolve_loop fuel b sc tot chain rnd =
    Ok (tot + total ns, b', sc + chain_score chain ns, rnd').
Proof.
  intros Hcas. revert fuel sc tot chain.
  induction Hcas as [b rnd Hm|b rnd matches b1 removed rnd1 ns b' rnd' Hm Hne Hrc _ IH];
    intros fuel sc tot chain Hfuel.
  - destruct fuel as [|fuel]; [simpl in Hfuel; lia|].
    simpl. rewrite Hm. simpl. rewrite decide_True by done.
    unfold total, chain_score. simpl. repeat f_equal; lia.
  - destruct fuel as [|fuel]; [simpl in Hfuel; lia|].
    simpl. rewrite Hm. simpl. rewrite decide_False by done.
    rewrite Hrc. simpl. rewrite IH by (simpl in Hfuel; lia).
    rewrite chain_score_cons. unfold total. simpl.
    by rewrite !Z.add_assoc.
Qed.

Lemma cascade_stable_end (b b' : Board) (rnd rnd' : RandomSource) (ns : list Z) :
  cascade b rnd ns b' rnd' → find_matches b' = Ok ∅.
Proof. induction 1; done. Qed.

(** Boards stay well-formed and full along a cascade. *)
Lemma cascade_wf (b b' : Board) (rnd rnd' : RandomSource) (ns : list Z) :
  wf b → full b → cascade b rnd ns b' rnd' →
  wf b' ∧ full b' ∧ same_dims b b'.
Proof.
  intros Hwf Hfull Hcas. induction Hcas
    as [b rnd Hm|b rnd matches b1 removed rnd1 ns b' rnd' Hm Hne Hrc _ IH].
  - done.
  - destruct (remove_and_collapse_spec b matches rnd Hwf)
      as (b2 & removed2 & rnd2 & Hrc2 & Hwf2 & Hfull2 & [Hr Hc] & _).
    { by apply find_matches_on_grid. }
    rewrite Hrc in Hrc2. simplify_eq.
    destruct (IH Hwf2 Hfull2) as (? & ? & [? ?]).
    split; [done|]. split; [done|]. split; congruence.
Qed.

(** Each step of a cascade removes as many tiles as the scan matched. *)
Lemma cascade_removed_pos (b b' : Board) (rnd rnd' : RandomSource) (ns : list Z) :
  wf b → full b → cascade b rnd ns b' rnd' → Forall (fun n => 3 ≤ n) ns.
Proof.
  intros Hwf Hfull Hcas. induction Hcas
    as [b rnd Hm|b rnd matches b1 removed rnd1 ns b' rnd' Hm Hne Hrc _ IH].
  - constructor.
  - destruct (remove_and_collapse_spec b matches rnd Hwf)
      as (b2 & removed2 & rnd2 & Hrc2 & Hwf2 & Hfull2 & _ & Hcount).
    { by apply find_matches_on_grid. }
    rewrite Hrc in Hrc2. simplify_eq. constructor; [|by apply IH].
    rewrite (Hcount Hfull).
    destruct (find_matches_spec b Hwf Hfull) as (S & HS & Hmem).
    rewrite Hm in HS. simplify_eq.
    apply set_choose_L in Hne as [x Hx].
    apply Hmem in Hx as (r & c & -> & Hr & Hc & Hrun).
    (* a long run contributes at least three coordinates *)
    assert (∃ f : nat → Z * Z, (∀ i j, f i = f j → i = j) ∧
              ∀ i, (i < 3)%nat → f i ∈ S) as (f & Hinj & Hin).
    { destruct Hrun as [(s & e & Hrun & Hi & Hlen)|(s & e & Hrun & Hi & Hlen)].
      - exists (fun i => coord_of r (s + i)). split.
        + intros i j Heq. apply coord_of_inj in Heq. lia.
        + intros i Hi3. apply Hmem. exists r, (s + i)%nat. split; [done|].
          pose proof Hrun as (Hse & _).
          split; [done|]. split; [lia|]. left. exists s, e. split; [done|]. lia.
      - exists (fun i => coord_of (s + i) c). split.
        + intros i j Heq. apply coord_of_inj in Heq. lia.
        + intros i Hi3. apply Hmem. exists (s + i)%nat, c. split; [done|].
          pose proof Hrun as (Hse & _).
          split; [lia|]. split; [done|]. right. exists s, e. split; [done|]. lia. }
    assert ({[f 0%nat; f 1%nat; f 2%nat]} ⊆ S) as Hsub.
    { intros y Hy. apply elem_of_union in Hy as [Hy|Hy];
        [apply elem_of_union in Hy as [Hy|Hy]|];
        apply elem_of_singleton in Hy as ->; apply Hin; lia. }
    assert (f 0%nat ≠ f 1%nat ∧ f 0%nat ≠ f 2%nat ∧ f 1%nat ≠ f 2%nat)
      as (H01 & H02 & H12).
    { repeat split; intros Heq; apply Hinj in Heq; lia. }
    apply subseteq_size in Hsub.
    rewrite !size_union in Hsub by set_solver.
    rewrite !size_singleton in Hsub. lia.
Qed.

End CrushCascade.

(** ** Gravity in [number_stack.py] and [number_smash.py] *)

(** From the bottom up: the [i]-th cell from the bottom holds the [i]-th
    survivor from the bottom, or a filler once the survivors are used up. *)
Lemma compacted_bottom_up {V : Type} (filler : option V → Prop)
    (old new : list (option V)) :
  length new = length old →
  (∀ i, (i < length old)%nat →
     ∃ x, new !! (length old - S i)%nat = Some x ∧
          match reverse (survivors old) !! i with
          | Some t => x = Some t
          | None => filler x
          end) →
  compacted filler old new.
Proof.
  intros Hlen Hcells. pose proof (vacated_plus old) as Hk.
  apply compacted_intro; [done|..].
  - intros r Hr.
    destruct (Hcells (length old - S r)%nat) as (x & Hx & Hm); [lia|].
    replace (length old - S (length old - S r))%nat with r in Hx by lia.
    exists x. split; [done|].
    by rewrite lookup_ge_None_2 in Hm by (rewrite length_reverse; lia).
  - intros j t Hj.
    assert (j < length (survivors old))%nat as Hjlt by (by eapply lookup_lt_Some).
    destruct (Hcells (length old - S (vacated old + j))%nat) as (x & Hx & Hm); [lia|].
    replace (length old - S (length old - S (vacated old + j)))%nat
      with (vacated old + j)%nat in Hx by lia.
    rewrite reverse_lookup in Hm by lia.
    replace (length (survivors old) - S (length old - S (vacated old + j)))%nat
      with j in Hm by lia.
    rewrite Hj in Hm. by subst.
Qed.

Section StackGravity.
Import Stack StackSpec.

(** The loop that pops the stack into a column, over any rows [rs]. *)
Lemma pop_loop_spec (c : nat) (rs : list nat)
    (g : list (list (option Z))) (stack : list Z) :
  shape g ROWS COLS → (c < COLS)%nat → (∀ r, r ∈ rs → (r < ROWS)%nat) → NoDup rs →
  ∃ g' stack',
    for_each rs (fun r '(g, stack) =>
      match reverse stack with
      | v :: rest =>
          g' ← setitem2 g (Z.of_nat r) (Z.of_nat c) (Some v);
          Ok (g', reverse rest)
      | [] =>
          g' ← setitem2 g (Z.of_nat r) (Z.of_nat c) None;
          Ok (g', [])
      end) (g, stack) = Ok (g', stack') ∧
    shape g' ROWS COLS ∧
    (∀ r c', ¬ (r ∈ rs ∧ c' = c) → cell_at g' r c' = cell_at g r c') ∧
    (∀ i r, rs !! i = Some r → cell_at g' r c = Some (reverse stack !! i)).
Proof.
  intros Hshape Hc. revert g stack Hshape.
  induction rs as [|r rs IH]; intros g stack Hshape Hrs Hnd.
  - exists g, stack. split; [done|]. split; [done|]. split; [done|].
    intros i r Hi. by rewrite lookup_nil in Hi.
  - apply NoDup_cons in Hnd as [Hr Hnd].
    assert (is_Some (cell_at g r c)) as Hcell.
    { eapply shape_cell_at; [done| |done]. apply Hrs. by left. }
    assert (∀ r0, r0 ∈ rs → (r0 < ROWS)%nat) as Hrs' by (intros; apply Hrs; by right).
    cbn [for_each]. destruct (reverse stack) as [|v rest] eqn:Hrev.
    + rewrite setitem2_nat by done. cbn [mbind result_bind].
      destruct (IH (grid_set g r c None) []) as (g' & stack' & Hrun & Hshape' & Hother & Hcol);
        [by apply shape_grid_set|done|done|].
      exists g', stack'. split; [done|]. split; [done|]. split.
      * intros r0 c0 Hne. rewrite Hother by (intros [? ?]; apply Hne; split;
          [by right|done]).
        rewrite cell_at_grid_set by done. rewrite decide_False; [done|].
        intros [-> ->]. apply Hne. split; [by left|done].
      * intros [|i] r0 Hi; simpl in Hi.
        -- simplify_eq. simpl.
           rewrite Hother by (intros [? _]; done).
           rewrite cell_at_grid_set by done. by rewrite decide_True.
        -- rewrite (Hcol i r0 Hi). by rewrite !lookup_nil.
    + rewrite setitem2_nat by done. cbn [mbind result_bind].
      destruct (IH (grid_set g r c (Some v)) (reverse rest))
        as (g' & stack' & Hrun & Hshape' & Hother & Hcol);
        [by apply shape_grid_set|done|done|].
      exists g', stack'. split; [done|]. split; [done|]. split.
      * intros r0 c0 Hne. rewrite Hother by (intros [? ?]; apply Hne; split;
          [by right|done]).
        rewrite cell_at_grid_set by done. rewrite decide_False; [done|].
        intros [-> ->]. apply Hne. split; [by left|done].
      * intros [|i] r0 Hi; simpl in Hi.
        -- simplify_eq. simpl.
           rewrite Hother by (intros [? _]; done).
           rewrite cell_at_grid_set by done. by rewrite decide_True.
        -- rewrite (Hcol i r0 Hi). by rewrite reverse_involutive.
Qed.

Lemma stack_gravity_column_spec (c : nat) (g : list (list (option Z))) :
  shape g ROWS COLS → (c < COLS)%nat →
  ∃ g',
    gravity_column c g = Ok g' ∧
    shape g' ROWS COLS ∧
    (∀ r c', c' ≠ c → cell_at g' r c' = cell_at g r c') ∧
    compacted left_empty (column (fun r => entry g r c) ROWS)
                         (column (fun r => entry g' r c) ROWS).
Proof.
  intros Hshape Hc. unfold gravity_column.
  rewrite (collect_loop _ (fun r => entry g r c)); cycle 1.
  { intros r Hr. apply elem_of_range in Hr.
    destruct (shape_cell_at g ROWS COLS r c Hshape Hr Hc) as [x Hx].
    rewrite (getitem2_nat _ _ _ _ Hx). by rewrite (entry_Some _ _ _ _ Hx). }
  cbn [mbind result_bind app].
  set (old := column (fun r => entry g r c) ROWS).
  assert (omap (fun r => entry g r c) (range ROWS) = survivors old) as Hstack.
  { unfold range, old. by rewrite survivors_column. }
  rewrite Hstack.
  destruct (pop_loop_spec c (range_down ROWS) g (survivors old))
    as (g' & stack' & Hrun & Hshape' & Hother & Hcol);
    [done|done|by intros r Hr; apply elem_of_range_down|apply NoDup_range_down|].
  rewrite Hrun. cbn [mbind result_bind].
  exists g'. split; [done|]. split; [done|]. split.
  { intros r c' Hne. apply Hother. by intros [_ ?]. }
  assert (length old = ROWS) as Hlen by apply length_column.
  apply compacted_bottom_up; [by rewrite !length_column|].
  intros i Hi. rewrite Hlen in *.
  rewrite lookup_column by lia. eexists. split; [done|].
  specialize (Hcol i (ROWS - S i)%nat (lookup_range_down _ _ Hi)).
  rewrite (entry_Some _ _ _ _ Hcol).
  by destruct (reverse (survivors old) !! i).
Qed.

Lemma stack_apply_gravity_spec (gm : Game) :
  wf gm →
  ∃ gm',
    apply_gravity gm = Ok gm' ∧ wf gm' ∧ score gm' = score gm ∧
    ∀ c, (c < COLS)%nat →
      compacted left_empty (game_column gm c) (game_column gm' c).
Proof.
  intros Hwf. unfold apply_gravity.
  destruct (for_each_inv
    (fun done (g1 : list (list (option Z))) =>
       shape g1 ROWS COLS ∧
       (∀ r c, c ∉ done → cell_at g1 r c = cell_at (grid gm) r c) ∧
       (∀ c, c ∈ done →
          compacted left_empty (game_column gm c)
            (column (fun r => entry g1 r c) ROWS)))
    (range COLS) gravity_column (grid gm))
    as (g' & Hrun & Hshape & _ & Hcols).
  { split; [done|]. split; [done|]. intros c Hc. by inversion Hc. }
  { intros pre c post g1 Hsplit (Hshape1 & Hrest1 & Hdone1).
    assert (c < COLS)%nat as Hc.
    { apply elem_of_range. rewrite Hsplit. set_solver. }
    assert (c ∉ pre) as Hfresh.
    { pose proof (NoDup_seq 0 COLS) as Hnd. fold (range COLS) in Hnd.
      rewrite Hsplit in Hnd. apply NoDup_app in Hnd as (_ & Hnd & _).
      intros Hin. apply (Hnd c Hin). by left. }
    destruct (stack_gravity_column_spec c g1 Hshape1 Hc)
      as (g2 & Hrun2 & Hshape2 & Hother2 & Hcomp2).
    exists g2. split; [done|]. split; [done|]. split.
    - intros r c' Hc'. rewrite Hother2.
      + apply Hrest1. intros ?. apply Hc'. apply elem_of_app. by left.
      + intros ->. apply Hc'. apply elem_of_app. right. by left.
    - intros c' Hc'. apply elem_of_app in Hc' as [Hc'|Hc'].
      + replace (column (fun r => entry g2 r c') ROWS)
          with (column (fun r => entry g1 r c') ROWS); [by apply Hdone1|].
        apply column_ext. intros r _. unfold entry. rewrite Hother2; [done|].
        by intros ->.
      + apply list_elem_of_singleton in Hc' as ->.
        replace (game_column gm c)
          with (column (fun r => entry g1 r c) ROWS); [done|].
        apply column_ext. intros r _. unfold entry. by rewrite Hrest1. }
  rewrite Hrun. cbn [mbind result_bind].
  eexists. split; [done|]. split; [done|]. split; [done|].
  intros c Hc. apply Hcols. by apply elem_of_range.
Qed.

End StackGravity.

Section SmashGravity.
Import Smash SmashSpec.

Lemma set_value_set_value (cell : Cell) (v v' : option Z) :
  set_value (set_value cell v) v' = set_value cell v'.
Proof. done. Qed.

Lemma same_cells_refl (g : list (list Cell)) : same_cells g g.
Proof.
  intros r c cell Hcell. exists (value cell). rewrite Hcell. by destruct cell.
Qed.

Lemma same_cells_trans (g1 g2 g3 : list (list Cell)) :
  same_cells g1 g2 → same_cells g2 g3 → same_cells g1 g3.
Proof.
  intros H12 H23 r c cell Hcell.
  destruct (H12 r c cell Hcell) as [v Hv].
  destruct (H23 r c _ Hv) as [v' Hv']. exists v'.
  by rewrite Hv', set_value_set_value.
Qed.

Lemma same_cells_grid_set (g : list (list Cell)) (r c : nat) (cell : Cell)
    (v : option Z) :
  cell_at g r c = Some cell → same_cells g (grid_set g r c (set_value cell v)).
Proof.
  intros Hcell r' c' cell' Hcell'.
  rewrite cell_at_grid_set by (by eexists). case_decide as Heq.
  - destruct Heq as [-> ->]. exists v. congruence.
  - exists (value cell'). rewrite Hcell'. by destruct cell'.
Qed.

Lemma value_of_grid_set (g : list (list Cell)) (r c r' c' : nat) (cell : Cell)
    (v : option Z) :
  is_Some (cell_at g r c) →
  value_of (grid_set g r c (set_value cell v)) r' c' =
    if decide (r' = r ∧ c' = c) then v else value_of g r' c'.
Proof.
  intros Hcell. unfold value_of. rewrite cell_at_grid_set by done.
  by case_decide.
Qed.

Lemma random_randint_spec (rnd : RandomSource) :
  ∃ v, 0 ≤ v ≤ 9 ∧ random_randint 0 9 rnd = Ok (v, next rnd).
Proof.
  unfold random_randint. rewrite decide_True by lia.
  eexists. split; [|done].
  pose proof (Z.mod_pos_bound (Z.of_nat (rnd 0%nat)) (9 - 0 + 1)). lia.
Qed.

(** The loop that writes the stack back from row [k - 1] upwards; [l] is
    the stack from its bottom-most value. *)
Lemma drop_loop_spec (nr nc c : nat) (l : list Z) (g : list (list Cell)) (k : nat) :
  shape g nr nc → (c < nc)%nat → (k ≤ nr)%nat → (length l ≤ k)%nat →
  ∃ g',
    for_each l (fun val '(g, rptr) =>
      cell ← getitem2 g rptr (Z.of_nat c);
      g' ← setitem2 g rptr (Z.of_nat c) (set_value cell (Some val));
      Ok (g', rptr - 1)) (g, Z.of_nat k - 1) =
      Ok (g', Z.of_nat (k - length l) - 1) ∧
    shape g' nr nc ∧ same_cells g g' ∧
    (∀ r c', ¬ (c' = c ∧ (k - length l ≤ r < k)%nat) →
       value_of g' r c' = value_of g r c') ∧
    (∀ i, (i < length l)%nat → value_of g' (k - S i) c = l !! i).
Proof.
  intros Hshape Hc. revert g k Hshape.
  induction l as [|v l IH]; intros g k Hshape Hk Hlen.
  - exists g. simpl. rewrite Nat.sub_0_r. split; [done|]. split; [done|].
    split; [apply same_cells_refl|]. split; [done|]. intros i Hi. lia.
  - simpl in Hlen. destruct k as [|k]; [lia|].
    destruct (shape_cell_at g nr nc k c Hshape) as [cell Hcell]; [lia|done|].
    cbn [for_each]. replace (Z.of_nat (S k) - 1) with (Z.of_nat k) by lia.
    rewrite (getitem2_nat _ _ _ _ Hcell). cbn [mbind result_bind].
    rewrite setitem2_nat by (by eexists). cbn [mbind result_bind].
    destruct (IH (grid_set g k c (set_value cell (Some v))) k)
      as (g' & Hrun & Hshape' & Hsame & Hother & Hcol);
      [by apply shape_grid_set|lia|lia|].
    exists g'. split.
    { by rewrite Hrun. }
    split; [done|]. split.
    { eapply same_cells_trans; [|done]. by apply same_cells_grid_set. }
    split.
    + intros r c' Hne. rewrite Hother by (simpl in Hne; lia).
      rewrite value_of_grid_set by (by eexists).
      rewrite decide_False; [done|]. simpl in Hne. lia.
    + intros [|i] Hi.
      * simpl. rewrite Nat.sub_0_r. rewrite Hother by lia.
        rewrite value_of_grid_set by (by eexists). by rewrite decide_True.
      * simpl in Hi. simpl. apply Hcol. lia.
Qed.

Lemma fill_top_spec (nr nc c k : nat) (g : list (list Cell)) (rnd : RandomSource) :
  shape g nr nc → (c < nc)%nat → (k ≤ nr)%nat →
  ∃ g' rnd',
    fill_top c k g rnd = Ok (g', rnd') ∧
    shape g' nr nc ∧ rnd' = after k rnd ∧ same_cells g g' ∧
    (∀ r c', ¬ (c' = c ∧ (r < k)%nat) → value_of g' r c' = value_of g r c') ∧
    (∀ r, (r < k)%nat → fresh_value (value_of g' r c)).
Proof.
  intros Hshape Hc. revert g rnd Hshape.
  induction k as [|k IH]; intros g rnd Hshape Hk.
  - exists g, rnd. split; [done|]. split; [done|]. split; [done|].
    split; [apply same_cells_refl|]. split; [done|]. intros r Hr. lia.
  - destruct (shape_cell_at g nr nc k c Hshape) as [cell Hcell]; [lia|done|].
    destruct (random_randint_spec rnd) as (v & Hv & Hrand).
    cbn [fill_top]. rewrite Hrand. cbn [mbind result_bind].
    rewrite (getitem2_nat _ _ _ _ Hcell). cbn [mbind result_bind].
    rewrite setitem2_nat by (by eexists). cbn [mbind result_bind].
    destruct (IH (grid_set g k c (set_value cell (Some v))) (next rnd))
      as (g' & rnd' & Hrun & Hshape' & Hrnd & Hsame & Hother & Hcol);
      [by apply shape_grid_set|lia|].
    exists g', rnd'. split; [done|]. split; [done|]. split.
    { rewrite Hrnd. symmetry. apply (Nat.iter_succ_r k next rnd). }
    split.
    { eapply same_cells_trans; [|done]. by apply same_cells_grid_set. }
    split.
    + intros r c' Hne. rewrite Hother by lia.
      rewrite value_of_grid_set by (by eexists).
      rewrite decide_False; [done|]. lia.
    + intros r Hr. destruct (decide (r = k)) as [->|].
      * rewrite Hother by lia. rewrite value_of_grid_set by (by eexists).
        rewrite decide_True by done. by exists v.
      * apply Hcol. lia.
Qed.

Lemma smash_gravity_column_spec (nr nc c : nat) (g : list (list Cell))
    (rnd : RandomSource) :
  shape g nr nc → (c < nc)%nat →
  ∃ g' rnd',
    gravity_column nr c (g, rnd) = Ok (g', rnd') ∧
    shape g' nr nc ∧
    rnd' = after (vacated (column (fun r => value_of g r c) nr)) rnd ∧
    same_cells g g' ∧
    (∀ r c', c' ≠ c → value_of g' r c' = value_of g r c') ∧
    compacted fresh_value (column (fun r => value_of g r c) nr)
                          (column (fun r => value_of g' r c) nr).
Proof.
  intros Hshape Hc. unfold gravity_column.
  rewrite (collect_loop _ (fun r => value_of g r c)); cycle 1.
  { intros r Hr. apply elem_of_range in Hr.
    destruct (shape_cell_at g nr nc r c Hshape Hr Hc) as [x Hx].
    rewrite (getitem2_nat _ _ _ _ Hx). unfold value_of. by rewrite Hx. }
  cbn [mbind result_bind app].
  set (old := column (fun r => value_of g r c) nr).
  assert (omap (fun r => value_of g r c) (range nr) = survivors old) as Hstack.
  { unfold range, old. by rewrite survivors_column. }
  rewrite Hstack.
  assert (length old = nr) as Hlen by apply length_column.
  pose proof (vacated_plus old) as Hk.
  unfold drop_stack.
  destruct (drop_loop_spec nr nc c (reverse (survivors old)) g nr)
    as (g1 & Hrun1 & Hshape1 & Hsame1 & Hother1 & Hcol1);
    [done|done|lia|rewrite length_reverse; lia|].
  rewrite Hrun1. cbn [mbind result_bind].
  rewrite length_reverse in *.
  replace (Z.to_nat (Z.of_nat (nr - length (survivors old)) - 1 + 1))
    with (vacated old) by lia.
  destruct (fill_top_spec nr nc c (vacated old) g1 rnd)
    as (g2 & rnd2 & Hrun2 & Hshape2 & Hrnd2 & Hsame2 & Hother2 & Hcol2);
    [done|done|lia|].
  rewrite Hrun2. exists g2, rnd2. split; [done|]. split; [done|]. split; [done|].
  split.
  { by eapply same_cells_trans. }
  split.
  { intros r c' Hne. rewrite Hother2, Hother1; [done|..]; by intros [? _]. }
  apply compacted_bottom_up; [by rewrite !length_column|].
  intros i Hi. rewrite Hlen in *.
  rewrite lookup_column by lia. eexists. split; [done|].
  destruct (reverse (survivors old) !! i) as [t|] eqn:Hi'.
  - assert (i < length (survivors old))%nat as Hilt.
    { apply lookup_lt_Some in Hi'. by rewrite length_reverse in Hi'. }
    rewrite Hother2 by lia. rewrite Hcol1 by lia. done.
  - apply lookup_ge_None in Hi'. rewrite length_reverse in Hi'.
    apply Hcol2. lia.
Qed.

Lemma smash_apply_gravity_spec (gm : Game) (rnd : RandomSource) :
  wf gm →
  ∃ gm' rnd',
    apply_gravity gm rnd = Ok (gm', rnd') ∧ wf gm' ∧
    rows gm' = rows gm ∧ cols gm' = cols gm ∧ score gm' = score gm ∧
    same_cells (grid gm) (grid gm') ∧
    rnd' = after (sum_list_with (fun c => vacated (game_column gm c))
                                (range (cols gm))) rnd ∧
    ∀ c, (c < cols gm)%nat →
      compacted fresh_value (game_column gm c) (game_column gm' c).
Proof.
  intros Hwf. unfold apply_gravity.
  destruct (for_each_inv
    (fun done (st : list (list Cell) * RandomSource) =>
       shape st.1 (rows gm) (cols gm) ∧ same_cells (grid gm) st.1 ∧
       st.2 = after (sum_list_with (fun c => vacated (game_column gm c)) done) rnd ∧
       (∀ r c, c ∉ done → value_of st.1 r c = value_of (grid gm) r c) ∧
       (∀ c, c ∈ done →
          compacted fresh_value (game_column gm c)
            (column (fun r => value_of st.1 r c) (rows gm))))
    (range (cols gm)) (gravity_column (rows gm)) (grid gm, rnd))
    as ([g' rnd'] & Hrun & Hshape & Hsame & Hrnd & _ & Hcols).
  { split; [done|]. split; [apply same_cells_refl|]. split; [done|].
    split; [done|]. intros c Hc. by inversion Hc. }
  { intros pre c post [g1 rnd1] Hsplit (Hshape1 & Hsame1 & Hrnd1 & Hrest1 & Hdone1).
    simpl in *.
    assert (c < cols gm)%nat as Hc.
    { apply elem_of_range. rewrite Hsplit. set_solver. }
    assert (c ∉ pre) as Hfresh.
    { pose proof (NoDup_seq 0 (cols gm)) as Hnd. fold (range (cols gm)) in Hnd.
      rewrite Hsplit in Hnd. apply NoDup_app in Hnd as (_ & Hnd & _).
      intros Hin. apply (Hnd c Hin). by left. }
    destruct (smash_gravity_column_spec (rows gm) (cols gm) c g1 rnd1 Hshape1 Hc)
      as (g2 & rnd2 & Hrun2 & Hshape2 & Hrnd2 & Hsame2 & Hother2 & Hcomp2).
    assert (column (fun r => value_of g1 r c) (rows gm) = game_column gm c) as Hcol1.
    { apply column_ext. intros r _. by rewrite Hrest1. }
    exists (g2, rnd2). split; [done|]. simpl. split; [done|]. split.
    { by eapply same_cells_trans. }
    split.
    { rewrite Hrnd2, Hrnd1, Hcol1. unfold after. rewrite <- Nat.iter_add.
      f_equal. rewrite sum_list_with_app. simpl. lia. }
    split.
    - intros r c' Hc'. rewrite Hother2.
      + apply Hrest1. intros ?. apply Hc'. apply elem_of_app. by left.
      + intros ->. apply Hc'. apply elem_of_app. right. by left.
    - intros c' Hc'. apply elem_of_app in Hc' as [Hc'|Hc'].
      + replace (column (fun r => value_of g2 r c') (rows gm))
          with (column (fun r => value_of g1 r c') (rows gm)); [by apply Hdone1|].
        apply column_ext. intros r _. rewrite Hother2; [done|]. by intros ->.
      + apply list_elem_of_singleton in Hc' as ->. by rewrite <- Hcol1. }
  rewrite Hrun. cbn [mbind result_bind]. simpl in *.
  eexists _, _. split; [done|]. split; [done|]. do 5 (split; [done|]).
  intros c Hc. apply Hcols. by apply elem_of_range.
Qed.

End SmashGravity.

(** ** The breadth-first loop collects the region of the seed *)

Lemma adjacent_dirs (x y : Z * Z) :
  adjacent x y ↔ ∃ d, d ∈ DIRS ∧ y = (x.1 + d.1, x.2 + d.2).
Proof.
  destruct x as [r c], y as [r' c']. unfold adjacent, DIRS. simpl. split.
  - intros Habs.
    assert ((r' = r + 1 ∧ c' = c) ∨ (r' = r + -1 ∧ c' = c) ∨
            (r' = r ∧ c' = c + 1) ∨ (r' = r ∧ c' = c + -1))
      as [[-> ->]|[[-> ->]|[[-> ->]|[-> ->]]]] by lia.
    + exists (1, 0). split; [set_solver|]. simpl. f_equal; lia.
    + exists (-1, 0). split; [set_solver|]. simpl. f_equal; lia.
    + exists (0, 1). split; [set_solver|]. simpl. f_equal; lia.
    + exists (0, -1). split; [set_solver|]. simpl. f_equal; lia.
  - intros ([dr dc] & Hd & Heq). simpl in Heq. simplify_eq.
    repeat (apply elem_of_cons in Hd as [Hd|Hd]; [simplify_eq; lia|]).
    by apply elem_of_nil in Hd.
Qed.

Lemma index_inj (nc a c a' c' : nat) :
  (c < nc)%nat → (c' < nc)%nat → (a * nc + c = a' * nc + c')%nat →
  a = a' ∧ c = c'.
Proof.
  intros Hc Hc' Heq.
  assert (a = a') as ->; [|lia].
  destruct (decide (a < a')%nat) as [Hlt|].
  { assert ((a + 1) * nc ≤ a' * nc)%nat by (apply Nat.mul_le_mono_r; lia). lia. }
  destruct (decide (a' < a)%nat) as [Hlt|]; [|lia].
  assert ((a' + 1) * nc ≤ a * nc)%nat by (apply Nat.mul_le_mono_r; lia). lia.
Qed.

(** No more distinct coordinates than cells. *)
Lemma length_on_grid (nr nc : nat) (l : list (Z * Z)) :
  NoDup l → (∀ x, x ∈ l → on_grid nr nc x) → (length l ≤ nr * nc)%nat.
Proof.
  intros Hnd Hon.
  set (idx := fun x : Z * Z => (Z.to_nat x.1 * nc + Z.to_nat x.2)%nat).
  enough (length (idx <$> l) ≤ length (seq 0 (nr * nc)))%nat as Hle.
  { by rewrite length_fmap, length_seq in Hle. }
  apply submseteq_length, NoDup_submseteq.
  - apply NoDup_fmap_2_strong; [|done].
    intros [r c] [r' c'] Hx Hy Heq. apply Hon in Hx as [? ?]. apply Hon in Hy as [? ?].
    unfold idx in Heq. simpl in *.
    apply index_inj in Heq as [? ?]; [|lia..]. f_equal; lia.
  - intros i Hi. apply list_elem_of_fmap in Hi as ([r c] & -> & Hx).
    apply Hon in Hx as [? ?]. unfold idx. simpl in *. apply elem_of_seq.
    assert ((Z.to_nat r + 1) * nc ≤ nr * nc)%nat by (apply Nat.mul_le_mono_r; lia).
    lia.
Qed.

Section BfsFacts.
Context (nr nc : nat) (value_at : Z → Z → result (option Z))
        (val : nat → nat → option Z).
Hypothesis value_at_ok : ∀ r c, (r < nr)%nat → (c < nc)%nat →
  value_at (Z.of_nat r) (Z.of_nat c) = Ok (val r c).

Lemma region_has_value (t : Z) (seed x : Z * Z) :
  region nr nc val t seed x → has_value nr nc val x t.
Proof. by destruct 1. Qed.

(** One neighbour of the cell [(r, c)] that has just left the queue. *)
Lemma visit_spec (t : Z) (seed : Z * Z) (done : list (Z * Z)) (r c : Z)
    (d : Z * Z) (q : list (Z * Z)) (visited : list (list bool))
    (group : list (Z * Z)) :
  d ∈ DIRS →
  bfs_inv nr nc val t seed done ((r, c) :: q, visited, group) →
  ∃ q' visited' group',
    visit nr nc value_at t r c d (q, visited, group) = Ok (q', visited', group') ∧
    bfs_inv nr nc val t seed done ((r, c) :: q', visited', group') ∧
    (∀ y, y ∈ group → y ∈ group') ∧
    (has_value nr nc val (r + d.1, c + d.2) t → (r + d.1, c + d.2) ∈ group').
Proof using value_at_ok.
  intros Hd (Hshape & Hvis & Hnd & Hreg & Hgrp & Hclosed & Hseed).
  destruct d as [dr dc]. unfold visit. simpl.
  case_decide as Hin; cycle 1.
  { exists q, visited, group. split; [done|]. split; [done|]. split; [done|].
    intros [Hon _]. by destruct Hin. }
  destruct (on_grid_coord_of nr nc (r + dr, c + dc) Hin) as (r' & c' & Heq & Hr' & Hc').
  unfold coord_of in Heq. injection Heq as Heqr Heqc. rewrite Heqr, Heqc.
  rewrite (getitem2_nat _ _ _ _ (Hvis r' c' Hr' Hc')). cbn [mbind result_bind].
  destruct (bool_decide (coord_of r' c' ∈ group)) eqn:Hseen; simpl.
  { apply bool_decide_eq_true in Hseen.
    exists q, visited, group. split; [done|]. split; [done|]. split; [done|].
    by intros _. }
  apply bool_decide_eq_false in Hseen.
  rewrite value_at_ok by done. cbn [mbind result_bind].
  case_decide as Hval; cycle 1.
  { exists q, visited, group. split; [done|]. split; [done|]. split; [done|].
    intros [_ Hv]. simpl in Hv. rewrite !Nat2Z.id in Hv. done. }
  rewrite setitem2_nat by (by eapply shape_cell_at). cbn [mbind result_bind].
  fold (coord_of r' c').
  assert (has_value nr nc val (coord_of r' c') t) as Hhv.
  { split; [split; simpl; lia|]. simpl. by rewrite !Nat2Z.id. }
  eexists _, _, _. split; [done|]. split; [|split].
  - split; [by apply shape_grid_set|]. split; [|split; [|split; [|split; [|split]]]].
    + intros r0 c0 Hr0 Hc0.
      rewrite cell_at_grid_set by (by eapply shape_cell_at).
      rewrite (Hvis r0 c0 Hr0 Hc0). case_decide as Heq0.
      * destruct Heq0 as [-> ->]. rewrite bool_decide_eq_true_2; [done|].
        apply elem_of_app. right. by left.
      * f_equal. apply bool_decide_ext. rewrite elem_of_app. split; [by left|].
        intros [?|Hx]; [done|]. apply list_elem_of_singleton in Hx.
        apply coord_of_inj in Hx. done.
    + apply NoDup_app. split; [done|]. split; [|apply NoDup_singleton].
      intros x Hx Hx'. apply list_elem_of_singleton in Hx' as ->. done.
    + intros x Hx. apply elem_of_app in Hx as [Hx|Hx]; [by apply Hreg|].
      apply list_elem_of_singleton in Hx as ->.
      apply region_step with (r, c); [|apply adjacent_dirs|done].
      * apply Hreg. rewrite Hgrp. apply elem_of_app. right. by left.
      * exists (dr, dc). split; [done|]. simpl. unfold coord_of. f_equal; lia.
    + rewrite Hgrp. by rewrite <- !app_assoc.
    + intros x y Hx Hadj Hy. apply elem_of_app. left. by eapply Hclosed.
    + by destruct group.
  - intros y Hy. apply elem_of_app. by left.
  - intros _. apply elem_of_app. right. by left.
Qed.

(** The four neighbours of the cell [(r, c)] that has just left the
    queue. *)
Lemma visit_all_spec (t : Z) (seed : Z * Z) (done : list (Z * Z)) (r c : Z)
    (q : list (Z * Z)) (visited : list (list bool)) (group : list (Z * Z)) :
  bfs_inv nr nc val t seed done ((r, c) :: q, visited, group) →
  ∃ st', for_each DIRS (visit nr nc value_at t r c) (q, visited, group) = Ok st' ∧
         bfs_inv nr nc val t seed (done ++ [(r, c)]) st'.
Proof using value_at_ok.
  intros Hinv.
  destruct (for_each_inv
    (fun pre (st : list (Z * Z) * list (list bool) * list (Z * Z)) =>
       bfs_inv nr nc val t seed done ((r, c) :: st.1.1, st.1.2, st.2) ∧
       ∀ d, d ∈ pre → has_value nr nc val (r + d.1, c + d.2) t →
            (r + d.1, c + d.2) ∈ st.2)
    DIRS (visit nr nc value_at t r c) (q, visited, group))
    as ([[q' visited'] group'] & Hrun & Hinv' & Hall).
  { split; [done|]. intros d Hd. by inversion Hd. }
  { intros pre d post [[q1 vis1] grp1] Hsplit [Hinv1 Hpre1]. simpl in *.
    destruct (visit_spec t seed done r c d q1 vis1 grp1)
      as (q2 & vis2 & grp2 & Hrun2 & Hinv2 & Hmono & Hd); [|done|].
    { rewrite Hsplit. apply elem_of_app. right. by left. }
    exists (q2, vis2, grp2). split; [done|]. split; [done|]. simpl.
    intros d' Hd' Hv. apply elem_of_app in Hd' as [Hd'|Hd'].
    - by apply Hmono, Hpre1.
    - apply list_elem_of_singleton in Hd' as ->. by apply Hd. }
  exists (q', visited', group'). split; [done|]. simpl in *.
  destruct Hinv' as (Hshape & Hvis & Hnd & Hreg & Hgrp & Hclosed & Hseed).
  split; [done|]. split; [done|]. split; [done|]. split; [done|].
  split; [by rewrite <- app_assoc|]. split; [|done].
  intros x y Hx Hadj Hy. apply elem_of_app in Hx as [Hx|Hx].
  - by eapply Hclosed.
  - apply list_elem_of_singleton in Hx as ->.
    apply adjacent_dirs in Hadj as (d & Hd & ->). by apply Hall.
Qed.

Lemma bfs_loop_spec (fuel : nat) (t : Z) (seed : Z * Z) (done : list (Z * Z))
    (st : list (Z * Z) * list (list bool) * list (Z * Z)) :
  bfs_inv nr nc val t seed done st →
  (nr * nc ≤ length done + fuel)%nat →
  ∃ group, bfs_loop nr nc value_at fuel t st = Ok group ∧
           NoDup group ∧ head group = Some seed ∧
           ∀ x, x ∈ group ↔ region nr nc val t seed x.
Proof using value_at_ok.
  revert done st. induction fuel as [|fuel IH]; intros done [[q visited] group]
    Hinv Hfuel.
  - pose proof Hinv as (Hshape & Hvis & Hnd & Hreg & Hgrp & Hclosed & Hseed).
    assert (length group ≤ nr * nc)%nat as Hlen.
    { apply length_on_grid; [done|]. intros x Hx.
      by destruct (region_has_value t seed x (Hreg x Hx)). }
    rewrite Hgrp, length_app in Hlen.
    destruct q as [|x q]; [|simpl in Hlen; lia].
    exists group. split; [done|]. split; [done|]. split; [done|].
    rewrite app_nil_r in Hgrp. subst done.
    intros x. split; [by apply Hreg|].
    induction 1 as [|x y _ IHx Hadj Hy]; [|by eapply Hclosed].
    destruct group; simplify_eq/=. by left.
  - pose proof Hinv as (Hshape & Hvis & Hnd & Hreg & Hgrp & Hclosed & Hseed).
    destruct q as [|[r c] q].
    + exists group. split; [done|]. split; [done|]. split; [done|].
      rewrite app_nil_r in Hgrp. subst done.
      intros x. split; [by apply Hreg|].
      induction 1 as [|x y _ IHx Hadj Hy]; [|by eapply Hclosed].
      destruct group; simplify_eq/=. by left.
    + destruct (visit_all_spec t seed done r c q visited group Hinv)
        as (st' & Hrun & Hinv').
      cbn [bfs_loop]. rewrite Hrun. cbn [mbind result_bind].
      apply (IH (done ++ [(r, c)])); [done|].
      rewrite length_app. simpl. lia.
Qed.

Lemma lookup_new_visited (r c : nat) :
  (r < nr)%nat → (c < nc)%nat → cell_at (new_visited nr nc) r c = Some false.
Proof.
  intros Hr Hc. unfold cell_at, new_visited.
  rewrite lookup_replicate_2 by done. simpl. by rewrite lookup_replicate_2.
Qed.

Lemma shape_new_visited : shape (new_visited nr nc) nr nc.
Proof.
  split; [apply length_replicate|]. apply Forall_replicate, length_replicate.
Qed.

(** From an in-bounds seed holding [t], the loop returns the region of
    the seed, each cell once, the seed first. *)
Lemma bfs_spec (t : Z) (r c : nat) :
  (r < nr)%nat → (c < nc)%nat → val r c = Some t →
  ∃ group, bfs nr nc value_at t (Z.of_nat r) (Z.of_nat c) = Ok group ∧
           NoDup group ∧ head group = Some (coord_of r c) ∧
           ∀ x, x ∈ group ↔ region nr nc val t (coord_of r c) x.
Proof using value_at_ok.
  intros Hr Hc Hval. unfold bfs.
  rewrite setitem2_nat by (eapply shape_cell_at; [apply shape_new_visited|done..]).
  cbn [mbind result_bind]. fold (coord_of r c).
  assert (has_value nr nc val (coord_of r c) t) as Hhv.
  { split; [split; simpl; lia|]. simpl. by rewrite !Nat2Z.id. }
  assert (bfs_inv nr nc val t (coord_of r c) []
            ([coord_of r c], grid_set (new_visited nr nc) r c true, [coord_of r c]))
    as Hinv.
  { split; [apply shape_grid_set, shape_new_visited|].
    split; [|split; [apply NoDup_singleton|split; [|split; [done|split]]]].
    - intros r0 c0 Hr0 Hc0.
      rewrite cell_at_grid_set
        by (eapply shape_cell_at; [apply shape_new_visited|done..]).
      rewrite lookup_new_visited by done. case_decide as Heq.
      + destruct Heq as [-> ->]. rewrite bool_decide_eq_true_2; [done|]. by left.
      + rewrite bool_decide_eq_false_2; [done|]. intros Hx.
        apply list_elem_of_singleton in Hx. by apply coord_of_inj in Hx.
    - intros x Hx. apply list_elem_of_singleton in Hx as ->. by constructor.
    - intros x y Hx. by inversion Hx.
    - done. }
  destruct (bfs_loop_spec (nr * nc) t (coord_of r c) [] _ Hinv)
    as (group & Hrun & Hnd & Hhead & Hmem); [simpl; lia|].
  by exists group.
Qed.
End BfsFacts.

(** ** Scans and smashes in [number_smash.py] *)

Section SmashFacts.
Import Smash SmashSpec.

Lemma smash_cell_at (gm : Game) (r c : nat) :
  wf gm → (r < rows gm)%nat → (c < cols gm)%nat →
  ∃ cell, cell_at (grid gm) r c = Some cell ∧
          value_of (grid gm) r c = value cell.
Proof.
  intros Hwf Hr Hc. destruct (shape_cell_at _ _ _ r c Hwf Hr Hc) as [cell Hcell].
  exists cell. split; [done|]. unfold value_of. by rewrite Hcell.
Qed.

Lemma smash_value_at_ok (gm : Game) (r c : nat) :
  wf gm → (r < rows gm)%nat → (c < cols gm)%nat →
  value_at gm (Z.of_nat r) (Z.of_nat c) = Ok (value_of (grid gm) r c).
Proof.
  intros Hwf Hr Hc. destruct (smash_cell_at gm r c Hwf Hr Hc) as (cell & Hcell & ->).
  unfold value_at. by rewrite (getitem2_nat _ _ _ _ Hcell).
Qed.

Lemma flood_group_empty (gm : Game) (r c : nat) :
  wf gm → (r < rows gm)%nat → (c < cols gm)%nat →
  value_of (grid gm) r c = None →
  flood_group gm (Z.of_nat r) (Z.of_nat c) = Ok [].
Proof.
  intros Hwf Hr Hc Hval. unfold flood_group.
  rewrite smash_value_at_ok by done. by rewrite Hval.
Qed.

Lemma flood_group_spec (gm : Game) (r c : nat) (t : Z) :
  wf gm → (r < rows gm)%nat → (c < cols gm)%nat →
  value_of (grid gm) r c = Some t →
  ∃ group, flood_group gm (Z.of_nat r) (Z.of_nat c) = Ok group ∧
           NoDup group ∧ head group = Some (coord_of r c) ∧
           ∀ x, x ∈ group ↔
                region (rows gm) (cols gm) (value_of (grid gm)) t (coord_of r c) x.
Proof.
  intros Hwf Hr Hc Hval. unfold flood_group.
  rewrite smash_value_at_ok by done. rewrite Hval. cbn [mbind result_bind].
  apply bfs_spec; [|done..]. intros r0 c0 Hr0 Hc0. by apply smash_value_at_ok.
Qed.

Lemma smash_clear_group_spec (nr nc : nat) (group : list (Z * Z))
    (g : list (list Cell)) :
  shape g nr nc → (∀ x, x ∈ group → on_grid nr nc x) →
  ∃ g', clear_group g group = Ok g' ∧ shape g' nr nc ∧
        ∀ r c, value_of g' r c =
               if decide (coord_of r c ∈ group) then None else value_of g r c.
Proof.
  unfold clear_group. revert g.
  induction group as [|x group IH]; intros g Hshape Hon.
  - exists g. split; [done|]. split; [done|]. intros r c.
    rewrite decide_False; [done|]. apply not_elem_of_nil.
  - destruct (on_grid_coord_of nr nc x) as (r & c & -> & Hr & Hc);
      [apply Hon; by left|].
    destruct (shape_cell_at g nr nc r c Hshape Hr Hc) as [cell Hcell].
    cbn [for_each]. unfold coord_of at 1.
    rewrite (getitem2_nat _ _ _ _ Hcell). cbn [mbind result_bind].
    rewrite setitem2_nat by (by eexists). cbn [mbind result_bind].
    destruct (IH (grid_set g r c (set_value (start_pop cell) None)))
      as (g' & Hrun & Hshape' & Hvals);
      [by apply shape_grid_set|intros; apply Hon; by right|].
    exists g'. split; [done|]. split; [done|]. intros r0 c0.
    rewrite Hvals. rewrite value_of_grid_set by (by eexists).
    destruct (decide (coord_of r0 c0 ∈ group)) as [Hin|Hin].
    + rewrite decide_True; [done|by right].
    + destruct (decide (r0 = r ∧ c0 = c)) as [[-> ->]|Hne].
      * rewrite decide_True; [done|by left].
      * rewrite decide_False; [done|]. intros Hin'.
        apply elem_of_cons in Hin' as [Heq|?]; [|done].
        by apply coord_of_inj in Heq.
Qed.

Lemma smash_at_not_smashable (gm : Game) (r c : nat) (rnd : RandomSource) (cell : Cell) :
  cell_at (grid gm) r c = Some cell →
  value cell ≠ Some 0 → value cell ≠ Some 1 →
  smash_at gm (Z.of_nat r) (Z.of_nat c) rnd = Ok (false, shaken gm r c cell, rnd).
Proof.
  intros Hcell H0 H1. unfold smash_at.
  rewrite (getitem2_nat _ _ _ _ Hcell). cbn [mbind result_bind].
  rewrite decide_True by done.
  by rewrite setitem2_nat by (by eexists).
Qed.

Lemma smash_at_small (gm : Game) (r c : nat) (rnd : RandomSource) (cell : Cell)
    (group : list (Z * Z)) :
  cell_at (grid gm) r c = Some cell →
  value cell = Some 0 ∨ value cell = Some 1 →
  flood_group gm (Z.of_nat r) (Z.of_nat c) = Ok group → (length group < 2)%nat →
  smash_at gm (Z.of_nat r) (Z.of_nat c) rnd = Ok (false, shaken gm r c cell, rnd).
Proof.
  intros Hcell Hval Hgroup Hlen. unfold smash_at.
  rewrite (getitem2_nat _ _ _ _ Hcell). cbn [mbind result_bind].
  rewrite decide_False by (intros [? ?]; by destruct Hval).
  rewrite Hgroup. cbn [mbind result_bind]. rewrite decide_True by done.
  by rewrite setitem2_nat by (by eexists).
Qed.

Lemma smash_at_accepted (gm : Game) (r c : nat) (rnd : RandomSource) (v : Z)
    (group : list (Z * Z)) :
  wf gm → (r < rows gm)%nat → (c < cols gm)%nat →
  value_of (grid gm) r c = Some v → v = 0 ∨ v = 1 →
  flood_group gm (Z.of_nat r) (Z.of_nat c) = Ok group → (2 ≤ length group)%nat →
  ∃ g gm' rnd',
    clear_group (grid gm) group = Ok g ∧
    apply_gravity (set_grid gm g) rnd = Ok (gm', rnd') ∧
    smash_at gm (Z.of_nat r) (Z.of_nat c) rnd =
      Ok (true,
          mkGame (rows gm) (cols gm) (grid gm')
                 (score gm + Z.of_nat (length group) * (v + 1)),
          rnd').
Proof.
  intros Hwf Hr Hc Hval Hv Hgroup Hlen.
  destruct (smash_cell_at gm r c Hwf Hr Hc) as (cell & Hcell & Hvc).
  rewrite Hval in Hvc.
  destruct (flood_group_spec gm r c v Hwf Hr Hc Hval)
    as (group' & Hgroup' & _ & _ & Hmem).
  rewrite Hgroup in Hgroup'. simplify_eq.
  destruct (smash_clear_group_spec (rows gm) (cols gm) group' (grid gm) Hwf)
    as (g & Hclear & Hshape & _).
  { intros x Hx. apply Hmem in Hx.
    by destruct (region_has_value _ _ _ _ _ _ Hx). }
  destruct (smash_apply_gravity_spec (set_grid gm g) rnd Hshape)
    as (gm' & rnd' & Hgrav & Hwf' & Hrows & Hcols & Hscore & _).
  exists g, gm', rnd'. split; [done|]. split; [done|].
  unfold smash_at.
  rewrite (getitem2_nat _ _ _ _ Hcell). cbn [mbind result_bind].
  rewrite decide_False by (rewrite <- Hvc; intros [? ?]; destruct Hv; by subst).
  rewrite Hgroup. cbn [mbind result_bind]. rewrite decide_False by lia.
  rewrite Hclear. cbn [mbind result_bind]. rewrite Hgrav. cbn [mbind result_bind].
  rewrite <- Hvc. simpl in *. by rewrite Hrows, Hcols, Hscore.
Qed.

(** A shaking cell keeps its value. *)
Lemma value_of_shaken (g : list (list Cell)) (r c r' c' : nat) (cell : Cell) :
  cell_at g r c = Some cell →
  value_of (grid_set g r c (start_shake cell)) r' c' = value_of g r' c'.
Proof.
  intros Hcell. unfold value_of. rewrite cell_at_grid_set by by eexists.
  case_decide as Heq; [|done]. destruct Heq as [-> ->]. by rewrite Hcell.
Qed.

End SmashFacts.

(** ** Scans and smashes in [number_stack.py] *)

Section StackFacts.
Import Stack StackSpec.

Lemma stack_getitem2_ok (gm : Game) (r c : nat) :
  wf gm → (r < ROWS)%nat → (c < COLS)%nat →
  getitem2 (grid gm) (Z.of_nat r) (Z.of_nat c) = Ok (entry (grid gm) r c).
Proof.
  intros Hwf Hr Hc. destruct (shape_cell_at _ _ _ r c Hwf Hr Hc) as [x Hx].
  rewrite (getitem2_nat _ _ _ _ Hx). by rewrite (entry_Some _ _ _ _ Hx).
Qed.

Lemma find_group_not_smashable (gm : Game) (r c : nat) :
  wf gm → (r < ROWS)%nat → (c < COLS)%nat →
  entry (grid gm) r c ≠ Some 0 → entry (grid gm) r c ≠ Some 1 →
  find_group gm (Z.of_nat r) (Z.of_nat c) = Ok [].
Proof.
  intros Hwf Hr Hc H0 H1. unfold find_group.
  rewrite stack_getitem2_ok by done. cbn [mbind result_bind].
  destruct (entry (grid gm) r c) as [t|]; [|done].
  rewrite decide_True; [done|]. split; congruence.
Qed.

Lemma find_group_spec (gm : Game) (r c : nat) (t : Z) :
  wf gm → (r < ROWS)%nat → (c < COLS)%nat →
  entry (grid gm) r c = Some t → t = 0 ∨ t = 1 →
  ∃ group, find_group gm (Z.of_nat r) (Z.of_nat c) = Ok group ∧
           NoDup group ∧ head group = Some (coord_of r c) ∧
           ∀ x, x ∈ group ↔
                region ROWS COLS (entry (grid gm)) t (coord_of r c) x.
Proof.
  intros Hwf Hr Hc Hval Ht. unfold find_group.
  rewrite stack_getitem2_ok by done. rewrite Hval. cbn [mbind result_bind].
  rewrite decide_False by lia.
  apply bfs_spec; [|done..]. intros r0 c0 Hr0 Hc0. by apply stack_getitem2_ok.
Qed.

Lemma stack_clear_group_spec (group : list (Z * Z)) (g : list (list (option Z))) :
  shape g ROWS COLS → (∀ x, x ∈ group → on_grid ROWS COLS x) →
  ∃ g', clear_group g group = Ok g' ∧ shape g' ROWS COLS ∧
        ∀ r c, entry g' r c =
               if decide (coord_of r c ∈ group) then None else entry g r c.
Proof.
  unfold clear_group. revert g.
  induction group as [|x group IH]; intros g Hshape Hon.
  - exists g. split; [done|]. split; [done|]. intros r c.
    rewrite decide_False; [done|]. apply not_elem_of_nil.
  - destruct (on_grid_coord_of ROWS COLS x) as (r & c & -> & Hr & Hc);
      [apply Hon; by left|].
    destruct (shape_cell_at g ROWS COLS r c Hshape Hr Hc) as [cell Hcell].
    cbn [for_each]. unfold coord_of at 1.
    rewrite setitem2_nat by (by eexists). cbn [mbind result_bind].
    destruct (IH (grid_set g r c None)) as (g' & Hrun & Hshape' & Hvals);
      [by apply shape_grid_set|intros; apply Hon; by right|].
    exists g'. split; [done|]. split; [done|]. intros r0 c0.
    rewrite Hvals. unfold entry at 1. rewrite cell_at_grid_set by (by eexists).
    destruct (decide (coord_of r0 c0 ∈ group)) as [Hin|Hin].
    + rewrite decide_True; [done|by right].
    + destruct (decide (r0 = r ∧ c0 = c)) as [[-> ->]|Hne].
      * rewrite decide_True; [done|by left].
      * rewrite decide_False; [done|]. intros Hin'.
        apply elem_of_cons in Hin' as [Heq|?]; [|done].
        by apply coord_of_inj in Heq.
Qed.

Lemma smash_not_smashable (gm : Game) (r c : nat) :
  wf gm → (r < ROWS)%nat → (c < COLS)%nat →
  entry (grid gm) r c ≠ Some 0 → entry (grid gm) r c ≠ Some 1 →
  smash gm (Z.of_nat r) (Z.of_nat c) = Ok gm.
Proof.
  intros Hwf Hr Hc H0 H1. unfold smash.
  rewrite stack_getitem2_ok by done. cbn [mbind result_bind].
  by rewrite decide_True.
Qed.

Lemma smash_small (gm : Game) (r c : nat) (group : list (Z * Z)) :
  wf gm → (r < ROWS)%nat → (c < COLS)%nat →
  find_group gm (Z.of_nat r) (Z.of_nat c) = Ok group → (length group < 2)%nat →
  smash gm (Z.of_nat r) (Z.of_nat c) = Ok gm.
Proof.
  intros Hwf Hr Hc Hgroup Hlen. unfold smash.
  rewrite stack_getitem2_ok by done. cbn [mbind result_bind].
  case_decide; [done|].
  rewrite Hgroup. cbn [mbind result_bind]. by rewrite decide_True.
Qed.

Lemma smash_accepted (gm : Game) (r c : nat) (t : Z) (group : list (Z * Z)) :
  wf gm → (r < ROWS)%nat → (c < COLS)%nat →
  entry (grid gm) r c = Some t → t = 0 ∨ t = 1 →
  find_group gm (Z.of_nat r) (Z.of_nat c) = Ok group → (2 ≤ length group)%nat →
  ∃ g gm',
    clear_group (grid gm) group = Ok g ∧
    smash gm (Z.of_nat r) (Z.of_nat c) = Ok gm' ∧
    apply_gravity (mkGame g (score gm + Z.of_nat (length group) * 10)) = Ok gm' ∧
    wf gm' ∧ score gm' = score gm + Z.of_nat (length group) * 10.
Proof.
  intros Hwf Hr Hc Hval Ht Hgroup Hlen.
  destruct (find_group_spec gm r c t Hwf Hr Hc Hval Ht)
    as (group' & Hgroup' & _ & _ & Hmem).
  rewrite Hgroup in Hgroup'. simplify_eq.
  destruct (stack_clear_group_spec group' (grid gm) Hwf) as (g & Hclear & Hshape & _).
  { intros x Hx. apply Hmem in Hx.
    by destruct (region_has_value _ _ _ _ _ _ Hx). }
  destruct (stack_apply_gravity_spec
              (mkGame g (score gm + Z.of_nat (length group') * 10)) Hshape)
    as (gm' & Hgrav & Hwf' & Hscore & _).
  exists g, gm'. split; [done|]. split; [|done].
  unfold smash. rewrite stack_getitem2_ok by done. cbn [mbind result_bind].
  rewrite decide_False by (rewrite Hval; intros [? ?]; destruct Ht; by subst).
  rewrite Hgroup. cbn [mbind result_bind]. rewrite decide_False by lia.
  rewrite Hclear. cbn [mbind result_bind]. done.
Qed.

End StackFacts.

(** ** The swap trial *)

Section CrushSwap.
Import Crush CrushSpec.

Lemma try_swap_not_adjacent (gm : Game) (a b : Z * Z) :
  ¬ adjacent a b → try_swap gm a b = Ok gm.
Proof.
  intros Hadj. unfold try_swap. destruct (animating gm); [done|].
  destruct a as [r1 c1], b as [r2 c2]. unfold adjacent in Hadj. simpl in Hadj.
  by rewrite decide_True.
Qed.

Lemma get_in_bounds (b : Board) (r c : nat) (x : option Tile) :
  (r < rows b)%nat → (c < cols b)%nat → cell_at (grid b) r c = Some x →
  get b (Z.of_nat r) (Z.of_nat c) = Ok x.
Proof.
  intros Hr Hc Hx. unfold get. rewrite decide_True by lia.
  by apply getitem2_nat.
Qed.

Lemma get_out_of_bounds (b : Board) (r c : Z) :
  ¬ on_grid (rows b) (cols b) (r, c) → get b r c = Ok None.
Proof. intros Hout. unfold get. by rewrite decide_False. Qed.

(** [Board.swap] exchanges the two entries. *)
Lemma swap_spec (b : Board) (r1 c1 r2 c2 : nat) (x1 x2 : option Tile) :
  cell_at (grid b) r1 c1 = Some x1 → cell_at (grid b) r2 c2 = Some x2 →
  swap b (Z.of_nat r1) (Z.of_nat c1) (Z.of_nat r2) (Z.of_nat c2) =
    Ok (set_grid b (grid_set (grid_set (grid b) r1 c1 x2) r2 c2 x1)).
Proof.
  intros H1 H2. unfold swap.
  rewrite (getitem2_nat _ _ _ _ H2), (getitem2_nat _ _ _ _ H1).
  cbn [mbind result_bind].
  rewrite setitem2_nat by (by eexists). cbn [mbind result_bind].
  rewrite setitem2_nat; [done|].
  rewrite cell_at_grid_set by (by eexists). case_decide; by eexists.
Qed.

(** Swapping twice gives the board back: the swap is its own inverse. *)
Lemma swap_swap (b b1 : Board) (r1 c1 r2 c2 : nat) :
  wf b → (r1 < rows b)%nat → (c1 < cols b)%nat →
  (r2 < rows b)%nat → (c2 < cols b)%nat →
  swap b (Z.of_nat r1) (Z.of_nat c1) (Z.of_nat r2) (Z.of_nat c2) = Ok b1 →
  wf b1 ∧ same_dims b b1 ∧
  swap b1 (Z.of_nat r1) (Z.of_nat c1) (Z.of_nat r2) (Z.of_nat c2) = Ok b.
Proof.
  intros Hwf Hr1 Hc1 Hr2 Hc2 Hswap.
  destruct (shape_cell_at _ _ _ r1 c1 Hwf Hr1 Hc1) as [x1 H1].
  destruct (shape_cell_at _ _ _ r2 c2 Hwf Hr2 Hc2) as [x2 H2].
  rewrite (swap_spec b r1 c1 r2 c2 x1 x2 H1 H2) in Hswap. simplify_eq.
  set (g1 := grid_set (grid_set (grid b) r1 c1 x2) r2 c2 x1).
  assert (shape g1 (rows b) (cols b)) as Hshape1.
  { by apply shape_grid_set, shape_grid_set. }
  assert (∀ r c, cell_at g1 r c =
            if decide (r = r2 ∧ c = c2) then Some x1
            else if decide (r = r1 ∧ c = c1) then Some x2
            else cell_at (grid b) r c) as Hg1.
  { intros r c. unfold g1. rewrite cell_at_grid_set.
    - case_decide; [done|]. by rewrite cell_at_grid_set by (by eexists).
    - rewrite cell_at_grid_set by (by eexists). case_decide; by eexists. }
  split; [done|]. split; [done|].
  assert (cell_at g1 r1 c1 = Some (if decide (r1 = r2 ∧ c1 = c2) then x1 else x2))
    as H1'.
  { rewrite Hg1. case_decide; [done|]. by rewrite decide_True. }
  assert (cell_at g1 r2 c2 = Some x1) as H2'.
  { rewrite Hg1. by rewrite decide_True. }
  rewrite (swap_spec (set_grid b g1) r1 c1 r2 c2 _ _ H1' H2'). simpl.
  destruct b as [nr ncl g]. unfold set_grid. simpl in *. f_equal. f_equal.
  apply (grid_eq _ _ nr ncl); [by apply shape_grid_set, shape_grid_set|done|].
  intros r c Hr Hc.
  rewrite cell_at_grid_set.
  2:{ rewrite cell_at_grid_set by (by eexists).
      destruct (decide (r2 = r1 ∧ c2 = c1)); by eexists. }
  rewrite cell_at_grid_set by (by eexists). rewrite Hg1.
  repeat case_decide; destruct_and?; simplify_eq; try done; try congruence.
  all: exfalso; naive_solver.
Qed.

End CrushSwap.

Section CrushTrial.
Import Crush CrushSpec.

Lemma run_frames_add (n m fuel : nat) (gm : Game) (rnd : RandomSource) :
  run_frames (n + m) fuel gm rnd =
  '(gm', rnd') ← run_frames n fuel gm rnd; run_frames m fuel gm' rnd'.
Proof.
  revert gm rnd. induction n as [|n IH]; intros gm rnd; simpl; [done|].
  destruct (update_swap_anim fuel gm rnd) as [[gm1 rnd1]| |]; simpl; [|done..].
  apply IH.
Qed.

(** Frames before the last one of an animation only advance the counter. *)
Lemma waiting_frames (n fuel : nat) (gm : Game) (b : Board) (a1 a2 : Z * Z)
    (ta tb : Tile) (frame : Z) (reverting : bool) (rnd : RandomSource) :
  frame + Z.of_nat n < SWAP_ANIM_FRAMES →
  run_frames n fuel (in_trial gm b a1 a2 ta tb frame reverting) rnd =
    Ok (in_trial gm b a1 a2 ta tb (frame + Z.of_nat n) reverting, rnd).
Proof.
  revert frame. induction n as [|n IH]; intros frame Hlt.
  - simpl. by rewrite Z.add_0_r.
  - cbn [run_frames]. unfold update_swap_anim at 1. cbn.
    rewrite decide_False; [|unfold SWAP_ANIM_FRAMES in *; lia]. cbn.
    fold (in_trial gm b a1 a2 ta tb (frame + 1) reverting).
    rewrite IH by (unfold SWAP_ANIM_FRAMES in *; lia).
    by replace (frame + 1 + Z.of_nat n) with (frame + Z.of_nat (S n)) by lia.
Qed.

Lemma try_swap_accepted (gm : Game) (r1 c1 r2 c2 : nat) (ta tb : Tile) :
  animating gm = false →
  (r1 < rows (board gm))%nat → (c1 < cols (board gm))%nat →
  (r2 < rows (board gm))%nat → (c2 < cols (board gm))%nat →
  adjacent (coord_of r1 c1) (coord_of r2 c2) →
  cell_at (grid (board gm)) r1 c1 = Some (Some ta) →
  cell_at (grid (board gm)) r2 c2 = Some (Some tb) →
  try_swap gm (coord_of r1 c1) (coord_of r2 c2) =
    Ok (in_trial gm (board gm) (coord_of r1 c1) (coord_of r2 c2) ta tb 0 false).
Proof.
  intros Hidle Hr1 Hc1 Hr2 Hc2 Hadj H1 H2. unfold try_swap. rewrite Hidle.
  unfold coord_of, adjacent in *. simpl in Hadj.
  rewrite decide_False by lia.
  rewrite (get_in_bounds _ _ _ _ Hr1 Hc1 H1), (get_in_bounds _ _ _ _ Hr2 Hc2 H2).
  done.
Qed.

(** The last frame of the forward animation when the swap made no match:
    the board is swapped and the animation turns back. *)
Lemma forward_frame_no_match (fuel : nat) (gm : Game) (b b1 : Board)
    (r1 c1 r2 c2 : nat) (ta tb : Tile) (rnd : RandomSource) :
  swap b (Z.of_nat r1) (Z.of_nat c1) (Z.of_nat r2) (Z.of_nat c2) = Ok b1 →
  find_matches b1 = Ok ∅ →
  update_swap_anim fuel
    (in_trial gm b (coord_of r1 c1) (coord_of r2 c2) ta tb (SWAP_ANIM_FRAMES - 1) false)
    rnd =
  Ok (in_trial gm b1 (coord_of r1 c1) (coord_of r2 c2) ta tb 0 true, rnd).
Proof.
  intros Hswap Hnone. unfold update_swap_anim. cbn.
  rewrite Hswap. cbn. rewrite Hnone. cbn.
  rewrite decide_True by lia.
  by rewrite decide_False by (intros Hne; by apply Hne).
Qed.

(** The last frame of the backward animation: the board is swapped once
    more at the top of the block, found free of matches, and swapped a
    third time by the revert branch. *)
Lemma backward_frame (fuel : nat) (gm : Game) (b1 b2 b3 : Board)
    (r1 c1 r2 c2 : nat) (ta tb : Tile) (rnd : RandomSource) :
  swap b1 (Z.of_nat r1) (Z.of_nat c1) (Z.of_nat r2) (Z.of_nat c2) = Ok b2 →
  find_matches b2 = Ok ∅ →
  swap b2 (Z.of_nat r1) (Z.of_nat c1) (Z.of_nat r2) (Z.of_nat c2) = Ok b3 →
  update_swap_anim fuel
    (in_trial gm b1 (coord_of r1 c1) (coord_of r2 c2) ta tb (SWAP_ANIM_FRAMES - 1) true)
    rnd =
  Ok (after_trial gm b3, rnd).
Proof.
  intros Hswap Hnone Hswap'. unfold update_swap_anim. cbn.
  rewrite Hswap. cbn. rewrite Hnone. cbn.
  rewrite decide_True by lia.
  rewrite decide_False by (intros Hne; by apply Hne). cbn.
  rewrite Hswap'. done.
Qed.

(** A whole trial whose swap makes no match, on a board without matches:
    after the 24 frames the two tiles are exchanged. *)
Lemma failed_trial (fuel : nat) (gm : Game) (b1 : Board) (r1 c1 r2 c2 : nat)
    (ta tb : Tile) (rnd : RandomSource) :
  wf (board gm) → animating gm = false →
  (r1 < rows (board gm))%nat → (c1 < cols (board gm))%nat →
  (r2 < rows (board gm))%nat → (c2 < cols (board gm))%nat →
  adjacent (coord_of r1 c1) (coord_of r2 c2) →
  cell_at (grid (board gm)) r1 c1 = Some (Some ta) →
  cell_at (grid (board gm)) r2 c2 = Some (Some tb) →
  find_matches (board gm) = Ok ∅ →
  swap (board gm) (Z.of_nat r1) (Z.of_nat c1) (Z.of_nat r2) (Z.of_nat c2) = Ok b1 →
  find_matches b1 = Ok ∅ →
  ∃ gm1,
    try_swap gm (coord_of r1 c1) (coord_of r2 c2) = Ok gm1 ∧
    run_frames 24 fuel gm1 rnd = Ok (after_trial gm b1, rnd).
Proof.
  intros Hwf Hidle Hr1 Hc1 Hr2 Hc2 Hadj H1 H2 Hstable Hswap Hnone.
  eexists. split; [by apply try_swap_accepted|].
  destruct (swap_swap _ _ _ _ _ _ Hwf Hr1 Hc1 Hr2 Hc2 Hswap) as (_ & _ & Hback).
  change 24%nat with (11 + (1 + (11 + 1)))%nat.
  rewrite run_frames_add, waiting_frames by done. cbn [mbind result_bind].
  rewrite run_frames_add. cbn [run_frames].
  change (0 + Z.of_nat 11) with (SWAP_ANIM_FRAMES - 1).
  rewrite (forward_frame_no_match _ _ _ b1) by done. cbn [mbind result_bind].
  rewrite run_frames_add, waiting_frames by done. cbn [mbind result_bind run_frames].
  change (0 + Z.of_nat 11) with (SWAP_ANIM_FRAMES - 1).
  by rewrite (backward_frame _ _ _ (board gm) b1).
Qed.

End CrushTrial.

(** * The claims *)

Section CrushClaims.
Import Crush CrushSpec Examples.

(** C1.  On every well-formed board whose cells all hold a tile,
    [Board.find_matches] returns a set [S] such that a coordinate is in [S]
    exactly when its cell lies inside a maximal horizontal run of at least
    3 equal types or inside a maximal vertical run of at least 3 equal
    types; every member of [S] is a coordinate of the board, and [S] lists
    each of them once, also one that lies in a row run and in a column run
    at the same time. *)
Theorem find_matches_exact (b : Board) :
  wf b → full b →
  ∃ S, find_matches b = Ok S ∧
       (∀ r c, coord_of r c ∈ S ↔ matched b r c) ∧
       (∀ x, x ∈ S → on_grid (rows b) (cols b) x) ∧
       NoDup (elements S).
Proof.
  intros Hwf Hfull.
  destruct (find_matches_spec b Hwf Hfull) as (S & HS & Hmem).
  exists S. split; [done|]. split; [|split].
  - intros r c. rewrite Hmem. split.
    + intros (r' & c' & Heq & Hm). apply coord_of_inj in Heq as [-> ->]. done.
    + intros Hm. by exists r, c.
  - by apply find_matches_on_grid.
  - apply NoDup_elements.
Qed.

Lemma find_matches_exact_witness :
  wf crossing ∧ full crossing ∧
  ∃ S, find_matches crossing = Ok S ∧
       (∀ r c, coord_of r c ∈ S ↔ matched crossing r c) ∧
       (∀ x, x ∈ S → on_grid (rows crossing) (cols crossing) x) ∧
       NoDup (elements S).
Proof.
  assert (wf crossing) as Hwf by concrete_shape.
  assert (full crossing) as Hfull by concrete_full.
  split; [exact Hwf|]. split; [exact Hfull|].
  exact (find_matches_exact crossing Hwf Hfull).
Defined.

(** On the board [crossing] the top row and the second column are runs;
    the cell [(0, 1)] where they cross is matched once: 8 coordinates. *)
Example find_matches_crossing :
  ∃ matches, find_matches crossing = Ok matches ∧
    matches = {[ (0, 0); (0, 1); (0, 2); (0, 3); (1, 1); (2, 1); (1, 3); (2, 3) ]} ∧
    size matches = 8%nat.
Proof. eexists. split; [vm_compute; reflexivity|]. split; vm_compute; reflexivity. Qed.

(** C4.  Every board that construction produces, whatever the numbers of
    rows and columns and whatever the draws, has no match: right after
    [Board(rows, cols)], [find_matches] returns the empty set, no cell
    satisfies the match predicate, and the clean-up loop that the game runs
    next, [resolve_all_matches_initial], leaves at its first scan without
    touching the board. *)
Theorem construction_has_no_match (fuel nrows ncols : nat)
    (rnd rnd' : RandomSource) (b : Board) :
  Board_init fuel nrows ncols rnd = Ok (b, rnd') →
  rows b = nrows ∧ cols b = ncols ∧
  find_matches b = Ok ∅ ∧
  (∀ r c, ¬ matched b r c) ∧
  (∀ fuel', resolve_all_matches_initial (S fuel') b rnd' = Ok (b, rnd')).
Proof.
  intros Hinit.
  destruct (Board_init_spec _ _ _ _ _ _ Hinit) as (Hr & Hc & Hwf & Hfull & Hnone).
  assert (find_matches b = Ok ∅) as Hfm by (by apply find_matches_empty).
  split; [done|]. split; [done|]. split; [done|]. split; [done|].
  intros fuel'. simpl. rewrite Hfm. simpl. by rewrite decide_True.
Qed.

Lemma construction_has_no_match_witness :
  ∃ rnd',
    Board_init 3 4 4 zeros_then_counting = Ok (rerolled_board, rnd') ∧
    (rows rerolled_board = 4%nat ∧ cols rerolled_board = 4%nat ∧
     find_matches rerolled_board = Ok ∅ ∧
     (∀ r c, ¬ matched rerolled_board r c) ∧
     (∀ fuel', resolve_all_matches_initial (S fuel') rerolled_board rnd' =
               Ok (rerolled_board, rnd'))).
Proof.
  eexists. split.
  - vm_compute. reflexivity.
  - apply (construction_has_no_match 3 4 4 zeros_then_counting).
    vm_compute. reflexivity.
Defined.

Lemma get_tile (b : Board) (r c : nat) :
  wf b → full b → (r < rows b)%nat → (c < cols b)%nat →
  ∃ t, get b (Z.of_nat r) (Z.of_nat c) = Ok (Some t).
Proof.
  intros Hwf Hfull Hr Hc.
  destruct (cell_at_tile b r c Hwf Hfull Hr Hc) as (t & Ht & _).
  exists t. by apply get_in_bounds.
Qed.

(** C10.  Every in-bounds cell holds a tile after construction and after
    every [remove_and_collapse] call: [Board.get] returns a tile, not
    [None], at every [(r, c)] with [0 <= r < rows] and [0 <= c < cols].
    [remove_and_collapse] is given any well-formed board (even one with
    empty cells) and any set of coordinates of the board; it returns, and
    what it returns is full. *)
Theorem cells_always_hold_tiles (fuel nrows ncols : nat)
    (rnd rnd0 rnd1 : RandomSource) (b0 b : Board) (remove_coords : gset (Z * Z)) :
  Board_init fuel nrows ncols rnd = Ok (b0, rnd0) →
  wf b → (∀ x, x ∈ remove_coords → on_grid (rows b) (cols b) x) →
  (∀ r c, (r < nrows)%nat → (c < ncols)%nat →
     ∃ t, get b0 (Z.of_nat r) (Z.of_nat c) = Ok (Some t)) ∧
  ∃ b' removed rnd',
    remove_and_collapse b remove_coords rnd1 = Ok (b', removed, rnd') ∧
    rows b' = rows b ∧ cols b' = cols b ∧
    ∀ r c, (r < rows b)%nat → (c < cols b)%nat →
      ∃ t, get b' (Z.of_nat r) (Z.of_nat c) = Ok (Some t).
Proof.
  intros Hinit Hwf Hon. split.
  - destruct (Board_init_spec _ _ _ _ _ _ Hinit) as (Hr & Hc & Hwf0 & Hfull0 & _).
    intros r c Hr' Hc'. apply get_tile; [done|done|lia|lia].
  - destruct (remove_and_collapse_spec b remove_coords rnd1 Hwf Hon)
      as (b' & removed & rnd' & Hrun & Hwf' & Hfull' & [Hr Hc] & _).
    exists b', removed, rnd'. split; [done|]. split; [done|]. split; [done|].
    intros r c Hr' Hc'. apply get_tile; [done|done|lia|lia].
Qed.

Lemma cells_always_hold_tiles_witness :
  ∃ rnd0,
    Board_init 3 4 4 zeros_then_counting = Ok (rerolled_board, rnd0) ∧
    wf marked ∧
    (∀ x, x ∈ ({[ (1, 0) ]} : gset (Z * Z)) → on_grid (rows marked) (cols marked) x) ∧
    ((∀ r c, (r < 4)%nat → (c < 4)%nat →
        ∃ t, get rerolled_board (Z.of_nat r) (Z.of_nat c) = Ok (Some t)) ∧
     ∃ b' removed rnd',
       remove_and_collapse marked {[ (1, 0) ]} counting = Ok (b', removed, rnd') ∧
       rows b' = rows marked ∧ cols b' = cols marked ∧
       ∀ r c, (r < rows marked)%nat → (c < cols marked)%nat →
         ∃ t, get b' (Z.of_nat r) (Z.of_nat c) = Ok (Some t)).
Proof.
  assert (wf marked) as Hwf by concrete_shape.
  assert (∀ x, x ∈ ({[ (1, 0) ]} : gset (Z * Z)) →
            on_grid (rows marked) (cols marked) x) as Hon.
  { intros x Hx. apply elem_of_singleton in Hx as ->. split; simpl; lia. }
  eexists. split; [vm_compute; reflexivity|].
  split; [exact Hwf|]. split; [exact Hon|].
  eapply (cells_always_hold_tiles 3 4 4 zeros_then_counting); [|exact Hwf|exact Hon].
  vm_compute. reflexivity.
Defined.

(** C9.  A swap request for two coordinates whose Manhattan distance is not
    1 is turned down: [try_swap] leaves the whole game as it was, so no
    trial starts ([animating] and [swap_animation] keep their values) and
    no cell of the grid changes. *)
Theorem non_adjacent_swap_rejected (gm : Game) (a b : Z * Z) :
  Z.abs (a.1 - b.1) + Z.abs (a.2 - b.2) ≠ 1 →
  try_swap gm a b = Ok gm.
Proof. apply try_swap_not_adjacent. Qed.

Lemma non_adjacent_swap_rejected_witness :
  Z.abs ((0, 0).1 - (1, 1).1) + Z.abs ((0, 0).2 - (1, 1).2) ≠ 1 ∧
  try_swap fresh_game (0, 0) (1, 1) = Ok fresh_game.
Proof.
  split; [simpl; lia|]. apply (non_adjacent_swap_rejected fresh_game (0, 0) (1, 1)).
  simpl. lia.
Defined.

(** C7.  When [find_and_resolve_matches] returns, the cascade it ran took
    some steps removing [ns = [n1; n2; ...]] tiles; the returned total is
    their sum and the score grew by the sum over the steps of
    [n * BASE_SCORE_PER_TILE * k], where the chain depth [k] is 1 for the
    first step and goes up by 1 per step. *)
Theorem chain_scoring (fuel : nat) (gm gm' : Game) (rnd rnd' : RandomSource)
    (tot : Z) :
  find_and_resolve_matches fuel gm rnd = Ok (tot, gm', rnd') →
  ∃ ns, cascade (board gm) rnd ns (board gm') rnd' ∧
        tot = total ns ∧
        score gm' = score gm + chain_score 0 ns ∧
        chain_score 0 ns =
          foldr Z.add 0
            (imap (fun i n => n * BASE_SCORE_PER_TILE * (Z.of_nat i + 1)) ns).
Proof.
  unfold find_and_resolve_matches. intros Hrun.
  apply bind_Ok in Hrun as ([[[tot1 b1] sc1] rnd1] & Hloop & Hrun).
  simplify_eq. apply resolve_loop_cascade in Hloop as (ns & _ & Hcas & -> & ->).
  exists ns. simpl. split; [done|]. split; [lia|]. split; [done|].
  reflexivity.
Qed.

Lemma chain_scoring_witness :
  ∃ gm' rnd',
    find_and_resolve_matches 3 two_steps two_steps_draws = Ok (7, gm', rnd') ∧
    score gm' = 3 * BASE_SCORE_PER_TILE * 1 + 4 * BASE_SCORE_PER_TILE * 2 ∧
    ∃ ns, cascade (board two_steps) two_steps_draws ns (board gm') rnd' ∧
          7 = total ns ∧
          score gm' = score two_steps + chain_score 0 ns ∧
          chain_score 0 ns =
            foldr Z.add 0
              (imap (fun i n => n * BASE_SCORE_PER_TILE * (Z.of_nat i + 1)) ns).
Proof.
  eexists _, _. split; [vm_compute; reflexivity|]. split; [reflexivity|].
  apply (chain_scoring 3 two_steps _ two_steps_draws).
  vm_compute. reflexivity.
Defined.

(** The steps of the cascade of [two_steps] remove 3 and then 4 tiles. *)
Example two_steps_cascade :
  ∃ rnd', cascade (board two_steps) two_steps_draws [3; 4] two_steps_end rnd'.
Proof.
  eexists.
  eapply cascade_step with (matches := {[ (2, 0); (2, 1); (2, 2) ]});
    [vm_compute; reflexivity|set_solver|vm_compute; reflexivity|].
  eapply cascade_step with (matches := {[ (0, 0); (0, 1); (0, 2); (0, 3) ]});
    [vm_compute; reflexivity|set_solver|vm_compute; reflexivity|].
  apply cascade_stable. vm_compute. reflexivity.
Qed.

(** C3, as the code has it.  The loop of [find_and_resolve_matches] has no
    cap on its turns and raises nothing: it returns exactly when, after
    some number of steps (whatever that number is), the scan finds no
    match.  The grid it returns is then stabilized: [find_matches] on it is
    empty. *)
Theorem cascade_returns_when_stable (fuel : nat) (gm gm' : Game)
    (rnd rnd' : RandomSource) (tot : Z) :
  find_and_resolve_matches fuel gm rnd = Ok (tot, gm', rnd') ↔
  ∃ ns, (length ns < fuel)%nat ∧
        cascade (board gm) rnd ns (board gm') rnd' ∧
        find_matches (board gm') = Ok ∅ ∧
        tot = total ns ∧
        gm' = mkGame (board gm') (selected gm) (animating gm) (swap_animation gm)
                (score gm + chain_score 0 ns) (combo gm).
Proof.
  unfold find_and_resolve_matches. split.
  - intros Hrun.
    apply bind_Ok in Hrun as ([[[tot1 b1] sc1] rnd1] & Hloop & Hrun).
    simplify_eq. apply resolve_loop_cascade in Hloop as (ns & Hlen & Hcas & -> & ->).
    exists ns. simpl. split; [done|]. split; [done|].
    split; [by eapply cascade_stable_end|]. split; [lia|done].
  - intros (ns & Hlen & Hcas & _ & -> & ->). simpl in *.
    rewrite (cascade_resolve_loop fuel _ _ (score gm) 0 0 _ _ ns Hcas Hlen).
    simpl. repeat f_equal.
Qed.

Lemma cascade_returns_when_stable_witness :
  ∃ tot gm' rnd',
    find_and_resolve_matches 3 two_steps two_steps_draws = Ok (tot, gm', rnd') ∧
    ∃ ns, (length ns < 3)%nat ∧
          cascade (board two_steps) two_steps_draws ns (board gm') rnd' ∧
          find_matches (board gm') = Ok ∅ ∧
          tot = total ns ∧
          gm' = mkGame (board gm') (selected two_steps) (animating two_steps)
                  (swap_animation two_steps)
                  (score two_steps + chain_score 0 ns) (combo two_steps).
Proof.
  eexists _, _, _. split; [vm_compute; reflexivity|].
  apply (cascade_returns_when_stable 3 two_steps _ two_steps_draws).
  vm_compute. reflexivity.
Defined.

Lemma endless_loop (fuel : nat) :
  find_and_resolve_matches fuel endless zeros = OutOfFuel.
Proof.
  pose (b1 := board_of [[0; 1; 2]; [0; 3; 4]; [0; 0; 1]]).
  pose (col := ({[ (0, 0); (1, 0); (2, 0) ]} : gset (Z * Z))).
  assert (col ≠ ∅) as Hne by set_solver.
  assert (find_matches (board endless) = Ok col) as Hfm0 by (vm_compute; reflexivity).
  assert (remove_and_collapse (board endless) col zeros = Ok (b1, 3, zeros))
    as Hrc0 by (vm_compute; reflexivity).
  assert (find_matches b1 = Ok col) as Hfm1 by (vm_compute; reflexivity).
  assert (remove_and_collapse b1 col zeros = Ok (b1, 3, zeros))
    as Hrc1 by (vm_compute; reflexivity).
  assert (∀ fuel sc tot chain, resolve_loop fuel b1 sc tot chain zeros = OutOfFuel)
    as Hloop.
  { clear fuel. induction fuel as [|fuel IH]; intros sc tot chain; [done|].
    cbn [resolve_loop]. rewrite Hfm1. cbn [mbind result_bind].
    rewrite decide_False by done. rewrite Hrc1. cbn [mbind result_bind].
    apply IH. }
  destruct fuel as [|fuel]; [done|]. unfold find_and_resolve_matches.
  cbn [resolve_loop]. rewrite Hfm0. cbn [mbind result_bind].
  rewrite decide_False by done. rewrite Hrc0. cbn [mbind result_bind].
  by rewrite Hloop.
Qed.

(** C3, as claimed, fails: on the board [endless], when every draw is 0,
    the left column is refilled with zeros again and again.  No number of
    turns is enough for the loop to have returned or raised, and after 300
    turns nothing has been surfaced: the loop is simply still running. *)
Lemma cascade_never_returns :
  (¬ ∃ fuel, find_and_resolve_matches fuel endless zeros ≠ OutOfFuel) ∧
  find_and_resolve_matches 300 endless zeros = OutOfFuel.
Proof.
  split.
  - intros [fuel Hfuel]. apply Hfuel, endless_loop.
  - apply endless_loop.
Qed.

(** C8, on the code.  [fresh_board] is a board as construction makes it and
    has no match; exchanging its two top-left tiles makes none either.
    The trial of that swap ends, after the 12 frames forth and the 12
    frames back, with the two tiles exchanged: the board is
    [exchanged_board], not the board from before the swap. *)
Theorem failed_swap_not_reverted :
  (∃ rnd', Board_init 1 8 8 counting = Ok (fresh_board, rnd')) ∧
  find_matches fresh_board = Ok ∅ ∧
  swap fresh_board 0 0 0 1 = Ok exchanged_board ∧
  find_matches exchanged_board = Ok ∅ ∧
  (∃ gm1, try_swap fresh_game (0, 0) (0, 1) = Ok gm1 ∧
          ∀ fuel rnd,
            run_frames 24 fuel gm1 rnd =
              Ok (after_trial fresh_game exchanged_board, rnd)) ∧
  get exchanged_board 0 0 ≠ get fresh_board 0 0 ∧
  (∃ b2, swap exchanged_board 0 0 0 1 = Ok b2 ∧ b2 = fresh_board).
Proof.
  assert (find_matches fresh_board = Ok ∅) as Hfm by (vm_compute; reflexivity).
  assert (swap fresh_board 0 0 0 1 = Ok exchanged_board) as Hswap
    by (vm_compute; reflexivity).
  assert (find_matches exchanged_board = Ok ∅) as Hfm' by (vm_compute; reflexivity).
  split; [eexists; vm_compute; reflexivity|].
  split; [exact Hfm|]. split; [exact Hswap|]. split; [exact Hfm'|]. split; [|split].
  - eexists. split; [vm_compute; reflexivity|]. intros fuel rnd.
    destruct (failed_trial fuel fresh_game exchanged_board 0 0 0 1
                (new_Tile 0) (new_Tile 1) rnd) as (gm1 & Htry & Hrun).
    + concrete_shape.
    + reflexivity.
    + simpl; lia.
    + simpl; lia.
    + simpl; lia.
    + simpl; lia.
    + unfold adjacent; simpl; lia.
    + reflexivity.
    + reflexivity.
    + exact Hfm.
    + exact Hswap.
    + exact Hfm'.
    + vm_compute in Htry. injection Htry as <-. exact Hrun.
  - vm_compute. discriminate.
  - eexists. split; vm_compute; reflexivity.
Qed.

End CrushClaims.

Section SmashClaims.
Import Examples.

Lemma settled_intro {V : Type} (filler : option V → Prop)
    (old new : list (option V)) :
  compacted filler old new → settled filler old new.
Proof.
  intros Hc. split; [done|]. split.
  - intros Hall. by eapply compacted_no_empty.
  - intros t Ht. by eapply compacted_last.
Qed.

(** C2, as the code has it.  In cute_number_crush and in number_smash the
    collapse compacts, in every column, the non-empty cells downward in
    their order (the bottom-most survivor on the bottom row) and fills each
    cell vacated above them with a value that [random.choice(TILE_TYPES)],
    resp. [random.randint(0, 9)], draws, so that no cell is left empty; a
    column without empty cells is unchanged.  The collapse consumes one
    draw for each vacated cell and no other.  In number_stack the
    compaction is the same, but the vacated cells are left empty. *)
Theorem gravity_compacts (b : Crush.Board) (remove_coords : gset (Z * Z))
    (rnd : RandomSource) (gmS : Smash.Game) (rndS : RandomSource)
    (gmK : Stack.Game) :
  CrushSpec.wf b →
  (∀ x, x ∈ remove_coords → on_grid (Crush.rows b) (Crush.cols b) x) →
  SmashSpec.wf gmS → StackSpec.wf gmK →
  (* cute_number_crush: Board.remove_and_collapse *)
  (∃ g removed b' rnd',
     Crush.mark_removed (Crush.grid b) remove_coords = Ok (g, removed) ∧
     Crush.remove_and_collapse b remove_coords rnd = Ok (b', removed, rnd') ∧
     rnd' = after (sum_list_with
                     (fun c => vacated (column (fun r => entry g r c) (Crush.rows b)))
                     (range (Crush.cols b))) rnd ∧
     ∀ c, (c < Crush.cols b)%nat →
       settled CrushSpec.fresh_tile
         (column (fun r => entry g r c) (Crush.rows b))
         (CrushSpec.board_column b' c) ∧
       Forall is_Some (CrushSpec.board_column b' c)) ∧
  (* number_smash: apply_gravity *)
  (∃ gm' rnd',
     Smash.apply_gravity gmS rndS = Ok (gm', rnd') ∧
     SmashSpec.same_cells (Smash.grid gmS) (Smash.grid gm') ∧
     rnd' = after (sum_list_with (fun c => vacated (SmashSpec.game_column gmS c))
                                 (range (Smash.cols gmS))) rndS ∧
     ∀ c, (c < Smash.cols gmS)%nat →
       settled SmashSpec.fresh_value
         (SmashSpec.game_column gmS c) (SmashSpec.game_column gm' c) ∧
       Forall is_Some (SmashSpec.game_column gm' c)) ∧
  (* number_stack: apply_gravity *)
  (∃ gm',
     Stack.apply_gravity gmK = Ok gm' ∧
     ∀ c, (c < Stack.COLS)%nat →
       settled StackSpec.left_empty
         (StackSpec.game_column gmK c) (StackSpec.game_column gm' c)).
Proof.
  intros Hwf Hon HwfS HwfK. split; [|split].
  - destruct (mark_removed_spec _ _ _ _ Hwf Hon) as (g & removed & Hmark & Hshape & _).
    destruct (collapse_spec (Crush.set_grid b g) rnd Hshape)
      as (b' & rnd' & Hrun & Hwf' & Hdims & Hrnd & Hcols).
    exists g, removed, b', rnd'. split; [done|]. split.
    { unfold Crush.remove_and_collapse. rewrite Hmark. cbn [mbind result_bind].
      by rewrite Hrun. }
    split; [exact Hrnd|]. intros c Hc. specialize (Hcols c Hc). split; [by apply settled_intro|].
    eapply compacted_all_Some; [apply fresh_tile_is_Some|done].
  - destruct (smash_apply_gravity_spec gmS rndS HwfS)
      as (gm' & rnd' & Hrun & _ & _ & _ & _ & Hsame & Hrnd & Hcols).
    exists gm', rnd'. split; [done|]. split; [done|]. split; [exact Hrnd|].
    intros c Hc. specialize (Hcols c Hc). split; [by apply settled_intro|].
    eapply compacted_all_Some; [|done]. intros x (v & _ & ->). by eexists.
  - destruct (stack_apply_gravity_spec gmK HwfK) as (gm' & Hrun & _ & _ & Hcols).
    exists gm'. split; [done|]. intros c Hc. by apply settled_intro, Hcols.
Qed.

Lemma gravity_compacts_witness :
  CrushSpec.wf marked ∧
  (∀ x, x ∈ ({[ (1, 0) ]} : gset (Z * Z)) →
        on_grid (Crush.rows marked) (Crush.cols marked) x) ∧
  SmashSpec.wf cleared ∧ StackSpec.wf gap ∧
  (∃ g removed b' rnd',
     Crush.mark_removed (Crush.grid marked) {[ (1, 0) ]} = Ok (g, removed) ∧
     Crush.remove_and_collapse marked {[ (1, 0) ]} counting = Ok (b', removed, rnd') ∧
     rnd' = after (sum_list_with
                     (fun c => vacated (column (fun r => entry g r c) (Crush.rows marked)))
                     (range (Crush.cols marked))) counting ∧
     ∀ c, (c < Crush.cols marked)%nat →
       settled CrushSpec.fresh_tile
         (column (fun r => entry g r c) (Crush.rows marked))
         (CrushSpec.board_column b' c) ∧
       Forall is_Some (CrushSpec.board_column b' c)) ∧
  (∃ gm' rnd',
     Smash.apply_gravity cleared some_draws = Ok (gm', rnd') ∧
     SmashSpec.same_cells (Smash.grid cleared) (Smash.grid gm') ∧
     rnd' = after (sum_list_with (fun c => vacated (SmashSpec.game_column cleared c))
                                 (range (Smash.cols cleared))) some_draws ∧
     ∀ c, (c < Smash.cols cleared)%nat →
       settled SmashSpec.fresh_value
         (SmashSpec.game_column cleared c) (SmashSpec.game_column gm' c) ∧
       Forall is_Some (SmashSpec.game_column gm' c)) ∧
  (∃ gm',
     Stack.apply_gravity gap = Ok gm' ∧
     ∀ c, (c < Stack.COLS)%nat →
       settled StackSpec.left_empty
         (StackSpec.game_column gap c) (StackSpec.game_column gm' c)).
Proof.
  assert (CrushSpec.wf marked) as Hwf by concrete_shape.
  assert (∀ x, x ∈ ({[ (1, 0) ]} : gset (Z * Z)) →
            on_grid (Crush.rows marked) (Crush.cols marked) x) as Hon.
  { intros x Hx. apply elem_of_singleton in Hx as ->. split; simpl; lia. }
  assert (SmashSpec.wf cleared) as HwfS by concrete_shape.
  assert (StackSpec.wf gap) as HwfK by concrete_shape.
  split; [exact Hwf|]. split; [exact Hon|]. split; [exact HwfS|].
  split; [exact HwfK|].
  exact (gravity_compacts marked {[ (1, 0) ]} counting cleared some_draws gap
           Hwf Hon HwfS HwfK).
Defined.

(** What the collapse makes of the three example grids. *)
Example gravity_examples :
  (∃ b' rnd',
     Crush.remove_and_collapse marked {[ (1, 0) ]} counting = Ok (b', 1, rnd') ∧
     Crush.grid b' =
       [[Some (Crush.new_Tile 2); Some (Crush.new_Tile 4)];
        [Some (Crush.new_Tile 1); Some (Crush.new_Tile 5)];
        [Some (Crush.new_Tile 0); Some (Crush.new_Tile 3)]]) ∧
  (∃ gm' rnd',
     Smash.apply_gravity cleared some_draws = Ok (gm', rnd') ∧
     SmashSpec.game_column gm' 0 = [Some 2; Some 3] ∧
     SmashSpec.game_column gm' 1 = [Some 3; Some 1]).
Proof.
  split.
  - eexists _, _. split; vm_compute; reflexivity.
  - eexists _, _. split; [vm_compute; reflexivity|]. split; vm_compute; reflexivity.
Qed.

(** C2, as claimed, fails in number_stack: the column [3, empty, 4] at the
    bottom left of [gap] becomes [empty, 3, 4]; the vacated cell is left
    empty, nothing is drawn for it. *)
Lemma gravity_leaves_cells_empty :
  ∃ gm',
    Stack.apply_gravity gap = Ok gm' ∧
    drop 7 (StackSpec.game_column gap 0) = [Some 3; None; Some 4] ∧
    drop 7 (StackSpec.game_column gm' 0) = [None; Some 3; Some 4] ∧
    ¬ Forall is_Some (StackSpec.game_column gm' 0).
Proof.
  eexists. split; [vm_compute; reflexivity|].
  split; [vm_compute; reflexivity|]. split; [vm_compute; reflexivity|].
  intros Hall. rewrite Forall_lookup in Hall.
  by destruct (Hall 0%nat None eq_refl).
Qed.

(** C5, as the code has it.  For a well-formed grid and an in-bounds seed:
    number_stack's [find_group] returns the empty list at once when the
    seed's value is not 0 or 1 (an empty cell included); otherwise it
    returns exactly the 4-connected region of the cells whose value is the
    seed's, each cell once and the seed first, so never the empty list,
    also when the region is the seed alone.  number_smash's [flood_group]
    returns the empty list only for a cleared seed and otherwise the
    region, whatever the value.  The rule that only 0 and 1 are smashed (in
    number_smash) and the minimum group size 2 are the callers': [smash] and
    [smash_at] turn the request down when the value is not 0 or 1 or the
    group has fewer than 2 members: [smash] returns the game as it was,
    [smash_at] starts the shake timer of the seed's own cell and changes
    nothing else, so that every cell keeps its value and no draw is
    taken. *)
Theorem connectivity_scan (gmK : Stack.Game) (rK cK : nat)
    (gmS : Smash.Game) (rS cS : nat) :
  StackSpec.wf gmK → (rK < Stack.ROWS)%nat → (cK < Stack.COLS)%nat →
  SmashSpec.wf gmS → (rS < Smash.rows gmS)%nat → (cS < Smash.cols gmS)%nat →
  (* number_stack *)
  ((entry (Stack.grid gmK) rK cK ≠ Some 0 → entry (Stack.grid gmK) rK cK ≠ Some 1 →
    Stack.find_group gmK (Z.of_nat rK) (Z.of_nat cK) = Ok [] ∧
    Stack.smash gmK (Z.of_nat rK) (Z.of_nat cK) = Ok gmK) ∧
   (∀ t, entry (Stack.grid gmK) rK cK = Some t → t = 0 ∨ t = 1 →
      ∃ group,
        Stack.find_group gmK (Z.of_nat rK) (Z.of_nat cK) = Ok group ∧
        NoDup group ∧ head group = Some (coord_of rK cK) ∧
        (∀ x, x ∈ group ↔
              region Stack.ROWS Stack.COLS (entry (Stack.grid gmK)) t
                (coord_of rK cK) x) ∧
        ((length group < 2)%nat →
         Stack.smash gmK (Z.of_nat rK) (Z.of_nat cK) = Ok gmK))) ∧
  (* number_smash *)
  ((SmashSpec.value_of (Smash.grid gmS) rS cS = None →
    Smash.flood_group gmS (Z.of_nat rS) (Z.of_nat cS) = Ok []) ∧
   (∀ t, SmashSpec.value_of (Smash.grid gmS) rS cS = Some t →
      ∃ group,
        Smash.flood_group gmS (Z.of_nat rS) (Z.of_nat cS) = Ok group ∧
        NoDup group ∧ head group = Some (coord_of rS cS) ∧
        (∀ x, x ∈ group ↔
              region (Smash.rows gmS) (Smash.cols gmS)
                (SmashSpec.value_of (Smash.grid gmS)) t (coord_of rS cS) x) ∧
        ((length group < 2)%nat →
         ∀ rnd, ∃ cell,
           cell_at (Smash.grid gmS) rS cS = Some cell ∧
           Smash.smash_at gmS (Z.of_nat rS) (Z.of_nat cS) rnd =
             Ok (false, SmashSpec.shaken gmS rS cS cell, rnd) ∧
           ∀ r c, SmashSpec.value_of
                    (Smash.grid (SmashSpec.shaken gmS rS cS cell)) r c =
                  SmashSpec.value_of (Smash.grid gmS) r c)) ∧
   (SmashSpec.value_of (Smash.grid gmS) rS cS ≠ Some 0 →
    SmashSpec.value_of (Smash.grid gmS) rS cS ≠ Some 1 →
    ∀ rnd, ∃ cell,
      cell_at (Smash.grid gmS) rS cS = Some cell ∧
      Smash.smash_at gmS (Z.of_nat rS) (Z.of_nat cS) rnd =
        Ok (false, SmashSpec.shaken gmS rS cS cell, rnd) ∧
      ∀ r c, SmashSpec.value_of
               (Smash.grid (SmashSpec.shaken gmS rS cS cell)) r c =
             SmashSpec.value_of (Smash.grid gmS) r c)).
Proof.
  intros HwfK HrK HcK HwfS HrS HcS. split.
  - split.
    + intros H0 H1. split.
      * by apply find_group_not_smashable.
      * by apply smash_not_smashable.
    + intros t Ht Hsm.
      destruct (find_group_spec gmK rK cK t HwfK HrK HcK Ht Hsm)
        as (group & Hrun & Hnd & Hhead & Hmem).
      exists group. split; [done|]. split; [done|]. split; [done|]. split; [done|].
      intros Hlen. by apply (smash_small gmK rK cK group).
  - destruct (smash_cell_at gmS rS cS HwfS HrS HcS) as (cell & Hcell & Hval).
    split; [|split].
    + by apply flood_group_empty.
    + intros t Ht.
      destruct (flood_group_spec gmS rS cS t HwfS HrS HcS Ht)
        as (group & Hrun & Hnd & Hhead & Hmem).
      exists group. split; [done|]. split; [done|]. split; [done|]. split; [done|].
      intros Hlen rnd. exists cell. split; [done|].
      split; [|intros r c; by apply value_of_shaken].
      destruct (decide (t = 0 ∨ t = 1)) as [Hsm|Hsm].
      * apply (smash_at_small gmS rS cS rnd cell group); [done| |done|done].
        rewrite <- Hval, Ht. destruct Hsm as [-> | ->]; [by left|by right].
      * apply smash_at_not_smashable; [done|..].
        -- rewrite <- Hval, Ht. intros ?. simplify_eq. apply Hsm. by left.
        -- rewrite <- Hval, Ht. intros ?. simplify_eq. apply Hsm. by right.
    + intros H0 H1 rnd. exists cell. split; [done|].
      split; [|intros r c; by apply value_of_shaken].
      apply smash_at_not_smashable; [done|..]; by rewrite <- Hval.
Qed.

Lemma connectivity_scan_witness :
  StackSpec.wf stacked_ones ∧ (9 < Stack.ROWS)%nat ∧ (0 < Stack.COLS)%nat ∧
  SmashSpec.wf five_ones ∧ (0 < Smash.rows five_ones)%nat ∧
  (2 < Smash.cols five_ones)%nat ∧
  (∀ t, entry (Stack.grid stacked_ones) 9 0 = Some t → t = 0 ∨ t = 1 →
     ∃ group,
       Stack.find_group stacked_ones (Z.of_nat 9) (Z.of_nat 0) = Ok group ∧
       NoDup group ∧ head group = Some (coord_of 9 0) ∧
       (∀ x, x ∈ group ↔
             region Stack.ROWS Stack.COLS (entry (Stack.grid stacked_ones)) t
               (coord_of 9 0) x) ∧
       ((length group < 2)%nat →
        Stack.smash stacked_ones (Z.of_nat 9) (Z.of_nat 0) = Ok stacked_ones)) ∧
  (∀ t, SmashSpec.value_of (Smash.grid five_ones) 0 2 = Some t →
     ∃ group,
       Smash.flood_group five_ones (Z.of_nat 0) (Z.of_nat 2) = Ok group ∧
       NoDup group ∧ head group = Some (coord_of 0 2) ∧
       (∀ x, x ∈ group ↔
             region (Smash.rows five_ones) (Smash.cols five_ones)
               (SmashSpec.value_of (Smash.grid five_ones)) t (coord_of 0 2) x) ∧
       ((length group < 2)%nat →
        ∀ rnd, ∃ cell,
          cell_at (Smash.grid five_ones) 0 2 = Some cell ∧
          Smash.smash_at five_ones (Z.of_nat 0) (Z.of_nat 2) rnd =
            Ok (false, SmashSpec.shaken five_ones 0 2 cell, rnd) ∧
          ∀ r c, SmashSpec.value_of
                   (Smash.grid (SmashSpec.shaken five_ones 0 2 cell)) r c =
                 SmashSpec.value_of (Smash.grid five_ones) r c)).
Proof.
  assert (StackSpec.wf stacked_ones) as HwfK by concrete_shape.
  assert (SmashSpec.wf five_ones) as HwfS by concrete_shape.
  assert (9 < Stack.ROWS)%nat as HrK by (unfold Stack.ROWS; lia).
  assert (0 < Stack.COLS)%nat as HcK by (unfold Stack.COLS; lia).
  assert (0 < Smash.rows five_ones)%nat as HrS by (simpl; lia).
  assert (2 < Smash.cols five_ones)%nat as HcS by (simpl; lia).
  split; [exact HwfK|]. split; [exact HrK|]. split; [exact HcK|].
  split; [exact HwfS|]. split; [exact HrS|]. split; [exact HcS|].
  destruct (connectivity_scan stacked_ones 9 0 five_ones 0 2
              HwfK HrK HcK HwfS HrS HcS) as [[_ HK] [_ [HS _]]].
  split; [exact HK|exact HS].
Defined.

(** C5, as claimed, fails.  In number_stack the seed [(9, 2)] of
    [stacked_ones] holds a 1 and has no neighbour holding a 1: the region
    has one member, and [find_group] returns it, not the empty list.  In
    number_smash, [flood_group] from the lone 1 at [(2, 2)] of [five_ones]
    returns that cell, and from the 5 at [(0, 2)], a value that is not
    smashable, it returns the two connected fives. *)
Lemma scan_returns_lone_seed :
  entry (Stack.grid stacked_ones) 9 2 = Some 1 ∧
  entry (Stack.grid stacked_ones) 8 2 = Some 2 ∧
  entry (Stack.grid stacked_ones) 9 1 = Some 0 ∧
  entry (Stack.grid stacked_ones) 9 3 = None ∧
  Stack.find_group stacked_ones 9 2 = Ok [(9, 2)] ∧
  Smash.flood_group five_ones 2 2 = Ok [(2, 2)] ∧
  SmashSpec.value_of (Smash.grid five_ones) 0 2 = Some 5 ∧
  Smash.flood_group five_ones 0 2 = Ok [(0, 2); (1, 2)].
Proof. repeat split; vm_compute; reflexivity. Qed.

Lemma smash_apply_gravity_score (gm gm' : Smash.Game) (rnd rnd' : RandomSource) :
  Smash.apply_gravity gm rnd = Ok (gm', rnd') → Smash.score gm' = Smash.score gm.
Proof.
  unfold Smash.apply_gravity. intros H.
  apply bind_Ok in H as ([g rnd1] & _ & H). by simplify_eq.
Qed.

Lemma stack_apply_gravity_score (gm gm' : Stack.Game) :
  Stack.apply_gravity gm = Ok gm' → Stack.score gm' = Stack.score gm.
Proof.
  unfold Stack.apply_gravity. intros H.
  apply bind_Ok in H as (g & _ & H). by simplify_eq.
Qed.

(** C6, as the code has it.  In number_smash every accepted smash
    ([smash_at] returns [True]) has a seed of value [v], 0 or 1, and a group
    of [n >= 2] cells, and adds exactly [n * (v + 1)] to the score.  In
    number_stack every accepted smash (the game changes) has a group of
    [n >= 2] cells and adds exactly [n * 10], whatever the value. *)
Theorem smash_scores (gmS gmS' : Smash.Game) (r c : Z) (rnd rnd' : RandomSource)
    (gmK gmK' : Stack.Game) (r' c' : Z) :
  Smash.smash_at gmS r c rnd = Ok (true, gmS', rnd') →
  Stack.smash gmK r' c' = Ok gmK' → gmK' ≠ gmK →
  (∃ v group,
     Smash.value_at gmS r c = Ok (Some v) ∧ (v = 0 ∨ v = 1) ∧
     Smash.flood_group gmS r c = Ok group ∧ (2 ≤ length group)%nat ∧
     Smash.score gmS' = Smash.score gmS + Z.of_nat (length group) * (v + 1)) ∧
  (∃ t group,
     getitem2 (Stack.grid gmK) r' c' = Ok (Some t) ∧ (t = 0 ∨ t = 1) ∧
     Stack.find_group gmK r' c' = Ok group ∧ (2 ≤ length group)%nat ∧
     Stack.score gmK' = Stack.score gmK + Z.of_nat (length group) * 10).
Proof.
  intros HS HK Hne. split.
  - unfold Smash.smash_at in HS.
    apply bind_Ok in HS as (cell & Hcell & HS).
    case_decide as Hsm.
    { apply bind_Ok in HS as (g & _ & HS). by simplify_eq. }
    apply bind_Ok in HS as (group & Hgroup & HS).
    case_decide as Hlen.
    { apply bind_Ok in HS as (g & _ & HS). by simplify_eq. }
    apply bind_Ok in HS as (g & Hclear & HS).
    apply bind_Ok in HS as ([gm1 rnd1] & Hgrav & HS).
    apply smash_apply_gravity_score in Hgrav. simpl in Hgrav.
    injection HS as <- <-. simpl.
    destruct (Smash.value cell) as [v|] eqn:Hv.
    2:{ exfalso. apply Hsm. by split. }
    exists v, group. unfold Smash.value_at. rewrite Hcell. simpl. rewrite Hv.
    split; [done|]. split.
    { destruct (decide (v = 0)) as [->|]; [by left|].
      destruct (decide (v = 1)) as [->|]; [by right|].
      exfalso. apply Hsm. split; congruence. }
    split; [done|]. split; [lia|]. simpl. by rewrite Hgrav.
  - unfold Stack.smash in HK.
    apply bind_Ok in HK as (x & Hx & HK).
    case_decide as Hsm; [by simplify_eq|].
    apply bind_Ok in HK as (group & Hgroup & HK).
    case_decide as Hlen; [by simplify_eq|].
    apply bind_Ok in HK as (g & Hclear & HK).
    apply stack_apply_gravity_score in HK. simpl in HK.
    destruct x as [t|].
    2:{ exfalso. apply Hsm. by split. }
    exists t, group. split; [done|]. split.
    { destruct (decide (t = 0)) as [->|]; [by left|].
      destruct (decide (t = 1)) as [->|]; [by right|].
      exfalso. apply Hsm. split; congruence. }
    split; [done|]. split; [lia|done].
Qed.

Lemma smash_scores_witness :
  ∃ gmS' rnd' gmK',
    Smash.smash_at five_ones 0 0 some_draws = Ok (true, gmS', rnd') ∧
    Stack.smash stacked_ones 9 0 = Ok gmK' ∧ gmK' ≠ stacked_ones ∧
    Smash.score gmS' = Smash.score five_ones + 5 * (1 + 1) ∧
    Stack.score gmK' = Stack.score stacked_ones + 5 * 10 ∧
    (∃ v group,
       Smash.value_at five_ones 0 0 = Ok (Some v) ∧ (v = 0 ∨ v = 1) ∧
       Smash.flood_group five_ones 0 0 = Ok group ∧ (2 ≤ length group)%nat ∧
       Smash.score gmS' = Smash.score five_ones + Z.of_nat (length group) * (v + 1)) ∧
    (∃ t group,
       getitem2 (Stack.grid stacked_ones) 9 0 = Ok (Some t) ∧ (t = 0 ∨ t = 1) ∧
       Stack.find_group stacked_ones 9 0 = Ok group ∧ (2 ≤ length group)%nat ∧
       Stack.score gmK' = Stack.score stacked_ones + Z.of_nat (length group) * 10).
Proof.
  eexists _, _, _.
  split; [vm_compute; reflexivity|]. split; [vm_compute; reflexivity|].
  split; [vm_compute; discriminate|].
  split; [vm_compute; reflexivity|]. split; [vm_compute; reflexivity|].
  eapply (smash_scores five_ones _ 0 0 some_draws _ stacked_ones _ 9 0).
  - vm_compute. reflexivity.
  - vm_compute. reflexivity.
  - vm_compute. discriminate.
Defined.

(** C6, as claimed, fails in number_stack: smashing the five connected ones
    of [stacked_ones] adds 50 to the score, not [5 * (1 + 1) = 10]. *)
Lemma stack_smash_scores_ten_per_tile :
  ∃ gm',
    entry (Stack.grid stacked_ones) 9 0 = Some 1 ∧
    Stack.find_group stacked_ones 9 0 =
      Ok [(9, 0); (8, 0); (7, 0); (8, 1); (7, 1)] ∧
    Stack.smash stacked_ones 9 0 = Ok gm' ∧
    Stack.score gm' - Stack.score stacked_ones = 50 ∧
    Stack.score gm' - Stack.score stacked_ones ≠ 5 * (1 + 1).
Proof.
  eexists. split; [vm_compute; reflexivity|]. split; [vm_compute; reflexivity|].
  split; [vm_compute; reflexivity|]. split; [vm_compute; reflexivity|].
  vm_compute. discriminate.
Qed.

End SmashClaims.

(** * The rest of the three games *)

(** ** number_stack.py: the falling number *)

Section StackPlay.
Import Stack StackSpec.

Lemma vacated_cons_None {V : Type} (col : list (option V)) :
  vacated (None :: col) = S (vacated col).
Proof.
  unfold vacated, survivors.
  change (omap id (None :: col)) with (omap id col). simpl.
  pose proof (length_omap_le id col). lia.
Qed.

Lemma vacated_cons_Some {V : Type} (v : V) (col : list (option V)) :
  vacated (Some v :: col) = vacated col.
Proof.
  unfold vacated, survivors.
  change (omap id (Some v :: col)) with (v :: omap id col). simpl. lia.
Qed.

Lemma vacated_all_Some {V : Type} (col : list (option V)) :
  Forall is_Some col → vacated col = 0%nat.
Proof.
  induction 1 as [|x col [v ->] _ IH]; [done|].
  by rewrite vacated_cons_Some.
Qed.

(** In a column without an empty cell below a filled one, the empty cells
    are the topmost ones. *)
Lemma stacked_column {V : Type} (col : list (option V)) (r : nat) :
  (∀ i j, (i ≤ j < length col)%nat →
     is_Some (col !! i ≫= id) → is_Some (col !! j ≫= id)) →
  (r < length col)%nat →
  is_Some (col !! r ≫= id) ↔ (vacated col ≤ r)%nat.
Proof.
  revert r. induction col as [|x col IH]; intros r Hst Hr; [simpl in Hr; lia|].
  destruct x as [v|].
  - rewrite vacated_cons_Some, vacated_all_Some.
    + split; [lia|]. intros _. apply (Hst 0%nat r); [lia|]. by eexists.
    + apply Forall_lookup. intros j y Hy.
      assert (is_Some ((Some v :: col) !! S j ≫= id)) as [z Hz].
      { apply (Hst 0%nat (S j)); [|by eexists].
        apply lookup_lt_Some in Hy. simpl. lia. }
      simpl in Hz. rewrite Hy in Hz. simpl in Hz. rewrite Hz. by eexists.
  - rewrite vacated_cons_None. destruct r as [|r].
    + simpl. split; [by intros [? ?]|lia].
    + simpl. rewrite IH.
      * lia.
      * intros i j Hij. apply (Hst (S i) (S j)). simpl. lia.
      * simpl in Hr. lia.
Qed.

Lemma stacked_free (g : list (list (option Z))) (c r : nat) :
  stacked g → (r < ROWS)%nat →
  is_Some (entry g r c) ↔ (free g c ≤ r)%nat.
Proof.
  intros Hst Hr. unfold free.
  rewrite <- (stacked_column (column (fun r => entry g r c) ROWS) r).
  - rewrite lookup_column by done. simpl. done.
  - intros i j Hij. rewrite length_column in Hij.
    rewrite !lookup_column by lia. simpl. apply Hst; lia.
  - by rewrite length_column.
Qed.

(** A column that gravity has compacted, with nothing refilled, is stacked. *)
Lemma compacted_stacked (old new : list (option Z)) (i j : nat) :
  compacted left_empty old new → (i ≤ j < length new)%nat →
  is_Some (new !! i ≫= id) → is_Some (new !! j ≫= id).
Proof.
  intros (Hlen & Hdrop & Htake) Hij Hi.
  assert (vacated old ≤ i)%nat as Hk.
  { destruct (decide (vacated old ≤ i)%nat) as [|Hlt]; [done|]. exfalso.
    destruct (new !! i) as [x|] eqn:Hx; [|by destruct Hi].
    assert (take (vacated old) new !! i = Some x) as Ht.
    { rewrite lookup_take_lt by lia. done. }
    rewrite Forall_lookup in Htake. rewrite (Htake i x Ht) in Hi.
    by destruct Hi. }
  assert (new !! j = drop (vacated old) new !! (j - vacated old)%nat) as ->.
  { rewrite lookup_drop. f_equal. lia. }
  rewrite Hdrop, list_lookup_fmap.
  destruct (survivors old !! (j - vacated old)%nat) as [t|] eqn:Ht.
  - simpl. by eexists.
  - apply lookup_ge_None in Ht. pose proof (vacated_plus old). lia.
Qed.

Lemma compacted_top_empty (old new : list (option Z)) :
  compacted left_empty old new → old !! 0%nat = Some None →
  new !! 0%nat = Some None.
Proof.
  intros (Hlen & Hdrop & Htake) Hold.
  destruct old as [|x old]; [done|]. injection Hold as ->.
  rewrite vacated_cons_None in Htake.
  destruct new as [|y new]; [done|].
  rewrite Forall_lookup in Htake. by rewrite (Htake 0%nat y eq_refl).
Qed.

Lemma grid_read (g : list (list (option Z))) (r c : nat) :
  shape g ROWS COLS → (r < ROWS)%nat → (c < COLS)%nat →
  getitem2 g (Z.of_nat r) (Z.of_nat c) = Ok (entry g r c).
Proof. intros Hs. apply (stack_getitem2_ok (mkGame g 0) r c Hs). Qed.

(** Rows on which the number cannot land are passed over. *)
Lemma land_skip (st : NumberStack) (g : list (list (option Z))) (c : nat)
    (rows rest : list nat) :
  shape g ROWS COLS → (c < COLS)%nat → fall_col st = Z.of_nat c →
  (∀ row, row ∈ rows →
     (row < ROWS)%nat ∧
     ((row ≠ (ROWS - 1)%nat ∧ entry g (S row) c = None) ∨
      fall_y st < Z.of_nat row * (CELL_SIZE + GRID_PADDING))) →
  land (rows ++ rest) st g = land rest st g.
Proof.
  intros Hs Hc Hcol. induction rows as [|row rows IH]; intros Hrows; [done|].
  destruct (Hrows row) as [Hrow Hwhy]; [by left|].
  assert (land (rows ++ rest) st g = land rest st g) as IH'.
  { apply IH. intros row' Hin. apply Hrows. by right. }
  cbn [app land]. destruct (decide (row = (ROWS - 1)%nat)) as [Hlast|Hlast].
  - destruct Hwhy as [[? _]|Hy]; [done|].
    cbn [mbind result_bind]. by rewrite decide_False by lia.
  - replace (Z.of_nat row + 1) with (Z.of_nat (S row)) by lia.
    rewrite Hcol, grid_read by (done || lia). cbn [mbind result_bind].
    destruct (bool_decide (entry g (S row) c ≠ None)) eqn:Hb; [|done].
    destruct Hwhy as [[_ Hnone]|Hy].
    + apply bool_decide_eq_true in Hb. done.
    + by rewrite decide_False by lia.
Qed.

Lemma free_bounds (g : list (list (option Z))) (c : nat) :
  stacked g → entry g 0 c = None → (1 ≤ free g c ≤ ROWS)%nat.
Proof.
  intros Hst Htop. split.
  - destruct (decide (1 ≤ free g c)%nat) as [|Hn]; [done|]. exfalso.
    assert (is_Some (entry g 0 c)) as [? Hx].
    { apply stacked_free; [done|unfold ROWS; lia|lia]. }
    by rewrite Htop in Hx.
  - unfold free. etrans; [apply vacated_le|]. by rewrite length_column.
Qed.

(** The loop of [drop_number] on a stacked column whose top cell is empty:
    the number lands on the lowest empty cell once it has fallen that far. *)
Lemma land_spec (st : NumberStack) (g : list (list (option Z))) (c : nat) :
  shape g ROWS COLS → stacked g → (c < COLS)%nat →
  fall_col st = Z.of_nat c → entry g 0 c = None →
  land (range ROWS) st g =
    if decide (Z.of_nat (free g c - 1) * (CELL_SIZE + GRID_PADDING) ≤ fall_y st)
    then Ok (grid_set g (free g c - 1) c (Some (fall_value st)), false)
    else Ok (g, falling_number st).
Proof.
  intros Hs Hst Hc Hcol Htop.
  pose proof (free_bounds g c Hst Htop) as Hh.
  set (h := free g c) in *.
  assert (range ROWS = seq 0 (h - 1) ++ (h - 1)%nat :: seq h (ROWS - h)) as ->.
  { unfold range. replace ROWS with ((h - 1) + S (ROWS - h))%nat at 1 by lia.
    rewrite seq_app. simpl. do 3 f_equal. lia. }
  rewrite (land_skip st g c); [|done..|]; cycle 1.
  { intros row Hin. apply elem_of_seq in Hin. split; [lia|]. left.
    split; [lia|].
    destruct (entry g (S row) c) as [x|] eqn:Hx; [|done]. exfalso.
    assert (h ≤ S row)%nat; [|lia].
    apply stacked_free; [done|lia|]. rewrite Hx. by eexists. }
  cbn [land].
  assert ((if decide ((h - 1)%nat = (ROWS - 1)%nat) then Ok true
           else x ← getitem2 g (Z.of_nat (h - 1) + 1) (fall_col st);
                Ok (bool_decide (x ≠ None))) = Ok true) as ->.
  { destruct (decide ((h - 1)%nat = (ROWS - 1)%nat)) as [|Hlast]; [done|].
    replace (Z.of_nat (h - 1) + 1) with (Z.of_nat h) by lia.
    rewrite Hcol, grid_read by (done || lia). cbn [mbind result_bind].
    f_equal. apply bool_decide_eq_true.
    assert (is_Some (entry g h c)) as [x Hx]; [|by rewrite Hx].
    apply stacked_free; [done|lia|done]. }
  cbn [mbind result_bind].
  destruct (decide (Z.of_nat (h - 1) * (CELL_SIZE + GRID_PADDING) ≤ fall_y st))
    as [Hy|Hy].
  - rewrite Hcol, setitem2_nat; [done|].
    apply (shape_cell_at g ROWS COLS); [done|lia|done].
  - rewrite <- (app_nil_r (seq h (ROWS - h))).
    rewrite (land_skip st g c); [done..|].
    intros row Hin. apply elem_of_seq in Hin. split; [lia|]. right.
    unfold CELL_SIZE, GRID_PADDING in *. lia.
Qed.

Lemma entry_outside {V : Type} (g : list (list (option V))) (nr nc r c : nat) :
  shape g nr nc → (nc ≤ c)%nat → entry g r c = None.
Proof.
  intros [_ Hrows] Hc. unfold entry, cell_at.
  destruct (g !! r) as [row|] eqn:Hrow; [|done]. simpl.
  rewrite Forall_lookup in Hrows. specialize (Hrows r row Hrow).
  rewrite (lookup_ge_None_2 row c) by lia. done.
Qed.

(** The two outcomes of [smash]: nothing changes, or the group of the
    seed is cleared, ten points a tile are scored and gravity compacts the
    columns. *)
Lemma smash_outcome (gm : Game) (r c : nat) :
  wf gm → (r < ROWS)%nat → (c < COLS)%nat →
  smash gm (Z.of_nat r) (Z.of_nat c) = Ok gm ∨
  ∃ t group g gm',
    entry (grid gm) r c = Some t ∧ (t = 0 ∨ t = 1) ∧
    find_group gm (Z.of_nat r) (Z.of_nat c) = Ok group ∧
    NoDup group ∧ (2 ≤ length group)%nat ∧
    (∀ x, x ∈ group ↔ region ROWS COLS (entry (grid gm)) t (coord_of r c) x) ∧
    shape g ROWS COLS ∧
    (∀ r c, entry g r c =
            if decide (coord_of r c ∈ group) then None else entry (grid gm) r c) ∧
    smash gm (Z.of_nat r) (Z.of_nat c) = Ok gm' ∧ wf gm' ∧
    score gm' = score gm + Z.of_nat (length group) * 10 ∧
    ∀ c, (c < COLS)%nat →
      compacted left_empty (column (fun r => entry g r c) ROWS) (game_column gm' c).
Proof.
  intros Hwf Hr Hc.
  destruct (decide (entry (grid gm) r c = Some 0 ∨ entry (grid gm) r c = Some 1))
    as [Ht|Hn]; cycle 1.
  { left. rewrite smash_not_smashable by tauto. done. }
  assert (∃ t, entry (grid gm) r c = Some t ∧ (t = 0 ∨ t = 1)) as (t & Hval & Ht01).
  { destruct Ht as [Ht|Ht]; eexists; (split; [exact Ht|tauto]). }
  destruct (find_group_spec gm r c t Hwf Hr Hc Hval Ht01)
    as (group & Hfind & Hnd & _ & Hmem).
  destruct (decide (length group < 2)%nat) as [Hsmall|Hbig].
  { left. by rewrite (smash_small gm r c group). }
  destruct (smash_accepted gm r c t group Hwf Hr Hc Hval Ht01 Hfind)
    as (g & gm' & Hclear & Hsmash & Hgrav & Hwf' & Hscore); [lia|].
  destruct (stack_clear_group_spec group (grid gm) Hwf)
    as (g2 & Hclear2 & Hshape & Hent).
  { intros x Hx. apply Hmem in Hx.
    by destruct (region_has_value _ _ _ _ _ _ Hx). }
  rewrite Hclear in Hclear2. injection Hclear2 as <-.
  destruct (stack_apply_gravity_spec
              (mkGame g (score gm + Z.of_nat (length group) * 10)) Hshape)
    as (gm2 & Hgrav2 & _ & _ & Hcols).
  rewrite Hgrav in Hgrav2. injection Hgrav2 as <-.
  right. exists t, group, g, gm'.
  split; [done|]. split; [done|]. split; [done|]. split; [done|].
  split; [lia|]. split; [done|]. split; [done|]. split; [done|].
  split; [done|]. split; [done|]. split; [done|]. exact Hcols.
Qed.

(** What [smash] keeps: the dimensions, the stacking, and the empty cells
    on the top row. *)
Lemma smash_keeps (gm : Game) (r c : nat) :
  wf gm → (r < ROWS)%nat → (c < COLS)%nat →
  ∃ gm', smash gm (Z.of_nat r) (Z.of_nat c) = Ok gm' ∧ wf gm' ∧
         (stacked (grid gm) → stacked (grid gm')) ∧
         (∀ c', entry (grid gm) 0 c' = None → entry (grid gm') 0 c' = None).
Proof.
  intros Hwf Hr Hc.
  destruct (smash_outcome gm r c Hwf Hr Hc)
    as [Hsame|(t & group & g & gm' & _ & _ & _ & _ & _ & _ & Hshape & Hent & Hsmash
               & Hwf' & _ & Hcols)].
  { by exists gm. }
  exists gm'. split; [done|]. split; [done|]. split.
  - intros _ c' r1 r2 Hle Hlt Hsome.
    destruct (decide (c' < COLS)%nat) as [Hc'|Hc']; cycle 1.
    { rewrite (entry_outside (grid gm') ROWS COLS) in Hsome by (done || lia).
      by destruct Hsome. }
    pose proof (compacted_stacked _ _ r1 r2 (Hcols c' Hc')) as Hstk.
    unfold game_column in Hstk. rewrite length_column in Hstk.
    rewrite !lookup_column in Hstk by lia. apply Hstk; [lia|done].
  - intros c' Htop.
    destruct (decide (c' < COLS)%nat) as [Hc'|Hc']; cycle 1.
    { apply (entry_outside (grid gm') ROWS COLS); [done|lia]. }
    pose proof (compacted_top_empty _ _ (Hcols c' Hc')) as Hte.
    unfold game_column in Hte. rewrite !lookup_column in Hte by (unfold ROWS; lia).
    simpl in Hte. rewrite Hent in Hte.
    assert (Some (entry (grid gm') 0 c') = Some None) as [= ->]; [|done].
    apply Hte. case_decide; [done|]. by rewrite Htop.
Qed.

Lemma inv_set_game (st : NumberStack) (gm : Game) :
  inv st → wf gm → stacked (grid gm) →
  (∀ c', entry (grid (game st)) 0 c' = None → entry (grid gm) 0 c' = None) →
  inv (set_game st gm).
Proof.
  intros (_ & _ & Hcol & Hy & Hfall) Hwf Hst Htop.
  split; [done|]. split; [done|]. split; [done|]. split; [done|].
  simpl. intros Hf. by apply Htop, Hfall.
Qed.

Lemma stacked_grid_set (g : list (list (option Z))) (c : nat) (v : Z) :
  shape g ROWS COLS → stacked g → (c < COLS)%nat → entry g 0 c = None →
  stacked (grid_set g (free g c - 1) c (Some v)).
Proof.
  intros Hs Hst Hc Htop c' r1 r2 Hle Hlt.
  pose proof (free_bounds g c Hst Htop) as Hh.
  assert (∀ r, (r < ROWS)%nat →
            entry (grid_set g (free g c - 1) c (Some v)) r c' =
            if decide (r = (free g c - 1)%nat ∧ c' = c) then Some v
            else entry g r c') as Hent.
  { intros r Hr. unfold entry. rewrite cell_at_grid_set.
    - by case_decide.
    - apply (shape_cell_at g ROWS COLS); [done|lia|done]. }
  rewrite !Hent by lia. intros Hsome.
  destruct (decide (r2 = (free g c - 1)%nat ∧ c' = c)) as [|Hn2]; [by eexists|].
  destruct (decide (r1 = (free g c - 1)%nat ∧ c' = c)) as [[-> ->]|Hn1].
  - apply stacked_free; [done..|]. lia.
  - by apply (Hst c' r1 r2).
Qed.

Lemma spawn_spec (st : NumberStack) (rnd : RandomSource) :
  wf (game st) →
  ∃ col val,
    (col < COLS)%nat ∧ 0 ≤ val ≤ 9 ∧
    spawn_new_number st rnd =
      Ok (mkNumberStack (game st)
            (bool_decide (entry (grid (game st)) 0 col = None)) 0
            (Z.of_nat col) val (last_fall_time st) (paused st)
            (if decide (entry (grid (game st)) 0 col = None) then game_over st
             else true),
          after 2 rnd).
Proof.
  intros Hwf. unfold spawn_new_number, random_randint.
  rewrite decide_True by (unfold COLS; lia). cbn [mbind result_bind].
  rewrite decide_True by lia. cbn [mbind result_bind].
  change (Z.of_nat COLS - 1 - 0 + 1) with 7. change (9 - 0 + 1) with 10.
  set (col := 0 + Z.of_nat (rnd 0%nat) `mod` 7).
  set (val := 0 + Z.of_nat (next rnd 0%nat) `mod` 10).
  assert (0 ≤ col < Z.of_nat COLS) as Hcol.
  { unfold col, COLS. pose proof (Z.mod_pos_bound (Z.of_nat (rnd 0%nat)) 7). lia. }
  assert (0 ≤ val ≤ 9) as Hval.
  { unfold val. pose proof (Z.mod_pos_bound (Z.of_nat (next rnd 0%nat)) 10). lia. }
  exists (Z.to_nat col), val. split; [lia|]. split; [done|].
  assert (getitem2 (grid (game st)) 0 col =
          Ok (entry (grid (game st)) 0 (Z.to_nat col))) as ->.
  { rewrite <- (grid_read _ 0 (Z.to_nat col)) by (done || unfold ROWS; lia).
    f_equal; lia. }
  cbn [mbind result_bind]. rewrite Z2Nat.id by lia.
  destruct (entry (grid (game st)) 0 (Z.to_nat col)); done.
Qed.

(** X3. a spawned number falls in a column of the grid with a value from 0
    to 9, from height 0; the game is over exactly when the top cell of that
    column is filled; the grid and the score are left alone, and two draws
    are consumed. *)
Theorem spawn_new_number_rule (st : NumberStack) (rnd : RandomSource) :
  wf (game st) →
  ∃ st',
    spawn_new_number st rnd = Ok (st', after 2 rnd) ∧
    game st' = game st ∧
    0 ≤ fall_col st' < Z.of_nat COLS ∧ 0 ≤ fall_value st' ≤ 9 ∧ fall_y st' = 0 ∧
    paused st' = paused st ∧ last_fall_time st' = last_fall_time st ∧
    match entry (grid (game st)) 0 (Z.to_nat (fall_col st')) with
    | Some _ => game_over st' = true ∧ falling_number st' = false
    | None => game_over st' = game_over st ∧ falling_number st' = true
    end.
Proof.
  intros Hwf. destruct (spawn_spec st rnd Hwf) as (col & val & Hcol & Hval & Hrun).
  eexists. split; [exact Hrun|]. simpl. rewrite Nat2Z.id.
  split; [done|]. split; [lia|]. split; [done|]. do 3 (split; [done|]).
  destruct (entry (grid (game st)) 0 col) as [x|] eqn:Hx.
  - rewrite decide_False, bool_decide_eq_false_2 by done. done.
  - rewrite decide_True, bool_decide_eq_true_2 by done. done.
Qed.

Lemma drop_number_spec (st : NumberStack) :
  inv st → falling_number st = true → game_over st = false →
  drop_number st =
    Ok (if decide (Z.of_nat (free (grid (game st)) (Z.to_nat (fall_col st)) - 1)
                     * (CELL_SIZE + GRID_PADDING) ≤ fall_y st)
        then landed st (free (grid (game st)) (Z.to_nat (fall_col st)) - 1)
               (fall_y st + FALL_SPEED)
        else fallen_to st (fall_y st + FALL_SPEED)).
Proof.
  intros (Hwf & Hst & Hcol & Hy & Hfall) Hf Hover.
  unfold drop_number. rewrite Hf, Hover. cbn [negb orb].
  rewrite (land_spec st _ (Z.to_nat (fall_col st))) by (auto || lia).
  case_decide; cbn [mbind result_bind].
  - unfold landed. by rewrite Hover.
  - unfold fallen_to. rewrite Hover. by destruct st as [[? ?] ? ? ? ? ? ? ?].
Qed.

Lemma inv_landed (st : NumberStack) (y : Z) :
  inv st → falling_number st = true → 0 ≤ y →
  inv (landed st (free (grid (game st)) (Z.to_nat (fall_col st)) - 1) y).
Proof.
  intros (Hwf & Hst & Hcol & Hy & Hfall) Hf Hy'.
  split; [by apply shape_grid_set|]. split.
  { apply stacked_grid_set; [done..|lia|by apply Hfall]. }
  done.
Qed.

Lemma inv_fallen_to (st : NumberStack) (y : Z) :
  inv st → 0 ≤ y → inv (fallen_to st y).
Proof. intros (Hwf & Hst & Hcol & Hy & Hfall) Hy'. done. Qed.

Lemma drop_number_inv (st : NumberStack) :
  inv st → ∃ st', drop_number st = Ok st' ∧ inv st'.
Proof.
  intros Hinv.
  destruct (falling_number st) eqn:Hf; cycle 1.
  { exists st. unfold drop_number. by rewrite Hf. }
  destruct (game_over st) eqn:Hover.
  { exists st. unfold drop_number. by rewrite Hf, Hover. }
  rewrite drop_number_spec by done.
  pose proof Hinv as (_ & _ & _ & Hy & _).
  eexists. split; [done|]. unfold FALL_SPEED. case_decide.
  - apply inv_landed; [done..|lia].
  - apply inv_fallen_to; [done|lia].
Qed.

Lemma spawn_inv (st : NumberStack) (rnd : RandomSource) :
  inv st → ∃ st' rnd', spawn_new_number st rnd = Ok (st', rnd') ∧ inv st'.
Proof.
  intros (Hwf & Hst & Hcol & Hy & Hfall).
  destruct (spawn_spec st rnd Hwf) as (col & val & Hc & Hval & Hrun).
  eexists _, _. split; [exact Hrun|].
  split; [done|]. split; [done|]. simpl. split; [lia|]. split; [done|].
  rewrite Nat2Z.id. intros Hb. by apply bool_decide_eq_true in Hb.
Qed.

Lemma click_cells_inv (cells : list (nat * nat)) (st : NumberStack) (mx my : Z) :
  inv st → (∀ r c, (r, c) ∈ cells → (r < ROWS)%nat ∧ (c < COLS)%nat) →
  ∃ st', click_cells cells st mx my = Ok st' ∧ inv st'.
Proof.
  intros Hinv. induction cells as [|[r c] cells IH]; intros Hcells.
  { by exists st. }
  destruct (Hcells r c) as [Hr Hc]; [by left|].
  assert (∃ st', click_cells cells st mx my = Ok st' ∧ inv st') as IH'.
  { apply IH. intros r' c' Hin. apply Hcells. by right. }
  cbn [click_cells]. destruct (grid_to_screen _ _) as [x y].
  destruct (collidepoint x y CELL_SIZE CELL_SIZE mx my); [|done].
  pose proof Hinv as (Hwf & Hst & _).
  rewrite grid_read by done. cbn [mbind result_bind].
  destruct (entry (grid (game st)) r c); [|done].
  destruct (smash_keeps (game st) r c Hwf Hr Hc) as (gm & Hsm & Hwf' & Hst' & Htop).
  rewrite Hsm. cbn [mbind result_bind]. eexists. split; [done|].
  apply inv_set_game; auto.
Qed.

Lemma elem_of_cells (r c : nat) :
  (r, c) ∈ (r ← range ROWS; c ← range COLS; [(r, c)]) ↔
  (r < ROWS)%nat ∧ (c < COLS)%nat.
Proof.
  rewrite list_elem_of_bind. split.
  - intros (r' & Hin & Hr'). apply list_elem_of_bind in Hin as (c' & Hin & Hc').
    apply list_elem_of_singleton in Hin. injection Hin as -> ->.
    by rewrite <- !elem_of_range.
  - intros [Hr Hc]. exists r. split; [|by apply elem_of_range].
    apply list_elem_of_bind. exists c. split; [by left|by apply elem_of_range].
Qed.

Lemma handle_click_inv (st : NumberStack) (pos : Z * Z) :
  inv st → ∃ st', handle_click st pos = Ok st' ∧ inv st'.
Proof.
  intros Hinv. unfold handle_click. destruct (game_over st); [by exists st|].
  destruct pos as [mx my]. apply click_cells_inv; [done|].
  intros r c. apply elem_of_cells.
Qed.

Lemma run_update_inv (now : Z) (st : NumberStack) (rnd : RandomSource) :
  inv st → ∃ st' rnd', run_update now st rnd = Ok (st', rnd') ∧ inv st'.
Proof.
  intros Hinv. unfold run_update.
  destruct (negb (paused st) && negb (game_over st)); [|by eexists _, _].
  assert (∃ st1 rnd1,
    (if negb (falling_number st)
        && bool_decide (FALL_INTERVAL < now - last_fall_time st)
     then
       '(st, rnd) ← spawn_new_number st rnd;
       Ok (mkNumberStack (game st) (falling_number st) (fall_y st)
             (fall_col st) (fall_value st) now (paused st) (game_over st), rnd)
     else Ok (st, rnd)) = Ok (st1, rnd1) ∧ inv st1) as (st1 & rnd1 & -> & Hinv1).
  { destruct (negb (falling_number st)
              && bool_decide (FALL_INTERVAL < now - last_fall_time st)).
    - destruct (spawn_inv st rnd Hinv) as (st1 & rnd1 & -> & Hinv1).
      cbn [mbind result_bind]. by eexists _, _.
    - by eexists _, _. }
  cbn [mbind result_bind]. destruct (falling_number st1); [|by eexists _, _].
  destruct (drop_number_inv st1 Hinv1) as (st2 & -> & Hinv2).
  cbn [mbind result_bind]. by eexists _, _.
Qed.

(** X1. a falling number comes to rest on the lowest empty cell of its
    column, the one above the stack, as soon as it has fallen
    [row * (CELL_SIZE + GRID_PADDING)] pixels; no other cell changes and no
    filled cell is overwritten.  Until then a call only moves it down by
    [FALL_SPEED]. *)
Theorem drop_number_lands (st : NumberStack) :
  inv st → falling_number st = true → game_over st = false →
  let g := grid (game st) in
  let c := Z.to_nat (fall_col st) in
  let row := (free g c - 1)%nat in
  (row < ROWS)%nat ∧ entry g row c = None ∧
  (∀ r, (row < r < ROWS)%nat → is_Some (entry g r c)) ∧
  drop_number st =
    Ok (if decide (Z.of_nat row * (CELL_SIZE + GRID_PADDING) ≤ fall_y st)
        then landed st row (fall_y st + FALL_SPEED)
        else fallen_to st (fall_y st + FALL_SPEED)).
Proof.
  intros Hinv Hf Hover g c row.
  pose proof Hinv as (Hwf & Hst & Hcol & Hy & Hfall).
  pose proof (free_bounds g c Hst (Hfall Hf)) as Hh.
  split; [lia|]. split.
  { destruct (entry g row c) as [x|] eqn:Hx; [|done]. exfalso.
    assert (free g c ≤ row)%nat; [|lia].
    apply stacked_free; [done|lia|]. rewrite Hx. by eexists. }
  split.
  { intros r Hr. apply stacked_free; [done|lia|lia]. }
  by apply drop_number_spec.
Qed.

Lemma entry_no_numbers (r c : nat) :
  entry (replicate ROWS (replicate COLS (None : option Z))) r c = None.
Proof.
  unfold entry, cell_at.
  destruct (decide (r < ROWS)%nat) as [Hr|Hr]; cycle 1.
  { by rewrite (proj1 (lookup_replicate_None _ _ _)) by lia. }
  rewrite lookup_replicate_2 by done. cbn [mbind option_bind].
  destruct (decide (c < COLS)%nat) as [Hc|Hc]; cycle 1.
  { by rewrite (proj1 (lookup_replicate_None _ _ _)) by lia. }
  by rewrite lookup_replicate_2 by done.
Qed.

Lemma shape_replicate {A : Type} (nr nc : nat) (x : A) :
  shape (replicate nr (replicate nc x)) nr nc.
Proof.
  split; [by rewrite length_replicate|].
  apply Forall_forall. intros row Hrow.
  apply elem_of_replicate in Hrow as [-> _]. by rewrite length_replicate.
Qed.

(** X5. [reset] starts a game on an empty grid with score 0 and nothing
    falling, not paused and not over; it draws a column and a value (two
    draws) that the first spawn replaces, and the first number is spawned by
    the first update more than [FALL_INTERVAL] ms later. *)
Theorem reset_starts (now : Z) (rnd : RandomSource) :
  ∃ st,
    reset now rnd = Ok (st, after 2 rnd) ∧ inv st ∧
    (∀ r c, entry (grid (game st)) r c = None) ∧ score (game st) = 0 ∧
    falling_number st = false ∧ paused st = false ∧ game_over st = false ∧
    (∀ now' rnd', now' - now ≤ FALL_INTERVAL →
       run_update now' st rnd' = Ok (st, rnd')) ∧
    (∀ now' rnd', FALL_INTERVAL < now' - now →
       ∃ st' st'' rnd'',
         spawn_new_number st rnd' = Ok (st', rnd'') ∧
         falling_number st' = true ∧
         run_update now' st rnd' = Ok (st'', rnd'') ∧
         fall_y st'' = FALL_SPEED ∧ last_fall_time st'' = now').
Proof.
  unfold reset, random_randint.
  rewrite decide_True by (unfold COLS; lia). cbn [mbind result_bind].
  rewrite decide_True by lia. cbn [mbind result_bind].
  change (Z.of_nat COLS - 1 - 0 + 1) with 7. change (9 - 0 + 1) with 10.
  pose proof (Z.mod_pos_bound (Z.of_nat (rnd 0%nat)) 7) as Hcol.
  eexists. split; [reflexivity|].
  assert (inv (mkNumberStack (mkGame (replicate ROWS (replicate COLS None)) 0)
                 false 0 (0 + Z.of_nat (rnd 0%nat) `mod` 7)
                 (0 + Z.of_nat (next rnd 0%nat) `mod` 10) now false false))
    as Hinv.
  { split; [apply shape_replicate|]. split.
    { intros c r r' _ _ [x Hx]. simpl in Hx. by rewrite entry_no_numbers in Hx. }
    simpl. split; [unfold COLS; lia|]. done. }
  split; [done|]. split; [intros r c; apply entry_no_numbers|].
  do 4 (split; [done|]). split.
  - intros now' rnd' Hnow. unfold run_update. cbn [negb andb paused game_over
      falling_number last_fall_time].
    rewrite bool_decide_eq_false_2 by lia. done.
  - intros now' rnd' Hnow.
    destruct (spawn_spec _ rnd' (proj1 Hinv)) as (col & val & Hc & Hval & Hrun).
    cbn [game grid] in Hrun. rewrite entry_no_numbers in Hrun.
    rewrite bool_decide_eq_true_2, decide_True in Hrun by done.
    eexists _, _, _. split; [exact Hrun|]. split; [done|].
    unfold run_update. cbn [negb andb paused game_over falling_number
      last_fall_time]. rewrite bool_decide_eq_true_2 by lia.
    rewrite Hrun. cbn [mbind result_bind falling_number].
    rewrite drop_number_spec; cycle 1.
    { split; [apply shape_replicate|]. split.
      { intros c r r' _ _ [x Hx]. simpl in Hx. by rewrite entry_no_numbers in Hx. }
      simpl. split; [lia|]. split; [done|]. intros _. apply entry_no_numbers. }
    { done. }
    { done. }
    cbn [mbind result_bind]. split; [reflexivity|].
    case_decide; done.
Qed.

(** X4. every method of the game keeps the invariant, and in a state that
    satisfies it none of them raises: the grid keeps its dimensions, no
    empty cell lies below a filled one, and a falling number falls down a
    column of the grid whose top cell is empty. *)
Theorem number_stack_invariant (st : NumberStack) (now : Z) (rnd : RandomSource)
    (pos : Z * Z) :
  inv st →
  (∃ st' rnd', run_update now st rnd = Ok (st', rnd') ∧ inv st') ∧
  (∃ st', handle_click st pos = Ok st' ∧ inv st') ∧
  (∃ st' rnd', spawn_new_number st rnd = Ok (st', rnd') ∧ inv st') ∧
  (∃ st', drop_number st = Ok st' ∧ inv st').
Proof.
  intros Hinv. split; [by apply run_update_inv|].
  split; [by apply handle_click_inv|].
  split; [by apply spawn_inv|by apply drop_number_inv].
Qed.

Lemma fallen_to_fallen_to (st : NumberStack) (y y' : Z) :
  fallen_to (fallen_to st y) y' = fallen_to st y'.
Proof. done. Qed.

Lemma fallen_to_same (st : NumberStack) : fallen_to st (fall_y st) = st.
Proof. by destruct st. Qed.

Lemma drop_frames_snoc (n : nat) (st : NumberStack) :
  drop_frames (S n) st = st' ← drop_frames n st; drop_number st'.
Proof.
  revert st. induction n as [|n IH]; intros st.
  - simpl. by destruct (drop_number st).
  - change (drop_frames (S (S n)) st)
      with (st' ← drop_number st; drop_frames (S n) st').
    change (drop_frames (S n) st)
      with (st' ← drop_number st; drop_frames n st').
    destruct (drop_number st) as [st1| |]; [|done..].
    cbn [mbind result_bind]. by rewrite IH.
Qed.

(** While the number has not fallen far enough, each call moves it down. *)
Lemma drop_frames_falling (m : nat) (st : NumberStack) :
  inv st → falling_number st = true → game_over st = false →
  (∀ k, (k < m)%nat →
     fall_y st + FALL_SPEED * Z.of_nat k <
     Z.of_nat (free (grid (game st)) (Z.to_nat (fall_col st)) - 1)
       * (CELL_SIZE + GRID_PADDING)) →
  drop_frames m st = Ok (fallen_to st (fall_y st + FALL_SPEED * Z.of_nat m)).
Proof.
  revert st. induction m as [|m IH]; intros st Hinv Hf Hover Hlow.
  { simpl. by rewrite Z.mul_0_r, Z.add_0_r, fallen_to_same. }
  cbn [drop_frames]. rewrite drop_number_spec by done.
  rewrite decide_False by (specialize (Hlow 0%nat); lia).
  cbn [mbind result_bind]. rewrite IH.
  - rewrite fallen_to_fallen_to. do 2 f_equal. simpl. lia.
  - apply inv_fallen_to; [done|]. destruct Hinv as (_ & _ & _ & Hy & _).
    unfold FALL_SPEED. lia.
  - done.
  - done.
  - intros k Hk. specialize (Hlow (S k)). simpl in *. lia.
Qed.

(** X2. a falling number lands, on call number [n + 1] of [drop_number],
    where [n] is the least number of steps of [FALL_SPEED] pixels that take
    it to the height of its resting row; that is at most 99 calls.  Until
    then it keeps falling and the grid does not change. *)
Theorem falling_number_lands (st : NumberStack) :
  inv st → falling_number st = true → game_over st = false →
  let row := (free (grid (game st)) (Z.to_nat (fall_col st)) - 1)%nat in
  let n := Z.to_nat ((Z.of_nat row * (CELL_SIZE + GRID_PADDING) - fall_y st
                      + (FALL_SPEED - 1)) / FALL_SPEED) in
  (n ≤ 98)%nat ∧
  (∀ m, (m ≤ n)%nat →
     drop_frames m st = Ok (fallen_to st (fall_y st + FALL_SPEED * Z.of_nat m))) ∧
  drop_frames (S n) st =
    Ok (landed st row (fall_y st + FALL_SPEED * Z.of_nat (S n))).
Proof.
  intros Hinv Hf Hover row n.
  pose proof Hinv as (Hwf & Hst & Hcol & Hy & Hfall).
  pose proof (free_bounds _ _ Hst (Hfall Hf)) as Hh. fold row in Hh.
  assert (Z.of_nat row * (CELL_SIZE + GRID_PADDING) ≤ 585) as Hrow.
  { unfold CELL_SIZE, GRID_PADDING, ROWS in *. lia. }
  set (T := Z.of_nat row * (CELL_SIZE + GRID_PADDING)) in *.
  assert (∀ k, (k < n)%nat → fall_y st + FALL_SPEED * Z.of_nat k < T) as Hlow.
  { intros k Hk. unfold n, FALL_SPEED in *.
    change (6 - 1) with 5 in Hk.
    assert (Z.of_nat k < (T - fall_y st + 5) / 6) as Hk' by lia.
    pose proof (Z.mul_div_le (T - fall_y st + 5) 6). lia. }
  assert (T ≤ fall_y st + FALL_SPEED * Z.of_nat n) as Hhigh.
  { unfold n, FALL_SPEED. change (6 - 1) with 5.
    destruct (decide (0 ≤ (T - fall_y st + 5) / 6)) as [Hpos|Hneg].
    - rewrite Z2Nat.id by done.
      pose proof (Z.mod_pos_bound (T - fall_y st + 5) 6).
      pose proof (Z.div_mod (T - fall_y st + 5) 6). lia.
    - assert (T - fall_y st + 5 < 0); [|lia].
      destruct (decide (T - fall_y st + 5 < 0)) as [|Hn]; [done|].
      exfalso. apply Hneg. apply Z.div_pos; lia. }
  split.
  { unfold n, FALL_SPEED. change (6 - 1) with 5.
    assert ((T - fall_y st + 5) / 6 ≤ 590 / 6) as Hdiv.
    { apply Z.div_le_mono; lia. }
    change (590 / 6) with 98 in Hdiv. lia. }
  split.
  { intros m Hm. apply drop_frames_falling; [done..|].
    intros k Hk. apply Hlow. lia. }
  rewrite drop_frames_snoc, (drop_frames_falling n) by done.
  cbn [mbind result_bind]. rewrite drop_number_spec; cycle 1.
  { apply inv_fallen_to; [done|]. unfold FALL_SPEED. lia. }
  { done. }
  { done. }
  cbn [fallen_to game grid fall_col fall_y]. fold row. fold T.
  rewrite decide_True by done. unfold landed. simpl.
  replace (fall_y st + FALL_SPEED * Z.of_nat (S n))
    with (fall_y st + FALL_SPEED * Z.of_nat n + FALL_SPEED)
    by (unfold FALL_SPEED; lia).
  done.
Qed.

(** The point [(mx, my)] lies on the square of the cell [(r, c)]. *)
Lemma collidepoint_cell (r c : nat) (mx my : Z) :
  (let '(x, y) := grid_to_screen (Z.of_nat r) (Z.of_nat c) in
   collidepoint x y CELL_SIZE CELL_SIZE mx my) = true ↔ on_cell r c mx my.
Proof.
  unfold grid_to_screen, collidepoint, on_cell.
  by rewrite bool_decide_eq_true.
Qed.

Lemma on_cell_unique (r c r' c' : nat) (mx my : Z) :
  on_cell r c mx my → on_cell r' c' mx my → r = r' ∧ c = c'.
Proof.
  unfold on_cell, grid_x, grid_y, CELL_SIZE, GRID_PADDING, TOP_MARGIN.
  intros [? ?] [? ?]. lia.
Qed.

Lemma click_cells_miss (cells : list (nat * nat)) (st : NumberStack) (mx my : Z) :
  (∀ r c, (r, c) ∈ cells → ¬ on_cell r c mx my) →
  click_cells cells st mx my = Ok st.
Proof.
  induction cells as [|[r c] cells IH]; intros Hmiss; [done|].
  cbn [click_cells].
  assert ((let '(x, y) := grid_to_screen (Z.of_nat r) (Z.of_nat c) in
           collidepoint x y CELL_SIZE CELL_SIZE mx my) = false) as Hc.
  { apply not_true_is_false. rewrite collidepoint_cell. apply Hmiss. by left. }
  destruct (grid_to_screen _ _) as [x y]. rewrite Hc.
  apply IH. intros r' c' Hin. apply Hmiss. by right.
Qed.

Lemma click_cells_hit (cells : list (nat * nat)) (st : NumberStack) (mx my : Z)
    (r c : nat) :
  wf (game st) → (r < ROWS)%nat → (c < COLS)%nat →
  on_cell r c mx my →
  click_cells cells st mx my =
    if decide ((r, c) ∈ cells) then
      match entry (grid (game st)) r c with
      | Some _ => gm ← smash (game st) (Z.of_nat r) (Z.of_nat c); Ok (set_game st gm)
      | None => Ok st
      end
    else Ok st.
Proof.
  intros Hwf Hr Hc Hon. induction cells as [|[r' c'] cells IH].
  { rewrite decide_False; [done|]. apply not_elem_of_nil. }
  cbn [click_cells].
  destruct (let '(x, y) := grid_to_screen (Z.of_nat r') (Z.of_nat c') in
            collidepoint x y CELL_SIZE CELL_SIZE mx my) eqn:Hcol.
  - apply collidepoint_cell in Hcol as Hon'.
    destruct (on_cell_unique _ _ _ _ _ _ Hon Hon') as [<- <-].
    destruct (grid_to_screen _ _) as [x y]. rewrite Hcol.
    rewrite grid_read by done. cbn [mbind result_bind].
    rewrite (decide_True (P := (r, c) ∈ (r, c) :: cells)) by by left.
    destruct (entry (grid (game st)) r c) eqn:Hent; [done|].
    rewrite IH. by case_decide.
  - assert ((r', c') ≠ (r, c)) as Hne.
    { intros [= -> ->]. apply collidepoint_cell in Hon. congruence. }
    destruct (grid_to_screen _ _) as [x y]. rewrite Hcol, IH.
    destruct (decide ((r, c) ∈ cells)) as [Hin|Hin].
    + rewrite decide_True; [done|]. by right.
    + rewrite decide_False; [done|].
      intros [?|?]%elem_of_cons; [congruence|done].
Qed.

(** X6. a click smashes at the cell under the point when that cell is
    filled, and does nothing on an empty cell, between the cells or when the
    game is over.  The squares of the cells do not overlap, so the cell is
    the only one under the point. *)
Theorem handle_click_dispatch (st : NumberStack) (mx my : Z) :
  wf (game st) →
  (game_over st = true → handle_click st (mx, my) = Ok st) ∧
  (game_over st = false →
   (∀ r c, (r < ROWS)%nat → (c < COLS)%nat → on_cell r c mx my →
      (∀ r' c', on_cell r' c' mx my → r' = r ∧ c' = c) ∧
      handle_click st (mx, my) =
        match entry (grid (game st)) r c with
        | Some _ =>
            gm ← smash (game st) (Z.of_nat r) (Z.of_nat c); Ok (set_game st gm)
        | None => Ok st
        end) ∧
   ((∀ r c, (r < ROWS)%nat → (c < COLS)%nat → ¬ on_cell r c mx my) →
    handle_click st (mx, my) = Ok st)).
Proof.
  intros Hwf. unfold handle_click. split; [by intros ->|].
  intros ->. split.
  - intros r c Hr Hc Hon. split.
    + intros r' c' Hon'. by destruct (on_cell_unique _ _ _ _ _ _ Hon' Hon).
    + rewrite (click_cells_hit _ st mx my r c) by done.
      rewrite decide_True; [done|]. by apply elem_of_cells.
  - intros Hmiss. apply click_cells_miss.
    intros r c Hin. apply elem_of_cells in Hin as [Hr Hc]. by apply Hmiss.
Qed.

(** *** Counting the filled cells *)

Lemma sum_list_with_pointwise {A : Type} (f h k : A → nat) (l : list A) :
  (∀ x, x ∈ l → (f x + h x = k x)%nat) →
  (sum_list_with f l + sum_list_with h l = sum_list_with k l)%nat.
Proof.
  induction l as [|x l IH]; intros Hpt; [done|]. simpl.
  pose proof (Hpt x (list_elem_of_here _ _)).
  assert (sum_list_with f l + sum_list_with h l = sum_list_with k l)%nat.
  { apply IH. intros y Hy. apply Hpt. by right. }
  lia.
Qed.

Lemma sum_list_with_zero {A : Type} (f : A → nat) (l : list A) :
  (∀ x, x ∈ l → f x = 0%nat) → sum_list_with f l = 0%nat.
Proof.
  induction l as [|x l IH]; intros Hz; [done|]. simpl.
  rewrite (Hz x) by by left. rewrite IH; [done|].
  intros y Hy. apply Hz. by right.
Qed.

Lemma sum_list_with_same {A : Type} (f h : A → nat) (l : list A) :
  (∀ x, x ∈ l → f x = h x) → sum_list_with f l = sum_list_with h l.
Proof.
  induction l as [|x l IH]; intros Hpt; [done|]. simpl.
  rewrite (Hpt x) by by left. rewrite IH; [done|].
  intros y Hy. apply Hpt. by right.
Qed.

(** A list without repetitions holds [i0] once or not at all. *)
Lemma sum_list_with_one {A : Type} `{EqDecision A} (i0 : A) (l : list A) :
  NoDup l → i0 ∈ l →
  sum_list_with (fun i => if decide (i = i0) then 1 else 0)%nat l = 1%nat.
Proof.
  induction 1 as [|x l Hx Hnd IH]; intros Hin; [by apply elem_of_nil in Hin|].
  simpl. destruct (decide (x = i0)) as [->|Hne].
  - rewrite sum_list_with_zero; [done|].
    intros y Hy. rewrite decide_False; [done|]. by intros ->.
  - rewrite IH; [done|]. apply elem_of_cons in Hin as [?|?]; [congruence|done].
Qed.

Lemma length_survivors_column {V : Type} (rd : nat → option V) (n : nat) :
  length (survivors (column rd n)) =
  sum_list_with (fun r => if rd r then 1 else 0)%nat (seq 0 n).
Proof.
  rewrite survivors_column. generalize (seq 0 n). intros l.
  induction l as [|r l IH]; [done|].
  change (omap rd (r :: l))
    with (match rd r with Some y => y :: omap rd l | None => omap rd l end).
  simpl. destruct (rd r); simpl; lia.
Qed.

(** The members of a list of coordinates of the grid, counted column by
    column. *)
Lemma count_on_grid (nr nc : nat) (l : list (Z * Z)) :
  NoDup l → (∀ x, x ∈ l → on_grid nr nc x) →
  sum_list_with (fun c =>
    sum_list_with (fun r => if decide (coord_of r c ∈ l) then 1 else 0)%nat
                  (seq 0 nr)) (seq 0 nc) = length l.
Proof.
  induction 1 as [|x l Hx Hnd IH]; intros Hon.
  { apply sum_list_with_zero. intros c _. apply sum_list_with_zero.
    intros r _. rewrite decide_False; [done|]. apply not_elem_of_nil. }
  destruct (on_grid_coord_of nr nc x) as (r0 & c0 & -> & Hr0 & Hc0).
  { apply Hon. by left. }
  rewrite <- (sum_list_with_pointwise
    (fun c => if decide (c = c0) then 1 else 0)%nat
    (fun c => sum_list_with
       (fun r => if decide (coord_of r c ∈ l) then 1 else 0)%nat (seq 0 nr))).
  { rewrite sum_list_with_one; [|apply NoDup_seq|apply elem_of_seq; lia].
    rewrite IH by (intros y Hy; apply Hon; by right). done. }
  intros c Hc. cbn beta. destruct (decide (c = c0)) as [->|Hne].
  - rewrite <- (sum_list_with_pointwise
      (fun r => if decide (r = r0) then 1 else 0)%nat
      (fun r => if decide (coord_of r c0 ∈ l) then 1 else 0)%nat
      (fun r => if decide (coord_of r c0 ∈ coord_of r0 c0 :: l) then 1 else 0)%nat).
    { rewrite sum_list_with_one; [done|apply NoDup_seq|apply elem_of_seq; lia]. }
    intros r Hr. cbn beta. destruct (decide (r = r0)) as [->|Hner].
    + rewrite decide_False by done. rewrite decide_True by by left. done.
    + destruct (decide (coord_of r c0 ∈ l)) as [Hin|Hin].
      * rewrite decide_True by by right. done.
      * rewrite decide_False; [done|].
        intros [Heq|?]%elem_of_cons; [|done].
        apply coord_of_inj in Heq as [? _]. done.
  - simpl. apply sum_list_with_same. intros r Hr.
    destruct (decide (coord_of r c ∈ l)) as [Hin|Hin].
    + rewrite decide_True by by right. done.
    + rewrite decide_False; [done|].
      intros [Heq|?]%elem_of_cons; [|done].
      apply coord_of_inj in Heq as [_ ?]. done.
Qed.

Lemma compacted_survivors (old new : list (option Z)) :
  compacted left_empty old new → survivors new = survivors old.
Proof.
  intros (Hlen & Hdrop & Htake).
  rewrite <- (take_drop (vacated old) new) at 1. unfold survivors at 1.
  rewrite omap_app, Hdrop.
  assert (omap id (take (vacated old) new) = []) as ->.
  { induction Htake as [|x l Hx _ IH]; [done|]. by rewrite Hx. }
  rewrite app_nil_l. generalize (survivors old). intros l.
  induction l as [|x l IH]; [done|]. rewrite fmap_cons.
  change (omap id (Some x :: (Some <$> l))) with (x :: omap id (Some <$> l)).
  by rewrite IH.
Qed.

Lemma filled_cleared (g g' : list (list (option Z))) (group : list (Z * Z)) :
  NoDup group → (∀ x, x ∈ group → on_grid ROWS COLS x) →
  (∀ r c, coord_of r c ∈ group → is_Some (entry g r c)) →
  (∀ r c, entry g' r c =
          if decide (coord_of r c ∈ group) then None else entry g r c) →
  (filled g' + length group = filled g)%nat.
Proof.
  intros Hnd Hon Hfull Hent. unfold filled.
  rewrite <- (count_on_grid ROWS COLS group Hnd Hon).
  apply sum_list_with_pointwise. intros c _.
  rewrite !length_survivors_column.
  apply sum_list_with_pointwise. intros r _. rewrite Hent.
  destruct (decide (coord_of r c ∈ group)) as [Hin|Hin].
  - by destruct (Hfull r c Hin) as [v ->].
  - destruct (entry g r c); simpl; lia.
Qed.

Lemma filled_gravity (g g' : list (list (option Z))) :
  (∀ c, (c < COLS)%nat →
     compacted left_empty (column (fun r => entry g r c) ROWS)
                          (column (fun r => entry g' r c) ROWS)) →
  filled g' = filled g.
Proof.
  intros Hcols. unfold filled. apply sum_list_with_same. intros c Hc.
  apply elem_of_range in Hc. by rewrite (compacted_survivors _ _ (Hcols c Hc)).
Qed.

Lemma filled_grid_set (g : list (list (option Z))) (row c : nat) (v : Z) :
  shape g ROWS COLS → (row < ROWS)%nat → (c < COLS)%nat →
  entry g row c = None →
  filled (grid_set g row c (Some v)) = S (filled g).
Proof.
  intros Hs Hrow Hc Hempty.
  assert (NoDup [coord_of row c]) as Hnd by apply NoDup_singleton.
  assert (∀ x, x ∈ [coord_of row c] → on_grid ROWS COLS x) as Hon.
  { intros x ->%list_elem_of_singleton. unfold on_grid, coord_of. simpl. lia. }
  pose proof (count_on_grid ROWS COLS _ Hnd Hon) as Hone.
  change (length [coord_of row c]) with 1%nat in Hone.
  assert (filled g + 1 = filled (grid_set g row c (Some v)))%nat; [|lia].
  rewrite <- Hone. unfold filled, range.
  apply sum_list_with_pointwise. intros c' _.
  rewrite !length_survivors_column.
  apply sum_list_with_pointwise. intros r _.
  unfold entry at 2. rewrite cell_at_grid_set
    by (apply (shape_cell_at g ROWS COLS); done).
  destruct (decide (coord_of r c' ∈ [coord_of row c])) as [Hin|Hin].
  - apply list_elem_of_singleton, coord_of_inj in Hin as [-> ->].
    rewrite decide_True by done. by rewrite Hempty.
  - rewrite decide_False; cycle 1.
    { intros [-> ->]. apply Hin. by left. }
    fold (entry g r c'). destruct (entry g r c'); simpl; lia.
Qed.

(** X7. the score tallies the smashed cells.  A smash changes the score by
    ten times the number of cells it empties, so the score plus ten times
    the number of filled cells is the same before and after; an accepted
    smash empties at least two cells.  A landing fills one cell and leaves
    the score alone. *)
Theorem score_tallies_smashed_cells (st : NumberStack) (r c : nat) (gm' : Game) :
  inv st → (r < ROWS)%nat → (c < COLS)%nat →
  smash (game st) (Z.of_nat r) (Z.of_nat c) = Ok gm' →
  (score gm' + 10 * Z.of_nat (filled (grid gm')) =
   score (game st) + 10 * Z.of_nat (filled (grid (game st))) ∧
   (gm' ≠ game st → (filled (grid gm') + 2 ≤ filled (grid (game st)))%nat)) ∧
  (falling_number st = true →
   let row := (free (grid (game st)) (Z.to_nat (fall_col st)) - 1)%nat in
   ∀ y, filled (grid (game (landed st row y))) = S (filled (grid (game st))) ∧
        score (game (landed st row y)) = score (game st)).
Proof.
  intros Hinv Hr Hc Hsmash.
  pose proof Hinv as (Hwf & Hst & Hcol & Hy & Hfall). split.
  - destruct (smash_outcome (game st) r c Hwf Hr Hc)
      as [Hsame|(t & group & g & gm2 & Hval & Ht & Hfind & Hnd & Hlen & Hmem
                 & Hshape & Hent & Hsmash2 & Hwf' & Hscore & Hcols)].
    { rewrite Hsame in Hsmash. injection Hsmash as <-. done. }
    rewrite Hsmash2 in Hsmash. injection Hsmash as <-.
    assert (filled (grid gm2) = filled g) as Hgrav.
    { apply filled_gravity. intros c' Hc'. apply (Hcols c' Hc'). }
    assert (filled g + length group = filled (grid (game st)))%nat as Hclear.
    { apply (filled_cleared (grid (game st)) g group); [done| |  |done].
      - intros x Hx. apply Hmem in Hx.
        by destruct (region_has_value _ _ _ _ _ _ Hx).
      - intros r' c' Hin. apply Hmem in Hin.
        destruct (region_has_value _ _ _ _ _ _ Hin) as [_ Hv].
        simpl in Hv. rewrite !Nat2Z.id in Hv. rewrite Hv. by eexists. }
    split; [lia|]. intros _. lia.
  - intros Hf row y. split; [|done]. simpl.
    pose proof (free_bounds _ _ Hst (Hfall Hf)) as Hh.
    apply filled_grid_set; [done|lia|lia|].
    destruct (entry (grid (game st)) row (Z.to_nat (fall_col st))) as [x|] eqn:Hx;
      [|done].
    exfalso. assert (free (grid (game st)) (Z.to_nat (fall_col st)) ≤ row)%nat;
      [|lia].
    apply stacked_free; [done|lia|]. rewrite Hx. by eexists.
Qed.

(** *** The theorems at concrete games *)

Lemma stacked_by_rows (g : list (list (option Z))) :
  shape g ROWS COLS →
  (∀ c r, (c < COLS)%nat → (S r < ROWS)%nat →
     is_Some (entry g r c) → is_Some (entry g (S r) c)) →
  stacked g.
Proof.
  intros Hs Hstep c r r' Hle Hlt Hsome.
  destruct (decide (c < COLS)%nat) as [Hc|Hc]; cycle 1.
  { rewrite (entry_outside g ROWS COLS) in Hsome by (done || lia).
    by destruct Hsome. }
  induction Hle as [|r' Hle IH]; [done|].
  apply Hstep; [done|lia|]. apply IH. lia.
Qed.

Lemma stackedb_correct (g : list (list (option Z))) :
  shape g ROWS COLS → stackedb g = true → stacked g.
Proof.
  intros Hs Hb. apply stacked_by_rows; [done|]. intros c r Hc Hr Hsome.
  unfold stackedb in Hb. rewrite forallb_forall in Hb.
  specialize (Hb c). rewrite forallb_forall in Hb.
  assert (implb (bool_decide (is_Some (entry g r c)))
                (bool_decide (is_Some (entry g (S r) c))) = true) as Himp.
  { apply Hb.
    - apply list_elem_of_In, elem_of_range. done.
    - apply list_elem_of_In, elem_of_seq. lia. }
  rewrite bool_decide_eq_true_2 in Himp by done.
  by apply bool_decide_eq_true in Himp.
Qed.

Lemma inv_falling_one : inv Examples.falling_one.
Proof.
  split; [concrete_shape|]. split.
  { apply stackedb_correct; [concrete_shape|]. vm_compute. reflexivity. }
  split; [vm_compute; split; congruence|]. split; [vm_compute; congruence|].
  intros _. vm_compute. reflexivity.
Defined.

Lemma spawn_new_number_rule_witness :
  wf (game Examples.falling_one) ∧
  ∃ st',
    spawn_new_number Examples.falling_one Examples.some_draws
      = Ok (st', after 2 Examples.some_draws) ∧
    fall_col st' = 2 ∧ fall_value st' = 3 ∧ fall_y st' = 0 ∧
    falling_number st' = true ∧ game_over st' = false.
Proof.
  assert (wf (game Examples.falling_one)) as Hwf by concrete_shape.
  split; [exact Hwf|].
  destruct (spawn_new_number_rule Examples.falling_one Examples.some_draws Hwf)
    as (st' & Hrun & _).
  exists st'. split; [exact Hrun|].
  vm_compute in Hrun. injection Hrun as <-. vm_compute. repeat split.
Defined.

Lemma drop_number_lands_witness :
  inv Examples.falling_one ∧ falling_number Examples.falling_one = true ∧
  game_over Examples.falling_one = false ∧
  free (grid (game Examples.falling_one)) 2 = 8%nat ∧
  drop_number Examples.falling_one = Ok (fallen_to Examples.falling_one 6) ∧
  drop_number (fallen_to Examples.falling_one 455)
    = Ok (landed Examples.falling_one 7 461).
Proof.
  split; [exact inv_falling_one|]. split; [reflexivity|]. split; [reflexivity|].
  split; [vm_compute; reflexivity|]. split.
  - destruct (drop_number_lands Examples.falling_one inv_falling_one eq_refl eq_refl)
      as (_ & _ & _ & Hrun).
    rewrite Hrun. vm_compute. reflexivity.
  - vm_compute. reflexivity.
Defined.

Lemma number_stack_invariant_witness :
  inv Examples.falling_one ∧
  (∃ st' rnd', run_update 900 Examples.falling_one Examples.some_draws
                 = Ok (st', rnd') ∧ inv st') ∧
  (∃ st', handle_click Examples.falling_one (10, 710) = Ok st' ∧ inv st') ∧
  (∃ st' rnd', spawn_new_number Examples.falling_one Examples.some_draws
                 = Ok (st', rnd') ∧ inv st') ∧
  (∃ st', drop_number Examples.falling_one = Ok st' ∧ inv st').
Proof.
  split; [exact inv_falling_one|].
  exact (number_stack_invariant Examples.falling_one 900 Examples.some_draws
           (10, 710) inv_falling_one).
Defined.

Lemma falling_number_lands_witness :
  inv Examples.falling_one ∧ falling_number Examples.falling_one = true ∧
  game_over Examples.falling_one = false ∧
  drop_frames 76 Examples.falling_one = Ok (fallen_to Examples.falling_one 456) ∧
  drop_frames 77 Examples.falling_one = Ok (landed Examples.falling_one 7 462).
Proof.
  split; [exact inv_falling_one|]. split; [reflexivity|]. split; [reflexivity|].
  destruct (falling_number_lands Examples.falling_one inv_falling_one eq_refl eq_refl)
    as (_ & Hfalling & Hlands).
  split.
  - rewrite (Hfalling 76%nat); [reflexivity|]. vm_compute. lia.
  - exact Hlands.
Defined.

Lemma handle_click_dispatch_witness :
  wf (game Examples.falling_one) ∧ on_cell 9 0 10 710 ∧
  handle_click Examples.falling_one (10, 710) =
    (gm ← smash Examples.stacked_ones 9 0;
     Ok (set_game Examples.falling_one gm)) ∧
  handle_click Examples.falling_one (67, 710) = Ok Examples.falling_one.
Proof.
  assert (wf (game Examples.falling_one)) as Hwf by concrete_shape.
  assert (on_cell 9 0 10 710) as Hon by (vm_compute; repeat split; congruence).
  split; [exact Hwf|]. split; [exact Hon|].
  destruct (handle_click_dispatch Examples.falling_one 10 710 Hwf) as [_ Hplay].
  destruct (Hplay eq_refl) as [Hhit _].
  destruct (Hhit 9%nat 0%nat) as [_ Hrun];
    [unfold ROWS; lia|unfold COLS; lia|exact Hon|].
  split; [exact Hrun|].
  destruct (handle_click_dispatch Examples.falling_one 67 710 Hwf) as [_ Hplay'].
  destruct (Hplay' eq_refl) as [_ Hmiss]. apply Hmiss.
  intros r c _ _. unfold on_cell, grid_x, grid_y, CELL_SIZE, GRID_PADDING,
    TOP_MARGIN. lia.
Defined.

Lemma score_tallies_smashed_cells_witness :
  inv Examples.falling_one ∧ (9 < ROWS)%nat ∧ (0 < COLS)%nat ∧
  ∃ gm',
    smash (game Examples.falling_one) 9 0 = Ok gm' ∧
    filled (grid (game Examples.falling_one)) = 8%nat ∧
    filled (grid gm') = 3%nat ∧
    score gm' + 10 * 3 = score (game Examples.falling_one) + 10 * 8.
Proof.
  split; [exact inv_falling_one|]. split; [unfold ROWS; lia|].
  split; [unfold COLS; lia|].
  assert (∃ gm', smash (game Examples.falling_one) 9 0 = Ok gm') as [gm' Hsm].
  { eexists. vm_compute. reflexivity. }
  exists gm'. split; [exact Hsm|].
  assert (filled (grid (game Examples.falling_one)) = 8%nat) as H8
    by (vm_compute; reflexivity).
  assert (filled (grid gm') = 3%nat) as H3.
  { vm_compute in Hsm. injection Hsm as <-. vm_compute. reflexivity. }
  split; [exact H8|]. split; [exact H3|].
  destruct (score_tallies_smashed_cells Examples.falling_one 9 0 gm'
              inv_falling_one) as [[Htally _] _].
  { unfold ROWS; lia. }
  { unfold COLS; lia. }
  { exact Hsm. }
  rewrite H8, H3 in Htally. exact Htally.
Defined.

End StackPlay.

(** ** cute_number_crush.py: clicks, swaps and frames *)

Section CrushPlay.
Import Crush CrushSpec.

Lemma full_grid_set_Some (g : list (list (option Tile))) (r c : nat)
    (x : option Tile) :
  Forall (Forall is_Some) g → is_Some x → Forall (Forall is_Some) (grid_set g r c x).
Proof. intros Hfull [t ->]. by apply full_grid_set. Qed.

(** [Board.swap] of two cells of the board. *)
Lemma swap_ok (b : Board) (r1 c1 r2 c2 : nat) :
  wf b → (r1 < rows b)%nat → (c1 < cols b)%nat →
  (r2 < rows b)%nat → (c2 < cols b)%nat →
  ∃ b1, swap b (Z.of_nat r1) (Z.of_nat c1) (Z.of_nat r2) (Z.of_nat c2) = Ok b1 ∧
        wf b1 ∧ same_dims b b1 ∧ (full b → full b1) ∧
        swap b1 (Z.of_nat r1) (Z.of_nat c1) (Z.of_nat r2) (Z.of_nat c2) = Ok b.
Proof.
  intros Hwf Hr1 Hc1 Hr2 Hc2.
  destruct (shape_cell_at _ _ _ r1 c1 Hwf Hr1 Hc1) as [x1 Hx1].
  destruct (shape_cell_at _ _ _ r2 c2 Hwf Hr2 Hc2) as [x2 Hx2].
  pose proof (swap_spec b r1 c1 r2 c2 x1 x2 Hx1 Hx2) as Hswap.
  destruct (swap_swap b _ r1 c1 r2 c2 Hwf Hr1 Hc1 Hr2 Hc2 Hswap)
    as (Hwf1 & Hdims & Hback).
  eexists. split; [exact Hswap|]. split; [done|]. split; [done|]. split; [|done].
  intros Hfull. unfold full. simpl.
  apply full_grid_set_Some; [apply full_grid_set_Some; [done|]|].
  - by apply (full_cell_at b r2 c2).
  - by apply (full_cell_at b r1 c1).
Qed.

(** The cascade loop never raises on a board whose cells all hold tiles. *)
Lemma resolve_loop_safe (fuel : nat) (b : Board) (sc tot chain : Z)
    (rnd : RandomSource) :
  wf b → full b →
  resolve_loop fuel b sc tot chain rnd = OutOfFuel ∨
  ∃ tot' b' sc' rnd', resolve_loop fuel b sc tot chain rnd = Ok (tot', b', sc', rnd').
Proof.
  revert b sc tot chain rnd.
  induction fuel as [|fuel IH]; intros b sc tot chain rnd Hwf Hfull; [by left|].
  cbn [resolve_loop].
  destruct (find_matches_spec b Hwf Hfull) as (m & Hm & _).
  pose proof (find_matches_on_grid b m Hwf Hfull Hm) as Hon.
  rewrite Hm. cbn [mbind result_bind].
  destruct (decide (m = ∅)); [right; by eexists _, _, _, _|].
  destruct (remove_and_collapse_spec b m rnd Hwf Hon)
    as (b1 & removed & rnd1 & Hrm & Hwf1 & Hfull1 & _).
  rewrite Hrm. cbn [mbind result_bind]. by apply IH.
Qed.

Lemma find_and_resolve_matches_safe (fuel : nat) (gm : Game) (rnd : RandomSource) :
  wf (board gm) → full (board gm) →
  find_and_resolve_matches fuel gm rnd = OutOfFuel ∨
  ∃ ns gm' rnd',
    find_and_resolve_matches fuel gm rnd = Ok (total ns, gm', rnd') ∧
    cascade (board gm) rnd ns (board gm') rnd' ∧
    gm' = mkGame (board gm') (selected gm) (animating gm) (swap_animation gm)
            (score gm + chain_score 0 ns) (combo gm).
Proof.
  intros Hwf Hfull. unfold find_and_resolve_matches.
  destruct (resolve_loop_safe fuel (board gm) (score gm) 0 0 rnd Hwf Hfull)
    as [->|(tot & b' & sc' & rnd' & Hrun)]; [by left|].
  right. rewrite Hrun. cbn [mbind result_bind].
  destruct (resolve_loop_cascade _ _ _ _ _ _ _ _ _ _ Hrun)
    as (ns & _ & Hcas & -> & ->).
  exists ns. eexists _, _. rewrite Z.add_0_l. done.
Qed.

(** [Board.get] on a board whose cells all hold tiles. *)
Lemma get_total (b : Board) (r c : Z) :
  wf b → full b →
  (on_grid (rows b) (cols b) (r, c) ∧ ∃ t, get b r c = Ok (Some t)) ∨
  (¬ on_grid (rows b) (cols b) (r, c) ∧ get b r c = Ok None).
Proof.
  intros Hwf Hfull.
  destruct (decide (0 ≤ r < Z.of_nat (rows b) ∧ 0 ≤ c < Z.of_nat (cols b)))
    as [[Hr Hc]|Hoff].
  - left. split; [done|].
    destruct (get_tile b (Z.to_nat r) (Z.to_nat c)) as [t Ht]; [done|done|lia|lia|].
    rewrite !Z2Nat.id in Ht by lia. by exists t.
  - right. split; [done|]. by apply get_out_of_bounds.
Qed.

Lemma game_inv_set_selected (gm : Game) (sel : option (Z * Z)) :
  game_inv gm → game_inv (set_selected gm sel).
Proof. done. Qed.

Lemma try_swap_inv (gm : Game) (a b : Z * Z) :
  game_inv gm →
  ∃ gm', try_swap gm a b = Ok gm' ∧ game_inv gm' ∧
         board gm' = board gm ∧ score gm' = score gm ∧ combo gm' = combo gm ∧
         selected gm' = selected gm.
Proof.
  intros Hinv. pose proof Hinv as (Hwf & Hfull & Hst & Hanim).
  unfold try_swap. destruct (animating gm) eqn:Han; [by exists gm|].
  destruct a as [r1 c1], b as [r2 c2].
  case_decide; [by exists gm|].
  destruct (get_total (board gm) r1 c1 Hwf Hfull) as [[Hon1 [ta ->]]|[_ ->]];
    destruct (get_total (board gm) r2 c2 Hwf Hfull) as [[Hon2 [tb ->]]|[_ ->]];
    cbn [mbind result_bind]; try by exists gm.
  eexists. split; [done|]. split; [|done].
  split; [done|]. split; [done|]. split; [done|]. simpl.
  split; [done|]. split; [done|]. split; [done|]. done.
Qed.

Lemma update_swap_anim_inv (fuel : nat) (gm : Game) (rnd : RandomSource) :
  game_inv gm →
  update_swap_anim fuel gm rnd = OutOfFuel ∨
  ∃ gm' rnd', update_swap_anim fuel gm rnd = Ok (gm', rnd') ∧ game_inv gm'.
Proof.
  intros Hinv. pose proof Hinv as (Hwf & Hfull & Hst & Hanim).
  unfold update_swap_anim. destruct (swap_animation gm) as [sa|] eqn:Hsa;
    [|right; by exists gm, rnd].
  destruct Hanim as (Han & Hona & Honb & Hrev).
  cbn [sa_a sa_b sa_frames sa_frame sa_reverting sa_keep sa_tile_a sa_tile_b].
  case_decide as Hdone; cycle 1.
  { right. eexists _, _. split; [done|].
    split; [done|]. split; [done|]. split; [done|]. simpl. done. }
  destruct (on_grid_coord_of _ _ _ Hona) as (r1 & c1 & Ha & Hr1 & Hc1).
  destruct (on_grid_coord_of _ _ _ Honb) as (r2 & c2 & Hb & Hr2 & Hc2).
  rewrite Ha, Hb in *. unfold coord_of in *. cbn [fst snd] in Hrev.
  destruct (swap_ok (board gm) r1 c1 r2 c2 Hwf Hr1 Hc1 Hr2 Hc2)
    as (b1 & Hswap & Hwf1 & Hdims & Hfull1 & Hback).
  specialize (Hfull1 Hfull). rewrite Hswap. cbn [mbind result_bind].
  destruct (find_matches_spec b1 Hwf1 Hfull1) as (m & Hm & _).
  rewrite Hm. cbn [mbind result_bind].
  destruct (decide (m = ∅)) as [->|Hne].
  - rewrite decide_False by (intros Hx; by apply Hx).
    destruct (sa_reverting sa) eqn:Hrv; cbn [negb].
    + rewrite Hback. cbn [mbind result_bind]. right. eexists _, _.
      split; [done|]. split; [done|]. split; [done|]. split; [done|]. done.
    + right. eexists _, _. split; [done|].
      split; [done|]. split; [done|]. split; [done|]. simpl.
      destruct Hdims as [-> ->].
      split; [done|]. split; [done|]. split; [done|]. intros _.
      exists (board gm). done.
  - rewrite decide_True by done.
    set (gm1 := mkGame b1 (selected gm) false None (score gm) (combo gm)).
    destruct (find_and_resolve_matches_safe fuel gm1 rnd Hwf1 Hfull1)
      as [->|(ns & gm2 & rnd' & -> & Hcas & Hgm2)]; [by left|].
    cbn [mbind result_bind]. right. eexists _, _. split; [done|].
    destruct (cascade_wf _ _ _ _ _ Hwf1 Hfull1 Hcas) as (Hwf2 & Hfull2 & _).
    pose proof (cascade_stable_end _ _ _ _ _ Hcas) as Hst2.
    rewrite Hgm2. simpl. split; [done|]. split; [done|]. split; [done|]. done.
Qed.

(** A frame in a state that satisfies the invariant: the leftover-cascade
    branch of the main loop finds no match. *)
Lemma run_update_spec (fuel : nat) (g : CandyLikeGame) (rnd : RandomSource) :
  game_inv (engine g) → paused g = false →
  run_update fuel g rnd =
    ('(gm, rnd') ←
       (match swap_animation (engine g) with
        | Some _ => update_swap_anim fuel (engine g) rnd
        | None => Ok (engine g, rnd)
        end);
     Ok (set_engine g gm, rnd')).
Proof.
  intros Hinv Hp. unfold run_update. rewrite Hp.
  assert (∀ gm rnd', game_inv gm →
    (if negb (animating gm) && negb (bool_decide (is_Some (swap_animation gm)))
     then
       matches ← find_matches (board gm);
       if decide (matches ≠ ∅) then
         '(b, removed, rnd) ← remove_and_collapse (board gm) matches rnd';
         if decide (removed ≠ 0) then
           let combo := combo gm + 1 in
           let score := score gm + removed * BASE_SCORE_PER_TILE * Z.max 1 combo in
           Ok (set_engine g (mkGame b (selected gm) (animating gm)
                               (swap_animation gm) score combo), rnd)
         else
           Ok (set_engine g (mkGame b (selected gm) (animating gm)
                               (swap_animation gm) (score gm) 0), rnd)
       else Ok (set_engine g gm, rnd')
     else Ok (set_engine g gm, rnd')) = Ok (set_engine g gm, rnd')) as Hdead.
  { intros gm rnd' (_ & _ & Hst & _).
    destruct (negb (animating gm)
              && negb (bool_decide (is_Some (swap_animation gm)))); [|done].
    rewrite Hst. cbn [mbind result_bind].
    by rewrite decide_False by (intros Hx; by apply Hx). }
  destruct (swap_animation (engine g)) as [sa|] eqn:Hsa.
  - destruct (update_swap_anim_inv fuel (engine g) rnd Hinv)
      as [->|(gm & rnd' & -> & Hinv')]; [done|].
    cbn [mbind result_bind]. by apply Hdead.
  - cbn [mbind result_bind]. by apply Hdead.
Qed.

Lemma set_engine_same (g : CandyLikeGame) : set_engine g (engine g) = g.
Proof. by destruct g. Qed.

Lemma Game_init_inv (fuel : nat) (rnd rnd' : RandomSource) (nrows ncols : nat)
    (gm : Game) :
  Game_init fuel rnd nrows ncols = Ok (gm, rnd') →
  game_inv gm ∧ rows (board gm) = nrows ∧ cols (board gm) = ncols ∧
  swap_animation gm = None ∧ selected gm = None ∧ score gm = 0 ∧ combo gm = 0.
Proof.
  unfold Game_init. intros Hrun.
  apply bind_Ok in Hrun as ([b rnd1] & Hb & Hrun).
  apply bind_Ok in Hrun as ([b' rnd2] & Hres & Hrun).
  injection Hrun as <- <-.
  destruct (Board_init_spec _ _ _ _ _ _ Hb) as (Hrows & Hcols & Hwf & Hfull & Hno).
  pose proof (find_matches_empty b Hwf Hfull Hno) as Hst.
  destruct fuel as [|fuel]; [done|].
  cbn [resolve_all_matches_initial] in Hres. rewrite Hst in Hres.
  cbn [mbind result_bind] in Hres. rewrite decide_True in Hres by done.
  injection Hres as <- <-. simpl. done.
Qed.

Lemma candy_click_inv (g : CandyLikeGame) (pos : Z * Z) :
  game_inv (engine g) →
  (handle_click g pos = ZeroDivisionError ∧ tile_size g + padding g = 0) ∨
  ∃ g', handle_click g pos = Num (Ok g') ∧ game_inv (engine g') ∧
        board (engine g') = board (engine g) ∧
        score (engine g') = score (engine g) ∧
        combo (engine g') = combo (engine g).
Proof.
  intros Hinv. unfold handle_click.
  destruct (show_instructions g); [right; by eexists|].
  destruct (animating (engine g) || paused g); [right; by eexists|].
  destruct pos as [mx my].
  destruct (pixel_to_tile g mx my) as [[clicked|]|] eqn:Hpx.
  - destruct (selected (engine g)) as [sel|]; [|right; by eexists].
    case_decide; [right; by eexists|].
    destruct (try_swap_inv (engine g) sel clicked Hinv)
      as (gm & -> & Hinv' & Hb & Hs & Hc & _).
    cbn [mbind result_bind]. right. eexists. split; [done|]. simpl. done.
  - right. by eexists.
  - left. split; [done|]. unfold pixel_to_tile in Hpx.
    repeat case_decide; done.
Qed.

(** X8. the game keeps its invariant and never raises.  [Game_init]
    establishes, and [try_swap], [update_swap_anim], [handle_click] and the
    frame update keep, that the board has its dimensions, every cell holds a
    tile, the board has no match between two calls, and the cells of an
    animated swap are on the board.  A cascade that does not end is the
    only way not to return, and a division by zero (sizes that add up to 0)
    the only error.  A click never changes the board, the score or the
    combo counter. *)
Theorem candy_game_invariant (g : CandyLikeGame) (fuel : nat)
    (rnd : RandomSource) (pos a b : Z * Z) :
  game_inv (engine g) →
  (∀ fuel0 rnd0 nrows ncols gm0 rnd1,
     Game_init fuel0 rnd0 nrows ncols = Ok (gm0, rnd1) → game_inv gm0) ∧
  (∃ gm', try_swap (engine g) a b = Ok gm' ∧ game_inv gm' ∧
          board gm' = board (engine g)) ∧
  (update_swap_anim fuel (engine g) rnd = OutOfFuel ∨
   ∃ gm' rnd', update_swap_anim fuel (engine g) rnd = Ok (gm', rnd') ∧
               game_inv gm') ∧
  ((handle_click g pos = ZeroDivisionError ∧ tile_size g + padding g = 0) ∨
   ∃ g', handle_click g pos = Num (Ok g') ∧ game_inv (engine g') ∧
         board (engine g') = board (engine g) ∧
         score (engine g') = score (engine g) ∧
         combo (engine g') = combo (engine g)) ∧
  (run_update fuel g rnd = OutOfFuel ∨
   ∃ g' rnd', run_update fuel g rnd = Ok (g', rnd') ∧ game_inv (engine g')).
Proof.
  intros Hinv. split.
  { intros fuel0 rnd0 nrows ncols gm0 rnd1 Hinit.
    by destruct (Game_init_inv _ _ _ _ _ _ Hinit). }
  split.
  { destruct (try_swap_inv (engine g) a b Hinv) as (gm' & ? & ? & ? & _).
    by exists gm'. }
  split; [by apply update_swap_anim_inv|].
  split; [by apply candy_click_inv|].
  destruct (paused g) eqn:Hp.
  { right. exists g, rnd. unfold run_update. by rewrite Hp. }
  rewrite run_update_spec by done.
  destruct (swap_animation (engine g)) as [sa|].
  - destruct (update_swap_anim_inv fuel (engine g) rnd Hinv)
      as [->|(gm & rnd' & -> & Hinv')]; [by left|].
    right. by eexists _, _.
  - right. by eexists _, _.
Qed.

(** X9. while no swap is animated a frame of the main loop changes nothing:
    the board has no match then, so the branch of [run] that clears leftover
    matches, with its own scoring by [max(1, combo)], never runs in a game
    that started from [CandyLikeGame()]. *)
Theorem idle_frame_changes_nothing (g : CandyLikeGame) (fuel : nat)
    (rnd : RandomSource) :
  game_inv (engine g) → swap_animation (engine g) = None →
  find_matches (board (engine g)) = Ok ∅ ∧
  run_update fuel g rnd = Ok (g, rnd).
Proof.
  intros Hinv Hsa. split; [by destruct Hinv as (_ & _ & ? & _)|].
  destruct (paused g) eqn:Hp.
  { unfold run_update. by rewrite Hp. }
  rewrite run_update_spec, Hsa by done. cbn [mbind result_bind].
  by rewrite set_engine_same.
Qed.

Lemma total_pos (ns : list Z) : Forall (fun n => 3 ≤ n) ns → ns ≠ [] → 0 < total ns.
Proof.
  intros Hall Hne. destruct Hall as [|n ns Hn Hall]; [done|].
  unfold total. simpl.
  assert (0 ≤ foldr Z.add 0 ns); [|lia].
  clear Hne Hn. induction Hall as [|k ns Hk _ IH]; simpl; lia.
Qed.

(** The frame that completes a swap which makes a match. *)
Lemma forward_frame_match (fuel : nat) (gm : Game) (b b1 b' : Board)
    (r1 c1 r2 c2 : nat) (ta tb : Tile) (reverting : bool)
    (rnd rnd' : RandomSource) (m : gset (Z * Z)) (ns : list Z) :
  wf b1 → full b1 →
  swap b (Z.of_nat r1) (Z.of_nat c1) (Z.of_nat r2) (Z.of_nat c2) = Ok b1 →
  find_matches b1 = Ok m → m ≠ ∅ →
  cascade b1 rnd ns b' rnd' → (length ns < fuel)%nat →
  0 < total ns ∧
  update_swap_anim fuel
    (in_trial gm b (coord_of r1 c1) (coord_of r2 c2) ta tb (SWAP_ANIM_FRAMES - 1)
       reverting) rnd =
  Ok (mkGame b' (selected gm) false None (score gm + chain_score 0 ns)
        (combo gm + 1), rnd').
Proof.
  intros Hwf1 Hfull1 Hswap Hm Hne Hcas Hfuel.
  assert (0 < total ns) as Hpos.
  { apply total_pos; [by eapply cascade_removed_pos|].
    intros ->. inversion Hcas; subst. congruence. }
  split; [done|].
  unfold update_swap_anim, in_trial.
  cbn [swap_animation sa_a sa_b sa_frames sa_frame sa_reverting sa_keep
       sa_tile_a sa_tile_b board selected score combo animating].
  rewrite decide_True by (unfold SWAP_ANIM_FRAMES; lia).
  unfold coord_of. rewrite Hswap. cbn [mbind result_bind].
  rewrite Hm. cbn [mbind result_bind]. rewrite decide_True by done.
  unfold find_and_resolve_matches.
  cbn [board score selected animating swap_animation combo].
  rewrite (cascade_resolve_loop fuel b1 b' (score gm) 0 0 rnd rnd' ns) by done.
  cbn [mbind result_bind board selected animating swap_animation score combo].
  rewrite decide_True by lia. done.
Qed.

(** X10. a swap of two neighbouring tiles that makes a match is kept.  The
    board is left alone for [SWAP_ANIM_FRAMES - 1] frames; the next frame
    exchanges the two tiles and resolves the cascade: the animation ends,
    the score grows by the chain score of the cascade, and the combo counter
    grows by one (the cascade removes at least three tiles, so the branch
    that resets it is never taken). *)
Theorem kept_swap (fuel : nat) (gm : Game) (b1 b' : Board) (r1 c1 r2 c2 : nat)
    (m : gset (Z * Z)) (ns : list Z) (rnd rnd' : RandomSource) :
  game_inv gm → swap_animation gm = None →
  (r1 < rows (board gm))%nat → (c1 < cols (board gm))%nat →
  (r2 < rows (board gm))%nat → (c2 < cols (board gm))%nat →
  adjacent (coord_of r1 c1) (coord_of r2 c2) →
  swap (board gm) (Z.of_nat r1) (Z.of_nat c1) (Z.of_nat r2) (Z.of_nat c2) = Ok b1 →
  find_matches b1 = Ok m → m ≠ ∅ →
  cascade b1 rnd ns b' rnd' → (length ns < fuel)%nat →
  ∃ gm1,
    try_swap gm (coord_of r1 c1) (coord_of r2 c2) = Ok gm1 ∧
    (∀ n, (n < 12)%nat →
       ∃ gmn, run_frames n fuel gm1 rnd = Ok (gmn, rnd) ∧
              board gmn = board gm ∧ animating gmn = true ∧
              score gmn = score gm) ∧
    run_frames 12 fuel gm1 rnd =
      Ok (mkGame b' (selected gm) false None (score gm + chain_score 0 ns)
            (combo gm + 1), rnd') ∧
    3 ≤ total ns ∧ find_matches b' = Ok ∅.
Proof.
  intros Hinv Hsa Hr1 Hc1 Hr2 Hc2 Hadj Hswap Hm Hne Hcas Hfuel.
  pose proof Hinv as (Hwf & Hfull & Hst & Hanim). rewrite Hsa in Hanim.
  destruct (cell_at_tile (board gm) r1 c1 Hwf Hfull Hr1 Hc1) as (ta & Hta & _).
  destruct (cell_at_tile (board gm) r2 c2 Hwf Hfull Hr2 Hc2) as (tb & Htb & _).
  destruct (swap_ok (board gm) r1 c1 r2 c2 Hwf Hr1 Hc1 Hr2 Hc2)
    as (b1' & Hswap' & Hwf1 & _ & Hfull1 & _).
  rewrite Hswap in Hswap'. injection Hswap' as <-. specialize (Hfull1 Hfull).
  eexists. split.
  { by apply (try_swap_accepted gm r1 c1 r2 c2 ta tb). }
  split.
  { intros n Hn. eexists. split.
    - apply waiting_frames. unfold SWAP_ANIM_FRAMES. lia.
    - done. }
  split.
  { change 12%nat with (11 + 1)%nat. rewrite run_frames_add.
    rewrite waiting_frames by (unfold SWAP_ANIM_FRAMES; lia).
    cbn [mbind result_bind run_frames].
    change (0 + Z.of_nat 11) with (SWAP_ANIM_FRAMES - 1).
    destruct (forward_frame_match fuel gm (board gm) b1 b' r1 c1 r2 c2 ta tb false
                rnd rnd' m ns) as [_ ->]; done. }
  split.
  { assert (ns ≠ []) as Hns.
    { intros ->. inversion Hcas; subst. congruence. }
    pose proof (cascade_removed_pos _ _ _ _ _ Hwf1 Hfull1 Hcas) as Hall.
    destruct Hall as [|n ns' Hn Hall]; [done|]. unfold total. simpl.
    assert (0 ≤ foldr Z.add 0 ns'); [|lia].
    clear Hns Hcas Hfuel. induction Hall as [|k l Hk _ IH]; simpl; lia. }
  by eapply cascade_stable_end.
Qed.

(** X11. [pixel_to_tile] is the inverse of [tile_to_pixel].  With a tile size
    that is not negative and a padding of at least 1 it never divides by
    zero, and it returns [(r, c)] exactly for the pixels of the square of
    the tile [(r, c)] of the [ROWS] by [COLS] board, the line along its
    right and bottom edge included; the padding between the squares gives
    [None].  The corner [tile_to_pixel] returns is such a pixel. *)
Theorem pixel_to_tile_exact (g : CandyLikeGame) (mx my r c : Z) :
  0 ≤ tile_size g → 1 ≤ padding g →
  pixel_to_tile g mx my ≠ ZeroDivisionError ∧
  (pixel_to_tile g mx my = Num (Some (r, c)) ↔
   (0 ≤ r < Z.of_nat ROWS ∧ 0 ≤ c < Z.of_nat COLS) ∧ on_tile g r c mx my) ∧
  ((0 ≤ r < Z.of_nat ROWS ∧ 0 ≤ c < Z.of_nat COLS) →
   pixel_to_tile g (tile_to_pixel g r c).1 (tile_to_pixel g r c).2
     = Num (Some (r, c))).
Proof.
  intros Hts Hpad.
  assert (pixel_to_tile g mx my ≠ ZeroDivisionError) as Hnz.
  { unfold pixel_to_tile. repeat case_decide; (done || lia). }
  assert (∀ mx my r c,
    pixel_to_tile g mx my = Num (Some (r, c)) ↔
    (0 ≤ r < Z.of_nat ROWS ∧ 0 ≤ c < Z.of_nat COLS) ∧ on_tile g r c mx my)
    as Hexact.
  { clear mx my r c Hnz. intros mx my r c.
    unfold pixel_to_tile, on_tile, tile_to_pixel.
    set (w := tile_size g + padding g).
    set (px := mx - (board_x g + padding g)).
    set (py := my - (board_y g + padding g)).
    assert (0 < w) as Hw by (unfold w; lia).
    pose proof (Z.div_mod px w) as Hdx. pose proof (Z.mod_pos_bound px w Hw) as Hmx.
    pose proof (Z.div_mod py w) as Hdy. pose proof (Z.mod_pos_bound py w Hw) as Hmy.
    split.
    - repeat case_decide; try done. intros [= <- <-].
      split; [done|]. unfold px, py in *. lia.
    - intros [[Hr Hc] [Hx Hy]].
      assert (px `div` w = c) as Hqc.
      { symmetry. apply (Z.div_unique px w c (px - w * c)); [left|]; unfold px, w; nia. }
      assert (py `div` w = r) as Hqr.
      { symmetry. apply (Z.div_unique py w r (py - w * r)); [left|]; unfold py, w; nia. }
      rewrite decide_False by (unfold px, py; nia).
      rewrite decide_False by lia.
      rewrite Hqc, Hqr. rewrite decide_True by done.
      rewrite decide_True; [done|].
      rewrite Hqc in Hdx. rewrite Hqr in Hdy. unfold px, py, w in *. lia. }
  split; [done|]. split; [apply Hexact|].
  intros Hrc. apply Hexact. split; [done|].
  unfold on_tile, tile_to_pixel. simpl. lia.
Qed.

Lemma set_selected_twice (gm : Game) (s1 s2 : option (Z * Z)) :
  set_selected (set_selected gm s1) s2 = set_selected gm s2.
Proof. done. Qed.

Lemma set_selected_same (gm : Game) : set_selected gm (selected gm) = gm.
Proof. by destruct gm. Qed.

(** X12. two clicks.  With the overlay gone, the game neither paused nor
    animating and no tile selected, a click on a tile selects it without
    changing anything else.  A second click on the same tile, or on a tile
    that is not one of its four neighbours, gives back the state before the
    first click (the second tile is not selected instead); a second click
    on a neighbour starts the trial of swapping the two, with the board
    still unchanged and the selection dropped. *)
Theorem click_twice (g : CandyLikeGame) (mx1 my1 mx2 my2 : Z) (t1 t2 : Z * Z) :
  game_inv (engine g) →
  rows (board (engine g)) = ROWS → cols (board (engine g)) = COLS →
  show_instructions g = false → paused g = false →
  swap_animation (engine g) = None → selected (engine g) = None →
  pixel_to_tile g mx1 my1 = Num (Some t1) →
  pixel_to_tile g mx2 my2 = Num (Some t2) →
  handle_click g (mx1, my1) =
    Num (Ok (set_engine g (set_selected (engine g) (Some t1)))) ∧
  ∃ g2,
    handle_click (set_engine g (set_selected (engine g) (Some t1))) (mx2, my2)
      = Num (Ok g2) ∧
    ((t2 = t1 ∨ ¬ adjacent t1 t2) → g2 = g) ∧
    (adjacent t1 t2 →
     ∃ ta tb,
       get (board (engine g)) t1.1 t1.2 = Ok (Some ta) ∧
       get (board (engine g)) t2.1 t2.2 = Ok (Some tb) ∧
       g2 = set_engine g
              (in_trial (engine g) (board (engine g)) t1 t2 ta tb 0 false)).
Proof.
  intros Hinv Hrows Hcols Hshow Hp Hsa Hsel Hpx1 Hpx2.
  pose proof Hinv as (Hwf & Hfull & Hst & Hanim). rewrite Hsa in Hanim.
  assert (∀ mx my t, pixel_to_tile g mx my = Num (Some t) →
            on_grid (rows (board (engine g))) (cols (board (engine g))) t) as Hon.
  { intros mx my t Hpx. unfold pixel_to_tile in Hpx.
    repeat case_decide; try done. injection Hpx as <-.
    rewrite Hrows, Hcols. unfold on_grid. simpl. lia. }
  split.
  { unfold handle_click. rewrite Hshow, Hanim, Hp, Hpx1, Hsel. done. }
  unfold handle_click.
  cbn [show_instructions engine set_engine set_selected animating paused
       selected orb].
  rewrite Hshow, Hanim, Hp. cbn [orb].
  assert (pixel_to_tile (set_engine g (set_selected (engine g) (Some t1))) mx2 my2
          = Num (Some t2)) as -> by exact Hpx2.
  destruct (decide (t2 = t1)) as [->|Hne].
  { eexists. split; [done|]. split.
    - intros _. destruct g as [[? ? ? ? ? ?] ? ? ? ? ? ?]. simpl in *. by subst.
    - intros Hadj. unfold adjacent in Hadj. lia. }
  destruct (decide (Z.abs (t1.1 - t2.1) + Z.abs (t1.2 - t2.2) = 1))
    as [Hadj|Hnadj].
  - destruct t1 as [r1 c1], t2 as [r2 c2].
    destruct (on_grid_coord_of _ _ _ (Hon _ _ _ Hpx1)) as (n1 & m1 & [= -> ->] & Hn1 & Hm1).
    destruct (on_grid_coord_of _ _ _ (Hon _ _ _ Hpx2)) as (n2 & m2 & [= -> ->] & Hn2 & Hm2).
    destruct (cell_at_tile (board (engine g)) n1 m1 Hwf Hfull Hn1 Hm1) as (ta & Hta & _).
    destruct (cell_at_tile (board (engine g)) n2 m2 Hwf Hfull Hn2 Hm2) as (tb & Htb & _).
    pose proof (try_swap_accepted
                  (set_selected (engine g) (Some (Z.of_nat n1, Z.of_nat m1)))
                  n1 m1 n2 m2 ta tb Hanim Hn1 Hm1 Hn2 Hm2 Hadj Hta Htb) as Htry.
    unfold coord_of in Htry. rewrite Htry. cbn [mbind result_bind].
    eexists. split; [done|]. split.
    + intros [?|?]; done.
    + intros _. exists ta, tb. simpl.
      rewrite (get_in_bounds _ n1 m1 (Some ta)) by done.
      rewrite (get_in_bounds _ n2 m2 (Some tb)) by done.
      split; [done|]. split; [done|].
      unfold in_trial, set_selected, set_engine. simpl. by rewrite Hsel.
  - rewrite try_swap_not_adjacent by done. cbn [mbind result_bind].
    eexists. split; [done|]. split; [|done].
    intros _. destruct g as [[? ? ? ? ? ?] ? ? ? ? ? ?]. simpl in *. by subst.
Qed.

(** *** The theorems at concrete games *)

Lemma game_inv_fresh_game : game_inv Examples.fresh_game.
Proof.
  split; [concrete_shape|]. split; [concrete_full|].
  split; [vm_compute; reflexivity|]. reflexivity.
Defined.

Lemma candy_game_invariant_witness :
  game_inv (engine Examples.candy) ∧
  (∃ gm', try_swap (engine Examples.candy) (0, 0) (0, 1) = Ok gm' ∧ game_inv gm' ∧
          board gm' = board (engine Examples.candy)) ∧
  (∃ g', handle_click Examples.candy (20, 140) = Num (Ok g') ∧
         game_inv (engine g') ∧
         selected (engine g') = Some (0, 0)) ∧
  run_update 1 Examples.candy Examples.counting
    = Ok (Examples.candy, Examples.counting).
Proof.
  split; [exact game_inv_fresh_game|].
  destruct (candy_game_invariant Examples.candy 1 Examples.counting (20, 140)
              (0, 0) (0, 1) game_inv_fresh_game)
    as (_ & Htry & _ & Hclick & _).
  split; [exact Htry|]. split.
  - destruct Hclick as [[Hzero _]|(g' & Hrun & Hinv' & _)].
    + vm_compute in Hzero. discriminate.
    + exists g'. split; [exact Hrun|]. split; [exact Hinv'|].
      vm_compute in Hrun. injection Hrun as <-. reflexivity.
  - vm_compute. reflexivity.
Defined.

Lemma idle_frame_changes_nothing_witness :
  game_inv (engine Examples.candy) ∧ swap_animation (engine Examples.candy) = None ∧
  find_matches (board (engine Examples.candy)) = Ok ∅ ∧
  run_update 5 Examples.candy zeros = Ok (Examples.candy, zeros).
Proof.
  split; [exact game_inv_fresh_game|]. split; [reflexivity|].
  exact (idle_frame_changes_nothing Examples.candy 5 zeros
           game_inv_fresh_game eq_refl).
Defined.

Lemma kept_swap_witness :
  ∃ rnd' gm1,
    game_inv Examples.ready ∧ swap_animation Examples.ready = None ∧
    adjacent (coord_of 1 2) (coord_of 2 2) ∧
    swap (board Examples.ready) 1 2 2 2 = Ok Examples.ready_swapped ∧
    find_matches Examples.ready_swapped = Ok {[ (2, 0); (2, 1); (2, 2); (2, 3) ]} ∧
    cascade Examples.ready_swapped Examples.some_draws [4] Examples.ready_end rnd' ∧
    try_swap Examples.ready (1, 2) (2, 2) = Ok gm1 ∧
    run_frames 11 2 gm1 Examples.some_draws
      = Ok (in_trial Examples.ready (board Examples.ready) (1, 2) (2, 2)
              (new_Tile 1) (new_Tile 0) 11 false, Examples.some_draws) ∧
    run_frames 12 2 gm1 Examples.some_draws
      = Ok (mkGame Examples.ready_end None false None 40 1, rnd').
Proof.
  assert (game_inv Examples.ready) as Hinv.
  { split; [concrete_shape|]. split; [concrete_full|].
    split; [vm_compute; reflexivity|]. reflexivity. }
  assert (adjacent (coord_of 1 2) (coord_of 2 2)) as Hadj by (vm_compute; reflexivity).
  assert (swap (board Examples.ready) 1 2 2 2 = Ok Examples.ready_swapped) as Hswap
    by (vm_compute; reflexivity).
  assert (find_matches Examples.ready_swapped
          = Ok {[ (2, 0); (2, 1); (2, 2); (2, 3) ]}) as Hm
    by (vm_compute; reflexivity).
  assert (∃ rnd', cascade Examples.ready_swapped Examples.some_draws [4]
                    Examples.ready_end rnd') as [rnd' Hcas].
  { eexists.
    eapply cascade_step with (matches := {[ (2, 0); (2, 1); (2, 2); (2, 3) ]});
      [exact Hm|set_solver|vm_compute; reflexivity|].
    apply cascade_stable. vm_compute. reflexivity. }
  destruct (kept_swap 2 Examples.ready Examples.ready_swapped Examples.ready_end
              1 2 2 2 {[ (2, 0); (2, 1); (2, 2); (2, 3) ]} [4]
              Examples.some_draws rnd' Hinv eq_refl)
    as (gm1 & Htry & Hwait & Hrun & _);
    [simpl; lia|simpl; lia|simpl; lia|simpl; lia|exact Hadj|exact Hswap|exact Hm
    |set_solver|exact Hcas|simpl; lia|].
  exists rnd', gm1. split; [exact Hinv|]. split; [reflexivity|].
  split; [exact Hadj|]. split; [exact Hswap|]. split; [exact Hm|].
  split; [exact Hcas|]. split; [exact Htry|]. split; [|exact Hrun].
  vm_compute in Htry. injection Htry as <-. vm_compute. reflexivity.
Defined.

Lemma pixel_to_tile_exact_witness :
  0 ≤ tile_size Examples.candy ∧ 1 ≤ padding Examples.candy ∧
  on_tile Examples.candy 0 1 164 140 ∧
  pixel_to_tile Examples.candy 164 140 = Num (Some (0, 1)) ∧
  pixel_to_tile Examples.candy 165 140 = Num None ∧
  tile_to_pixel Examples.candy 0 1 = (94, 128) ∧
  pixel_to_tile Examples.candy 94 128 = Num (Some (0, 1)).
Proof.
  assert (0 ≤ tile_size Examples.candy) as Hts by (vm_compute; congruence).
  assert (1 ≤ padding Examples.candy) as Hpad by (vm_compute; congruence).
  assert (on_tile Examples.candy 0 1 164 140) as Hon
    by (vm_compute; repeat split; congruence).
  split; [exact Hts|]. split; [exact Hpad|]. split; [exact Hon|].
  destruct (pixel_to_tile_exact Examples.candy 164 140 0 1 Hts Hpad)
    as (_ & Hexact & Hround).
  split.
  { apply Hexact. split; [|exact Hon]. vm_compute. repeat split; congruence. }
  split; [vm_compute; reflexivity|]. split; [reflexivity|].
  apply Hround. vm_compute. repeat split; congruence.
Defined.

Lemma click_twice_witness :
  game_inv (engine Examples.candy) ∧
  pixel_to_tile Examples.candy 20 140 = Num (Some (0, 0)) ∧
  pixel_to_tile Examples.candy 100 140 = Num (Some (0, 1)) ∧
  handle_click Examples.candy (20, 140) =
    Num (Ok (set_engine Examples.candy
               (set_selected Examples.fresh_game (Some (0, 0))))) ∧
  handle_click
    (set_engine Examples.candy (set_selected Examples.fresh_game (Some (0, 0))))
    (100, 140) =
    Num (Ok (set_engine Examples.candy
               (in_trial Examples.fresh_game Examples.fresh_board (0, 0) (0, 1)
                  (new_Tile 0) (new_Tile 1) 0 false))) ∧
  handle_click
    (set_engine Examples.candy (set_selected Examples.fresh_game (Some (0, 0))))
    (20, 140) = Num (Ok Examples.candy).
Proof.
  assert (pixel_to_tile Examples.candy 20 140 = Num (Some (0, 0))) as Hpx1
    by (vm_compute; reflexivity).
  assert (pixel_to_tile Examples.candy 100 140 = Num (Some (0, 1))) as Hpx2
    by (vm_compute; reflexivity).
  split; [exact game_inv_fresh_game|]. split; [exact Hpx1|]. split; [exact Hpx2|].
  destruct (click_twice Examples.candy 20 140 100 140 (0, 0) (0, 1)
              game_inv_fresh_game eq_refl eq_refl eq_refl eq_refl eq_refl eq_refl
              Hpx1 Hpx2) as (Hfirst & g2 & Hsecond & _ & Hadj).
  split; [exact Hfirst|]. split.
  - destruct Hadj as (ta & tb & Hta & Htb & ->); [vm_compute; reflexivity|].
    vm_compute in Hta, Htb. injection Hta as <-. injection Htb as <-.
    exact Hsecond.
  - destruct (click_twice Examples.candy 20 140 20 140 (0, 0) (0, 0)
                game_inv_fresh_game eq_refl eq_refl eq_refl eq_refl eq_refl eq_refl
                Hpx1 Hpx1) as (_ & g3 & Hsame & Hback & _).
    rewrite (Hback (or_introl eq_refl)) in Hsame. exact Hsame.
Defined.

End CrushPlay.

(** ** number_smash.py: cells in time, clicks and refills *)

Section SmashPlay.
Import Smash SmashSpec.

(** X15. [Cell.tick] counts the two animation timers down to 0 and no
    further, and leaves the value alone; ticks add up: a tick of [d1] ms and
    then one of [d2] ms is a tick of [d1 + d2] ms.  A timer started by
    [start_pop] or [start_shake] is over after a tick of its full time. *)
Theorem tick_adds_up (cell : Cell) (d1 d2 : Z) :
  0 ≤ d1 → 0 ≤ d2 →
  tick (tick cell d1) d2 = tick cell (d1 + d2) ∧
  value (tick cell d1) = value cell ∧
  (0 ≤ pop_anim cell → 0 ≤ pop_anim (tick cell d1) ≤ pop_anim cell) ∧
  (0 ≤ shake_anim cell → 0 ≤ shake_anim (tick cell d1) ≤ shake_anim cell) ∧
  (0 ≤ pop_anim cell ≤ d1 → pop_anim (tick cell d1) = 0) ∧
  (0 ≤ shake_anim cell ≤ d1 → shake_anim (tick cell d1) = 0) ∧
  pop_anim (tick (start_pop cell) POP_ANIM_TIME) = 0 ∧
  shake_anim (tick (start_shake cell) SHAKE_ANIM_TIME) = 0.
Proof.
  intros Hd1 Hd2. destruct cell as [v pop shake]. unfold tick. simpl.
  split.
  { f_equal; repeat case_decide; lia. }
  split; [done|].
  split; [intros ?; case_decide; lia|]. split; [intros ?; case_decide; lia|].
  split; [intros ?; case_decide; lia|]. split; [intros ?; case_decide; lia|].
  done.
Qed.

Lemma tick_adds_up_witness :
  0 ≤ 120 ∧ 0 ≤ 100 ∧
  tick (tick (start_pop (mkCell (Some 1) 0 0)) 120) 100
    = tick (start_pop (mkCell (Some 1) 0 0)) 220 ∧
  tick (start_pop (mkCell (Some 1) 0 0)) 120 = mkCell (Some 1) 80 0 ∧
  tick (start_pop (mkCell (Some 1) 0 0)) 220 = mkCell (Some 1) 0 0.
Proof.
  split; [lia|]. split; [lia|].
  destruct (tick_adds_up (start_pop (mkCell (Some 1) 0 0)) 120 100) as [Hadd _];
    [lia|lia|].
  split; [exact Hadd|]. split; reflexivity.
Defined.

(** X16. [Cell.update_cycle] changes a cell at most once per
    [NUMBER_CYCLE_INTERVAL]: before the interval has passed since
    [last_change] it does nothing and takes no draw; from then on it takes
    one draw, gives the cell a number from 0 to 9 (never an empty value),
    sets [last_change] to [now], and leaves the timers alone.  After such a
    change, a call less than an interval later changes nothing. *)
Theorem update_cycle_once (cell : Cell) (last_change now : Z) (rnd : RandomSource) :
  ∃ cell' last_change' rnd',
    update_cycle cell last_change now rnd = Ok (cell', last_change', rnd') ∧
    (now - last_change < NUMBER_CYCLE_INTERVAL →
     cell' = cell ∧ last_change' = last_change ∧ rnd' = rnd) ∧
    (NUMBER_CYCLE_INTERVAL ≤ now - last_change →
     fresh_value (value cell') ∧ last_change' = now ∧ rnd' = next rnd ∧
     pop_anim cell' = pop_anim cell ∧ shake_anim cell' = shake_anim cell) ∧
    (∀ now' rnd'',
       NUMBER_CYCLE_INTERVAL ≤ now - last_change →
       now' - now < NUMBER_CYCLE_INTERVAL →
       update_cycle cell' last_change' now' rnd'' = Ok (cell', last_change', rnd'')).
Proof.
  unfold update_cycle.
  destruct (decide (NUMBER_CYCLE_INTERVAL ≤ now - last_change)) as [Hdue|Hnot].
  - destruct (random_randint_spec rnd) as (v & Hv & ->).
    cbn [mbind result_bind]. eexists _, _, _. split; [done|].
    split; [lia|]. split.
    + intros _. split; [by exists v|]. done.
    + intros now' rnd'' _ Hsoon. by rewrite decide_False by lia.
  - eexists _, _, _. split; [done|]. split; [done|]. split; [lia|].
    intros now' rnd'' ?. lia.
Qed.

Lemma after_add (n m : nat) (rnd : RandomSource) :
  after (n + m) rnd = after n (after m rnd).
Proof. unfold after. apply Nat.iter_add. Qed.

(** A comprehension whose generator always returns, taking [k] draws. *)
Lemma list_comp_draws {A : Type} (P : A → Prop) (k n : nat)
    (gen : RandomSource → result (A * RandomSource)) (rnd : RandomSource) :
  (∀ g, ∃ x, gen g = Ok (x, after k g) ∧ P x) →
  ∃ l, Crush.list_comp n gen rnd = Ok (l, after (n * k) rnd) ∧
       length l = n ∧ Forall P l.
Proof.
  intros Hgen. revert rnd. induction n as [|n IH]; intros rnd.
  { exists []. by split. }
  cbn [Crush.list_comp]. destruct (Hgen rnd) as (x & -> & Hx).
  cbn [mbind result_bind]. destruct (IH (after k rnd)) as (l & -> & Hlen & Hall).
  cbn [mbind result_bind]. exists (x :: l).
  split; [|split; [by rewrite length_cons, Hlen|by constructor]].
  do 2 f_equal. rewrite <- after_add. f_equal. simpl. lia.
Qed.

Lemma new_Cell_spec (rnd : RandomSource) :
  ∃ cell, new_Cell rnd = Ok (cell, after 2 rnd) ∧
          (fresh_value (value cell) ∧ pop_anim cell = 0 ∧ shake_anim cell = 0).
Proof.
  unfold new_Cell. destruct (random_randint_spec rnd) as (v & Hv & ->).
  cbn [mbind result_bind]. unfold random_randint at 1.
  rewrite decide_True by (unfold NUMBER_CYCLE_INTERVAL; lia).
  cbn [mbind result_bind]. eexists. split; [done|]. split; [by exists v|done].
Qed.

(** X14. [reset] fills the grid with [rows] by [cols] cells that each hold a
    number from 0 to 9, with no animation running; it sets the score to 0
    and shows the instructions, keeps the sizes and [paused], and takes two
    draws for each cell. *)
Theorem reset_fills_grid (st : NumberSmashGame) (rnd : RandomSource) :
  ∃ st',
    reset st rnd =
      Ok (st', after (rows (game st) * (cols (game st) * 2)) rnd) ∧
    wf (game st') ∧ numbered (game st') ∧
    rows (game st') = rows (game st) ∧ cols (game st') = cols (game st) ∧
    score (game st') = 0 ∧ show_instructions st' = true ∧
    paused st' = paused st ∧ cell_size st' = cell_size st ∧
    (∀ r c cell, cell_at (grid (game st')) r c = Some cell →
                 pop_anim cell = 0 ∧ shake_anim cell = 0).
Proof.
  unfold reset.
  destruct (list_comp_draws
    (fun row => length row = cols (game st) ∧
                Forall (fun cell => fresh_value (value cell) ∧
                                    pop_anim cell = 0 ∧ shake_anim cell = 0) row)
    (cols (game st) * 2) (rows (game st))
    (Crush.list_comp (cols (game st)) new_Cell) rnd)
    as (g & -> & Hlen & Hrows).
  { intros rnd0.
    destruct (list_comp_draws
      (fun cell => fresh_value (value cell) ∧
                   pop_anim cell = 0 ∧ shake_anim cell = 0)
      2 (cols (game st)) new_Cell rnd0 new_Cell_spec) as (row & -> & ? & ?).
    by exists row. }
  cbn [mbind result_bind]. eexists. split; [done|]. simpl.
  assert (∀ r c cell, cell_at g r c = Some cell →
            fresh_value (value cell) ∧ pop_anim cell = 0 ∧ shake_anim cell = 0)
    as Hcells.
  { intros r c cell Hcell. unfold cell_at in Hcell.
    destruct (g !! r) as [row|] eqn:Hrow; [|done]. simpl in Hcell.
    rewrite Forall_lookup in Hrows. destruct (Hrows r row Hrow) as [_ Hall].
    rewrite Forall_lookup in Hall. by apply (Hall c). }
  split.
  { split; [done|]. eapply Forall_impl; [exact Hrows|]. by intros row [? _]. }
  split.
  { intros r c Hr Hc. unfold value_of. cbn [game grid rows cols] in *.
    destruct (cell_at g r c) as [cell|] eqn:Hcell.
    - change (fresh_value (value cell)). apply (Hcells r c cell Hcell).
    - exfalso. assert (is_Some (cell_at g r c)) as [? ?]; [|congruence].
      apply (shape_cell_at g (rows (game st)) (cols (game st))); [|done..].
      split; [done|]. eapply Forall_impl; [exact Hrows|]. by intros row [? _]. }
  do 6 (split; [done|]). intros r c cell Hcell.
  by destruct (Hcells r c cell Hcell) as (_ & ? & ?).
Qed.

Lemma elem_of_survivors_column {V : Type} (rd : nat → option V) (n : nat) (t : V) :
  t ∈ survivors (column rd n) → ∃ r, (r < n)%nat ∧ rd r = Some t.
Proof.
  rewrite survivors_column. intros Hin.
  apply list_elem_of_omap in Hin as (r & Hr & Hrd).
  exists r. split; [|done]. apply elem_of_seq in Hr. lia.
Qed.

Lemma compacted_values {V : Type} (filler P : option V → Prop)
    (old new : list (option V)) :
  (∀ x, filler x → P x) → (∀ t, t ∈ survivors old → P (Some t)) →
  compacted filler old new → Forall P new.
Proof.
  intros Hfill Hsurv (Hlen & Hdrop & Htake).
  rewrite <- (take_drop (vacated old) new). apply Forall_app. split.
  - eapply Forall_impl; [exact Htake|done].
  - rewrite Hdrop. apply Forall_fmap, Forall_forall. intros t Ht. by apply Hsurv.
Qed.

Lemma vacated_fmap {A V : Type} (rd : A → option V) (l : list A) :
  vacated (rd <$> l) = sum_list_with (fun r => if rd r then 0 else 1)%nat l.
Proof.
  induction l as [|r l IH]; [done|]. rewrite fmap_cons. simpl.
  destruct (rd r) as [v|].
  - by rewrite vacated_cons_Some.
  - by rewrite vacated_cons_None, IH.
Qed.


(** X13. [smash_at] keeps the grid full.  On a grid whose cells all hold a
    number from 0 to 9 it returns without raising, and afterwards every cell
    holds such a number again.  When it returns [False] only animation
    timers have changed and no draw is taken; when it returns [True] it has
    taken exactly one draw for each cell of the group. *)
Theorem smash_keeps_grid_full (gm : Game) (r c : nat) (rnd : RandomSource) :
  wf gm → numbered gm → (r < rows gm)%nat → (c < cols gm)%nat →
  ∃ ok gm' rnd',
    smash_at gm (Z.of_nat r) (Z.of_nat c) rnd = Ok (ok, gm', rnd') ∧
    wf gm' ∧ numbered gm' ∧ rows gm' = rows gm ∧ cols gm' = cols gm ∧
    (ok = false →
       rnd' = rnd ∧ score gm' = score gm ∧
       ∀ r' c', value_of (grid gm') r' c' = value_of (grid gm) r' c') ∧
    (ok = true →
       ∃ group, flood_group gm (Z.of_nat r) (Z.of_nat c) = Ok group ∧
                (2 ≤ length group)%nat ∧ rnd' = after (length group) rnd).
Proof.
  intros Hwf Hnum Hr Hc.
  destruct (smash_cell_at gm r c Hwf Hr Hc) as (cell & Hcell & Hval).
  destruct (Hnum r c Hr Hc) as (v & Hv & Hvv).
  assert (value cell = Some v) as Hcv by congruence.
  assert (wf (shaken gm r c cell) ∧ numbered (shaken gm r c cell) ∧
          ∀ r' c', value_of (grid (shaken gm r c cell)) r' c'
                   = value_of (grid gm) r' c') as (Hwfs & Hnums & Hvals).
  { split; [by apply shape_grid_set|]. split.
    - intros r' c' Hr' Hc'. simpl. rewrite value_of_shaken by done.
      by apply Hnum.
    - intros r' c'. simpl. by apply value_of_shaken. }
  destruct (decide (v = 0 ∨ v = 1)) as [Hv01|Hnot]; cycle 1.
  { exists false, (shaken gm r c cell), rnd.
    rewrite (smash_at_not_smashable gm r c rnd cell Hcell)
      by (rewrite Hcv; intros [= ->]; lia).
    split; [done|]. split; [done|]. split; [done|]. do 2 (split; [done|]).
    split; [done|]. done. }
  destruct (flood_group_spec gm r c v Hwf Hr Hc Hvv)
    as (group & Hflood & Hnd & _ & Hmem).
  destruct (decide (length group < 2)%nat) as [Hsmall|Hbig].
  { exists false, (shaken gm r c cell), rnd.
    rewrite (smash_at_small gm r c rnd cell group Hcell)
      by (done || (rewrite Hcv; destruct Hv01 as [-> | ->]; tauto)).
    split; [done|]. split; [done|]. split; [done|]. do 2 (split; [done|]).
    split; [done|]. done. }
  destruct (smash_at_accepted gm r c rnd v group Hwf Hr Hc Hvv Hv01 Hflood)
    as (g & gm' & rnd' & Hclear & Hgrav & Hsmash); [lia|].
  assert (∀ x, x ∈ group → on_grid (rows gm) (cols gm) x) as Hon.
  { intros x Hx. apply Hmem in Hx.
    by destruct (region_has_value _ _ _ _ _ _ Hx). }
  destruct (smash_clear_group_spec (rows gm) (cols gm) group (grid gm) Hwf Hon)
    as (g2 & Hclear2 & Hshape & Hvalg).
  rewrite Hclear in Hclear2. injection Hclear2 as <-.
  destruct (smash_apply_gravity_spec (set_grid gm g) rnd Hshape)
    as (gm2 & rnd2 & Hgrav2 & Hwf2 & Hrows2 & Hcols2 & _ & _ & Hrnd & Hcols).
  rewrite Hgrav in Hgrav2. injection Hgrav2 as <- <-.
  simpl in Hrows2, Hcols2, Hcols, Hrnd.
  exists true. eexists _, _. split; [exact Hsmash|]. simpl.
  split.
  { unfold wf in *. simpl. by rewrite <- Hrows2, <- Hcols2. }
  split.
  { intros r' c' Hr' Hc'. simpl in *.
    assert (Forall fresh_value (game_column gm' c')) as Hall.
    { apply (compacted_values fresh_value fresh_value
               (game_column (set_grid gm g) c') _ (fun x H => H));
        [|by apply Hcols].
      intros t Ht. apply elem_of_survivors_column in Ht as (r0 & Hr0 & Ht).
      simpl in Ht. rewrite Hvalg in Ht. case_decide; [done|].
      rewrite <- Ht. by apply Hnum. }
    rewrite Forall_lookup in Hall. apply (Hall r').
    unfold game_column. rewrite Hrows2. by rewrite lookup_column. }
  do 2 (split; [done|]). split; [done|]. intros _.
  exists group. split; [done|]. split; [lia|].
  rewrite Hrnd. f_equal.
  rewrite <- (count_on_grid (rows gm) (cols gm) group Hnd Hon).
  apply sum_list_with_same. intros c' Hc'. apply elem_of_range in Hc'.
  unfold game_column, column. simpl. rewrite vacated_fmap.
  apply sum_list_with_same. intros r' Hr'. apply elem_of_seq in Hr'.
  rewrite Hvalg. case_decide; [done|].
  by destruct (Hnum r' c') as (? & _ & ->); [lia|done|].
Qed.

(** X17. [screen_to_grid] is the inverse of [grid_to_screen].  With a cell
    size that is not negative it never divides by zero, and it returns
    [(r, c)] exactly for the pixels of the square of the cell [(r, c)] of
    the grid, the line along its right and bottom edge included; the
    padding and everything off the grid give [None], so that what it
    returns is always a cell of the grid. *)
Theorem screen_to_grid_exact (st : NumberSmashGame) (mx my r c : Z) :
  0 ≤ cell_size st →
  screen_to_grid st mx my ≠ ZeroDivisionError ∧
  (screen_to_grid st mx my = Num (Some (r, c)) ↔
   on_grid (rows (game st)) (cols (game st)) (r, c) ∧ on_square st r c mx my) ∧
  (on_grid (rows (game st)) (cols (game st)) (r, c) →
   screen_to_grid st (grid_to_screen st r c).1 (grid_to_screen st r c).2
     = Num (Some (r, c))).
Proof.
  intros Hcs.
  assert (screen_to_grid st mx my ≠ ZeroDivisionError) as Hnz.
  { unfold screen_to_grid, GRID_PADDING. repeat case_decide; (done || lia). }
  assert (∀ mx my r c,
    screen_to_grid st mx my = Num (Some (r, c)) ↔
    on_grid (rows (game st)) (cols (game st)) (r, c) ∧ on_square st r c mx my)
    as Hexact.
  { clear mx my r c Hnz. intros mx my r c.
    unfold screen_to_grid, on_square, grid_to_screen, on_grid. cbn [fst snd].
    set (w := cell_size st + GRID_PADDING).
    set (px := mx - grid_x). set (py := my - grid_y).
    assert (cell_size st < w ∧ 0 < w) as [Hlt Hw]
      by (unfold w, GRID_PADDING; lia).
    pose proof (Z.div_mod px w) as Hdx. pose proof (Z.mod_pos_bound px w Hw) as Hmx.
    pose proof (Z.div_mod py w) as Hdy. pose proof (Z.mod_pos_bound py w Hw) as Hmy.
    split.
    - repeat case_decide; try done. intros [= <- <-].
      split; [done|]. unfold px, py in *. lia.
    - intros [[Hr Hc] [Hx Hy]].
      assert (px `div` w = c) as Hqc.
      { symmetry. apply (Z.div_unique px w c (px - w * c)); [left|]; unfold px; nia. }
      assert (py `div` w = r) as Hqr.
      { symmetry. apply (Z.div_unique py w r (py - w * r)); [left|]; unfold py; nia. }
      rewrite decide_False by (unfold px, py; nia).
      rewrite decide_False by lia.
      rewrite Hqc, Hqr. rewrite decide_True by done.
      rewrite decide_True; [done|].
      rewrite Hqc in Hdx. rewrite Hqr in Hdy. unfold px, py in *. lia. }
  split; [done|]. split; [apply Hexact|].
  intros Hrc. apply Hexact. split; [done|].
  unfold on_square, grid_to_screen. simpl. lia.
Qed.

(** X18. a click never raises and keeps the grid full.  While the
    instructions are shown a click only dismisses them, when it falls
    inside their box, and never smashes.  Otherwise a click on a cell calls
    [smash_at] for it, which returns, and a click beside the cells changes
    nothing; the cell that [screen_to_grid] returns is always on the grid. *)
Theorem smash_click (st : NumberSmashGame) (mx my : Z) (rnd : RandomSource) :
  wf (game st) → numbered (game st) → 0 ≤ cell_size st →
  (show_instructions st = true →
   80 ≤ screen_width st → 160 ≤ screen_height st →
   handle_click st (mx, my) rnd =
     Num (Ok (mkNumberSmashGame (game st) (cell_size st) (paused st)
                (negb (bool_decide (40 ≤ mx < screen_width st - 40 ∧
                                    60 ≤ my < screen_height st - 100))), rnd))) ∧
  (show_instructions st = false →
   ∃ st' rnd',
     handle_click st (mx, my) rnd = Num (Ok (st', rnd')) ∧
     wf (game st') ∧ numbered (game st') ∧
     cell_size st' = cell_size st ∧ paused st' = paused st ∧
     show_instructions st' = false ∧
     match screen_to_grid st mx my with
     | Num (Some (r, c)) =>
         on_grid (rows (game st)) (cols (game st)) (r, c) ∧
         ∃ ok, smash_at (game st) r c rnd = Ok (ok, game st', rnd')
     | _ => st' = st ∧ rnd' = rnd
     end).
Proof.
  intros Hwf Hnum Hcs. unfold handle_click. split.
  - intros Hshow Hw Hh. rewrite Hshow. unfold collidepoint.
    destruct (decide (40 ≤ mx < screen_width st - 40 ∧
                      60 ≤ my < screen_height st - 100)) as [Hin|Hout].
    + rewrite !bool_decide_eq_true_2 by lia. done.
    + rewrite !bool_decide_eq_false_2 by lia.
      destruct st as [? ? ? ?]. simpl in *. by subst.
  - intros Hshow. rewrite Hshow.
    destruct (screen_to_grid_exact st mx my 0 0 Hcs) as (Hnz & _ & _).
    destruct (screen_to_grid st mx my) as [[[r c]|]|] eqn:Hpx; [| |done].
    + destruct (screen_to_grid_exact st mx my r c Hcs) as (_ & Hexact & _).
      apply Hexact in Hpx as [Hon _].
      destruct (on_grid_coord_of _ _ _ Hon) as (n & m & [= -> ->] & Hn & Hm).
      destruct (smash_keeps_grid_full (game st) n m rnd Hwf Hnum Hn Hm)
        as (ok & gm' & rnd' & Hsm & Hwf' & Hnum' & _).
      rewrite Hsm. cbn [mbind result_bind]. eexists _, _. split; [done|].
      simpl. do 5 (split; [done|]). split; [done|]. by exists ok.
    + exists st, rnd. done.
Qed.

(** *** The theorems at concrete games *)

Lemma numbered_five_ones : numbered Examples.five_ones.
Proof.
  intros r c Hr Hc.
  do 3 (destruct r as [|r];
        [do 3 (destruct c as [|c];
               [eexists; split; [|reflexivity]; lia|]); simpl in Hc; lia|]).
  simpl in Hr. lia.
Defined.

Lemma smash_keeps_grid_full_witness :
  wf Examples.five_ones ∧ numbered Examples.five_ones ∧
  (0 < rows Examples.five_ones)%nat ∧ (0 < cols Examples.five_ones)%nat ∧
  ∃ gm',
    smash_at Examples.five_ones 0 0 Examples.some_draws
      = Ok (true, gm', after 5 Examples.some_draws) ∧
    numbered gm' ∧
    game_column gm' 0 = [Some 4; Some 3; Some 2] ∧
    game_column gm' 1 = [Some 6; Some 5; Some 0] ∧
    game_column gm' 2 = [Some 5; Some 5; Some 1].
Proof.
  assert (wf Examples.five_ones) as Hwf by concrete_shape.
  split; [exact Hwf|]. split; [exact numbered_five_ones|].
  split; [simpl; lia|]. split; [simpl; lia|].
  destruct (smash_keeps_grid_full Examples.five_ones 0 0 Examples.some_draws
              Hwf numbered_five_ones)
    as (ok & gm' & rnd' & Hrun & _ & Hnum' & _ & _ & _ & Htrue);
    [simpl; lia|simpl; lia|].
  assert (ok = true) as ->.
  { vm_compute in Hrun. by injection Hrun as <- _ _. }
  destruct (Htrue eq_refl) as (group & Hflood & _ & ->).
  assert (length group = 5%nat) as Hlen.
  { vm_compute in Hflood. by injection Hflood as <-. }
  rewrite Hlen in Hrun. exists gm'. split; [exact Hrun|]. split; [exact Hnum'|].
  vm_compute in Hrun. injection Hrun as <-.
  split; [vm_compute; reflexivity|]. split; vm_compute; reflexivity.
Defined.

Lemma screen_to_grid_exact_witness :
  0 ≤ cell_size Examples.smash_ui ∧
  on_grid (rows (game Examples.smash_ui)) (cols (game Examples.smash_ui)) (1, 2) ∧
  on_square Examples.smash_ui 1 2 216 192 ∧
  screen_to_grid Examples.smash_ui 216 192 = Num (Some (1, 2)) ∧
  screen_to_grid Examples.smash_ui 217 192 = Num None ∧
  grid_to_screen Examples.smash_ui 1 2 = (152, 192) ∧
  screen_to_grid Examples.smash_ui 152 192 = Num (Some (1, 2)).
Proof.
  assert (0 ≤ cell_size Examples.smash_ui) as Hcs by (vm_compute; congruence).
  assert (on_grid (rows (game Examples.smash_ui)) (cols (game Examples.smash_ui))
            (1, 2)) as Hon by (vm_compute; repeat split; congruence).
  assert (on_square Examples.smash_ui 1 2 216 192) as Hsq
    by (vm_compute; repeat split; congruence).
  split; [exact Hcs|]. split; [exact Hon|]. split; [exact Hsq|].
  destruct (screen_to_grid_exact Examples.smash_ui 216 192 1 2 Hcs)
    as (_ & Hexact & Hround).
  split; [by apply Hexact|]. split; [vm_compute; reflexivity|].
  split; [reflexivity|]. by apply Hround.
Defined.

Lemma smash_click_witness :
  wf (game Examples.smash_ui) ∧ numbered (game Examples.smash_ui) ∧
  0 ≤ cell_size Examples.smash_ui ∧
  screen_to_grid Examples.smash_ui 10 130 = Num (Some (0, 0)) ∧
  ∃ st' rnd',
    handle_click Examples.smash_ui (10, 130) Examples.some_draws
      = Num (Ok (st', rnd')) ∧
    numbered (game st') ∧
    smash_at Examples.five_ones 0 0 Examples.some_draws = Ok (true, game st', rnd').
Proof.
  assert (wf (game Examples.smash_ui)) as Hwf by concrete_shape.
  assert (0 ≤ cell_size Examples.smash_ui) as Hcs by (vm_compute; congruence).
  assert (screen_to_grid Examples.smash_ui 10 130 = Num (Some (0, 0))) as Hpx
    by (vm_compute; reflexivity).
  split; [exact Hwf|]. split; [exact numbered_five_ones|]. split; [exact Hcs|].
  split; [exact Hpx|].
  destruct (smash_click Examples.smash_ui 10 130 Examples.some_draws Hwf
              numbered_five_ones Hcs) as [_ Hplay].
  destruct (Hplay eq_refl) as (st' & rnd' & Hrun & _ & Hnum' & _ & _ & _ & Hcell).
  rewrite Hpx in Hcell. destruct Hcell as [_ [ok Hsm]].
  exists st', rnd'. split; [exact Hrun|]. split; [exact Hnum'|].
  assert (ok = true) as <-; [|exact Hsm].
  vm_compute in Hsm. by injection Hsm as <- _ _.
Defined.

End SmashPlay.

(** ** cute_number_crush: the board at its edges *)

Section CrushEdges.
Import Crush CrushSpec Examples.

(** A loop whose turns either succeed or raise [e]. *)
Lemma for_each_cases {A S : Type} (Q : A → Prop) (e : exn) (xs : list A)
    (body : A → S → result S) (s : S) :
  (∀ x s, x ∈ xs → body x s = Raise e ∨ ∃ s', body x s = Ok s' ∧ Q x) →
  for_each xs body s = Raise e ∨
  ∃ s', for_each xs body s = Ok s' ∧ ∀ x, x ∈ xs → Q x.
Proof.
  revert s. induction xs as [|x xs IH]; intros s Hbody.
  - right. exists s. split; [done|]. intros x Hx. by inversion Hx.
  - cbn [for_each].
    destruct (Hbody x s) as [->|(s1 & -> & HQ)]; [left|by left|].
    cbn [mbind result_bind].
    destruct (IH s1) as [->|(s2 & -> & HQs)].
    + intros y s0 Hy. apply Hbody. by right.
    + by left.
    + right. exists s2. split; [done|].
      intros y Hy. apply elem_of_cons in Hy as [->|Hy]; [done|by apply HQs].
Qed.

(** The inner loop of a scan on a line whose cells are read or raise [e]. *)
Lemma run_end_cases (ty : nat → result Z) (e : exn) (bound : nat) (t : Z)
    (k c : nat) :
  (∀ i, (i < bound)%nat → ty i = Raise e ∨ ∃ v, ty i = Ok v) →
  (c + k ≤ bound)%nat →
  run_end ty t c k = Raise e ∨
  ∃ c', run_end ty t c k = Ok c' ∧ (c ≤ c' ≤ c + k)%nat ∧
        ∀ j, (c ≤ j < c')%nat → ∃ v, ty j = Ok v.
Proof.
  intros Hty. revert c. induction k as [|k IH]; intros c Hck.
  - right. exists c. split; [done|]. split; [lia|]. intros j Hj. lia.
  - cbn [run_end]. destruct (Hty c) as [->|[v Hv]]; [lia|by left|].
    rewrite Hv. cbn [mbind result_bind]. case_decide as Heq.
    + destruct (IH (S c)) as [->|(c' & -> & Hc' & Hall)]; [lia|by left|].
      right. exists c'. split; [done|]. split; [lia|].
      intros j Hj. destruct (decide (j = c)) as [->|Hne]; [by exists v|].
      apply Hall. lia.
    + right. exists c. split; [done|]. split; [lia|]. intros j Hj. lia.
Qed.

(** The scan of such a line raises [e] unless every cell from [c] on can
    be read. *)
Lemma scan_line_cases (ty : nat → result Z) (coord : nat → Z * Z) (e : exn)
    (bound fuel c : nat) (acc : gset (Z * Z)) :
  (∀ i, (i < bound)%nat → ty i = Raise e ∨ ∃ v, ty i = Ok v) →
  (bound - c ≤ fuel)%nat →
  scan_line ty coord bound fuel c acc = Raise e ∨
  ∃ S, scan_line ty coord bound fuel c acc = Ok S ∧
       ∀ j, (c ≤ j < bound)%nat → ∃ v, ty j = Ok v.
Proof.
  intros Hty. revert c acc. induction fuel as [|fuel IH]; intros c acc Hfuel.
  - right. exists acc. cbn [scan_line]. rewrite decide_False by lia.
    split; [done|]. intros j Hj. lia.
  - cbn [scan_line]. case_decide as Hc.
    2:{ right. exists acc. split; [done|]. intros j Hj. lia. }
    destruct (Hty c Hc) as [->|[v Hv]]; [by left|].
    rewrite Hv. cbn [mbind result_bind].
    destruct (run_end_cases ty e bound v (bound - S c) (S c) Hty)
      as [->|(c' & -> & Hc' & Hall)]; [lia|by left|].
    cbn [mbind result_bind].
    match goal with
    | |- scan_line _ _ _ _ _ ?a = _ ∨ _ =>
        destruct (IH c' a) as [->|(S & -> & Hrest)]; [lia|by left|]
    end.
    right. exists S. split; [done|]. intros j Hj.
    destruct (decide (j = c)) as [->|Hne]; [by exists v|].
    destruct (decide (j < c')%nat); [apply Hall; lia|apply Hrest; lia].
Qed.

(** Reading the type of a cell of the board. *)
Lemma type_at_cases (b : Board) (r c : nat) :
  wf b → (r < rows b)%nat → (c < cols b)%nat →
  (cell_at (grid b) r c = Some None ∧
   type_at b (Z.of_nat r) (Z.of_nat c) = Raise AttributeError) ∨
  ∃ t, cell_at (grid b) r c = Some (Some t) ∧
       type_at b (Z.of_nat r) (Z.of_nat c) = Ok (type t).
Proof.
  intros Hwf Hr Hc.
  destruct (shape_cell_at _ _ _ r c Hwf Hr Hc) as [x Hx].
  unfold type_at. rewrite (getitem2_nat _ _ _ _ Hx).
  destruct x as [t|]; [right; by exists t|by left].
Qed.

Lemma full_by_cells (b : Board) :
  wf b →
  (∀ r c, (r < rows b)%nat → (c < cols b)%nat →
          ∃ t, cell_at (grid b) r c = Some (Some t)) →
  full b.
Proof.
  intros [Hlen Hrows] Hcells. unfold full.
  apply Forall_lookup. intros r row Hrow. apply Forall_lookup. intros c x Hx.
  assert (r < rows b)%nat as Hr.
  { rewrite <- Hlen. by eapply lookup_lt_Some. }
  assert (c < cols b)%nat as Hc.
  { rewrite Forall_lookup in Hrows. rewrite <- (Hrows _ _ Hrow).
    by eapply lookup_lt_Some. }
  destruct (Hcells r c Hr Hc) as [t Ht].
  unfold cell_at in Ht. rewrite Hrow in Ht. simpl in Ht.
  rewrite Hx in Ht. simplify_eq. by eexists.
Qed.

Lemma find_matches_hole (b : Board) :
  wf b → ¬ full b → find_matches b = Raise AttributeError.
Proof.
  intros Hwf Hhole. unfold find_matches.
  destruct (for_each_cases
    (fun r => ∀ c, (c < cols b)%nat →
              ∃ v, type_at b (Z.of_nat r) (Z.of_nat c) = Ok v)
    AttributeError (range (rows b))
    (fun r to_remove =>
       scan_line (fun c => type_at b (Z.of_nat r) (Z.of_nat c))
         (fun c => (Z.of_nat r, Z.of_nat c)) (cols b) (cols b) 0%nat to_remove)
    ∅) as [->|(S & _ & Hall)]; [|done|].
  - intros r S Hr. apply elem_of_range in Hr.
    destruct (scan_line_cases (fun c => type_at b (Z.of_nat r) (Z.of_nat c))
                (fun c => (Z.of_nat r, Z.of_nat c)) AttributeError
                (cols b) (cols b) 0 S) as [->|(S' & -> & Hrow)]; [|lia|by left|].
    + intros c Hc.
      destruct (type_at_cases b r c Hwf Hr Hc) as [[_ ->]|(t & _ & ->)];
        [by left|right; by eexists].
    + right. exists S'. split; [done|]. intros c Hc. apply Hrow. lia.
  - exfalso. apply Hhole. apply full_by_cells; [done|].
    intros r c Hr Hc.
    destruct (Hall r) with (c := c) as [v Hv]; [by apply elem_of_range|done|].
    destruct (type_at_cases b r c Hwf Hr Hc) as [[_ Hraise]|(t & Ht & _)];
      [congruence|by exists t].
Qed.

(** X19. On a well-formed board with an empty cell, [Board.find_matches] does
    not skip the cell: reading its [.type] raises AttributeError, whatever
    else is on the board, and [find_matches] raises AttributeError on no
    other well-formed board.  The two loops that scan the board,
    [resolve_all_matches_initial] and [find_and_resolve_matches], raise it
    with their first scan. *)
Theorem scan_needs_tiles (gm : Game) :
  wf (board gm) →
  (find_matches (board gm) = Raise AttributeError ↔ ¬ full (board gm)) ∧
  (¬ full (board gm) → ∀ fuel rnd,
     resolve_all_matches_initial (S fuel) (board gm) rnd = Raise AttributeError ∧
     find_and_resolve_matches (S fuel) gm rnd = Raise AttributeError).
Proof.
  intros Hwf. split; [split|].
  - intros Hraise Hfull.
    destruct (find_matches_spec _ Hwf Hfull) as (S & HS & _). congruence.
  - by apply find_matches_hole.
  - intros Hhole fuel rnd.
    pose proof (find_matches_hole _ Hwf Hhole) as Hraise.
    unfold find_and_resolve_matches.
    cbn [resolve_all_matches_initial resolve_loop]. by rewrite Hraise.
Qed.

Lemma scan_needs_tiles_witness :
  wf marked ∧ ¬ full marked ∧
  find_matches marked = Raise AttributeError ∧
  find_and_resolve_matches 1 (mkGame marked None false None 0 0) zeros =
    Raise AttributeError.
Proof.
  assert (wf marked) as Hwf by concrete_shape.
  assert (¬ full marked) as Hhole.
  { intros Hfull. apply Forall_cons in Hfull as [Hrow _].
    apply Forall_cons in Hrow as [[t Ht] _]. done. }
  destruct (scan_needs_tiles (mkGame marked None false None 0 0) Hwf)
    as [Hiff Hloops].
  split; [done|]. split; [done|]. split; [by apply Hiff|].
  by apply Hloops.
Defined.

(** X20. On a well-formed board whose cells all hold a tile, the check of one
    cell and the scan of the board agree: [_is_match_at] answers [True] at
    a cell of the board exactly when [find_matches] lists the cell. *)
Theorem is_match_at_agrees (b : Board) (r c : nat) :
  wf b → full b → (r < rows b)%nat → (c < cols b)%nat →
  ∃ S, find_matches b = Ok S ∧
       _is_match_at b r c = Ok (bool_decide (coord_of r c ∈ S)).
Proof.
  intros Hwf Hfull Hr Hc.
  destruct (find_matches_spec b Hwf Hfull) as (S & HS & Hmem).
  destruct (_is_match_at_spec b r c Hwf Hfull Hr Hc) as (m & Hm & Hiff).
  exists S. split; [done|]. rewrite Hm. f_equal.
  assert (matched b r c ↔ coord_of r c ∈ S) as Hin.
  { rewrite Hmem. split.
    - intros Hmt. by exists r, c.
    - intros (r' & c' & Heq & Hmt). apply coord_of_inj in Heq as [-> ->]. done. }
  destruct m.
  - symmetry. apply bool_decide_eq_true. apply Hin, Hiff. done.
  - symmetry. apply bool_decide_eq_false. intros Hx.
    apply Hin, Hiff in Hx. done.
Qed.

Lemma is_match_at_agrees_witness :
  wf crossing ∧ full crossing ∧
  ∃ S, find_matches crossing = Ok S ∧
       _is_match_at crossing 1 1 = Ok (bool_decide (coord_of 1 1 ∈ S)).
Proof.
  assert (wf crossing) as Hwf by concrete_shape.
  assert (full crossing) as Hfull by concrete_full.
  split; [done|]. split; [done|].
  apply (is_match_at_agrees crossing 1 1 Hwf Hfull); simpl; lia.
Defined.

(** [Board.get] on a well-formed board: it never raises, and it answers
    [None] at every coordinate off the board. *)
Lemma get_cases (b : Board) (r c : Z) :
  wf b →
  (∃ r' c' x, r = Z.of_nat r' ∧ c = Z.of_nat c' ∧ (r' < rows b)%nat ∧
              (c' < cols b)%nat ∧ cell_at (grid b) r' c' = Some x ∧
              get b r c = Ok x) ∨
  (¬ on_grid (rows b) (cols b) (r, c) ∧ get b r c = Ok None).
Proof.
  intros Hwf.
  destruct (decide (0 ≤ r < Z.of_nat (rows b) ∧ 0 ≤ c < Z.of_nat (cols b)))
    as [[Hr Hc]|Hoff].
  - left. exists (Z.to_nat r), (Z.to_nat c).
    destruct (shape_cell_at _ _ _ (Z.to_nat r) (Z.to_nat c) Hwf) as [x Hx];
      [lia|lia|].
    exists x. split; [lia|]. split; [lia|]. split; [lia|]. split; [lia|].
    split; [done|].
    rewrite <- (Z2Nat.id r), <- (Z2Nat.id c) by lia.
    apply get_in_bounds; [lia|lia|done].
  - right. split; [done|]. by apply get_out_of_bounds.
Qed.

(** X21. [Board.swap] of two cells of a well-formed board succeeds and keeps
    the board well-formed.  Read back with [Board.get], each of the two
    cells holds what the other held, every other coordinate, on the board
    or off it, reads as before, and no read raises.  A second swap of the
    same two cells gives the first board back. *)
Theorem swap_exchanges (b : Board) (r1 c1 r2 c2 : nat) :
  wf b → (r1 < rows b)%nat → (c1 < cols b)%nat →
  (r2 < rows b)%nat → (c2 < cols b)%nat →
  ∃ b1, swap b (Z.of_nat r1) (Z.of_nat c1) (Z.of_nat r2) (Z.of_nat c2) = Ok b1 ∧
        wf b1 ∧ same_dims b b1 ∧
        get b1 (Z.of_nat r1) (Z.of_nat c1) = get b (Z.of_nat r2) (Z.of_nat c2) ∧
        get b1 (Z.of_nat r2) (Z.of_nat c2) = get b (Z.of_nat r1) (Z.of_nat c1) ∧
        (∀ r c, (r, c) ≠ coord_of r1 c1 → (r, c) ≠ coord_of r2 c2 →
                get b1 r c = get b r c) ∧
        (∀ r c, ∃ x, get b1 r c = Ok x) ∧
        swap b1 (Z.of_nat r1) (Z.of_nat c1) (Z.of_nat r2) (Z.of_nat c2) = Ok b.
Proof.
  intros Hwf Hr1 Hc1 Hr2 Hc2.
  destruct (shape_cell_at _ _ _ r1 c1 Hwf Hr1 Hc1) as [x1 H1].
  destruct (shape_cell_at _ _ _ r2 c2 Hwf Hr2 Hc2) as [x2 H2].
  pose proof (swap_spec b r1 c1 r2 c2 x1 x2 H1 H2) as Hswap.
  destruct (swap_swap b _ r1 c1 r2 c2 Hwf Hr1 Hc1 Hr2 Hc2 Hswap)
    as (Hwf1 & [Hrows Hcols] & Hback).
  set (g1 := grid_set (grid_set (grid b) r1 c1 x2) r2 c2 x1) in *.
  assert (∀ r c, cell_at g1 r c =
            if decide (r = r2 ∧ c = c2) then Some x1
            else if decide (r = r1 ∧ c = c1) then Some x2
            else cell_at (grid b) r c) as Hg1.
  { intros r c. unfold g1. rewrite cell_at_grid_set.
    - case_decide; [done|]. by rewrite cell_at_grid_set by (by eexists).
    - rewrite cell_at_grid_set by (by eexists). case_decide; by eexists. }
  exists (set_grid b g1). split; [done|]. split; [done|]. split; [done|].
  rewrite (get_in_bounds b r1 c1 x1), (get_in_bounds b r2 c2 x2) by done.
  split; [|split; [|split; [|split; [|done]]]].
  - apply get_in_bounds; [done|done|]. cbn [grid set_grid]. rewrite Hg1.
    case_decide as Hsame; [|by rewrite decide_True].
    destruct Hsame as [-> ->]. congruence.
  - apply get_in_bounds; [done|done|]. cbn [grid set_grid]. rewrite Hg1.
    by rewrite decide_True.
  - intros r c Hne1 Hne2.
    destruct (get_cases b r c Hwf)
      as [(r' & c' & x & -> & -> & Hr & Hc & Hx & ->)|[Hoff ->]].
    + apply get_in_bounds; [done|done|]. cbn [grid set_grid]. rewrite Hg1.
      rewrite decide_False, decide_False; [done| |].
      * intros [-> ->]. by apply Hne1.
      * intros [-> ->]. by apply Hne2.
    + by apply get_out_of_bounds.
  - intros r c.
    destruct (get_cases (set_grid b g1) r c Hwf1)
      as [(r' & c' & x & _ & _ & _ & _ & _ & ->)|[_ ->]]; by eexists.
Qed.

Lemma swap_exchanges_witness :
  wf crossing ∧
  ∃ b1, swap crossing 0 3 1 2 = Ok b1 ∧
        get b1 0 3 = Ok (Some (new_Tile 4)) ∧
        get b1 1 2 = Ok (Some (new_Tile 2)) ∧
        get b1 3 0 = Ok None ∧
        swap b1 0 3 1 2 = Ok crossing.
Proof.
  assert (wf crossing) as Hwf by concrete_shape.
  split; [done|].
  destruct (swap_exchanges crossing 0 3 1 2 Hwf)
    as (b1 & Hswap & _ & _ & Ha & Hb & Hrest & _ & Hback);
    [simpl; lia..|].
  exists b1. split; [exact Hswap|]. split; [|split; [|split]].
  - change (get b1 (Z.of_nat 0) (Z.of_nat 3) = Ok (Some (new_Tile 4))).
    rewrite Ha. vm_compute. reflexivity.
  - change (get b1 (Z.of_nat 1) (Z.of_nat 2) = Ok (Some (new_Tile 2))).
    rewrite Hb. vm_compute. reflexivity.
  - rewrite Hrest; [vm_compute; reflexivity|done|done].
  - exact Hback.
Defined.

Lemma chain_score_lower (chain : Z) (ns : list Z) :
  0 ≤ chain → Forall (fun n => 3 ≤ n) ns →
  BASE_SCORE_PER_TILE * total ns ≤ chain_score chain ns.
Proof.
  intros Hchain Hall. revert chain Hchain.
  induction Hall as [|n ns Hn _ IH]; intros chain Hchain.
  - unfold total, chain_score. simpl. unfold BASE_SCORE_PER_TILE. lia.
  - rewrite chain_score_cons. specialize (IH (chain + 1) ltac:(lia)).
    unfold total in *. simpl. unfold BASE_SCORE_PER_TILE in *. nia.
Qed.

Lemma total_lower (ns : list Z) :
  Forall (fun n => 3 ≤ n) ns → 3 * Z.of_nat (length ns) ≤ total ns.
Proof.
  induction 1 as [|n ns Hn _ IH]; [done|].
  unfold total in *. simpl length. simpl foldr. lia.
Qed.

(** X22. What the value returned by [find_and_resolve_matches] tells its
    caller, on a well-formed board whose cells all hold a tile.  It is 0
    exactly when the first scan found no match, and then the game and the
    random source are left as they were.  Otherwise it is at least 3, the
    score grew by at least [BASE_SCORE_PER_TILE] for each removed tile, and
    the board is again well-formed with a tile in every cell. *)
Theorem resolve_total (fuel : nat) (gm gm' : Game) (rnd rnd' : RandomSource)
    (tot : Z) :
  wf (board gm) → full (board gm) →
  find_and_resolve_matches fuel gm rnd = Ok (tot, gm', rnd') →
  (tot = 0 ↔ find_matches (board gm) = Ok ∅) ∧
  (tot = 0 → gm' = gm ∧ rnd' = rnd) ∧
  (tot ≠ 0 → 3 ≤ tot ∧ score gm + BASE_SCORE_PER_TILE * tot ≤ score gm') ∧
  wf (board gm') ∧ full (board gm').
Proof.
  intros Hwf Hfull Hrun.
  destruct (find_and_resolve_matches_safe fuel gm rnd Hwf Hfull)
    as [Hout|(ns & gm1 & rnd1 & Hrun1 & Hcas & Hgm1)]; [congruence|].
  rewrite Hrun in Hrun1. injection Hrun1 as -> -> ->. clear Hrun.
  pose proof (cascade_removed_pos _ _ _ _ _ Hwf Hfull Hcas) as Hall.
  pose proof (total_lower ns Hall) as Hlow.
  pose proof (chain_score_lower 0 ns ltac:(lia) Hall) as Hsc.
  destruct (cascade_wf _ _ _ _ _ Hwf Hfull Hcas) as (Hwf' & Hfull' & _).
  assert (total ns = 0 ↔ ns = []) as Hzero.
  { split; [|by intros ->]. intros Htot. destruct ns; [done|].
    rewrite Htot in Hlow. simpl length in Hlow. lia. }
  split; [|split; [|split; [|done]]].
  - rewrite Hzero. split.
    + intros ->. by inversion Hcas.
    + intros Hst. inversion Hcas; [done|congruence].
  - rewrite Hzero. intros ->.
    assert (board gm1 = board gm ∧ rnd1 = rnd) as [Hb ->] by (by inversion Hcas).
    split; [|done]. rewrite Hgm1, Hb. destruct gm. unfold chain_score.
    simpl. f_equal. lia.
  - intros Hne. split.
    + destruct ns; [done|]. simpl length in Hlow. lia.
    + rewrite Hgm1. simpl. lia.
Qed.

Lemma resolve_total_witness :
  wf (board two_steps) ∧ full (board two_steps) ∧
  ∃ gm' rnd',
    find_and_resolve_matches 3 two_steps two_steps_draws = Ok (7, gm', rnd') ∧
    score two_steps + BASE_SCORE_PER_TILE * 7 ≤ score gm' ∧
    find_matches (board two_steps) ≠ Ok ∅.
Proof.
  assert (wf (board two_steps)) as Hwf by concrete_shape.
  assert (full (board two_steps)) as Hfull by concrete_full.
  split; [done|]. split; [done|]. eexists _, _.
  assert (find_and_resolve_matches 3 two_steps two_steps_draws = Ok (7, _, _))
    as Hrun by (vm_compute; reflexivity).
  split; [exact Hrun|].
  destruct (resolve_total 3 two_steps _ two_steps_draws _ 7 Hwf Hfull Hrun)
    as (Hiff & _ & Hpos & _).
  split; [by apply Hpos|]. intros Hst. by apply Hiff in Hst.
Defined.

(** [resolve_all_matches_initial] runs a cascade. *)
Lemma initial_cascade (fuel : nat) (b b' : Board) (rnd rnd' : RandomSource)
    (ns : list Z) :
  cascade b rnd ns b' rnd' → (length ns < fuel)%nat →
  resolve_all_matches_initial fuel b rnd = Ok (b', rnd').
Proof.
  intros Hcas. revert fuel.
  induction Hcas as [b rnd Hm|b rnd matches b1 removed rnd1 ns b' rnd' Hm Hne Hrc _ IH];
    intros fuel Hfuel.
  - destruct fuel as [|fuel]; [simpl in Hfuel; lia|].
    simpl. rewrite Hm. simpl. by rewrite decide_True.
  - destruct fuel as [|fuel]; [simpl in Hfuel; lia|].
    simpl. rewrite Hm. simpl. rewrite decide_False by done.
    rewrite Hrc. simpl. apply IH. simpl in Hfuel. lia.
Qed.

Lemma cascade_initial (fuel : nat) (b b' : Board) (rnd rnd' : RandomSource) :
  resolve_all_matches_initial fuel b rnd = Ok (b', rnd') →
  ∃ ns, (length ns < fuel)%nat ∧ cascade b rnd ns b' rnd'.
Proof.
  revert b rnd. induction fuel as [|fuel IH]; intros b rnd Hrun; [done|].
  simpl in Hrun. apply bind_Ok in Hrun as (matches & Hm & Hrun).
  case_decide as Hempty.
  - simplify_eq. exists []. split; [simpl; lia|]. by constructor.
  - apply bind_Ok in Hrun as ([[b1 removed] rnd1] & Hrc & Hrun).
    apply IH in Hrun as (ns & Hlen & Hcas).
    exists (removed :: ns). split; [simpl; lia|]. by econstructor.
Qed.

(** X23. [resolve_all_matches_initial] is the loop of [find_and_resolve_matches]
    without the score: started on the same board with the same draws, one
    returns exactly when the other does, with the same board and the same
    draws left; [find_and_resolve_matches] changes the score and no other
    field of the game beside the board. *)
Theorem initial_resolution_is_cascade (fuel : nat) (gm : Game) (b' : Board)
    (rnd rnd' : RandomSource) :
  resolve_all_matches_initial fuel (board gm) rnd = Ok (b', rnd') ↔
  ∃ tot sc,
    find_and_resolve_matches fuel gm rnd =
      Ok (tot, mkGame b' (selected gm) (animating gm) (swap_animation gm) sc
                 (combo gm), rnd').
Proof.
  unfold find_and_resolve_matches. split.
  - intros Hrun. apply cascade_initial in Hrun as (ns & Hlen & Hcas).
    rewrite (cascade_resolve_loop fuel _ _ (score gm) 0 0 _ _ ns Hcas Hlen).
    by eexists _, _.
  - intros (tot & sc & Hrun).
    apply bind_Ok in Hrun as ([[[tot1 b1] sc1] rnd1] & Hloop & Hrun).
    simplify_eq.
    apply resolve_loop_cascade in Hloop as (ns & Hlen & Hcas & _).
    by eapply initial_cascade.
Qed.

(** X24. [clamp], which both cute_number_crush and number_smash define the same
    way: between ordered bounds the result lies within them, a value
    already inside is returned as it is, one below or above is replaced by
    the nearer bound, and clamping twice changes nothing more; when the
    bounds are given in the wrong order the lower one, [a], is returned
    whatever the value. *)
Theorem clamp_range (x a b : Z) :
  Smash.clamp x a b = Crush.clamp x a b ∧
  (a ≤ b →
     a ≤ Crush.clamp x a b ≤ b ∧
     (a ≤ x ≤ b → Crush.clamp x a b = x) ∧
     (x ≤ a → Crush.clamp x a b = a) ∧
     (b ≤ x → Crush.clamp x a b = b) ∧
     Crush.clamp (Crush.clamp x a b) a b = Crush.clamp x a b) ∧
  (b < a → Crush.clamp x a b = a).
Proof. unfold Smash.clamp, Crush.clamp. lia. Qed.

Lemma clamp_range_witness :
  Smash.clamp 12 0 9 = Crush.clamp 12 0 9 ∧ (0 ≤ 9 → Crush.clamp 12 0 9 = 9) ∧
  (3 < 5 → Crush.clamp 12 5 3 = 5).
Proof.
  destruct (clamp_range 12 0 9) as (Hsame & Hin & _).
  destruct (clamp_range 12 5 3) as (_ & _ & Hout).
  split; [done|]. split; [|done].
  intros Hab. destruct (Hin Hab) as (_ & _ & _ & Hhi & _). apply Hhi. lia.
Defined.

(** Python indexing within and outside the range of a list. *)
Lemma py_index_wrap (len : nat) (i : Z) :
  - Z.of_nat len ≤ i < Z.of_nat len →
  py_index len i = Some (Z.to_nat (i mod Z.of_nat len)).
Proof.
  intros Hi. unfold py_index. case_decide as Hpos.
  - by rewrite Z.mod_small.
  - rewrite decide_True by lia. do 2 f_equal.
    rewrite <- (Z.mod_add i 1) by lia. rewrite Z.mod_small; lia.
Qed.

Lemma py_index_out (len : nat) (i : Z) :
  ¬ (- Z.of_nat len ≤ i < Z.of_nat len) → py_index len i = None.
Proof.
  intros Hi. unfold py_index. rewrite decide_False by lia.
  by rewrite decide_False by lia.
Qed.

Lemma wrap_lt (len : nat) (i : Z) :
  - Z.of_nat len ≤ i < Z.of_nat len →
  (Z.to_nat (i mod Z.of_nat len) < len)%nat.
Proof. intros Hi. pose proof (Z.mod_pos_bound i (Z.of_nat len)). lia. Qed.

Lemma getitem2_py {A : Type} (g : list (list A)) (nr nc : nat) (r c : Z) :
  shape g nr nc →
  - Z.of_nat nr ≤ r < Z.of_nat nr → - Z.of_nat nc ≤ c < Z.of_nat nc →
  ∃ x, cell_at g (Z.to_nat (r mod Z.of_nat nr)) (Z.to_nat (c mod Z.of_nat nc))
         = Some x ∧
       getitem2 g r c = Ok x.
Proof.
  intros Hshape Hr Hc.
  destruct (shape_cell_at g nr nc (Z.to_nat (r mod Z.of_nat nr))
              (Z.to_nat (c mod Z.of_nat nc)) Hshape) as [x Hx];
    [by apply wrap_lt..|].
  exists x. split; [done|].
  destruct Hshape as [Hlen Hrows]. unfold cell_at in Hx.
  destruct (g !! Z.to_nat (r mod Z.of_nat nr)) as [row|] eqn:Hrow; [|done].
  simpl in Hx. rewrite Forall_lookup in Hrows.
  unfold getitem2, getitem. rewrite Hlen, (py_index_wrap nr r Hr), Hrow.
  cbn [mbind result_bind]. rewrite (Hrows _ _ Hrow), (py_index_wrap nc c Hc).
  by rewrite Hx.
Qed.

Lemma getitem2_out {A : Type} (g : list (list A)) (nr nc : nat) (r c : Z) :
  shape g nr nc →
  ¬ (- Z.of_nat nr ≤ r < Z.of_nat nr ∧ - Z.of_nat nc ≤ c < Z.of_nat nc) →
  getitem2 g r c = Raise IndexError.
Proof.
  intros [Hlen Hrows] Hout. unfold getitem2, getitem. rewrite Hlen.
  destruct (decide (- Z.of_nat nr ≤ r < Z.of_nat nr)) as [Hr|Hr].
  - rewrite (py_index_wrap nr r Hr).
    destruct (g !! Z.to_nat (r mod Z.of_nat nr)) as [row|] eqn:Hrow; [|done].
    cbn [mbind result_bind]. rewrite Forall_lookup in Hrows.
    rewrite (Hrows _ _ Hrow). by rewrite py_index_out by lia.
  - by rewrite py_index_out.
Qed.

Lemma setitem2_py {A : Type} (g : list (list A)) (nr nc : nat) (r c : Z) (x : A) :
  shape g nr nc →
  - Z.of_nat nr ≤ r < Z.of_nat nr → - Z.of_nat nc ≤ c < Z.of_nat nc →
  setitem2 g r c x =
    Ok (grid_set g (Z.to_nat (r mod Z.of_nat nr)) (Z.to_nat (c mod Z.of_nat nc)) x).
Proof.
  intros Hshape Hr Hc.
  destruct (shape_cell_at g nr nc (Z.to_nat (r mod Z.of_nat nr))
              (Z.to_nat (c mod Z.of_nat nc)) Hshape) as [y Hy];
    [by apply wrap_lt..|].
  rewrite <- (setitem2_nat g _ _ x) by (by eexists).
  destruct Hshape as [Hlen Hrows]. unfold cell_at in Hy.
  destruct (g !! Z.to_nat (r mod Z.of_nat nr)) as [row|] eqn:Hrow; [|done].
  rewrite Forall_lookup in Hrows.
  unfold setitem2, getitem, setitem.
  rewrite Hlen, (py_index_wrap nr r Hr), Hrow.
  rewrite py_index_nat by (by apply wrap_lt). rewrite Hrow.
  cbn [mbind result_bind]. rewrite (Hrows _ _ Hrow), (py_index_wrap nc c Hc).
  rewrite py_index_nat by (by apply wrap_lt). cbn [mbind result_bind].
  done.
Qed.

(** X25. [Board.swap] does not check its indices the way [Board.get] does.  On
    a well-formed board, indices from [-rows] to [rows - 1] and from
    [-cols] to [cols - 1] are accepted, the negative ones counting from the
    end, so that the swap is that of the cells they wrap to, while
    [Board.get] answers [None] at a negative index; with any index outside
    these ranges the swap raises IndexError. *)
Theorem swap_unguarded (b : Board) (r1 c1 r2 c2 : Z) :
  wf b →
  let R := Z.of_nat (rows b) in
  let C := Z.of_nat (cols b) in
  ((- R ≤ r1 < R ∧ - C ≤ c1 < C) ∧ (- R ≤ r2 < R ∧ - C ≤ c2 < C) →
     (∃ b1, swap b r1 c1 r2 c2 = Ok b1) ∧
     swap b r1 c1 r2 c2 = swap b (r1 mod R) (c1 mod C) (r2 mod R) (c2 mod C)) ∧
  (¬ ((- R ≤ r1 < R ∧ - C ≤ c1 < C) ∧ (- R ≤ r2 < R ∧ - C ≤ c2 < C)) →
     swap b r1 c1 r2 c2 = Raise IndexError) ∧
  (r1 < 0 ∨ c1 < 0 → get b r1 c1 = Ok None).
Proof.
  intros Hwf R C. split; [|split].
  - intros [[Hr1 Hc1] [Hr2 Hc2]].
    destruct (getitem2_py _ _ _ r1 c1 Hwf Hr1 Hc1) as (x1 & Hx1 & Hg1).
    destruct (getitem2_py _ _ _ r2 c2 Hwf Hr2 Hc2) as (x2 & Hx2 & Hg2).
    assert (swap b r1 c1 r2 c2 =
            Ok (set_grid b (grid_set (grid_set (grid b)
                  (Z.to_nat (r1 mod R)) (Z.to_nat (c1 mod C)) x2)
                  (Z.to_nat (r2 mod R)) (Z.to_nat (c2 mod C)) x1))) as Hswap.
    { unfold swap. rewrite Hg2, Hg1. cbn [mbind result_bind].
      rewrite (setitem2_py _ _ _ r1 c1 x2 Hwf Hr1 Hc1). cbn [mbind result_bind].
      rewrite (setitem2_py _ (rows b) (cols b) r2 c2 x1);
        [done|by apply shape_grid_set|done|done]. }
    split; [by eexists|]. rewrite Hswap.
    pose proof (Z.mod_pos_bound r1 R). pose proof (Z.mod_pos_bound c1 C).
    pose proof (Z.mod_pos_bound r2 R). pose proof (Z.mod_pos_bound c2 C).
    rewrite <- (Z2Nat.id (r1 mod R)), <- (Z2Nat.id (c1 mod C)),
      <- (Z2Nat.id (r2 mod R)), <- (Z2Nat.id (c2 mod C)) by lia.
    rewrite !Nat2Z.id. symmetry. by apply swap_spec.
  - intros Hout. unfold swap.
    destruct (decide (- R ≤ r2 < R ∧ - C ≤ c2 < C)) as [[Hr2 Hc2]|Hout2].
    + destruct (getitem2_py _ _ _ r2 c2 Hwf Hr2 Hc2) as (x2 & _ & ->).
      cbn [mbind result_bind].
      rewrite (getitem2_out _ _ _ r1 c1 Hwf); [done|].
      intros Hin1. apply Hout. done.
    + by rewrite (getitem2_out _ _ _ r2 c2 Hwf).
  - intros Hneg. apply get_out_of_bounds. unfold on_grid. simpl. lia.
Qed.

Lemma swap_unguarded_witness :
  wf crossing ∧
  swap crossing (-1) (-4) 0 3 = swap crossing 2 0 0 3 ∧
  (∃ b1, swap crossing (-1) (-4) 0 3 = Ok b1) ∧
  swap crossing 3 0 0 3 = Raise IndexError ∧
  get crossing (-1) (-4) = Ok None.
Proof.
  assert (wf crossing) as Hwf by concrete_shape.
  split; [done|].
  destruct (swap_unguarded crossing (-1) (-4) 0 3 Hwf) as (Hin & _ & Hget).
  destruct (swap_unguarded crossing 3 0 0 3 Hwf) as (_ & Hout & _).
  destruct Hin as [Hok Hwrap]; [simpl; lia|].
  split; [exact Hwrap|]. split; [exact Hok|]. split.
  - apply Hout. simpl. lia.
  - apply Hget. lia.
Defined.

End CrushEdges.
